(** * replace_autocast_with_hop_pass: a shallow embedding

    Source: torch/_export/passes/replace_autocast_with_hop_pass.py

    The pass works on torch.fx graph modules.  A graph is an ordered list of
    nodes; a node is a Python object, so two nodes are the same node exactly
    when they are the same object.  Object identity is kept as a number
    ([nid]); argument references between nodes are by identity, the way a
    Python argument tuple holds the node objects themselves. *)

From stdpp Require Import base list gmap strings pretty.

Set Warnings "-register-all".
Open Scope string_scope.
Open Scope list_scope.
Open Scope nat_scope.

(** ** The host IR (torch.fx) as far as the pass reads and writes it *)

Inductive opcode :=
  | placeholder | call_function | call_module | get_attr | output.

(** What a node's [target] can be.  The two marker functions, the region
    operator and [operator.getitem] are compared by the pass; every other
    callable is [fn]; [call_module], [get_attr], [placeholder] and [output]
    nodes carry a qualified name. *)
Inductive Target :=
  | _enter_autocast
  | _exit_autocast
  | wrap_with_autocast
  | getitem
  | fn (f : string)
  | attr (qualname : string).

(** An element of [node.args]. *)
Inductive Arg :=
  | ANode (n : nat)
  | ANone
  | AInt (z : Z)
  | AStr (s : string)
  | ATuple (l : list Arg)
  | AList (l : list Arg).

(** A value stored in [node.meta]. *)
Inductive MetaVal :=
  | MOpaque (s : string)
  | MTuple (l : list MetaVal)
  | MDict (l : list (string * string)).

Record Node := mkNode {
  nid : nat;
  name : string;
  op : opcode;
  target : Target;
  args : list Arg;
  meta : gmap string MetaVal
}.

Global Instance opcode_eq_dec : EqDecision opcode.
Proof. solve_decision. Defined.
Global Instance Target_eq_dec : EqDecision Target.
Proof. solve_decision. Defined.

(** A graph module: the node list of its graph and its attributes.  An
    attribute is a child graph module or anything else (a parameter, a
    buffer). *)
Inductive GraphModule :=
  | mkGM (nodes : list Node) (attrs : list (string * Attr))
with Attr :=
  | AModule (g : GraphModule)
  | AParam.

Definition nodes (gm : GraphModule) : list Node :=
  match gm with mkGM ns _ => ns end.
Definition attrs (gm : GraphModule) : list (string * Attr) :=
  match gm with mkGM _ a => a end.

(** Python exceptions the pass can end in. *)
Inductive exn :=
  | AssertionError
  | RecursionError
  | NotImplementedError (type_name : string)
  | RuntimeError
  | IndexError
  | KeyError
  | AttributeError
  | TypeError
  | StopIteration.

Inductive result (A : Type) :=
  | OK (a : A)
  | Raise (e : exn).
Arguments OK {A} a.
Arguments Raise {A} e.

Global Instance result_ret : MRet result := λ A a, OK a.
Global Instance result_bind : MBind result := λ A B k r,
  match r with OK a => k a | Raise e => Raise e end.

Definition assert (b : bool) : result unit :=
  if b then OK () else Raise AssertionError.

(** ** Marker classifier (lines 20-45) *)

Definition _is_autocast_node (node : Node) : bool :=
  bool_decide (op node = call_function)
  && (bool_decide (target node = _enter_autocast)
      || bool_decide (target node = _exit_autocast)).

Definition _is_enter_autocast_node (node : Node) : bool :=
  bool_decide (op node = call_function)
  && bool_decide (target node = _enter_autocast).

Definition _is_exit_autocast_node (node : Node) : bool :=
  bool_decide (op node = call_function)
  && bool_decide (target node = _exit_autocast).

(** [arg == node] for a node object [node]: identity. *)
Definition arg_is_node (a : Arg) (node : Node) : bool :=
  match a with ANode i => bool_decide (i = nid node) | _ => false end.

(** [node.args[0]] *)
Definition args0 (node : Node) : result Arg :=
  match args node with a :: _ => OK a | [] => Raise IndexError end.

(** ** Region boundary tracker (lines 163-184)

    The two [nonlocal] variables of [_split_autocast] are the state the
    callback reads and writes. *)

Record cb_state := mkCb {
  enter_autocast_node_stack : list Node;
  first_node_after_outer_most_exit : bool
}.

Definition cb_init : cb_state := mkCb [] false.

Definition is_empty {A} (l : list A) : bool :=
  match l with [] => true | _ => false end.

(** [list.pop()]: removes and returns the last element. *)
Definition pop {A} (l : list A) : option (A * list A) :=
  match last l with Some x => Some (x, removelast l) | None => None end.

Definition node_call_back (st : cb_state) (node : Node)
  : result (bool * cb_state) :=
  if first_node_after_outer_most_exit st
     || (is_empty (enter_autocast_node_stack st)
         && _is_enter_autocast_node node)
  then
    assert (is_empty (enter_autocast_node_stack st));;
    let stack :=
      if _is_enter_autocast_node node
      then enter_autocast_node_stack st ++ [node]
      else enter_autocast_node_stack st in
    OK (true, mkCb stack false)
  else if _is_exit_autocast_node node then
    assert (negb (is_empty (enter_autocast_node_stack st)));;
    match pop (enter_autocast_node_stack st) with
    | None => Raise IndexError
    | Some (last_enter_autocast_node, stack) =>
        a ← args0 node;
        assert (arg_is_node a last_enter_autocast_node);;
        OK (false,
            mkCb stack
              (if is_empty stack then true
               else first_node_after_outer_most_exit st))
    end
  else OK (false, st).

(** The splitter calls the callback once per node, in graph order
    (spec §6: "on program-order traversal"); an exception ends the
    traversal. *)
Fixpoint traverse {St} (call_back : St → Node → result (bool * St))
    (st : St) (l : list Node) : result (list bool * St) :=
  match l with
  | [] => OK ([], st)
  | node :: l' =>
      '(b, st1) ← call_back st node;
      '(bs, st2) ← traverse call_back st1 l';
      OK (b :: bs, st2)
  end.

Definition run_call_back (l : list Node) : result (list bool * cb_state) :=
  traverse node_call_back cb_init l.

(** ** Graph bookkeeping of the host IR

    torch.fx keeps, for every node, the set of nodes that use it.  Here the
    users are read off the argument lists. *)

Fixpoint arg_nodes (a : Arg) : list nat :=
  match a with
  | ANode n => [n]
  | ATuple l | AList l => concat (List.map arg_nodes l)
  | _ => []
  end.

Definition node_refs (node : Node) : list nat :=
  concat (List.map arg_nodes (args node)).

Fixpoint arg_map (f : nat → nat) (a : Arg) : Arg :=
  match a with
  | ANode n => ANode (f n)
  | ATuple l => ATuple (List.map (arg_map f) l)
  | AList l => AList (List.map (arg_map f) l)
  | _ => a
  end.

Definition mem (i : nat) (l : list nat) : bool := existsb (Nat.eqb i) l.

Definition uses (i : nat) (u : Node) : bool := mem i (node_refs u).

(** [node.users], in graph order. *)
Definition users (g : list Node) (i : nat) : list Node :=
  List.filter (uses i) g.

Definition lookup_node (g : list Node) (i : nat) : option Node :=
  List.find (λ n, Nat.eqb (nid n) i) g.

Definition remove_node (g : list Node) (i : nat) : list Node :=
  List.filter (λ n, negb (Nat.eqb (nid n) i)) g.

Definition subst1 (old new : nat) : nat → nat :=
  λ i, if Nat.eqb i old then new else i.

Definition set_args (n : Node) (a : list Arg) : Node :=
  mkNode (nid n) (name n) (op n) (target n) a (meta n).
Definition set_name (n : Node) (s : string) : Node :=
  mkNode (nid n) s (op n) (target n) (args n) (meta n).
Definition set_meta (n : Node) (m : gmap string MetaVal) : Node :=
  mkNode (nid n) (name n) (op n) (target n) (args n) m.

Definition map_node_args (f : nat → nat) (n : Node) : Node :=
  set_args n (List.map (arg_map f) (args n)).

(** The argument rewriting of [Node.replace_all_uses_with]. *)
Definition replace_uses (g : list Node) (old new : nat) : list Node :=
  List.map (map_node_args (subst1 old new)) g.

(** An identity no node of the graph has: a newly created object. *)
Definition fresh_nid (g : list Node) : nat :=
  S (foldr Nat.max 0 (List.map nid g)).

(** [with graph.inserting_before(anchor)]: new nodes go right before the
    anchor. *)
Fixpoint insert_before (g : list Node) (anchor : nat) (new : list Node)
  : list Node :=
  match g with
  | [] => new
  | n :: g' =>
      if Nat.eqb (nid n) anchor then new ++ n :: g'
      else n :: insert_before g' anchor new
  end.

Definition update_node (g : list Node) (i : nat) (f : Node → Node)
  : list Node :=
  List.map (λ n, if Nat.eqb (nid n) i then f n else n) g.

(** [getattr(gm, name)] and [setattr(gm, name, value)] *)
Fixpoint getattr (a : list (string * Attr)) (s : string) : option Attr :=
  match a with
  | [] => None
  | (k, v) :: a' => if String.eqb k s then Some v else getattr a' s
  end.

Fixpoint setattr (a : list (string * Attr)) (s : string) (v : Attr)
  : list (string * Attr) :=
  match a with
  | [] => [(s, v)]
  | (k, w) :: a' =>
      if String.eqb k s then (k, v) :: a' else (k, w) :: setattr a' s v
  end.

(** [getattr(gm, node.target)] where a graph module is expected. *)
Definition get_submodule (gm : GraphModule) (t : Target)
  : result (string * GraphModule) :=
  match t with
  | attr s =>
      match getattr (attrs gm) s with
      | Some (AModule sub) => OK (s, sub)
      | _ => Raise AttributeError
      end
  | _ => Raise AssertionError
  end.

(** [type(x)] as the f-string of line 145 prints it. *)
Definition type_name (a : Arg) : string :=
  match a with
  | ANode _ => "<class 'torch.fx.node.Node'>"
  | ANone => "<class 'NoneType'>"
  | AInt _ => "<class 'int'>"
  | AStr _ => "<class 'str'>"
  | ATuple _ => "<class 'tuple'>"
  | AList _ => "<class 'list'>"
  end.

(** Python's [seq[idx]] for an integer index. *)
Definition py_index {A} (l : list A) (z : Z) : result A :=
  let i := if (z <? 0)%Z then (Z.of_nat (length l) + z)%Z else z in
  if (i <? 0)%Z then Raise IndexError
  else match l !! Z.to_nat i with
       | Some x => OK x
       | None => Raise IndexError
       end.

(** A reference held in an argument list is the node itself; in the model
    it is looked up.  A reference to a node that is not in the graph has no
    Python counterpart and ends the run. *)
Definition resolve (g : list Node) (a : Arg) : result Node :=
  match a with
  | ANode i =>
      match lookup_node g i with
      | Some n => OK n
      | None => Raise RuntimeError
      end
  | _ => Raise AttributeError
  end.

Fixpoint mapR {A B} (f : A → result B) (l : list A) : result (list B) :=
  match l with
  | [] => OK []
  | x :: l' => y ← f x; ys ← mapR f l'; OK (y :: ys)
  end.

(** ** The export signature, on a heap

    The signature is a Python object that holds a list of output
    specifications, each an object with an [arg] field holding an argument
    object.  [copy.deepcopy] and the attribute assignments of the pass act
    on these objects, so they live at addresses. *)

Inductive Const := CNone | CInt (z : Z) | CStr (s : string).

Inductive Argument :=
  | TensorArgument (name : string)
  | ConstantArgument (name : string) (value : Const).

Definition arg_name (a : Argument) : string :=
  match a with TensorArgument s | ConstantArgument s _ => s end.

Definition set_arg_name (a : Argument) (s : string) : Argument :=
  match a with
  | TensorArgument _ => TensorArgument s
  | ConstantArgument _ v => ConstantArgument s v
  end.

Inductive obj :=
  | OSignature (output_specs : list nat)
  | OOutputSpec (kind : string) (arg : nat)
  | OArgument (a : Argument).

(** The heap: an object's address is its position; objects are never
    freed. *)
Abbreviation heap := (list obj).

(** State and exceptions: a computation runs on a heap and either returns
    or raises; the heap it leaves is kept in both cases. *)
Definition M (A : Type) : Type := heap → heap * result A.

Global Instance M_ret : MRet M := λ A a h, (h, OK a).
Global Instance M_bind : MBind M := λ A B k c h,
  match c h with
  | (h', OK a) => k a h'
  | (h', Raise e) => (h', Raise e)
  end.
Definition raise {A} (e : exn) : M A := λ h, (h, Raise e).
Definition lift {A} (r : result A) : M A := λ h, (h, r).

Fixpoint mapM_ {A} (f : A → M unit) (l : list A) : M unit :=
  match l with
  | [] => mret ()
  | x :: l' => f x;; mapM_ f l'
  end.

Fixpoint foldM {A S} (f : S → A → M S) (s : S) (l : list A) : M S :=
  match l with
  | [] => mret s
  | x :: l' => s' ← f s x; foldM f s' l'
  end.

(** The replace hook a graph module may carry: called with the replaced
    node, the new name and the user. *)
Definition hook_t := Node → string → Node → M unit.

Definition no_hook : hook_t := λ _ _ _, mret ().

(** ** Mutation primitives of the host IR and of [..utils]

    Modelled from the spec: [Graph.erase_node], [Node._rename],
    [node_replace_], [nodes_filter], [nodes_first] and [nodes_map] are not
    part of the pass's file.  §6 lists what the pass consumes: node
    creation before a point, node deletion, renaming, replacement of all
    uses; §3 has the named-output specification "track renames".  Deletion
    of a node that still has users is refused (§4.4-6, no dangling
    references). *)

Definition erase_node (g : list Node) (node : Node) : result (list Node) :=
  if is_empty (users g (nid node)) then OK (remove_node g (nid node))
  else Raise RuntimeError.

Definition node_replace_ (hook : hook_t) (g : list Node)
    (old_node new_node : Node) (delete_old : bool) : M (list Node) :=
  mapM_ (hook old_node (name new_node)) (users g (nid old_node));;
  let g' := replace_uses g (nid old_node) (nid new_node) in
  mret (if delete_old then remove_node g' (nid old_node) else g').

Definition _rename (hook : hook_t) (g : list Node) (node : Node)
    (candidate : string) : M (list Node) :=
  mapM_ (hook node candidate) (users g (nid node));;
  mret (update_node g (nid node) (λ n, set_name n candidate)).

Definition nodes_filter (l : list Node) (f : Node → bool) : list Node :=
  List.filter f l.

Definition nodes_first (l : list Node) (f : Node → bool) : option Node :=
  List.find f l.

(** ** Outlined-scope-body test (lines 48-66) *)

Definition _is_autocast_sub_mod (gm : GraphModule) (node : Node)
  : result bool :=
  if bool_decide (op node = call_module) then
    '(_, subgm) ← get_submodule gm (target node);
    match nodes_first (nodes subgm)
            (λ node, negb (bool_decide (op node = placeholder))) with
    | Some first_non_ph =>
        OK (bool_decide (op first_non_ph = call_function)
            && bool_decide (target first_non_ph = _enter_autocast))
    | None => OK false
    end
  else OK false.

(** ** Block check (lines 69-72) *)

Definition _check_valid_autocast_block
    (enter_autocast_node exit_autocast_node : Node) : result unit :=
  assert (_is_enter_autocast_node enter_autocast_node);;
  assert (_is_exit_autocast_node exit_autocast_node);;
  a ← args0 exit_autocast_node;
  assert (arg_is_node a enter_autocast_node).

(** ** Region outliner / replacer (lines 75-151) *)

Definition nn_module_stack_of (n : Node) : MetaVal :=
  default (MDict []) (meta n !! "nn_module_stack").

Definition torch_fn_meta : MetaVal :=
  MTuple [MOpaque "wrap_with_autocast";
          MOpaque "WrapWithAutocast.wrap_with_autocast"].

(** [arg.meta["val"]] for a member of the output tuple *)
Definition meta_val (sub_graph : list Node) (a : Arg) : result MetaVal :=
  n ← resolve sub_graph a;
  match meta n !! "val" with
  | Some v => OK v
  | None => Raise KeyError
  end.

(** [output_args[get_item_node.args[1]]] (lines 127-128): the member of
    the output tuple a per-index extraction stands for. *)
Definition member_of (g : list Node) (output_args : list Arg)
    (get_item_node : Node) : result Node :=
  idx ← match args get_item_node with
        | _ :: i :: _ => OK i
        | _ => Raise IndexError
        end;
  member ← match idx with
           | AInt z => py_index output_args z
           | _ => Raise TypeError
           end;
  resolve g member.

(** One turn of the loop of lines 126-131. *)
Definition rename_get_item (hook : hook_t) (sub_graph : list Node)
    (output_args : list Arg) (g : list Node) (get_item_node : Node)
  : M (list Node) :=
  output_node ← lift (member_of sub_graph output_args get_item_node);
  g1 ← _rename hook g get_item_node (name output_node);
  mret (update_node g1 (nid get_item_node)
          (λ n, set_meta n (meta output_node))).

(** [graph.get_attr(node.target)] with the Enter's module stack (lines
    90-93). *)
Definition new_get_attr (i : nat) (tname : string)
    (enter_autocast_node : Node) : Node :=
  mkNode i tname get_attr (attr tname) []
    {[ "nn_module_stack" := nn_module_stack_of enter_autocast_node ]}.

(** [enter_autocast_node.args], the subgraph reference and the arguments of
    the invocation: the arguments of the region operation. *)
Definition hop_args (enter_autocast_node get_attr_node node : Node)
  : list Arg :=
  ATuple (args enter_autocast_node)
    :: ANode (nid get_attr_node) :: args node.

(** The region operation for a tuple or list output (lines 106-121). *)
Definition tuple_hop (i : nat) (enter_autocast_node get_attr_node node : Node)
    (vals : list MetaVal) : Node :=
  mkNode i "wrap_with_autocast" call_function wrap_with_autocast
    (hop_args enter_autocast_node get_attr_node node)
    (<[ "torch_fn" := torch_fn_meta ]>
     (<[ "nn_module_stack" := nn_module_stack_of enter_autocast_node ]>
      {[ "val" := MTuple vals ]})).

(** The region operation for a single-value output (lines 134-141). *)
Definition single_hop (i : nat) (enter_autocast_node get_attr_node node : Node)
    (out : Node) : Node :=
  mkNode i (name out) call_function wrap_with_autocast
    (hop_args enter_autocast_node get_attr_node node) (meta out).

(** [next(iter(reversed(sub_gm.graph.nodes)), None)], set to [None] when it
    is not an output node (lines 94-100). *)
Definition find_output_node (sub_graph : list Node) : option Node :=
  match last sub_graph with
  | Some n => if bool_decide (op n = output) then Some n else None
  | None => None
  end.

(** Lines 101-149: the invocation is replaced by the region operation, or
    erased when the child has no output node.  [graph] already holds
    [get_attr_node]. *)
Definition replace_call (hook : hook_t) (graph sub_graph : list Node)
    (node enter_autocast_node get_attr_node : Node) : M (list Node) :=
  match find_output_node sub_graph with
  | Some output_node =>
      lift (assert (bool_decide (length (args output_node) = 1)));;
      output_args ← lift (args0 output_node);
      match output_args with
      | ATuple members | AList members =>
          vals ← lift (mapR (meta_val sub_graph) members);
          let call_func_node :=
            tuple_hop (fresh_nid graph)
              enter_autocast_node get_attr_node node vals in
          let graph := insert_before graph (nid node) [call_func_node] in
          graph ← node_replace_ hook graph node call_func_node true;
          foldM (rename_get_item hook sub_graph members) graph
            (users graph (nid call_func_node))
      | ANode _ =>
          out ← lift (resolve sub_graph output_args);
          let call_func_node :=
            single_hop (fresh_nid graph)
              enter_autocast_node get_attr_node node out in
          let graph := insert_before graph (nid node) [call_func_node] in
          node_replace_ hook graph node call_func_node true
      | _ => raise (NotImplementedError (type_name output_args))
      end
  | None => lift (erase_node graph node)
  end.

Definition _replace_with_hop (hook : hook_t) (gm : GraphModule)
    (node : Node) : M GraphModule :=
  lift (assert (bool_decide (op node = call_module)));;
  let graph := nodes gm in
  '(tname, sub_gm) ← lift (get_submodule gm (target node));
  let sub_graph := nodes sub_gm in
  let autocast_nodes := nodes_filter sub_graph _is_autocast_node in
  match autocast_nodes, last autocast_nodes with
  | enter_autocast_node :: _, Some exit_autocast_node =>
      lift (assert (bool_decide (1 < length autocast_nodes)));;
      lift (_check_valid_autocast_block
              enter_autocast_node exit_autocast_node);;
      let get_attr_node :=
        new_get_attr (fresh_nid graph) tname enter_autocast_node in
      let graph := insert_before graph (nid node) [get_attr_node] in
      graph ← replace_call hook graph sub_graph
                node enter_autocast_node get_attr_node;
      sub_graph ← lift (erase_node sub_graph exit_autocast_node);
      sub_graph ← lift (erase_node sub_graph enter_autocast_node);
      mret (mkGM graph
              (setattr (attrs gm) tname
                 (AModule (mkGM sub_graph (attrs sub_gm)))))
  | _, _ => mret gm
  end.

(** ** Signature objects: reading, writing, copying *)

Definition read (l : nat) : M obj := λ h,
  match h !! l with
  | Some o => (h, OK o)
  | None => (h, Raise RuntimeError)
  end.

Definition write (l : nat) (o : obj) : M unit := λ h, (<[l := o]> h, OK ()).

Definition alloc (o : obj) : M nat := λ h, (h ++ [o], OK (length h)).

Definition read_output_specs (sig : nat) : M (list nat) :=
  o ← read sig;
  match o with OSignature specs => mret specs | _ => raise AttributeError end.

(** [out_spec.arg]: the address of the argument object and the object *)
Definition read_spec_arg (out_spec : nat) : M (nat * Argument) :=
  o ← read out_spec;
  match o with
  | OOutputSpec _ a =>
      ao ← read a;
      match ao with
      | OArgument x => mret (a, x)
      | _ => raise AttributeError
      end
  | _ => raise AttributeError
  end.

(** [copy.deepcopy]: every object reachable from the signature is copied to
    a new address; the memo keeps an object that is reached twice shared in
    the copy. *)
Definition memo_find (memo : list (nat * nat)) (l : nat) : option nat :=
  snd <$> List.find (λ p, Nat.eqb (fst p) l) memo.

Definition deepcopy_argument (memo : list (nat * nat)) (l : nat)
  : M (nat * list (nat * nat)) :=
  match memo_find memo l with
  | Some l' => mret (l', memo)
  | None =>
      o ← read l;
      match o with
      | OArgument a => l' ← alloc (OArgument a); mret (l', (l, l') :: memo)
      | _ => raise TypeError
      end
  end.

Definition deepcopy_spec (memo : list (nat * nat)) (l : nat)
  : M (nat * list (nat * nat)) :=
  match memo_find memo l with
  | Some l' => mret (l', memo)
  | None =>
      o ← read l;
      match o with
      | OOutputSpec k a =>
          '(a', memo) ← deepcopy_argument memo a;
          l' ← alloc (OOutputSpec k a');
          mret (l', (l, l') :: memo)
      | _ => raise TypeError
      end
  end.

Fixpoint deepcopy_specs (memo : list (nat * nat)) (ls : list nat)
  : M (list nat * list (nat * nat)) :=
  match ls with
  | [] => mret ([], memo)
  | l :: ls' =>
      '(l', memo) ← deepcopy_spec memo l;
      '(ls'', memo) ← deepcopy_specs memo ls';
      mret (l' :: ls'', memo)
  end.

Definition deepcopy (sig : nat) : M nat :=
  o ← read sig;
  match o with
  | OSignature specs =>
      '(specs', _) ← deepcopy_specs [] specs;
      alloc (OSignature specs')
  | _ => raise TypeError
  end.

(** ** Signature / output reconciliation (lines 213-223) *)

Definition is_const_none (a : Argument) : result bool :=
  match a with
  | ConstantArgument _ CNone => OK true
  | ConstantArgument _ _ => OK false
  | TensorArgument _ => Raise AttributeError
  end.

(** The body of the [for] loop of lines 217-223. *)
Definition reconcile_one (g : list Node) (p : Arg * nat) : M unit :=
  let '(arg_node, out_spec) := p in
  match arg_node with
  | ANone =>
      '(_, x) ← read_spec_arg out_spec;
      b ← lift (is_const_none x);
      lift (assert b)
  | _ =>
      '(a, x) ← read_spec_arg out_spec;
      n ← lift (resolve g arg_node);
      if negb (String.eqb (arg_name x) (name n))
      then write a (OArgument (set_arg_name x (name n)))
      else mret ()
  end.

(** [len(x)] and iteration over [x] for the output node's argument *)
Definition as_sequence (a : Arg) : result (list Arg) :=
  match a with
  | ATuple l | AList l => OK l
  | AStr s => OK ((λ c, AStr (String c "")) <$> String.list_ascii_of_string s)
  | _ => Raise TypeError
  end.

Definition reconcile (g : list Node) (new_signature : nat) : M unit :=
  new_gm_out_node ←
    lift (match last (List.filter (λ n, bool_decide (op n = output)) g) with
          | Some n => OK n
          | None => Raise StopIteration
          end);
  a0 ← lift (args0 new_gm_out_node);
  out_args ← lift (as_sequence a0);
  output_specs ← read_output_specs new_signature;
  lift (assert (bool_decide (op new_gm_out_node = output)
                && bool_decide (length out_args = length output_specs)));;
  mapM_ (reconcile_one g) (zip out_args output_specs).

(** Modelled from the spec: [ExportGraphSignature.get_replace_hook] is not
    part of the pass's file.  §3: the named-output specification "must
    track renames".  The hook is bound to the signature it was taken from;
    when a value used by the output instruction is replaced, entries named
    after the old value take the new name. *)
Definition rename_entry (old new : string) (out_spec : nat) : M unit :=
  '(a, x) ← read_spec_arg out_spec;
  match x with
  | TensorArgument s =>
      if String.eqb s old then write a (OArgument (TensorArgument new))
      else mret ()
  | _ => mret ()
  end.

Definition get_replace_hook (sig : nat) : hook_t := λ old new user,
  if bool_decide (op user = output) then
    output_specs ← read_output_specs sig;
    mapM_ (rename_entry (name old) new) output_specs
  else mret ().

(** ** The sequential splitter

    Modelled from the spec: [sequential_split] is not part of the pass's
    file.  §6: the callback is asked once per instruction in program order
    and a new segment starts where it answers true; segments are
    contiguous; each segment becomes a child graph called from the new
    top-level graph by one subgraph-invocation node; a segment whose values
    are not used outside has no output instruction.  §3: the outputs of an
    invocation are unpacked by index into extraction instructions; a
    child's result is a single value, a tuple, or none.  Graph inputs and
    the graph's output instruction stay in the top-level graph. *)

Definition is_body (n : Node) : bool :=
  negb (bool_decide (op n = placeholder) || bool_decide (op n = output)).

(** The segment number of every node: the count of true answers so far. *)
Fixpoint split_ids (cur : nat) (flags : list bool) : list nat :=
  match flags with
  | [] => []
  | b :: flags' =>
      let cur' := if b then S cur else cur in
      cur' :: split_ids cur' flags'
  end.

Definition segment (tagged : list (Node * nat)) (i : nat) : list Node :=
  fst <$> List.filter (λ p, is_body (fst p) && Nat.eqb (snd p) i) tagged.

Definition in_nodes (i : nat) (p : list Node) : bool :=
  mem i (List.map nid p).

(** Values a segment takes from outside, and values it hands out. *)
Definition segment_inputs (orig p : list Node) : list Node :=
  List.filter
    (λ n, negb (in_nodes (nid n) p) && existsb (uses (nid n)) p) orig.

Definition segment_outputs (orig p : list Node) : list Node :=
  List.filter
    (λ n, existsb (λ u, uses (nid n) u && negb (in_nodes (nid u) p)) orig) p.

Definition as_placeholder (n : Node) : Node :=
  mkNode (nid n) (name n) placeholder (attr (name n)) [] (meta n).

Definition output_of (body : list Node) (outs : list Node) : list Node :=
  match outs with
  | [] => []
  | [o] => [mkNode (fresh_nid body) "output" output (attr "output")
              [ANode (nid o)] ∅]
  | _ => [mkNode (fresh_nid body) "output" output (attr "output")
            [ATuple (ANode ∘ nid <$> outs)] ∅]
  end.

Definition child_graph (orig p : list Node) : list Node :=
  let body := (as_placeholder <$> segment_inputs orig p) ++ p in
  body ++ output_of body (segment_outputs orig p).

Definition attrs_used (a : list (string * Attr)) (p : list Node)
  : list (string * Attr) :=
  List.filter
    (λ kv, existsb (λ n, bool_decide (target n = attr (fst kv))) p) a.

Definition env_get (env : list (nat * nat)) (i : nat) : nat :=
  match List.find (λ p, Nat.eqb (fst p) i) env with
  | Some (_, j) => j
  | None => i
  end.

Record split_state := mkSplit {
  next_id : nat;
  env : list (nat * nat);
  base : list Node;
  submods : list (string * Attr)
}.

Definition get_item_node (call : nat) (k : nat) : Node :=
  mkNode (call + 1 + k) ("getitem_" +:+ pretty (call + 1 + k))
    call_function getitem [ANode call; AInt (Z.of_nat k)] ∅.

(** The per-index extractions of an invocation: none for a child that
    returns nothing or a single value. *)
Definition extractions (call : nat) (outs : list Node) : list Node :=
  match outs with
  | [] | [_] => []
  | _ => imap (λ k _, get_item_node call k) outs
  end.

(** Where the top-level graph finds the values a segment hands out: at the
    invocation for a single value, at the extractions for a tuple. *)
Definition outputs_env (call : nat) (outs : list Node) : list (nat * nat) :=
  match outs with
  | [o] => [(nid o, call)]
  | _ => imap (λ k o, (nid o, call + 1 + k)) outs
  end.

Definition add_segment (orig : list Node) (a : list (string * Attr))
    (st : split_state) (ip : nat * list Node) : split_state :=
  let '(i, p) := ip in
  if is_empty p then st else
  let ins := segment_inputs orig p in
  let outs := segment_outputs orig p in
  let sname := "submod_" +:+ pretty i in
  let call :=
    mkNode (next_id st) sname call_module (attr sname)
      ((λ n, ANode (env_get (env st) (nid n))) <$> ins) ∅ in
  let child := mkGM (child_graph orig p) (attrs_used a p) in
  mkSplit (S (next_id st) + length (extractions (next_id st) outs))
    (outputs_env (next_id st) outs ++ env st)
    (base st ++ call :: extractions (next_id st) outs)
    (setattr (submods st) sname (AModule child)).

Definition sequential_split {St} (gm : GraphModule)
    (node_call_back : St → Node → result (bool * St)) (s0 : St)
  : result GraphModule :=
  '(flags, _) ← traverse node_call_back s0 (nodes gm);
  let orig := nodes gm in
  let tagged := zip orig (split_ids 0 flags) in
  let segments :=
    (λ i, (i, segment tagged i)) <$> seq 0 (S (length orig)) in
  let phs := List.filter (λ n, bool_decide (op n = placeholder)) orig in
  let st :=
    fold_left (add_segment orig (attrs gm)) segments
      (mkSplit (fresh_nid orig) [] phs (attrs gm)) in
  let outs := List.filter (λ n, bool_decide (op n = output)) orig in
  OK (mkGM (base st ++ (map_node_args (env_get (env st)) <$> outs))
        (submods st)).

(** ** [_split_autocast] (line 186) *)

Definition _split_autocast (gm : GraphModule) : result GraphModule :=
  sequential_split gm node_call_back cb_init.

(** ** Inlining a segment that is not a scope body

    Modelled from the spec: [node_inline_] is not part of the pass's file.
    §4.3: "its instructions are spliced back into the parent in place of
    the invocation, and the invocation/extraction instructions are
    removed".  The child's inputs stand for the invocation's arguments; the
    users of the invocation (or of its per-index extractions) get the
    child's output values. *)

Definition bind_placeholders (phs : list Node) (call_args : list Arg)
  : result (list (nat * nat)) :=
  mapR (λ p, match snd p with
             | ANode j => OK (nid (fst p), j)
             | _ => Raise AssertionError
             end) (zip phs call_args).

Definition is_get_item (n : Node) : bool :=
  bool_decide (op n = call_function) && bool_decide (target n = getitem).

(** [gm.delete_all_unused_submodules()] *)
Definition delete_all_unused_submodules (g : list Node)
    (a : list (string * Attr)) : list (string * Attr) :=
  List.filter
    (λ kv, match snd kv with
           | AParam => true
           | AModule _ =>
               existsb (λ n, (bool_decide (op n = call_module)
                              || bool_decide (op n = get_attr))
                             && bool_decide (target n = attr (fst kv))) g
           end) a.

Definition inline_get_item (hook : hook_t) (new_output : list Arg)
    (g : list Node) (get_item_node : Node) : M (list Node) :=
  new_node ← lift (member_of g new_output get_item_node);
  node_replace_ hook g get_item_node new_node true.

Definition node_inline_ (hook : hook_t) (gm : GraphModule)
    (call_mod_node : Node) : M GraphModule :=
  lift (assert (bool_decide (op call_mod_node = call_module)));;
  '(_, sub_gm) ← lift (get_submodule gm (target call_mod_node));
  let phs :=
    List.filter (λ n, bool_decide (op n = placeholder)) (nodes sub_gm) in
  let body := List.filter is_body (nodes sub_gm) in
  let output :=
    List.filter (λ n, bool_decide (op n = output)) (nodes sub_gm) in
  binding ← lift (bind_placeholders phs (args call_mod_node));
  let graph :=
    insert_before (nodes gm) (nid call_mod_node)
      (map_node_args (env_get binding) <$> body) in
  graph ←
    match output with
    | [] => lift (erase_node graph call_mod_node)
    | [out] =>
        lift (assert (bool_decide (length (args out) = 1)));;
        a ← lift (args0 out);
        let new_output := arg_map (env_get binding) a in
        match new_output with
        | ANode _ =>
            new_node ← lift (resolve graph new_output);
            node_replace_ hook graph call_mod_node new_node true
        | ATuple members | AList members =>
            let get_item_users :=
              nodes_filter (users graph (nid call_mod_node)) is_get_item in
            graph ← foldM (inline_get_item hook members) graph
                      get_item_users;
            lift (erase_node graph call_mod_node)
        | _ => raise (NotImplementedError (type_name new_output))
        end
    | _ => raise AssertionError
    end;
  mret (mkGM graph (delete_all_unused_submodules graph (attrs gm))).

(** ** The split-and-replace step (lines 189-246) *)

Definition _maybe_inline_or_replace_with_hop (hook : hook_t)
    (gm : GraphModule) (node : Node) : M GraphModule :=
  lift (_is_autocast_sub_mod gm node) ≫= λ b : bool,
  if b then _replace_with_hop hook gm node
  else
    lift (assert (bool_decide (op node = call_module)));;
    lift (assert (match target node with attr _ => true | _ => false end));;
    node_inline_ hook gm node.

(** [nodes_map] over the snapshot [list(new_gm.graph.nodes)]: the list is
    fixed before the first mutation, each node is the live object. *)
Definition visit (hook : hook_t) (gm : GraphModule) (snapshot : Node)
  : M GraphModule :=
  if bool_decide (op snapshot = call_module) then
    match lookup_node (nodes gm) (nid snapshot) with
    | Some node => _maybe_inline_or_replace_with_hop hook gm node
    | None => raise RuntimeError
    end
  else mret gm.

Definition _sequential_split_and_maybe_inline_subgraphs
    (gm : GraphModule) (graph_signature : option nat)
  : M (GraphModule * option nat) :=
  let need_replacing := existsb _is_autocast_node (nodes gm) in
  if negb need_replacing then mret (gm, graph_signature)
  else
    new_gm ← lift (_split_autocast gm);
    '(new_signature, hook) ←
      match graph_signature with
      | Some sig =>
          new_signature ← deepcopy sig;
          reconcile (nodes new_gm) new_signature;;
          mret (Some new_signature, get_replace_hook new_signature)
      | None => mret (None, no_hook)
      end;
    new_gm ← foldM (visit hook) new_gm (nodes new_gm);
    mret (new_gm, new_signature).

(** ** The driver (lines 250-265)

    [depth] is the interpreter's remaining recursion depth. *)

(** Modelled from the spec: [Graph.lint] is not part of the pass's file.
    §4.4-6: "no dangling references, argument-before-use ordering". *)
Fixpoint lint_from (seen : list nat) (g : list Node) : bool :=
  match g with
  | [] => true
  | n :: g' =>
      forallb (λ i, mem i seen) (node_refs n) && lint_from (nid n :: seen) g'
  end.

Definition lint (g : list Node) : result unit :=
  if lint_from [] g then OK () else Raise RuntimeError.

(** The body of the loop of lines 255-261; [recurse] is the recursive call
    of line 260. *)
Definition descend (recurse : GraphModule → M (GraphModule * option nat))
    (new_gm : GraphModule) (node : Node) : M GraphModule :=
  if bool_decide (op node = get_attr) then
    match target node with
    | attr t =>
        match getattr (attrs new_gm) t with
        | Some (AModule subgm) =>
            '(new_subgm, _) ← recurse subgm;
            mret (mkGM (nodes new_gm)
                    (setattr (attrs new_gm) t (AModule new_subgm)))
        | Some AParam => mret new_gm
        | None => raise AttributeError
        end
    | _ => raise AttributeError
    end
  else mret new_gm.

Fixpoint replace_autocast_with_hop_pass (depth : nat) (gm : GraphModule)
    (graph_signature : option nat) : M (GraphModule * option nat) :=
  match depth with
  | 0 => raise RecursionError
  | S depth =>
      '(new_gm, new_signature) ←
        _sequential_split_and_maybe_inline_subgraphs gm graph_signature;
      new_gm ←
        foldM (descend (λ subgm,
                          replace_autocast_with_hop_pass depth subgm None))
          new_gm (nodes new_gm);
      lift (lint (nodes new_gm));;
      mret (new_gm, new_signature)
  end.

(** * Specification-side notions *)

(** The stack discipline in the spec's words (§3): "every Exit's referenced
    Enter must be the most-recently-opened still-unclosed Enter".  [scan]
    walks a node sequence with the stack of open Enters and stops at the
    first Exit that breaks the discipline. *)
Fixpoint scan (open : list nat) (l : list Node) : option (list nat) :=
  match l with
  | [] => Some open
  | n :: l' =>
      if _is_enter_autocast_node n then scan (nid n :: open) l'
      else if _is_exit_autocast_node n then
        match open, args n with
        | top :: rest, ANode i :: _ =>
            if Nat.eqb i top then scan rest l' else None
        | _, _ => None
        end
      else scan open l'
  end.

(** Well nested: no Exit breaks the discipline and every Enter is closed. *)
Definition well_nested (l : list Node) : Prop := scan [] l = Some [].


Definition is_hop (n : Node) : bool :=
  bool_decide (op n = call_function)
  && bool_decide (target n = wrap_with_autocast).

(** * Example graphs *)

Definition input (i : nat) (s : string) : Node :=
  mkNode i s placeholder (attr s) [] {[ "val" := MOpaque s ]}.

Definition call (i : nat) (s : string) (t : Target) (a : list Arg) : Node :=
  mkNode i s call_function t a {[ "val" := MOpaque s ]}.

Definition ret (i : nat) (a : Arg) : Node :=
  mkNode i "output" output (attr "output") [a] ∅.

(** [x; e1 = enter; e2 = enter; c = g(x); exit(e2); exit(e1); return (c,)] *)
Definition nested_region_graph : GraphModule :=
  mkGM [input 0 "x";
        call 1 "e1" _enter_autocast [AStr "cuda"];
        call 2 "e2" _enter_autocast [AStr "cpu"];
        call 3 "c" (fn "g") [ANode 0];
        call 4 "x2" _exit_autocast [ANode 2];
        call 5 "x1" _exit_autocast [ANode 1];
        ret 6 (ATuple [ANode 3])] [].


(** [a; e = enter; c = g(a); exit(e); return (c,)] *)
Definition child_with_region : GraphModule :=
  mkGM [input 0 "a";
        call 1 "e" _enter_autocast [AStr "cuda"];
        call 2 "c" (fn "g") [ANode 0];
        call 3 "x" _exit_autocast [ANode 1];
        ret 4 (ATuple [ANode 2])] [].

(** A graph without markers of its own that refers to a child graph module
    with a region: [x; branch = get_attr; y = cond(x, branch); return (y,)] *)
Definition parent_without_markers : GraphModule :=
  mkGM [input 0 "x";
        mkNode 1 "branch" get_attr (attr "branch") [] ∅;
        call 2 "y" (fn "cond") [ANode 0; ANode 1];
        ret 3 (ATuple [ANode 2])]
       [("branch", AModule child_with_region)].

(** ** Heap predicates *)

(** A computation keeps [P] when it leaves a heap in [P] whenever it starts
    in one, whether it returns or raises. *)
Definition keeps (P : heap → Prop) {A} (c : M A) : Prop :=
  ∀ h, P h → P (c h).1.

(** [h] still holds every object of [h0], unchanged, at its address. *)
Definition extends (h0 h : heap) : Prop := take (length h0) h = h0.

(** The specification objects in a list of addresses, and the argument
    objects they reach, lie at or above address [n]. *)
Definition specs_above (n : nat) (specs : list nat) (h : heap) : Prop :=
  ∀ s, s ∈ specs →
    n ≤ s ∧ ∀ k a, h !! s = Some (OOutputSpec k a) → n ≤ a.

(** Every object the signature at [sig] reaches lies at or above address
    [n]. *)
Definition args_above (n sig : nat) (h : heap) : Prop :=
  ∀ specs, h !! sig = Some (OSignature specs) → specs_above n specs h.

(** A copy made by [deepcopy]: a new address, and if it holds a
    specification object, one whose argument is new as well. *)
Definition copied_ok (n : nat) (h : heap) (l' : nat) : Prop :=
  n ≤ l' ∧ l' < length h
  ∧ ∀ k a, h !! l' = Some (OOutputSpec k a) → n ≤ a.

Definition memo_ok (n : nat) (h : heap) (memo : list (nat * nat)) : Prop :=
  ∀ l l', (l, l') ∈ memo → copied_ok n h l'.

(** The invariant of the pass once the signature is copied: the objects of
    the caller's heap [h0] are untouched, and the copy at [sig] reaches new
    objects only. *)
Definition copy_inv (h0 : heap) (sig : nat) (h : heap) : Prop :=
  extends h0 h ∧ args_above (length h0) sig h.


(** ** Describing a signature on the heap *)

(** One output specification as it lies on the heap: the address of the
    specification object, its kind, the address of its argument object and
    the argument. *)
Record entry := mkEntry {
  e_spec : nat;
  e_kind : string;
  e_arg : nat;
  e_val : Argument
}.

Definition holds (h : heap) (e : entry) : Prop :=
  h !! e_spec e = Some (OOutputSpec (e_kind e) (e_arg e))
  ∧ h !! e_arg e = Some (OArgument (e_val e)).

(** What reconciliation makes of the argument [x] of the entry paired with
    the output argument [a]: a node gives the entry its name; [None] asks
    for a constant [None] and leaves the entry alone. *)
Definition reconciled (g : list Node) (a : Arg) (x x' : Argument) : Prop :=
  match a with
  | ANode i =>
      ∃ n, lookup_node g i = Some n ∧ x' = set_arg_name x (name n)
  | ANone => (∃ s, x = ConstantArgument s CNone) ∧ x' = x
  | _ => False
  end.

(** The output arguments the reconciliation walks: the argument of the last
    output node, as a sequence. *)
Definition output_arguments (g : list Node) : result (list Arg) :=
  match last (List.filter (λ n, bool_decide (op n = output)) g) with
  | Some n => a0 ← args0 n; as_sequence a0
  | None => Raise StopIteration
  end.

(** [x; a = f(x); b = enter; c = g(a); c2 = g2(a, c); exit(b);
    e = h(c, c2); return (e, c2)]: one region with two values used after
    it. *)
Definition tuple_region_graph : GraphModule :=
  mkGM [input 0 "x"; call 1 "a" (fn "f") [ANode 0];
        call 2 "b" _enter_autocast [AStr "cuda"];
        call 3 "c" (fn "g") [ANode 1];
        call 4 "c2" (fn "g2") [ANode 1; ANode 3];
        call 5 "d" _exit_autocast [ANode 2];
        call 6 "e" (fn "h") [ANode 3; ANode 4];
        ret 7 (ATuple [ANode 6; ANode 4])] [].

(** The signature of [tuple_region_graph]. *)
Definition tuple_region_heap : heap :=
  [OSignature [1; 3];
   OOutputSpec "USER_OUTPUT" 2; OArgument (TensorArgument "e");
   OOutputSpec "USER_OUTPUT" 4; OArgument (TensorArgument "c2")].

(** [x; y = f(x); return (y, None)] *)
Definition two_outputs_graph : list Node :=
  [input 0 "x"; call 1 "y" (fn "f") [ANode 0];
   ret 2 (ATuple [ANode 1; ANone])].

(** A signature with two entries: a tensor named "old" and a constant
    [None]. *)
Definition two_entries_heap : heap :=
  [OSignature [1; 3];
   OOutputSpec "USER_OUTPUT" 2; OArgument (TensorArgument "old");
   OOutputSpec "USER_OUTPUT" 4; OArgument (ConstantArgument "" CNone)].

(** An entry whose declared value is not [None]. *)
Definition not_none (h : heap) (s : nat) : Prop :=
  ∃ k a x, h !! s = Some (OOutputSpec k a) ∧ h !! a = Some (OArgument x)
           ∧ is_const_none x ≠ OK true.

(** ** Describing a scope-body segment *)

(** A scope-body segment as the splitter hands it to the replacer: [node]
    is a node of the graph (whose nodes are distinct objects) and invokes
    the child graph module [sub_gm]; the child's markers start with the
    Enter and end with the Exit that closes it; only that Exit uses the
    Enter's value and nothing uses the Exit's. *)
Record scope_body (gm : GraphModule) (node : Node) (tname : string)
    (sub_gm : GraphModule) (enter exit : Node) : Prop := {
  sb_node : node ∈ nodes gm;
  sb_nodup : NoDup (nid <$> nodes gm);
  sb_op : op node = call_module;
  sb_target : target node = attr tname;
  sb_child : getattr (attrs gm) tname = Some (AModule sub_gm);
  sb_markers :
    ∃ mid, nodes_filter (nodes sub_gm) _is_autocast_node
           = enter :: mid ++ [exit];
  sb_enter : _is_enter_autocast_node enter = true;
  sb_exit : _is_exit_autocast_node exit = true;
  sb_closes : ∃ rest, args exit = ANode (nid enter) :: rest;
  sb_exit_unused : users (nodes sub_gm) (nid exit) = [];
  sb_enter_unused :
    users (remove_node (nodes sub_gm) (nid exit)) (nid enter) = []
}.

(** The child graph once its markers are deleted. *)
Definition without_markers (sub_gm : GraphModule) (enter exit : Node)
  : GraphModule :=
  mkGM (remove_node (remove_node (nodes sub_gm) (nid exit)) (nid enter))
    (attrs sub_gm).

(** A replace hook that always returns. *)
Definition total (hook : hook_t) : Prop :=
  ∀ old new user h, (hook old new user h).2 = OK ().

Definition count (f : Node → bool) (g : list Node) : nat :=
  length (List.filter f g).

(** A segment with no value used after it:
    [p; e1 = enter; c = g(p); exit(e1); return (p,)], split. *)
Definition no_output_parent : GraphModule :=
  mkGM [input 0 "p";
        mkNode 5 "submod_1" call_module (attr "submod_1") [ANode 0] ∅;
        ret 4 (ATuple [ANode 0])]
       [("submod_1",
         AModule (mkGM [as_placeholder (input 0 "p");
                        call 1 "e1" _enter_autocast [AStr "cuda"];
                        call 2 "c" (fn "g") [ANode 0];
                        call 3 "x1" _exit_autocast [ANode 1]] []))].


(** A segment with one value used after it:
    [x; b = enter; c = g(x); exit(b); e = h(c); return (e,)], split, with
    the segment before the region already inlined. *)
Definition single_output_parent : GraphModule :=
  mkGM [input 0 "x";
        mkNode 7 "submod_1" call_module (attr "submod_1") [ANode 0] ∅;
        mkNode 8 "submod_2" call_module (attr "submod_2") [ANode 7] ∅;
        ret 5 (ATuple [ANode 8])]
       [("submod_1",
         AModule (mkGM [as_placeholder (input 0 "x");
                        call 1 "b" _enter_autocast [AStr "cuda"];
                        call 2 "c" (fn "g") [ANode 0];
                        call 3 "d" _exit_autocast [ANode 1];
                        ret 4 (ANode 2)] []));
        ("submod_2",
         AModule (mkGM [as_placeholder (call 2 "c" (fn "g") [ANode 0]);
                        call 4 "e" (fn "h") [ANode 2];
                        ret 5 (ANode 4)] []))].


(** What the loop of lines 126-131 makes of a per-index extraction that
    stands for the member [o]: the member's name and metadata. *)
Definition retag (o n : Node) : Node :=
  set_meta (set_name n (name o)) (meta o).

(** Every reference of a node is to a node earlier in the list: what the
    final validation checks. *)
Definition well_formed (g : list Node) : Prop := lint_from [] g = true.




(** * Evaluating a graph

    Modelled from the spec: the interpreter of the host IR and the region
    operator are not part of the pass's file.  §3: a region-operation node
    means "invoke scope-enter with scope-parameters, execute the subgraph
    body, invoke scope-exit, return the body's results"; a graph's output
    instruction gives its return value; the scope is dynamic.

    The value of an ordinary call is kept symbolic: the function, the
    scopes that are open when it runs and the values of its arguments.  Two
    graphs that evaluate to the same value give the same result whatever
    the functions compute. *)

Inductive Val :=
  | VNone
  | VInt (z : Z)
  | VStr (s : string)
  | VTuple (l : list Val)
  | VList (l : list Val)
  | VOpaque (x : nat)
  | VApp (f : string) (scopes : list (list Val)) (vs : list Val)
  | VMode (params : list Val)
  | VAttr (s : string).

(** The scopes that are open, innermost first, each with its parameters. *)
Abbreviation scopes := (list (list Val)).

Fixpoint eval_arg (env : gmap nat Val) (a : Arg) : result Val :=
  match a with
  | ANode i =>
      match env !! i with Some v => OK v | None => Raise RuntimeError end
  | ANone => OK VNone
  | AInt z => OK (VInt z)
  | AStr s => OK (VStr s)
  | ATuple l =>
      (fix go (l : list Arg) : result (list Val) :=
         match l with
         | [] => OK []
         | a :: l' => v ← eval_arg env a; vs ← go l'; OK (v :: vs)
         end) l ≫= λ vs, OK (VTuple vs)
  | AList l =>
      (fix go (l : list Arg) : result (list Val) :=
         match l with
         | [] => OK []
         | a :: l' => v ← eval_arg env a; vs ← go l'; OK (v :: vs)
         end) l ≫= λ vs, OK (VList vs)
  end.

Definition eval_args (env : gmap nat Val) (l : list Arg)
  : result (list Val) := mapR (eval_arg env) l.

(** The interpreter's state while it walks a graph: the values of the nodes
    so far, the open scopes, and the inputs not yet bound. *)
Record frame := mkFrame {
  f_env : gmap nat Val;
  f_scopes : scopes;
  f_inputs : list Val
}.

Definition bind_node (fr : frame) (n : Node) (v : Val) : frame :=
  mkFrame (<[nid n := v]> (f_env fr)) (f_scopes fr) (f_inputs fr).

Definition with_scopes (fr : frame) (sc : scopes) : frame :=
  mkFrame (f_env fr) sc (f_inputs fr).

(** One node that is not an output node.  [call] runs a child graph module
    on argument values under the given scopes and returns its value and the
    scopes it leaves open. *)
Definition step
    (call : GraphModule → list Val → scopes → result (Val * scopes))
    (a : list (string * Attr)) (fr : frame) (n : Node) : result frame :=
  match op n with
  | placeholder =>
      match f_inputs fr with
      | v :: rest =>
          OK (mkFrame (<[nid n := v]> (f_env fr)) (f_scopes fr) rest)
      | [] => Raise TypeError
      end
  | get_attr =>
      match target n with
      | attr t => OK (bind_node fr n (VAttr t))
      | _ => Raise TypeError
      end
  | call_module =>
      match target n with
      | attr t =>
          match getattr a t with
          | Some (AModule sub) =>
              vs ← eval_args (f_env fr) (args n);
              '(v, sc) ← call sub vs (f_scopes fr);
              OK (with_scopes (bind_node fr n v) sc)
          | _ => Raise AttributeError
          end
      | _ => Raise TypeError
      end
  | call_function =>
      vs ← eval_args (f_env fr) (args n);
      match target n with
      | _enter_autocast =>
          OK (with_scopes (bind_node fr n (VMode vs)) (vs :: f_scopes fr))
      | _exit_autocast =>
          match f_scopes fr with
          | _ :: sc => OK (with_scopes (bind_node fr n VNone) sc)
          | [] => Raise RuntimeError
          end
      | getitem =>
          match vs with
          | [VTuple l; VInt i] | [VList l; VInt i] =>
              v ← py_index l i; OK (bind_node fr n v)
          | _ => Raise TypeError
          end
      | wrap_with_autocast =>
          match vs with
          | VTuple params :: VAttr t :: ins =>
              match getattr a t with
              | Some (AModule sub) =>
                  '(v, _) ← call sub ins (params :: f_scopes fr);
                  OK (bind_node fr n v)
              | _ => Raise AttributeError
              end
          | _ => Raise TypeError
          end
      | fn f => OK (bind_node fr n (VApp f (f_scopes fr) vs))
      | attr _ => Raise TypeError
      end
  | output => Raise RuntimeError
  end.




(** ** Describing a graph with one region *)

(** An ordinary call: a [call_function] node whose target is neither a
    marker, nor the region operator, nor [getitem]. *)
Definition is_plain (n : Node) : bool :=
  bool_decide (op n = call_function)
  && match target n with fn _ => true | _ => false end.

(** A graph with exactly one top-level region and nothing nested in it: the
    inputs, ordinary calls, the Enter, the ordinary calls of the scope body,
    the Exit that closes the Enter, ordinary calls, and the output
    instruction.  The graph is well formed, its nodes are distinct objects,
    the scope parameters are constants, only the Exit uses the Enter's
    value and nothing uses the Exit's; the region hands out [k] values,
    [k] at least two, each with "val" metadata. *)
Record one_region (gm : GraphModule) (phs pre : list Node) (enter : Node)
    (body : list Node) (exit : Node) (post : list Node) (out : Node)
    (k : nat) : Prop := {
  or_nodes : nodes gm = phs ++ pre ++ (enter :: body ++ [exit]) ++ post ++ [out];
  or_attrs : attrs gm = [];
  or_phs : Forall (λ n, op n = placeholder) phs;
  or_pre : Forall (λ n, is_plain n = true) pre;
  or_body : Forall (λ n, is_plain n = true) body;
  or_post : Forall (λ n, is_plain n = true) post;
  or_enter : _is_enter_autocast_node enter = true;
  or_params : node_refs enter = [];
  or_exit : _is_exit_autocast_node exit = true;
  or_closes : args exit = [ANode (nid enter)];
  or_out : op out = output;
  or_out_args : length (args out) = 1;
  or_nodup : NoDup (nid <$> nodes gm);
  or_wf : well_formed (nodes gm);
  or_enter_private :
    ∀ n, n ∈ nodes gm → uses (nid enter) n = true → n = exit;
  or_exit_unused : ∀ n, n ∈ nodes gm → uses (nid exit) n = false;
  or_tuple :
    length (segment_outputs (nodes gm) (enter :: body ++ [exit])) = k
    ∧ 2 ≤ k;
  or_vals :
    Forall (λ o, is_Some (meta o !! "val"))
      (segment_outputs (nodes gm) (enter :: body ++ [exit]))
}.

(** The state of the splitter after the three segments of a graph with one
    region: the calls before the region, the region, the calls after
    it. *)
Definition three_segments (orig phs pre region post : list Node)
  : split_state :=
  fold_left (add_segment orig [])
    [(0, pre); (1, region); (2, post)]
    (mkSplit (fresh_nid orig) [] phs []).

(** ** Describing what inlining does to references *)

Definition remove_nodes (ids : list nat) (g : list Node) : list Node :=
  List.filter (λ n, negb (mem (nid n) ids)) g.

(** Inlining a segment sends the references to its extractions (from index
    [j] on) back to the values they stood for. *)
Fixpoint undo_from (call j : nat) (outs : list Node) : nat → nat :=
  match outs with
  | [] => λ i, i
  | o :: outs' =>
      λ i, undo_from call (S j) outs' (subst1 (call + 1 + j) (nid o) i)
  end.

Definition undo (call : nat) (outs : list Node) : nat → nat :=
  match outs with
  | [] => λ i, i
  | [o] => subst1 call (nid o)
  | _ => undo_from call 0 outs
  end.

(** ** The graphs of a run on a graph with one region

    What the splitter writes for one segment [p] of [orig]: the invocation
    with identity [c], reading its arguments through [E], and the per-index
    extractions; where later nodes find the values of [p]; the next free
    identity. *)

Definition seg_call (orig : list Node) (c : nat) (E : list (nat * nat))
    (i : nat) (p : list Node) : Node :=
  mkNode c ("submod_" +:+ pretty i) call_module
    (attr ("submod_" +:+ pretty i))
    ((λ n, ANode (env_get E (nid n))) <$> segment_inputs orig p) ∅.

Definition seg_nodes (orig : list Node) (c : nat) (E : list (nat * nat))
    (i : nat) (p : list Node) : list Node :=
  if is_empty p then []
  else seg_call orig c E i p :: extractions c (segment_outputs orig p).

Definition seg_env (orig : list Node) (c : nat) (p : list Node)
  : list (nat * nat) :=
  if is_empty p then [] else outputs_env c (segment_outputs orig p).

Definition seg_next (orig : list Node) (c : nat) (p : list Node) : nat :=
  if is_empty p then c
  else S c + length (extractions c (segment_outputs orig p)).

Definition seg_attr (orig : list Node) (i : nat) (p : list Node)
  : list (string * Attr) :=
  if is_empty p then []
  else [("submod_" +:+ pretty i, AModule (mkGM (child_graph orig p) []))].

Section Shape.

Context (orig phs pre : list Node) (enter : Node) (body : list Node)
  (exit : Node) (post : list Node) (out : Node).

(** The identities of the three invocations. *)
Definition call_pre : nat := fresh_nid orig.
Definition call_region : nat := seg_next orig call_pre pre.
Definition call_post : nat :=
  seg_next orig call_region (enter :: body ++ [exit]).

Definition region_outputs : list Node :=
  segment_outputs orig (enter :: body ++ [exit]).

Definition env_pre : list (nat * nat) := seg_env orig call_pre pre.
Definition env_region : list (nat * nat) :=
  outputs_env call_region region_outputs.
Definition env_post : list (nat * nat) := seg_env orig call_post post.

(** The top-level graph after the split. *)
Definition split_nodes : list Node :=
  phs ++ seg_nodes orig call_pre [] 0 pre
    ++ seg_nodes orig call_region env_pre 1 (enter :: body ++ [exit])
    ++ seg_nodes orig call_post (env_region ++ env_pre) 2 post
    ++ [map_node_args (env_get (env_post ++ env_region ++ env_pre)) out].

Definition split_attrs : list (string * Attr) :=
  seg_attr orig 0 pre ++ seg_attr orig 1 (enter :: body ++ [exit])
    ++ seg_attr orig 2 post.

(** After the first segment is inlined. *)
Definition after_pre : list Node :=
  phs ++ pre
    ++ seg_nodes orig call_region [] 1 (enter :: body ++ [exit])
    ++ seg_nodes orig call_post env_region 2 post
    ++ [map_node_args (env_get (env_post ++ env_region)) out].

(** The nodes the replacer creates. *)
Definition region_get_attr : Node :=
  new_get_attr (fresh_nid after_pre) "submod_1" enter.

Definition region_vals : list MetaVal :=
  (λ o, default (MOpaque "") (meta o !! "val")) <$> region_outputs.

Definition region_hop : Node :=
  tuple_hop (S (fresh_nid after_pre)) enter region_get_attr
    (seg_call orig call_region [] 1 (enter :: body ++ [exit])) region_vals.

Definition region_items : list Node :=
  imap (λ k o, retag o (map_node_args (subst1 call_region (nid region_hop))
                          (get_item_node call_region k)))
    region_outputs.

(** After the region's invocation is replaced. *)
Definition after_region : list Node :=
  phs ++ pre ++ [region_get_attr; region_hop] ++ region_items
    ++ seg_nodes orig call_post env_region 2 post
    ++ [map_node_args (env_get (env_post ++ env_region)) out].

(** After the last segment is inlined: the graph the pass returns. *)
Definition after_post : list Node :=
  phs ++ pre ++ [region_get_attr; region_hop] ++ region_items
    ++ (map_node_args (env_get env_region) <$> post)
    ++ [map_node_args (env_get env_region) out].

(** The child graph of the region, as split and with its markers deleted. *)
Definition region_child : GraphModule :=
  mkGM (child_graph orig (enter :: body ++ [exit])) [].

Definition region_result : GraphModule :=
  mkGM after_post
    [("submod_1", AModule (without_markers region_child enter exit))].

End Shape.

(** Walking nodes none of which is an output node. *)
Fixpoint run_nodes
    (call : GraphModule → list Val → scopes → result (Val * scopes))
    (a : list (string * Attr)) (fr : frame) (g : list Node) : result frame :=
  match g with
  | [] => OK fr
  | n :: g' => fr' ← step call a fr n; run_nodes call a fr' g'
  end.

(** A node that keeps the attribute [s] of its graph module alive. *)
Definition refers_to (s : string) (n : Node) : bool :=
  (bool_decide (op n = call_module) || bool_decide (op n = get_attr))
  && bool_decide (target n = attr s).


(** ** Describing a graph that is one region

    A graph of inputs, one region and the output node: the Enter, the
    ordinary calls of the scope body and the Exit that closes the Enter.
    The graph is well formed, its nodes are distinct objects, and of the
    nodes of the scope body none uses the Enter's value. *)
Record region_only (gm : GraphModule) (phs : list Node) (enter : Node)
    (body : list Node) (exit out : Node) : Prop := {
  ro_nodes : nodes gm = phs ++ (enter :: body ++ [exit]) ++ [out];
  ro_attrs : attrs gm = [];
  ro_phs : Forall (λ n, op n = placeholder) phs;
  ro_enter : _is_enter_autocast_node enter = true;
  ro_body : Forall (λ n, is_plain n = true) body;
  ro_exit : _is_exit_autocast_node exit = true;
  ro_closes : args exit = [ANode (nid enter)];
  ro_out : op out = output;
  ro_nodup : NoDup (nid <$> nodes gm);
  ro_wf : well_formed (nodes gm);
  ro_private : ∀ n, n ∈ body → uses (nid enter) n = false
}.


(** * Properties *)

(** ** The boundary tracker on nested regions *)

(** C2, at the failing input: the node sequence of [nested_region_graph] is
    well nested; the callback answers true at the outer Enter and false at
    the nested Enter, but it does not push the nested Enter, so at the
    nested Exit the popped node is the outer Enter and the assertion of
    line 179 fails instead of the callback answering false. *)
Theorem C2_nested_exit_raises :
  well_nested (nodes nested_region_graph)
  ∧ traverse node_call_back cb_init (take 4 (nodes nested_region_graph))
    = OK ([false; true; false; false],
          mkCb [call 1 "e1" _enter_autocast [AStr "cuda"]] false)
  ∧ node_call_back
      (mkCb [call 1 "e1" _enter_autocast [AStr "cuda"]] false)
      (call 4 "x2" _exit_autocast [ANode 2])
    = Raise AssertionError
  ∧ run_call_back (nodes nested_region_graph) = Raise AssertionError.
Proof. repeat split; vm_compute; reflexivity. Qed.

(** C3, at the failing input: on a graph whose outer region fully encloses
    an inner region the pass outlines nothing; it ends in the assertion
    failure of the boundary tracker (the defect of C2), at every recursion
    depth and with or without a signature. *)
Theorem C3_nested_region_aborts : ∀ depth sig h,
  well_nested (nodes nested_region_graph)
  ∧ replace_autocast_with_hop_pass (S depth) nested_region_graph sig h
    = (h, Raise AssertionError).
Proof. intros. split; vm_compute; reflexivity. Qed.


(** ** Heap reasoning: what a computation keeps *)

Section Keeps.
Context (P : heap → Prop).

Lemma keeps_ret {A} (a : A) : keeps P (mret a).
Proof. intros h Hh. exact Hh. Qed.

Lemma keeps_raise {A} (e : exn) : keeps P (raise (A:=A) e).
Proof. intros h Hh. exact Hh. Qed.

Lemma keeps_lift {A} (r : result A) : keeps P (lift r).
Proof. intros h Hh. exact Hh. Qed.

Lemma keeps_bind {A B} (c : M A) (k : A → M B) :
  keeps P c → (∀ a, keeps P (k a)) → keeps P (c ≫= k).
Proof.
  intros Hc Hk h Hh. specialize (Hc h Hh).
  unfold mbind, M_bind. destruct (c h) as [h' [a|e]]; simpl in *.
  - apply Hk, Hc.
  - exact Hc.
Qed.

Lemma keeps_ret_bind {A B} (a : A) (k : A → M B) :
  keeps P (k a) → keeps P (mret a ≫= k).
Proof. intros Hk h Hh. exact (Hk h Hh). Qed.

Lemma keeps_mapM_ {A} (f : A → M unit) (l : list A) :
  (∀ a, keeps P (f a)) → keeps P (mapM_ f l).
Proof.
  intros Hf. induction l as [|a l IH]; simpl.
  - apply keeps_ret.
  - apply keeps_bind; [apply Hf | intros _; exact IH].
Qed.

Lemma keeps_foldM {A S} (f : S → A → M S) (l : list A) :
  (∀ s a, keeps P (f s a)) → ∀ s, keeps P (foldM f s l).
Proof.
  intros Hf. induction l as [|a l IH]; intros s; simpl.
  - apply keeps_ret.
  - apply keeps_bind; [apply Hf | intros s'; apply IH].
Qed.
End Keeps.

Ltac keeps_step :=
  lazymatch goal with
  | |- keeps _ (mret _) => apply keeps_ret
  | |- keeps _ (raise _) => apply keeps_raise
  | |- keeps _ (lift _) => apply keeps_lift
  | |- keeps _ (mapM_ _ _) => apply keeps_mapM_; intros
  | |- keeps _ (foldM _ _ _) => apply keeps_foldM; intros
  | |- keeps _ (mret _ ≫= _) => apply keeps_ret_bind
  | |- keeps _ (_ ≫= _) => apply keeps_bind; [|intros]
  | |- keeps _ (match ?x with _ => _ end) => destruct x
  end.

Ltac keeps_auto := repeat (first [assumption | keeps_step]).

Section KeepsPass.
Context (P : heap → Prop) (hook : hook_t).
Hypothesis hook_keeps : ∀ old new user, keeps P (hook old new user).

Lemma keeps_node_replace_ g old new d :
  keeps P (node_replace_ hook g old new d).
Proof. unfold node_replace_. keeps_auto. apply hook_keeps. Qed.

Lemma keeps_rename g n c : keeps P (_rename hook g n c).
Proof. unfold _rename. keeps_auto. apply hook_keeps. Qed.

Lemma keeps_rename_get_item sub out g n :
  keeps P (rename_get_item hook sub out g n).
Proof. unfold rename_get_item. keeps_auto. apply keeps_rename. Qed.

Lemma keeps_replace_call g sub node e ga :
  keeps P (replace_call hook g sub node e ga).
Proof.
  unfold replace_call. keeps_auto;
    first [apply keeps_node_replace_ | apply keeps_rename_get_item].
Qed.

Lemma keeps_replace_with_hop gm node :
  keeps P (_replace_with_hop hook gm node).
Proof. unfold _replace_with_hop. keeps_auto. apply keeps_replace_call. Qed.

Lemma keeps_inline_get_item out g n :
  keeps P (inline_get_item hook out g n).
Proof. unfold inline_get_item. keeps_auto. apply keeps_node_replace_. Qed.

Lemma keeps_node_inline_ gm node : keeps P (node_inline_ hook gm node).
Proof.
  unfold node_inline_. keeps_auto;
    first [apply keeps_node_replace_ | apply keeps_inline_get_item].
Qed.

Lemma keeps_visit gm node : keeps P (visit hook gm node).
Proof.
  unfold visit, _maybe_inline_or_replace_with_hop. keeps_auto;
    first [apply keeps_replace_with_hop | apply keeps_node_inline_].
Qed.
End KeepsPass.

Lemma keeps_no_hook P old new user : keeps P (no_hook old new user).
Proof. apply keeps_ret. Qed.

(** Without a signature the split-and-replace step and the whole pass keep
    every heap property: they neither read nor write the heap. *)
Lemma keeps_helper_None P gm :
  keeps P (_sequential_split_and_maybe_inline_subgraphs gm None).
Proof.
  unfold _sequential_split_and_maybe_inline_subgraphs.
  destruct (negb _); [apply keeps_ret|].
  apply keeps_bind; [apply keeps_lift|intros new_gm].
  keeps_auto. apply keeps_visit, keeps_no_hook.
Qed.

Lemma keeps_descend P recurse gm node :
  (∀ g, keeps P (recurse g)) → keeps P (descend recurse gm node).
Proof. intros Hrec. unfold descend. keeps_auto. apply Hrec. Qed.

Lemma keeps_pass_None P depth : ∀ gm,
  keeps P (replace_autocast_with_hop_pass depth gm None).
Proof.
  induction depth as [|depth IH]; intros gm; simpl.
  - apply keeps_raise.
  - keeps_auto; first [apply keeps_helper_None | apply keeps_descend, IH].
Qed.

(** ** Running a computation: inversion of bind and of the loops *)

Lemma bind_OK_inv {A B} (c : M A) (k : A → M B) h h' b :
  (c ≫= k) h = (h', OK b) →
  ∃ h1 a, c h = (h1, OK a) ∧ k a h1 = (h', OK b).
Proof.
  unfold mbind, M_bind. destruct (c h) as [h1 [a|e]]; intros H.
  - eauto.
  - discriminate.
Qed.

Lemma bind_OK {A B} (c : M A) (k : A → M B) h h1 a :
  c h = (h1, OK a) → (c ≫= k) h = k a h1.
Proof. intros H. unfold mbind, M_bind. rewrite H. reflexivity. Qed.

Lemma bind_Raise {A B} (c : M A) (k : A → M B) h h1 e :
  c h = (h1, Raise e) → (c ≫= k) h = (h1, Raise e).
Proof. intros H. unfold mbind, M_bind. rewrite H. reflexivity. Qed.

Lemma foldM_inv {A S} (I : S → Prop) (f : S → A → M S) (l : list A) :
  (∀ s a h h' s', I s → f s a h = (h', OK s') → I s') →
  ∀ s h h' s', I s → foldM f s l h = (h', OK s') → I s'.
Proof.
  intros Hf. induction l as [|a l IH]; simpl; intros s h h' s' Hs Hrun.
  - inversion Hrun; subst; exact Hs.
  - apply bind_OK_inv in Hrun as (h1 & s1 & H1 & H2).
    eapply IH; [|exact H2]. eapply Hf; eauto.
Qed.

(** A loop whose body returns its accumulator returns it. *)
Lemma foldM_id {A S} (f : S → A → M S) (l : list A) s h :
  (∀ a, a ∈ l → f s a h = (h, OK s)) → foldM f s l h = (h, OK s).
Proof.
  induction l as [|a l IH]; simpl; intros Hf; [reflexivity|].
  erewrite bind_OK; [|apply Hf; left].
  apply IH. intros b Hb. apply Hf. right. exact Hb.
Qed.

(** ** The fast path *)

Lemma helper_no_markers gm sig h :
  existsb _is_autocast_node (nodes gm) = false →
  _sequential_split_and_maybe_inline_subgraphs gm sig h = (h, OK (gm, sig)).
Proof.
  intros H. unfold _sequential_split_and_maybe_inline_subgraphs.
  rewrite H. reflexivity.
Qed.

Lemma pass_no_markers gm sig :
  existsb _is_autocast_node (nodes gm) = false →
  ∀ depth h h' gm' sig',
    replace_autocast_with_hop_pass depth gm sig h = (h', OK (gm', sig')) →
    nodes gm' = nodes gm ∧ sig' = sig ∧ h' = h.
Proof.
  intros Hno.
  intros [|depth] h h' gm' sig' Hrun; simpl in Hrun; [discriminate|].
    erewrite bind_OK in Hrun by (apply helper_no_markers, Hno).
    apply bind_OK_inv in Hrun as (h1 & g1 & Hloop & Hrest).
    apply bind_OK_inv in Hrest as (h2 & [] & Hlint & Hret).
    assert (h2 = h1) as -> by (unfold lift in Hlint; congruence).
    inversion Hret; subst; clear Hret.
    split; [|split; [reflexivity|]].
    + revert Hloop. apply (foldM_inv (λ g, nodes g = nodes gm)); [|reflexivity].
      intros s a h0 h0' s' Hs Hstep. unfold descend in Hstep.
      destruct (bool_decide _); [|inversion Hstep; subst; exact Hs].
      destruct (target a); try discriminate.
      destruct (getattr _ _) as [[sub|]|]; try discriminate.
      * apply bind_OK_inv in Hstep as (? & [? ?] & _ & Hret).
        inversion Hret; subst. exact Hs.
      * inversion Hstep; subst; exact Hs.
    + symmetry. revert Hloop.
      pose proof (keeps_foldM (eq h)
                    (descend (λ subgm,
                       replace_autocast_with_hop_pass depth subgm None))
                    (nodes gm)) as Hk.
      intros Hloop. specialize (Hk (λ s a, keeps_descend _ _ s a
                                      (λ g, keeps_pass_None _ depth g))
                                   gm h eq_refl).
      rewrite Hloop in Hk. exact Hk.
Qed.




(** ** Reconciliation of the output specification *)

Lemma read_spec_arg_holds h s k a x :
  h !! s = Some (OOutputSpec k a) → h !! a = Some (OArgument x) →
  read_spec_arg s h = (h, OK (a, x)).
Proof.
  intros Hs Ha. unfold read_spec_arg, read, mbind, M_bind.
  rewrite Hs. simpl. rewrite Ha. reflexivity.
Qed.

Lemma set_arg_name_same x : set_arg_name x (arg_name x) = x.
Proof. destruct x; reflexivity. Qed.

Lemma is_const_none_set_name x s :
  is_const_none (set_arg_name x s) = is_const_none x.
Proof. destruct x; reflexivity. Qed.

(** The prelude of [reconcile]: up to the assertion. *)
Lemma reconcile_prelude g sig h out_args specs :
  output_arguments g = OK out_args →
  h !! sig = Some (OSignature specs) →
  reconcile g sig h
  = if bool_decide (length out_args = length specs)
    then mapM_ (reconcile_one g) (zip out_args specs) h
    else (h, Raise AssertionError).
Proof.
  unfold output_arguments, reconcile. intros Hout Hsig.
  destruct (last _) as [out|] eqn:Hlast; [|discriminate].
  assert (Hop : op out = output).
  { apply last_Some_elem_of, list_elem_of_In, filter_In in Hlast.
    destruct Hlast as [_ H]. apply bool_decide_eq_true in H. exact H. }
  destruct (args0 out) as [a0|] eqn:Ha0; [|discriminate].
  simpl in Hout. unfold mbind, M_bind, lift. simpl. rewrite Ha0. simpl.
  rewrite Hout. simpl. unfold read_output_specs, read, mbind, M_bind.
  rewrite Hsig. simpl. rewrite Hop.
  rewrite (bool_decide_eq_true_2 _ eq_refl). simpl.
  destruct (bool_decide (length out_args = length specs)); reflexivity.
Qed.


Lemma reconcile_one_keeps_not_none g p s :
  keeps (λ h, not_none h s) (reconcile_one g p).
Proof.
  intros h (k & a & x & Hs & Ha & Hx). destruct p as [arg_node out_spec].
  assert (Hsame : not_none h s) by (exists k, a, x; auto).
  unfold reconcile_one, read_spec_arg, read, mbind, M_bind.
  destruct arg_node; simpl;
    destruct (h !! out_spec) as [[| k' a' |]|] eqn:Hos; simpl; try exact Hsame;
    destruct (h !! a') as [[| |x']|] eqn:Ha'; simpl; try exact Hsame;
    try (destruct (is_const_none x') as [[]|]; simpl; exact Hsame);
    try (unfold lift, resolve; simpl; exact Hsame).
  unfold lift, resolve. destruct (lookup_node g n) as [nd|]; simpl; [|exact Hsame].
  destruct (negb _); simpl; [|exact Hsame].
  assert (a' ≠ s) by congruence.
  exists k, a. destruct (decide (a' = a)) as [->|Hne].
  - exists (set_arg_name x (name nd)).
    rewrite list_lookup_insert_ne by done.
    rewrite list_lookup_insert_eq by (eapply lookup_lt_Some; eauto).
    assert (x' = x) as -> by congruence.
    rewrite is_const_none_set_name. auto.
  - exists x. rewrite !list_lookup_insert_ne by done. auto.
Qed.

Lemma reconcile_one_not_none g s h :
  not_none h s → ∃ e, reconcile_one g (ANone, s) h = (h, Raise e).
Proof.
  intros (k & a & x & Hs & Ha & Hx). unfold reconcile_one.
  unfold mbind, M_bind. rewrite (read_spec_arg_holds _ _ _ _ _ Hs Ha).
  unfold lift. destruct (is_const_none x) as [[]|e]; simpl; eauto.
  congruence.
Qed.

Lemma mapM_not_none g : ∀ out_args specs i s h,
  out_args !! i = Some ANone → specs !! i = Some s → not_none h s →
  ∃ h' e, mapM_ (reconcile_one g) (zip out_args specs) h = (h', Raise e).
Proof.
  induction out_args as [|a out_args IH]; intros specs i s h Ha Hs Hbad;
    [rewrite lookup_nil in Ha; discriminate|].
  destruct specs as [|s0 specs]; [rewrite lookup_nil in Hs; discriminate|].
  destruct i as [|i]; simpl in Ha, Hs; cbn [zip_with mapM_].
  - inversion Ha; inversion Hs; subst.
    destruct (reconcile_one_not_none g s h Hbad) as [e He].
    exists h, e. unfold mbind, M_bind. rewrite He. reflexivity.
  - pose proof (reconcile_one_keeps_not_none g (a, s0) s h Hbad) as Hk.
    unfold mbind, M_bind.
    destruct (reconcile_one g (a, s0) h) as [h1 [[]|e]]; simpl in Hk; eauto.
Qed.

Lemma reconcile_one_step g a e h x' :
  holds h e → reconciled g a (e_val e) x' →
  ∃ h1, reconcile_one g (a, e_spec e) h = (h1, OK ())
        ∧ h1 !! e_arg e = Some (OArgument x')
        ∧ (∀ l, l ≠ e_arg e → h1 !! l = h !! l).
Proof.
  intros [Hs Ha] Hrec. unfold reconcile_one, mbind, M_bind.
  destruct a; simpl in Hrec; try contradiction.
  - destruct Hrec as (nd & Hnd & ->).
    rewrite (read_spec_arg_holds _ _ _ _ _ Hs Ha).
    unfold lift, resolve. rewrite Hnd.
    destruct (String.eqb (arg_name (e_val e)) (name nd)) eqn:Heq; simpl.
    + apply String.eqb_eq in Heq. rewrite <- Heq, set_arg_name_same.
      exists h. auto.
    + exists (<[e_arg e := OArgument (set_arg_name (e_val e) (name nd))]> h).
      split; [reflexivity|]. split.
      * apply list_lookup_insert_eq. eapply lookup_lt_Some; eauto.
      * intros l Hl. apply list_lookup_insert_ne. congruence.
  - destruct Hrec as [[s Hx] ->].
    rewrite (read_spec_arg_holds _ _ _ _ _ Hs Ha).
    unfold lift. rewrite Hx. simpl. exists h. rewrite <- Hx. auto.
Qed.

Lemma mapM_reconciled g : ∀ es out_args h,
  Forall (holds h) es → NoDup (e_arg <$> es) →
  Forall2 (λ a e, ∃ x', reconciled g a (e_val e) x') out_args es →
  ∃ h', mapM_ (reconcile_one g) (zip out_args (e_spec <$> es)) h
        = (h', OK ())
     ∧ Forall2 (λ a e, ∃ x', reconciled g a (e_val e) x'
                  ∧ holds h' (mkEntry (e_spec e) (e_kind e) (e_arg e) x'))
         out_args es
     ∧ (∀ l, l ∉ e_arg <$> es → h' !! l = h !! l).
Proof.
  induction es as [|e es IH]; intros out_args h Hh Hnd H2.
  - apply Forall2_nil_inv_r in H2 as ->. exists h. simpl.
    split; [reflexivity|]. split; [constructor|auto].
  - apply Forall2_cons_inv_r in H2 as (a & out' & [x' Hx'] & H2 & ->).
    apply Forall_cons in Hh as [He Hes].
    rewrite fmap_cons in Hnd. apply NoDup_cons in Hnd as [Hfresh Hnd].
    destruct (reconcile_one_step g a e h x' He Hx') as (h1 & Hrun & Harg & Hfr).
    assert (Hspec_ne : ∀ e', holds h e' → e_spec e' ≠ e_arg e).
    { intros e' [Hs' _] Heq. destruct He as [_ Ha]. congruence. }
    assert (Hes1 : Forall (holds h1) es).
    { apply Forall_forall. intros e' He'.
      pose proof (proj1 (Forall_forall _ _) Hes e' He') as Hold.
      destruct Hold as [Hs' Ha']. split.
      - rewrite Hfr; [exact Hs'|]. apply Hspec_ne. split; auto.
      - rewrite Hfr; [exact Ha'|]. intros Heq. apply Hfresh.
        rewrite <- Heq. apply list_elem_of_fmap. eauto. }
    destruct (IH out' h1 Hes1 Hnd H2) as (h' & Hrest & Hpost & Hframe).
    exists h'. split; [|split].
    + cbn [fmap list_fmap zip_with mapM_]. unfold mbind, M_bind.
      rewrite Hrun. exact Hrest.
    + constructor; [|exact Hpost]. exists x'. split; [exact Hx'|].
      split; simpl.
      * rewrite Hframe, Hfr; [apply He|apply Hspec_ne, He|].
        intros Hin. apply list_elem_of_fmap in Hin as (e' & Heq & He').
        pose proof (proj1 (Forall_forall _ _) Hes1 e' He') as [_ Ha'].
        assert (h1 !! e_spec e = Some (OOutputSpec (e_kind e) (e_arg e))).
        { rewrite Hfr; [apply He|apply Hspec_ne, He]. }
        congruence.
      * rewrite Hframe; [exact Harg|exact Hfresh].
    + intros l Hl. rewrite fmap_cons in Hl.
      apply not_elem_of_cons in Hl as [Hl1 Hl2].
      rewrite Hframe, Hfr; auto.
Qed.

(** C9: the reconciliation walks the output arguments against the entries
    of the specification in order.  It aborts with an assertion failure
    when the counts differ; it aborts when a [None] argument meets an entry
    whose declared value is not [None]; and when every pair is a node with
    an entry or [None] with a constant [None], it returns, each entry
    paired with a node has that node's name, the entries paired with [None]
    are as before, and no other object has changed. *)
Theorem C9_reconciliation (g : list Node) (sig : nat) (h : heap)
    (out_args : list Arg) (specs : list nat) :
  output_arguments g = OK out_args →
  h !! sig = Some (OSignature specs) →
  (length out_args ≠ length specs →
   reconcile g sig h = (h, Raise AssertionError))
  ∧ (∀ i s k a x,
       out_args !! i = Some ANone → specs !! i = Some s →
       h !! s = Some (OOutputSpec k a) → h !! a = Some (OArgument x) →
       (∀ nm, x ≠ ConstantArgument nm CNone) →
       ∃ h' e, reconcile g sig h = (h', Raise e))
  ∧ (∀ es,
       specs = e_spec <$> es → Forall (holds h) es →
       NoDup (e_arg <$> es) →
       Forall2 (λ a e, ∃ x', reconciled g a (e_val e) x') out_args es →
       ∃ h', reconcile g sig h = (h', OK ())
         ∧ Forall2 (λ a e, ∃ x', reconciled g a (e_val e) x'
                      ∧ holds h' (mkEntry (e_spec e) (e_kind e) (e_arg e) x'))
             out_args es
         ∧ (∀ l, l ∉ e_arg <$> es → h' !! l = h !! l)).
Proof.
  intros Hout Hsig. rewrite (reconcile_prelude _ _ _ _ _ Hout Hsig).
  split; [|split].
  - intros Hlen. rewrite bool_decide_eq_false_2 by exact Hlen. reflexivity.
  - intros i s k a x Hi Hs Hspec Harg Hx.
    destruct (bool_decide _); [|eauto].
    apply (mapM_not_none g out_args specs i s h Hi Hs).
    exists k, a, x. repeat split; auto.
    destruct x as [|nm []]; simpl; try discriminate.
    exfalso. apply (Hx nm). reflexivity.
  - intros es -> Hh Hnd H2.
    rewrite bool_decide_eq_true_2.
    + apply mapM_reconciled; assumption.
    + rewrite length_fmap. eapply Forall2_length, H2.
Qed.

Lemma C9_witness :
  reconcile two_outputs_graph 0 [OSignature [1]]
  = ([OSignature [1]], Raise AssertionError)
  ∧ (∃ h' e, reconcile two_outputs_graph 0
               [OSignature [1; 3];
                OOutputSpec "USER_OUTPUT" 2; OArgument (TensorArgument "y");
                OOutputSpec "USER_OUTPUT" 4;
                OArgument (ConstantArgument "" (CInt 5))]
             = (h', Raise e))
  ∧ ∃ h', reconcile two_outputs_graph 0 two_entries_heap = (h', OK ())
          ∧ h' !! 2 = Some (OArgument (TensorArgument "y"))
          ∧ h' !! 4 = Some (OArgument (ConstantArgument "" CNone)).
Proof.
  split; [|split].
  - apply (C9_reconciliation two_outputs_graph 0 [OSignature [1]]
             [ANode 1; ANone] [1]); [reflexivity|reflexivity|simpl; lia].
  - destruct (C9_reconciliation two_outputs_graph 0
                [OSignature [1; 3];
                 OOutputSpec "USER_OUTPUT" 2; OArgument (TensorArgument "y");
                 OOutputSpec "USER_OUTPUT" 4;
                 OArgument (ConstantArgument "" (CInt 5))]
                [ANode 1; ANone] [1; 3] eq_refl eq_refl) as (_ & H & _).
    apply (H 1 3 "USER_OUTPUT" 4 (ConstantArgument "" (CInt 5)));
      try reflexivity.
    intros nm; discriminate.
  - destruct (C9_reconciliation two_outputs_graph 0 two_entries_heap
                [ANode 1; ANone] [1; 3] eq_refl eq_refl) as (_ & _ & H).
    destruct (H [mkEntry 1 "USER_OUTPUT" 2 (TensorArgument "old");
                 mkEntry 3 "USER_OUTPUT" 4 (ConstantArgument "" CNone)])
      as (h' & Hrun & Hpost & _).
    + reflexivity.
    + repeat constructor.
    + apply (bool_decide_unpack _). reflexivity.
    + constructor; [|constructor; [|constructor]].
      * exists (TensorArgument "y"). simpl. eexists. split; reflexivity.
      * eexists. simpl. split; [eexists|]; reflexivity.
    + exists h'. split; [exact Hrun|].
      apply Forall2_cons in Hpost as [(x1 & Hx1 & _ & Ha1) Hpost].
      apply Forall2_cons in Hpost as [(x2 & Hx2 & _ & Ha2) _].
      simpl in *. destruct Hx1 as (nd & Hnd & ->).
      destruct Hx2 as [_ ->]. inversion Hnd; subst. auto.
Defined.

(** ** The signature copy and the caller's heap *)

Lemma extends_refl h : extends h h.
Proof. unfold extends. apply firstn_all. Qed.

Lemma extends_length h0 h : extends h0 h → length h0 ≤ length h.
Proof.
  unfold extends. intros H. rewrite <- H at 1. rewrite length_take. lia.
Qed.

Lemma extends_alloc h0 h o : extends h0 h → extends h0 (h ++ [o]).
Proof.
  intros H. pose proof (extends_length _ _ H). unfold extends in *.
  rewrite take_app_le by lia. exact H.
Qed.

Lemma extends_write h0 h a o :
  extends h0 h → length h0 ≤ a → extends h0 (<[a := o]> h).
Proof.
  unfold extends. intros H Ha. rewrite take_insert_ge by exact Ha. exact H.
Qed.

Lemma extends_lookup h0 h l :
  extends h0 h → l < length h0 → h !! l = h0 !! l.
Proof.
  unfold extends. intros H Hl.
  transitivity (take (length h0) h !! l);
    [symmetry; apply lookup_take_lt, Hl|rewrite H; reflexivity].
Qed.

Lemma copied_ok_app n h more l' : copied_ok n h l' → copied_ok n (h ++ more) l'.
Proof.
  intros (H1 & H2 & H3). split; [exact H1|]. split.
  - rewrite length_app. lia.
  - intros k a. rewrite lookup_app_l by exact H2. apply H3.
Qed.

Lemma memo_ok_app n h more memo : memo_ok n h memo → memo_ok n (h ++ more) memo.
Proof. intros H l l' Hin. apply copied_ok_app. eapply H, Hin. Qed.

Lemma memo_find_ok n h memo l l' :
  memo_ok n h memo → memo_find memo l = Some l' → copied_ok n h l'.
Proof.
  unfold memo_find. intros Hok Hf.
  destruct (List.find _ memo) as [[l0 l1]|] eqn:Hfind; [|discriminate].
  simpl in Hf. inversion Hf; subst.
  apply find_some in Hfind as [Hin _].
  eapply Hok. apply list_elem_of_In. exact Hin.
Qed.

Lemma memo_ok_cons n h memo l l' :
  memo_ok n h memo → copied_ok n h l' → memo_ok n h ((l, l') :: memo).
Proof.
  intros Hm Hc l0 l1 Hin. apply elem_of_cons in Hin as [Heq|Hin].
  - inversion Heq; subst. exact Hc.
  - eapply Hm, Hin.
Qed.

Lemma deepcopy_argument_spec n memo l h :
  memo_ok n h memo → n ≤ length h →
  ∃ more, (deepcopy_argument memo l h).1 = h ++ more
  ∧ match (deepcopy_argument memo l h).2 with
    | OK (l', memo') =>
        memo_ok n (h ++ more) memo' ∧ copied_ok n (h ++ more) l'
    | Raise _ => True
    end.
Proof.
  intros Hm Hn. unfold deepcopy_argument.
  destruct (memo_find memo l) as [l'|] eqn:Hf.
  - exists []. simpl. rewrite app_nil_r. split; [reflexivity|].
    split; [exact Hm|]. eapply memo_find_ok; eauto.
  - unfold mbind, M_bind, read.
    destruct (h !! l) as [[specs0|k0 a0|a]|]; simpl;
      try (exists []; rewrite app_nil_r; split; [reflexivity|exact I]).
    exists [OArgument a]. split; [reflexivity|].
    assert (copied_ok n (h ++ [OArgument a]) (length h)).
    { split; [exact Hn|]. split; [rewrite length_app; simpl; lia|].
      intros k a0. rewrite lookup_app_r by lia.
      rewrite Nat.sub_diag. simpl. discriminate. }
    split; [|assumption].
    apply memo_ok_cons; [apply memo_ok_app, Hm|assumption].
Qed.

Lemma deepcopy_spec_spec n memo l h :
  memo_ok n h memo → n ≤ length h →
  ∃ more, (deepcopy_spec memo l h).1 = h ++ more
  ∧ match (deepcopy_spec memo l h).2 with
    | OK (l', memo') =>
        memo_ok n (h ++ more) memo' ∧ copied_ok n (h ++ more) l'
    | Raise _ => True
    end.
Proof.
  intros Hm Hn. unfold deepcopy_spec.
  destruct (memo_find memo l) as [l'|] eqn:Hf.
  - exists []. simpl. rewrite app_nil_r. split; [reflexivity|].
    split; [exact Hm|]. eapply memo_find_ok; eauto.
  - unfold mbind, M_bind, read.
    destruct (h !! l) as [[specs0|k a|x]|]; simpl;
      try (exists []; rewrite app_nil_r; split; [reflexivity|exact I]).
    destruct (deepcopy_argument_spec n memo a h Hm Hn) as (more & Hh & Hr).
    destruct (deepcopy_argument memo a h) as [h1 [[a' memo1]|e]];
      simpl in Hh, Hr; subst h1.
    + destruct Hr as [Hm1 Ha']. simpl.
      exists (more ++ [OOutputSpec k a']). rewrite app_assoc.
      split; [reflexivity|].
      assert (copied_ok n ((h ++ more) ++ [OOutputSpec k a'])
                (length (h ++ more))).
      { split; [rewrite length_app; lia|].
        split; [rewrite !length_app; simpl; lia|].
        intros k0 a0. rewrite lookup_app_r by lia.
        rewrite Nat.sub_diag. simpl. intros Heq. inversion Heq; subst.
        apply Ha'. }
      split; [|assumption].
      apply memo_ok_cons; [apply memo_ok_app, Hm1|assumption].
    + exists more. simpl. auto.
Qed.

Lemma deepcopy_specs_spec n : ∀ ls memo h,
  memo_ok n h memo → n ≤ length h →
  ∃ more, (deepcopy_specs memo ls h).1 = h ++ more
  ∧ match (deepcopy_specs memo ls h).2 with
    | OK (ls', memo') =>
        memo_ok n (h ++ more) memo' ∧ Forall (copied_ok n (h ++ more)) ls'
    | Raise _ => True
    end.
Proof.
  induction ls as [|l ls IH]; intros memo h Hm Hn.
  - exists []. simpl. rewrite app_nil_r. auto.
  - cbn [deepcopy_specs]. unfold mbind, M_bind.
    destruct (deepcopy_spec_spec n memo l h Hm Hn) as (more & Hh & Hr).
    destruct (deepcopy_spec memo l h) as [h1 [[l' memo1]|e]];
      simpl in Hh, Hr; subst h1; [|exists more; auto].
    destruct Hr as [Hm1 Hl'].
    assert (Hn1 : n ≤ length (h ++ more)) by (rewrite length_app; lia).
    destruct (IH memo1 (h ++ more) Hm1 Hn1) as (more2 & Hh2 & Hr2).
    destruct (deepcopy_specs memo1 ls (h ++ more)) as [h2 [[ls' memo2]|e]];
      simpl in Hh2, Hr2; subst h2; simpl.
    + exists (more ++ more2). rewrite app_assoc. split; [reflexivity|].
      destruct Hr2 as [Hm2 Hls]. split; [exact Hm2|].
      constructor; [apply copied_ok_app, Hl'|exact Hls].
    + exists (more ++ more2). rewrite app_assoc. auto.
Qed.

(** [deepcopy] leaves every object of the heap it starts in untouched and
    returns a new address that reaches new argument objects only. *)
Lemma deepcopy_spec_sig h0 sig :
  extends h0 (deepcopy sig h0).1
  ∧ match (deepcopy sig h0).2 with
    | OK sig' => length h0 ≤ sig' ∧ copy_inv h0 sig' (deepcopy sig h0).1
    | Raise _ => True
    end.
Proof.
  unfold deepcopy, mbind, M_bind, read.
  destruct (h0 !! sig) as [[specs|k0 a0|x0]|]; simpl;
    try (split; [apply extends_refl|exact I]).
  assert (Hm : memo_ok (length h0) h0 []) by (intros l l' Hin; inversion Hin).
  destruct (deepcopy_specs_spec (length h0) specs [] h0 Hm (le_n _))
    as (more & Hh & Hr).
  destruct (deepcopy_specs [] specs h0) as [h1 [[specs' memo']|e]];
    simpl in Hh, Hr; subst h1; simpl.
  - assert (Hext : extends h0 ((h0 ++ more) ++ [OSignature specs'])).
    { unfold extends. rewrite <- app_assoc, take_app_length. reflexivity. }
    split; [exact Hext|]. split; [rewrite length_app; lia|].
    split; [exact Hext|].
    intros specs0 Hsig. rewrite lookup_app_r in Hsig by lia.
    rewrite Nat.sub_diag in Hsig. simpl in Hsig. inversion Hsig; subst.
    intros s Hs. destruct Hr as [_ Hls].
    pose proof (proj1 (Forall_forall _ _) Hls s Hs) as (Hge & Hlt & Hk).
    split; [exact Hge|]. intros k a Hlook.
    rewrite lookup_app_l in Hlook by exact Hlt. eapply Hk, Hlook.
  - split; [|exact I]. unfold extends. rewrite take_app_length. reflexivity.
Qed.

Lemma keeps_mapM_in P {A} (f : A → M unit) (l : list A) :
  (∀ a, a ∈ l → keeps P (f a)) → keeps P (mapM_ f l).
Proof.
  induction l as [|a l IH]; intros Hf; simpl.
  - apply keeps_ret.
  - apply keeps_bind; [apply Hf; left|intros _; apply IH].
    intros b Hb. apply Hf. right. exact Hb.
Qed.

(** The invariant while a loop walks the fixed list [specs]. *)
Lemma copy_inv_write h0 sig specs h a x :
  copy_inv h0 sig h ∧ specs_above (length h0) specs h →
  length h0 ≤ a →
  copy_inv h0 sig (<[a := OArgument x]> h)
  ∧ specs_above (length h0) specs (<[a := OArgument x]> h).
Proof.
  intros [[Hext Habove] Hspecs] Ha.
  assert (Hold : ∀ s o, (∀ y, o ≠ OArgument y) →
            <[a := OArgument x]> h !! s = Some o → h !! s = Some o).
  { intros s o Ho Hl. apply list_lookup_insert_Some in Hl.
    destruct Hl as [(_ & <- & _)|[_ Hl]]; [|exact Hl].
    exfalso. eapply Ho. reflexivity. }
  split; [split|].
  - apply extends_write; assumption.
  - intros sp Hsig s Hs. apply Hold in Hsig; [|intros y; discriminate].
    destruct (Habove sp Hsig s Hs) as [H1 H2]. split; [exact H1|].
    intros k a0 Hl. apply Hold in Hl; [|intros y; discriminate]. eauto.
  - intros s Hs. destruct (Hspecs s Hs) as [H1 H2]. split; [exact H1|].
    intros k a0 Hl. apply Hold in Hl; [|intros y; discriminate]. eauto.
Qed.

Lemma reconcile_one_keeps_inv h0 sig specs g arg s :
  s ∈ specs →
  keeps (λ h, copy_inv h0 sig h ∧ specs_above (length h0) specs h)
    (reconcile_one g (arg, s)).
Proof.
  intros Hs h Hinv. unfold reconcile_one, read_spec_arg, read, mbind, M_bind.
  destruct arg; simpl;
    destruct (h !! s) as [[sp|k a|y]|] eqn:Hl; simpl; try exact Hinv;
    destruct (h !! a) as [[sp|k1 a1|y]|] eqn:Hla; simpl; try exact Hinv;
    try (unfold lift; destruct (is_const_none y) as [[]|]; simpl;
         exact Hinv);
    try (unfold lift, resolve; simpl; exact Hinv).
  unfold lift, resolve. destruct (lookup_node g n); simpl; [|exact Hinv].
  destruct (negb _); simpl; [|exact Hinv].
  apply copy_inv_write; [exact Hinv|].
  destruct Hinv as [_ Hspecs]. eapply (Hspecs s Hs), Hl.
Qed.

Lemma rename_entry_keeps_inv h0 sig specs old new s :
  s ∈ specs →
  keeps (λ h, copy_inv h0 sig h ∧ specs_above (length h0) specs h)
    (rename_entry old new s).
Proof.
  intros Hs h Hinv. unfold rename_entry, read_spec_arg, read, mbind, M_bind.
  destruct (h !! s) as [[sp|k a|y]|] eqn:Hl; simpl; try exact Hinv.
  destruct (h !! a) as [[sp|k1 a1|y]|] eqn:Hla; simpl; try exact Hinv.
  destruct y as [nm|nm v]; simpl; [|exact Hinv].
  destruct (String.eqb nm old); simpl; [|exact Hinv].
  apply copy_inv_write; [exact Hinv|].
  destruct Hinv as [_ Hspecs]. eapply (Hspecs s Hs), Hl.
Qed.

Lemma reconcile_keeps_inv h0 sig g :
  keeps (copy_inv h0 sig) (reconcile g sig).
Proof.
  intros h Hinv. unfold reconcile.
  unfold mbind at 1, M_bind at 1, lift at 1.
  destruct (last _) as [out|]; [|exact Hinv].
  unfold mbind at 1, M_bind at 1, lift at 1.
  destruct (args0 out) as [a0|]; [|exact Hinv].
  unfold mbind at 1, M_bind at 1, lift at 1.
  destruct (as_sequence a0) as [out_args|]; [|exact Hinv].
  unfold mbind at 1, M_bind at 1, read_output_specs, read.
  unfold mbind at 1, M_bind at 1.
  destruct (h !! sig) as [[specs|k a|y]|] eqn:Hsig; simpl; try exact Hinv.
  unfold mbind at 1, M_bind at 1, lift at 1.
  destruct (assert _) as [[]|]; [|exact Hinv].
  assert (Hboth : copy_inv h0 sig h ∧ specs_above (length h0) specs h).
  { split; [exact Hinv|]. destruct Hinv as [_ Habove]. apply Habove, Hsig. }
  refine (proj1 (keeps_mapM_in
            (λ h, copy_inv h0 sig h ∧ specs_above (length h0) specs h)
            (reconcile_one g) (zip out_args specs) _ h Hboth)).
  intros [arg s] Hin. apply reconcile_one_keeps_inv.
  apply elem_of_zip_r in Hin. exact Hin.
Qed.

Lemma hook_keeps_inv h0 sig old new user :
  keeps (copy_inv h0 sig) (get_replace_hook sig old new user).
Proof.
  intros h Hinv. unfold get_replace_hook.
  destruct (bool_decide _); [|exact Hinv].
  unfold read_output_specs, read, mbind, M_bind.
  destruct (h !! sig) as [[specs|k a|y]|] eqn:Hsig; simpl; try exact Hinv.
  assert (Hboth : copy_inv h0 sig h ∧ specs_above (length h0) specs h).
  { split; [exact Hinv|]. destruct Hinv as [_ Habove]. apply Habove, Hsig. }
  refine (proj1 (keeps_mapM_in
            (λ h, copy_inv h0 sig h ∧ specs_above (length h0) specs h)
            (rename_entry (name old) new) specs _ h Hboth)).
  intros s Hs. apply rename_entry_keeps_inv, Hs.
Qed.

(** With a signature and markers, the split-and-replace step works on a
    copy. *)
Lemma helper_signature h0 gm sig :
  existsb _is_autocast_node (nodes gm) = true →
  extends h0 (_sequential_split_and_maybe_inline_subgraphs gm (Some sig) h0).1
  ∧ ∀ gm' s',
      (_sequential_split_and_maybe_inline_subgraphs gm (Some sig) h0).2
      = OK (gm', s') →
      ∃ l, s' = Some l ∧ length h0 ≤ l
           ∧ copy_inv h0 l
               (_sequential_split_and_maybe_inline_subgraphs
                  gm (Some sig) h0).1.
Proof.
  intros Hm. unfold _sequential_split_and_maybe_inline_subgraphs.
  rewrite Hm. simpl. unfold mbind, M_bind, lift, mret, M_ret.
  destruct (_split_autocast gm) as [new_gm|e];
    [|split; [apply extends_refl|discriminate]].
  destruct (deepcopy_spec_sig h0 sig) as [Hext Hcopy].
  destruct (deepcopy sig h0) as [h1 [sig'|e]]; simpl in Hext, Hcopy;
    [|split; [exact Hext|discriminate]].
  destruct Hcopy as [Hfresh Hinv1].
  pose proof (reconcile_keeps_inv h0 sig' (nodes new_gm) h1 Hinv1) as Hinv2.
  destruct (reconcile (nodes new_gm) sig' h1) as [h2 [[]|e]];
    simpl in Hinv2; [|split; [apply Hinv2|discriminate]].
  pose proof (keeps_foldM (copy_inv h0 sig') (visit (get_replace_hook sig'))
                (nodes new_gm)
                (λ s a, keeps_visit _ _ (hook_keeps_inv h0 sig') s a)
                new_gm h2 Hinv2) as Hinv3.
  destruct (foldM _ new_gm (nodes new_gm) h2) as [h3 [new_gm'|e]];
    simpl in Hinv3; [|split; [apply Hinv3|discriminate]].
  simpl. split; [apply Hinv3|].
  intros gm' s' Heq. inversion Heq; subst. eauto.
Qed.

(** C10: with a signature, the pass never changes an object that existed
    when it was called, whether it returns or raises.  When the graph has
    markers the signature it returns is a new object, not the caller's,
    and everything that object reaches is new as well; when the graph has
    no markers it returns the caller's object itself. *)
Theorem C10_signature_copied (depth : nat) (gm : GraphModule) (sig : nat)
    (h0 : heap) :
  sig < length h0 →
  (∀ l, l < length h0 →
        (replace_autocast_with_hop_pass depth gm (Some sig) h0).1 !! l
        = h0 !! l)
  ∧ ∀ gm' s',
      (replace_autocast_with_hop_pass depth gm (Some sig) h0).2
      = OK (gm', s') →
      if existsb _is_autocast_node (nodes gm)
      then ∃ l, s' = Some l ∧ l ≠ sig ∧ length h0 ≤ l
                ∧ args_above (length h0) l
                    (replace_autocast_with_hop_pass depth gm (Some sig) h0).1
      else s' = Some sig
           ∧ (replace_autocast_with_hop_pass depth gm (Some sig) h0).1 = h0.
Proof.
  intros Hsig.
  destruct (existsb _is_autocast_node (nodes gm)) eqn:Hm.
  - assert (Hmain :
      extends h0 (replace_autocast_with_hop_pass depth gm (Some sig) h0).1
      ∧ ∀ gm' s',
          (replace_autocast_with_hop_pass depth gm (Some sig) h0).2
          = OK (gm', s') →
          ∃ l, s' = Some l ∧ length h0 ≤ l
               ∧ copy_inv h0 l
                   (replace_autocast_with_hop_pass depth gm (Some sig) h0).1).
    { destruct depth as [|depth]; simpl;
        [split; [apply extends_refl|discriminate]|].
      destruct (helper_signature h0 gm sig Hm) as [Hext Hres].
      unfold mbind, M_bind, lift, mret, M_ret.
      destruct (_sequential_split_and_maybe_inline_subgraphs gm (Some sig) h0)
        as [h1 [[new_gm new_sig]|e]]; simpl in Hext, Hres;
        [|split; [exact Hext|discriminate]].
      destruct (Hres _ _ eq_refl) as (l & -> & Hl & Hinv1).
      pose proof (keeps_foldM (copy_inv h0 l)
                    (descend (λ subgm,
                       replace_autocast_with_hop_pass depth subgm None))
                    (nodes new_gm)
                    (λ s a, keeps_descend _ _ s a
                              (λ g, keeps_pass_None _ depth g))
                    new_gm h1 Hinv1) as Hinv2.
      destruct (foldM _ new_gm (nodes new_gm) h1) as [h2 [new_gm'|e]];
        simpl in Hinv2; [|split; [apply Hinv2|discriminate]].
      destruct (lint (nodes new_gm')) as [[]|e]; simpl;
        [|split; [apply Hinv2|discriminate]].
      split; [apply Hinv2|]. intros gm' s' Heq. inversion Heq; subst. eauto. }
    destruct Hmain as [Hext Hres]. split.
    + intros l Hl. apply extends_lookup; assumption.
    + intros gm' s' Heq. destruct (Hres gm' s' Heq) as (l & -> & Hl & Hinv).
      exists l. split; [reflexivity|]. split; [lia|].
      split; [exact Hl|apply Hinv].
  - destruct (replace_autocast_with_hop_pass depth gm (Some sig) h0)
      as [h' [[gm1 s1]|e]] eqn:Hrun; simpl.
    + destruct (pass_no_markers gm (Some sig) Hm depth h0 h' gm1 s1 Hrun)
        as (_ & -> & ->).
      split; [reflexivity|]. intros gm' s' Heq. inversion Heq; auto.
    + split; [|discriminate].
      pose proof (helper_no_markers gm (Some sig) h0 Hm) as Hh.
      destruct depth as [|depth]; simpl in Hrun;
        [inversion Hrun; reflexivity|].
      erewrite bind_OK in Hrun by exact Hh. cbv beta iota in Hrun.
      pose proof (keeps_foldM (eq h0)
                    (descend (λ subgm,
                       replace_autocast_with_hop_pass depth subgm None))
                    (nodes gm)
                    (λ s a, keeps_descend _ _ s a
                              (λ g, keeps_pass_None _ depth g))
                    gm h0 eq_refl) as Hk.
      unfold mbind, M_bind in Hrun.
      destruct (foldM _ gm (nodes gm) h0) as [h2 [g2|e2]]; simpl in Hk;
        subst h2.
      * unfold lift in Hrun. destruct (lint (nodes g2)) as [[]|];
          inversion Hrun; reflexivity.
      * inversion Hrun; reflexivity.
Qed.

Lemma C10_witness :
  ∃ h' gm' l,
    replace_autocast_with_hop_pass 3 tuple_region_graph (Some 0)
      tuple_region_heap = (h', OK (gm', Some l))
    ∧ l ≠ 0
    ∧ (∀ a, a < 5 → h' !! a = tuple_region_heap !! a).
Proof.
  pose proof (C10_signature_copied 3 tuple_region_graph 0 tuple_region_heap)
    as H.
  destruct (replace_autocast_with_hop_pass 3 tuple_region_graph (Some 0)
              tuple_region_heap) as [h' [[gm' s']|e]] eqn:Hrun;
    [|vm_compute in Hrun; discriminate Hrun].
  destruct H as [Hframe Hres]; [simpl; lia|].
  destruct (Hres gm' s' eq_refl) as (l & -> & Hne & _).
  exists h', gm', l. split; [reflexivity|]. split; [exact Hne|].
  exact Hframe.
Defined.

(** ** Lists of nodes: insertion, removal, counting *)

Lemma fresh_nid_gt g n : n ∈ g → nid n < fresh_nid g.
Proof.
  unfold fresh_nid. induction g as [|m g IH]; intros Hin.
  - inversion Hin.
  - apply elem_of_cons in Hin as [->|Hin]; simpl; [lia|].
    specialize (IH Hin). lia.
Qed.

Lemma nid_inj g n n' :
  NoDup (nid <$> g) → n ∈ g → n' ∈ g → nid n = nid n' → n = n'.
Proof.
  induction g as [|m g IH]; intros Hnd Hn Hn' Heq; [inversion Hn|].
  rewrite fmap_cons in Hnd. apply NoDup_cons in Hnd as [Hm Hnd].
  apply elem_of_cons in Hn as [->|Hn];
    apply elem_of_cons in Hn' as [->|Hn']; auto.
  - exfalso. apply Hm. rewrite Heq. apply list_elem_of_fmap. eauto.
  - exfalso. apply Hm. rewrite <- Heq. apply list_elem_of_fmap. eauto.
Qed.

Lemma count_app f g1 g2 : count f (g1 ++ g2) = count f g1 + count f g2.
Proof. unfold count. rewrite List.filter_app, length_app. reflexivity. Qed.




Lemma users_nil_iff g i : users g i = [] ↔ ∀ n, n ∈ g → uses i n = false.
Proof.
  unfold users. induction g as [|m g IH]; simpl.
  - split; [intros _ n Hn; inversion Hn|reflexivity].
  - destruct (uses i m) eqn:Hm.
    + split; [discriminate|]. intros H. specialize (H m (list_elem_of_here _ _)).
      congruence.
    + rewrite IH. split.
      * intros H n Hn. apply elem_of_cons in Hn as [->|Hn]; auto.
      * intros H n Hn. apply H. right. exact Hn.
Qed.

Lemma elem_of_insert_before g a new x :
  x ∈ insert_before g a new ↔ x ∈ new ∨ x ∈ g.
Proof.
  induction g as [|n g IH]; simpl.
  - split; [auto|]. intros [H|H]; [exact H|inversion H].
  - destruct (Nat.eqb (nid n) a).
    + rewrite elem_of_app. reflexivity.
    + rewrite !elem_of_cons, IH. tauto.
Qed.

Lemma last_cons_snoc {A} (x : A) l y : last (x :: l ++ [y]) = Some y.
Proof. rewrite app_comm_cons. apply last_snoc. Qed.

(** ** Running the replacer on a scope-body segment *)

Section ScopeBody.
Context (hook : hook_t) (gm : GraphModule) (node : Node) (tname : string)
  (sub_gm : GraphModule) (enter exit : Node).
Hypothesis (SB : scope_body gm node tname sub_gm enter exit).

Let ga : Node := new_get_attr (fresh_nid (nodes gm)) tname enter.
Let graph1 : list Node := insert_before (nodes gm) (nid node) [ga].

Lemma replace_with_hop_run h :
  _replace_with_hop hook gm node h
  = (graph ← replace_call hook graph1 (nodes sub_gm) node enter ga;
     mret (mkGM graph
             (setattr (attrs gm) tname
                (AModule (without_markers sub_gm enter exit))))) h.
Proof.
  destruct SB as [_ _ Hop Htgt Hchild [mid Hmark] Hen Hex [rest Hcl] Hxu Heu].
  assert (Hlen : bool_decide (1 < length (enter :: mid ++ [exit])) = true).
  { apply bool_decide_eq_true. simpl. rewrite length_app. simpl. lia. }
  unfold _replace_with_hop, get_submodule, mbind, M_bind, lift.
  rewrite Hop, Htgt, Hchild. simpl.
  unfold nodes_filter in *. rewrite Hmark, last_cons_snoc, Hlen. simpl.
  unfold _check_valid_autocast_block, args0, mbind, result_bind.
  rewrite Hen, Hex, Hcl. simpl.
  rewrite (bool_decide_eq_true_2 _ eq_refl). simpl.
  fold ga. fold graph1.
  destruct (replace_call hook graph1 (nodes sub_gm) node enter ga h)
    as [h1 [g|e]]; [|reflexivity].
  unfold erase_node. rewrite Hxu. simpl. rewrite Heu. reflexivity.
Qed.



End ScopeBody.

Lemma getattr_setattr a t v : getattr (setattr a t v) t = Some v.
Proof.
  induction a as [|[k w] a IH]; simpl.
  - rewrite String.eqb_refl. reflexivity.
  - destruct (String.eqb k t) eqn:Hk; simpl; rewrite Hk; auto.
Qed.


Lemma elem_of_remove_node g i n :
  n ∈ remove_node g i ↔ n ∈ g ∧ nid n ≠ i.
Proof.
  unfold remove_node. rewrite !list_elem_of_In, List.filter_In.
  rewrite negb_true_iff, Nat.eqb_neq. reflexivity.
Qed.

Lemma find_output_node_None g :
  Forall (λ n, op n ≠ output) g → find_output_node g = None.
Proof.
  intros H. unfold find_output_node.
  destruct (last g) as [n|] eqn:Hl; [|reflexivity].
  apply last_Some_elem_of in Hl.
  pose proof (proj1 (Forall_forall _ _) H n Hl) as Hn.
  rewrite bool_decide_eq_false_2 by exact Hn. reflexivity.
Qed.



(** ** Replacement of the invocation *)






Lemma elem_of_replace_uses g old new m :
  m ∈ replace_uses g old new
  ↔ ∃ n, n ∈ g ∧ m = map_node_args (subst1 old new) n.
Proof.
  unfold replace_uses. rewrite list_elem_of_In, in_map_iff.
  split; intros (n & H1 & H2); exists n; rewrite ?list_elem_of_In in *; auto.
Qed.

Lemma mapM_total hook old new : total hook →
  ∀ l h, ∃ h', mapM_ (hook old new) l h = (h', OK ()).
Proof.
  intros Ht. induction l as [|u l IH]; intros h; simpl; [eauto|].
  unfold mbind, M_bind. specialize (Ht old new u h).
  destruct (hook old new u h) as [h1 r]; simpl in Ht; subst r.
  apply IH.
Qed.

Lemma node_replace_total hook g old new d h : total hook →
  ∃ h', node_replace_ hook g old new d h
        = (h', OK (if d then remove_node (replace_uses g (nid old) (nid new))
                               (nid old)
                   else replace_uses g (nid old) (nid new))).
Proof.
  intros Ht. unfold node_replace_, mbind, M_bind.
  destruct (mapM_total hook old (name new) Ht (users g (nid old)) h)
    as [h' ->].
  exists h'. reflexivity.
Qed.

Lemma find_output_node_Some g out :
  last g = Some out → op out = output → find_output_node g = Some out.
Proof.
  intros Hl Ho. unfold find_output_node. rewrite Hl.
  rewrite bool_decide_eq_true_2 by exact Ho. reflexivity.
Qed.

Lemma lookup_node_elem g i n :
  NoDup (nid <$> g) → n ∈ g → nid n = i → lookup_node g i = Some n.
Proof.
  intros Hnd Hn Hi. unfold lookup_node.
  destruct (List.find _ g) as [m|] eqn:Hf.
  - apply find_some in Hf as [Hm Heq]. apply Nat.eqb_eq in Heq.
    f_equal. apply (nid_inj g); auto; [apply list_elem_of_In, Hm|congruence].
  - apply list_elem_of_In in Hn. eapply find_none in Hf; [|exact Hn].
    simpl in Hf. apply Nat.eqb_neq in Hf. contradiction.
Qed.

Lemma lookup_node_Some g i n :
  lookup_node g i = Some n → n ∈ g ∧ nid n = i.
Proof.
  unfold lookup_node. intros H. apply find_some in H as [H1 H2].
  split; [apply list_elem_of_In, H1|apply Nat.eqb_eq, H2].
Qed.


Ltac scope_body_concrete :=
  constructor;
  [ apply list_elem_of_In; simpl; tauto
  | apply (bool_decide_unpack _); reflexivity
  | reflexivity | reflexivity | reflexivity
  | exists []; reflexivity
  | reflexivity | reflexivity
  | exists []; reflexivity
  | reflexivity | reflexivity ].


(** ** References and their rewriting *)

Lemma Arg_ind' (P : Arg → Prop) :
  (∀ n, P (ANode n)) → P ANone → (∀ z, P (AInt z)) → (∀ s, P (AStr s)) →
  (∀ l, Forall P l → P (ATuple l)) → (∀ l, Forall P l → P (AList l)) →
  ∀ a, P a.
Proof.
  intros Hn Hnone Hz Hs Ht Hl.
  fix IH 1. intros [n| |z|s|l|l].
  - apply Hn.
  - apply Hnone.
  - apply Hz.
  - apply Hs.
  - apply Ht.
    exact ((fix go (l : list Arg) : Forall P l :=
              match l with
              | [] => Forall_nil_2 P
              | x :: l' => Forall_cons_2 P x l' (IH x) (go l')
              end) l).
  - apply Hl.
    exact ((fix go (l : list Arg) : Forall P l :=
              match l with
              | [] => Forall_nil_2 P
              | x :: l' => Forall_cons_2 P x l' (IH x) (go l')
              end) l).
Qed.

Lemma arg_nodes_map σ a : arg_nodes (arg_map σ a) = List.map σ (arg_nodes a).
Proof.
  induction a as [n| |z|s|l IH|l IH] using Arg_ind'; try reflexivity.
  - simpl. induction IH as [|x l Hx _ IHl]; [reflexivity|].
    simpl. rewrite List.map_app, Hx, IHl. reflexivity.
  - simpl. induction IH as [|x l Hx _ IHl]; [reflexivity|].
    simpl. rewrite List.map_app, Hx, IHl. reflexivity.
Qed.

Lemma node_refs_map σ n :
  node_refs (map_node_args σ n) = List.map σ (node_refs n).
Proof.
  unfold node_refs. simpl. induction (args n) as [|a l IH]; [reflexivity|].
  simpl. rewrite List.map_app, arg_nodes_map, IH. reflexivity.
Qed.

Lemma mem_true i l : mem i l = true ↔ i ∈ l.
Proof.
  unfold mem. rewrite existsb_exists, list_elem_of_In. split.
  - intros (x & Hx & Heq). apply Nat.eqb_eq in Heq. subst. exact Hx.
  - intros H. exists i. split; [exact H|apply Nat.eqb_refl].
Qed.


(** In a well-formed graph every reference is to a node of the graph, and
    no node refers to itself. *)
Lemma lint_from_refs g : ∀ seen,
  lint_from seen g = true →
  ∀ n i, n ∈ g → i ∈ node_refs n → i ∈ seen ∨ i ∈ nid <$> g.
Proof.
  induction g as [|m g IH]; intros seen Hl n i Hn Hi; [inversion Hn|].
  simpl in Hl. apply andb_true_iff in Hl as [Hm Hg].
  apply elem_of_cons in Hn as [->|Hn].
  - left. rewrite forallb_forall in Hm. apply mem_true, Hm.
    apply list_elem_of_In, Hi.
  - destruct (IH _ Hg n i Hn Hi) as [H|H].
    + apply elem_of_cons in H as [->|H]; [|left; exact H].
      right. rewrite fmap_cons. left.
    + right. rewrite fmap_cons. right. exact H.
Qed.

Lemma well_formed_refs g n i :
  well_formed g → n ∈ g → i ∈ node_refs n → i < fresh_nid g.
Proof.
  intros Hwf Hn Hi.
  destruct (lint_from_refs g [] Hwf n i Hn Hi) as [H|H]; [inversion H|].
  apply list_elem_of_fmap in H as (m & -> & Hm). apply fresh_nid_gt, Hm.
Qed.

Lemma lint_from_no_self g : ∀ seen,
  lint_from seen g = true → NoDup (seen ++ (nid <$> g)) →
  ∀ n, n ∈ g → nid n ∉ node_refs n.
Proof.
  induction g as [|m g IH]; intros seen Hl Hnd n Hn; [inversion Hn|].
  simpl in Hl. apply andb_true_iff in Hl as [Hm Hg].
  rewrite fmap_cons in Hnd.
  apply elem_of_cons in Hn as [->|Hn].
  - intros Hself. rewrite forallb_forall in Hm.
    apply list_elem_of_In, Hm, mem_true in Hself.
    apply NoDup_app in Hnd as (_ & Hdisj & _).
    apply (Hdisj _ Hself). left.
  - apply (IH (nid m :: seen) Hg); [|exact Hn].
    rewrite <- Permutation_middle in Hnd. exact Hnd.
Qed.

Lemma well_formed_no_self g n :
  well_formed g → NoDup (nid <$> g) → n ∈ g → uses (nid n) n = false.
Proof.
  intros Hwf Hnd Hn. apply not_true_iff_false. intros Hu.
  apply mem_true in Hu.
  exact (lint_from_no_self g [] Hwf Hnd n Hn Hu).
Qed.



Lemma fresh_nid_not_in g : fresh_nid g ∉ nid <$> g.
Proof.
  intros H. apply list_elem_of_fmap in H as (n & Heq & Hn).
  pose proof (fresh_nid_gt _ _ Hn). lia.
Qed.




(** ** The renaming loop *)


Lemma update_node_twice g i k1 k2 :
  (∀ n, nid (k1 n) = nid n) →
  update_node (update_node g i k1) i k2 = update_node g i (k2 ∘ k1).
Proof.
  intros Hk. unfold update_node. rewrite List.map_map.
  apply List.map_ext. intros n.
  destruct (Nat.eqb (nid n) i) eqn:Heq; [|rewrite Heq; reflexivity].
  rewrite Hk, Heq. reflexivity.
Qed.





(** ** The tuple case *)

Lemma py_index_nat {A} (l : list A) i x :
  l !! i = Some x → py_index l (Z.of_nat i) = OK x.
Proof.
  intros H. unfold py_index.
  assert (E : (Z.of_nat i <? 0)%Z = false) by (apply Z.ltb_ge; lia).
  rewrite E. cbv zeta. rewrite E, Nat2Z.id, H. reflexivity.
Qed.

Lemma mapR_meta_val sub members onodes vals :
  Forall2 (λ m o, ∃ i, m = ANode i ∧ lookup_node sub i = Some o)
    members onodes →
  Forall2 (λ o v, meta o !! "val" = Some v) onodes vals →
  mapR (meta_val sub) members = OK vals.
Proof.
  intros H1. revert vals.
  induction H1 as [|m o members onodes (i & -> & Hi) _ IH]; intros vals H2.
  - apply Forall2_nil_inv_l in H2 as ->. reflexivity.
  - apply Forall2_cons_inv_l in H2 as (v & vals' & Hv & H2 & ->).
    cbn [mapR]. rewrite (IH _ H2).
    unfold meta_val, resolve, mbind, result_bind. rewrite Hi, Hv.
    reflexivity.
Qed.

Lemma member_of_replaced sub members onodes σ u a0 idx t o :
  Forall2 (λ m o, ∃ i, m = ANode i ∧ lookup_node sub i = Some o)
    members onodes →
  args u = a0 :: AInt (Z.of_nat idx) :: t → onodes !! idx = Some o →
  member_of sub members (map_node_args σ u) = OK o.
Proof.
  intros H2 Hargs Ho.
  destruct (Forall2_lookup_r _ _ _ _ _ H2 Ho) as (m & Hm & i & -> & Hi).
  unfold member_of, map_node_args, set_args, mbind, result_bind.
  cbn [args]. rewrite Hargs. cbn [List.map arg_map].
  rewrite (py_index_nat _ _ _ Hm). unfold resolve. rewrite Hi.
  reflexivity.
Qed.



(** ** Rewriting references: extensionality and composition *)

Lemma arg_map_ext f g a :
  (∀ i, i ∈ arg_nodes a → f i = g i) → arg_map f a = arg_map g a.
Proof.
  induction a as [n| |z|s|l IH|l IH] using Arg_ind'; intros H;
    try reflexivity.
  - simpl. rewrite H; [reflexivity|left].
  - simpl. f_equal. induction IH as [|x l Hx _ IHl]; [reflexivity|].
    simpl in *. f_equal.
    + apply Hx. intros i Hi. apply H. apply elem_of_app. left. exact Hi.
    + apply IHl. intros i Hi. apply H. apply elem_of_app. right. exact Hi.
  - simpl. f_equal. induction IH as [|x l Hx _ IHl]; [reflexivity|].
    simpl in *. f_equal.
    + apply Hx. intros i Hi. apply H. apply elem_of_app. left. exact Hi.
    + apply IHl. intros i Hi. apply H. apply elem_of_app. right. exact Hi.
Qed.

Lemma map_node_args_ext f g n :
  (∀ i, i ∈ node_refs n → f i = g i) →
  map_node_args f n = map_node_args g n.
Proof.
  intros H. unfold map_node_args, set_args. f_equal.
  unfold node_refs in H. induction (args n) as [|a l IH]; [reflexivity|].
  simpl in *. f_equal.
  - apply arg_map_ext. intros i Hi. apply H, elem_of_app. left. exact Hi.
  - apply IH. intros i Hi. apply H, elem_of_app. right. exact Hi.
Qed.

Lemma arg_map_id a : arg_map (λ i, i) a = a.
Proof.
  induction a as [n| |z|s|l IH|l IH] using Arg_ind'; try reflexivity.
  - simpl. f_equal. induction IH as [|x l Hx _ IHl]; [reflexivity|].
    simpl. rewrite Hx, IHl. reflexivity.
  - simpl. f_equal. induction IH as [|x l Hx _ IHl]; [reflexivity|].
    simpl. rewrite Hx, IHl. reflexivity.
Qed.

Lemma map_node_args_id n : map_node_args (λ i, i) n = n.
Proof.
  unfold map_node_args, set_args. destruct n as [i nm o t a m]. simpl.
  f_equal. induction a as [|x l IH]; [reflexivity|].
  simpl. rewrite arg_map_id, IH. reflexivity.
Qed.

Lemma map_node_args_same f n :
  (∀ i, i ∈ node_refs n → f i = i) → map_node_args f n = n.
Proof.
  intros H. rewrite <- (map_node_args_id n) at 2.
  apply map_node_args_ext. exact H.
Qed.

Lemma arg_map_compose f g a : arg_map f (arg_map g a) = arg_map (f ∘ g) a.
Proof.
  induction a as [n| |z|s|l IH|l IH] using Arg_ind'; try reflexivity.
  - simpl. f_equal. induction IH as [|x l Hx _ IHl]; [reflexivity|].
    simpl. rewrite Hx, IHl. reflexivity.
  - simpl. f_equal. induction IH as [|x l Hx _ IHl]; [reflexivity|].
    simpl. rewrite Hx, IHl. reflexivity.
Qed.

Lemma map_node_args_compose f g n :
  map_node_args f (map_node_args g n) = map_node_args (f ∘ g) n.
Proof.
  unfold map_node_args, set_args. simpl. f_equal.
  induction (args n) as [|x l IH]; [reflexivity|].
  simpl. rewrite arg_map_compose, IH. reflexivity.
Qed.

Lemma remove_node_map f g i :
  remove_node (List.map (map_node_args f) g) i
  = List.map (map_node_args f) (remove_node g i).
Proof.
  unfold remove_node. induction g as [|n g IH]; [reflexivity|].
  simpl. destruct (negb _); simpl; rewrite IH; reflexivity.
Qed.

Lemma remove_nodes_map f g ids :
  remove_nodes ids (List.map (map_node_args f) g)
  = List.map (map_node_args f) (remove_nodes ids g).
Proof.
  unfold remove_nodes. induction g as [|n g IH]; [reflexivity|].
  simpl. destruct (negb _); simpl; rewrite IH; reflexivity.
Qed.

Lemma remove_nodes_cons i ids g :
  remove_nodes (i :: ids) g = remove_nodes ids (remove_node g i).
Proof.
  unfold remove_nodes, remove_node, mem.
  induction g as [|n g IH]; [reflexivity|]. simpl in *.
  destruct (Nat.eqb (nid n) i); simpl; [exact IH|].
  destruct (negb (existsb (Nat.eqb (nid n)) ids)); rewrite IH; reflexivity.
Qed.

Lemma remove_nodes_nil g : remove_nodes [] g = g.
Proof.
  unfold remove_nodes, mem. induction g as [|n g IH]; [reflexivity|].
  simpl in *. rewrite IH. reflexivity.
Qed.

Lemma replace_uses_map g old new :
  replace_uses g old new = List.map (map_node_args (subst1 old new)) g.
Proof. reflexivity. Qed.

(** * One top-level region: what the pass returns *)

(** ** The boundary tracker *)

Lemma traverse_app {St} (cb : St → Node → result (bool * St)) l1 : ∀ l2 s,
  traverse cb s (l1 ++ l2)
  = '(b1, s1) ← traverse cb s l1;
    '(b2, s2) ← traverse cb s1 l2;
    OK (b1 ++ b2, s2).
Proof.
  induction l1 as [|n l1 IH]; intros l2 s; simpl.
  - destruct (traverse cb s l2) as [[b2 s2]|e]; reflexivity.
  - destruct (cb s n) as [[b s1]|e]; simpl; [|reflexivity].
    rewrite IH. destruct (traverse cb s1 l1) as [[b1 s1']|e]; simpl;
      [|reflexivity].
    destruct (traverse cb s1' l2) as [[b2 s2]|e]; reflexivity.
Qed.

Lemma not_marker_enter n :
  _is_autocast_node n = false → _is_enter_autocast_node n = false.
Proof.
  unfold _is_autocast_node, _is_enter_autocast_node.
  destruct (bool_decide (op n = call_function)); simpl; [|reflexivity].
  intros H. apply orb_false_iff in H as [H _]. exact H.
Qed.

Lemma not_marker_exit n :
  _is_autocast_node n = false → _is_exit_autocast_node n = false.
Proof.
  unfold _is_autocast_node, _is_exit_autocast_node.
  destruct (bool_decide (op n = call_function)); simpl; [|reflexivity].
  intros H. apply orb_false_iff in H as [_ H]. exact H.
Qed.

Lemma plain_not_marker n : is_plain n = true → _is_autocast_node n = false.
Proof.
  unfold is_plain, _is_autocast_node. intros H.
  apply andb_true_iff in H as [H1 H2]. rewrite H1. simpl.
  destruct (target n); try discriminate. reflexivity.
Qed.

Lemma placeholder_not_marker n :
  op n = placeholder → _is_autocast_node n = false.
Proof. intros H. unfold _is_autocast_node. rewrite H. reflexivity. Qed.

Lemma output_not_marker n : op n = output → _is_autocast_node n = false.
Proof. intros H. unfold _is_autocast_node. rewrite H. reflexivity. Qed.

(** Outside a region, and inside one, a node that is no marker is answered
    with false and leaves the state alone. *)
Lemma call_back_quiet st n :
  first_node_after_outer_most_exit st = false →
  _is_autocast_node n = false →
  node_call_back st n = OK (false, st).
Proof.
  intros Hflag Hn. unfold node_call_back.
  rewrite Hflag, (not_marker_enter _ Hn), (not_marker_exit _ Hn).
  rewrite andb_false_r. reflexivity.
Qed.

Lemma traverse_quiet st l :
  first_node_after_outer_most_exit st = false →
  Forall (λ n, _is_autocast_node n = false) l →
  traverse node_call_back st l = OK (repeat false (length l), st).
Proof.
  intros Hflag H. induction H as [|n l Hn _ IH]; [reflexivity|].
  simpl. rewrite (call_back_quiet _ _ Hflag Hn). simpl. rewrite IH.
  reflexivity.
Qed.

Lemma call_back_enter n :
  _is_enter_autocast_node n = true →
  node_call_back cb_init n = OK (true, mkCb [n] false).
Proof. intros H. unfold node_call_back. simpl. rewrite H. reflexivity. Qed.

Lemma call_back_exit enter exit :
  _is_enter_autocast_node exit = false →
  _is_exit_autocast_node exit = true →
  args exit = [ANode (nid enter)] →
  node_call_back (mkCb [enter] false) exit = OK (false, mkCb [] true).
Proof.
  intros Hen Hex Hargs. unfold node_call_back, args0. simpl.
  rewrite Hex, Hargs. simpl.
  rewrite (bool_decide_eq_true_2 _ eq_refl). reflexivity.
Qed.

Lemma call_back_after_exit n :
  _is_autocast_node n = false →
  node_call_back (mkCb [] true) n = OK (true, cb_init).
Proof.
  intros Hn. unfold node_call_back. simpl.
  rewrite (not_marker_enter _ Hn). reflexivity.
Qed.

Lemma exit_not_enter n :
  _is_exit_autocast_node n = true → _is_enter_autocast_node n = false.
Proof.
  unfold _is_exit_autocast_node, _is_enter_autocast_node. intros H.
  apply andb_true_iff in H as [H1 H2]. rewrite H1. simpl.
  apply bool_decide_eq_true in H2. rewrite H2. reflexivity.
Qed.

(** ** Segment numbers *)

Lemma split_ids_quiet c n : split_ids c (repeat false n) = repeat c n.
Proof. induction n as [|n IH]; simpl; [reflexivity|]. rewrite IH. auto. Qed.

Lemma repeat_snoc_cons {A} (a : A) n l :
  repeat a n ++ a :: l = a :: repeat a n ++ l.
Proof. induction n as [|n IH]; simpl; [|rewrite IH]; reflexivity. Qed.

Lemma split_ids_quiet_app c n l :
  split_ids c (repeat false n ++ l) = repeat c n ++ split_ids c l.
Proof. induction n as [|n IH]; simpl; [reflexivity|]. rewrite IH. auto. Qed.

Lemma zip_app_same {A B} (l1 l2 : list A) (k1 k2 : list B) :
  length l1 = length k1 →
  zip (l1 ++ l2) (k1 ++ k2) = zip l1 k1 ++ zip l2 k2.
Proof. intros H. apply zip_with_app, H. Qed.

(** The nodes of one segment among nodes that all carry the number [c]. *)
Lemma segment_repeat l c i :
  fst <$> List.filter (λ p, is_body (fst p) && Nat.eqb (snd p) i)
            (zip l (repeat c (length l)))
  = if Nat.eqb c i then List.filter is_body l else [].
Proof.
  destruct (Nat.eqb c i) eqn:Hc.
  - induction l as [|n l IH]; [reflexivity|].
    cbn [length repeat zip_with List.filter fst snd]. rewrite Hc, andb_true_r.
    destruct (is_body n); [rewrite fmap_cons; simpl; f_equal|]; exact IH.
  - induction l as [|n l IH]; [reflexivity|].
    cbn [length repeat zip_with List.filter fst snd]. rewrite Hc, andb_false_r.
    exact IH.
Qed.

Lemma filter_all (f : Node → bool) l :
  Forall (λ n, f n = true) l → List.filter f l = l.
Proof.
  intros H. induction H as [|n l Hn _ IH]; simpl; [reflexivity|].
  rewrite Hn, IH. reflexivity.
Qed.

Lemma filter_none (f : Node → bool) l :
  Forall (λ n, f n = false) l → List.filter f l = [].
Proof.
  intros H. induction H as [|n l Hn _ IH]; simpl; [reflexivity|].
  rewrite Hn, IH. reflexivity.
Qed.

Lemma plain_is_body n : is_plain n = true → is_body n = true.
Proof.
  unfold is_plain, is_body. intros H. apply andb_true_iff in H as [H _].
  apply bool_decide_eq_true in H. rewrite H. reflexivity.
Qed.

Lemma plain_op n : is_plain n = true → op n = call_function.
Proof.
  unfold is_plain. intros H. apply andb_true_iff in H as [H _].
  apply bool_decide_eq_true in H. exact H.
Qed.

Lemma marker_op n : _is_autocast_node n = true → op n = call_function.
Proof.
  unfold _is_autocast_node. intros H. apply andb_true_iff in H as [H _].
  apply bool_decide_eq_true in H. exact H.
Qed.

Lemma enter_marker n :
  _is_enter_autocast_node n = true → _is_autocast_node n = true.
Proof.
  unfold _is_enter_autocast_node, _is_autocast_node. intros H.
  apply andb_true_iff in H as [H1 H2]. rewrite H1, H2. reflexivity.
Qed.

Lemma exit_marker n :
  _is_exit_autocast_node n = true → _is_autocast_node n = true.
Proof.
  unfold _is_exit_autocast_node, _is_autocast_node. intros H.
  apply andb_true_iff in H as [H1 H2]. rewrite H1, H2.
  apply orb_true_r.
Qed.

Lemma add_segment_empty orig a st i : add_segment orig a st (i, []) = st.
Proof. reflexivity. Qed.

Lemma fold_add_segment_tail orig a (f : nat → list Node) m : ∀ n st,
  (∀ i, n ≤ i → f i = []) →
  fold_left (add_segment orig a) ((λ i, (i, f i)) <$> seq n m) st = st.
Proof.
  induction m as [|m IH]; intros n st Hf; [reflexivity|].
  cbn [seq]. rewrite fmap_cons. cbn [fold_left].
  rewrite (Hf n (le_n n)), add_segment_empty.
  apply IH. intros i Hi. apply Hf. lia.
Qed.

Section OneRegion.
Context (gm : GraphModule) (phs pre : list Node) (enter : Node)
  (body : list Node) (exit : Node) (post : list Node) (out : Node) (k : nat).
Hypothesis (OR : one_region gm phs pre enter body exit post out k).

Let region : list Node := enter :: body ++ [exit].

Lemma or_quiet_prefix :
  Forall (λ n, _is_autocast_node n = false) (phs ++ pre).
Proof.
  apply Forall_app. split.
  - eapply Forall_impl; [apply (or_phs _ _ _ _ _ _ _ _ _ OR)|].
    intros n. apply placeholder_not_marker.
  - eapply Forall_impl; [apply (or_pre _ _ _ _ _ _ _ _ _ OR)|].
    intros n. apply plain_not_marker.
Qed.

Lemma or_quiet_body : Forall (λ n, _is_autocast_node n = false) body.
Proof.
  eapply Forall_impl; [apply (or_body _ _ _ _ _ _ _ _ _ OR)|].
  intros n. apply plain_not_marker.
Qed.

Lemma or_quiet_suffix :
  Forall (λ n, _is_autocast_node n = false) (post ++ [out]).
Proof.
  apply Forall_app. split.
  - eapply Forall_impl; [apply (or_post _ _ _ _ _ _ _ _ _ OR)|].
    intros n. apply plain_not_marker.
  - constructor; [|constructor].
    apply output_not_marker, (or_out _ _ _ _ _ _ _ _ _ OR).
Qed.

Lemma traverse_region :
  traverse node_call_back cb_init region
  = OK (true :: repeat false (length body) ++ [false], mkCb [] true).
Proof.
  unfold region. cbn [traverse].
  rewrite (call_back_enter _ (or_enter _ _ _ _ _ _ _ _ _ OR)).
  cbn [mbind result_bind]. rewrite traverse_app.
  rewrite (traverse_quiet (mkCb [enter] false) body eq_refl or_quiet_body).
  cbn [mbind result_bind traverse].
  rewrite (call_back_exit enter exit
             (exit_not_enter _ (or_exit _ _ _ _ _ _ _ _ _ OR))
             (or_exit _ _ _ _ _ _ _ _ _ OR)
             (or_closes _ _ _ _ _ _ _ _ _ OR)).
  reflexivity.
Qed.

Lemma traverse_suffix :
  traverse node_call_back (mkCb [] true) (post ++ [out])
  = OK (true :: repeat false (length post), cb_init).
Proof.
  pose proof or_quiet_suffix as Hq.
  destruct post as [|n post'].
  - cbn [app traverse] in *. apply Forall_cons in Hq as [Hn _].
    rewrite (call_back_after_exit _ Hn). reflexivity.
  - cbn [app traverse] in *. apply Forall_cons in Hq as [Hn Hq].
    rewrite (call_back_after_exit _ Hn). cbn [mbind result_bind].
    rewrite (traverse_quiet cb_init _ eq_refl Hq). cbn [mbind result_bind].
    rewrite length_app. simpl. rewrite Nat.add_1_r. reflexivity.
Qed.

Lemma traverse_one_region :
  traverse node_call_back cb_init (nodes gm)
  = OK (repeat false (length (phs ++ pre))
          ++ (true :: repeat false (length body) ++ [false])
          ++ (true :: repeat false (length post)), cb_init).
Proof.
  rewrite (or_nodes _ _ _ _ _ _ _ _ _ OR).
  rewrite (app_assoc phs pre). rewrite traverse_app.
  rewrite (traverse_quiet cb_init _ eq_refl or_quiet_prefix).
  cbn [mbind result_bind].
  rewrite traverse_app. fold region. rewrite traverse_region.
  cbn [mbind result_bind].
  rewrite traverse_suffix. reflexivity.
Qed.

Lemma split_ids_one_region :
  split_ids 0
    (repeat false (length (phs ++ pre))
       ++ (true :: repeat false (length body) ++ [false])
       ++ (true :: repeat false (length post)))
  = repeat 0 (length (phs ++ pre)) ++ repeat 1 (length region)
    ++ repeat 2 (length (post ++ [out])).
Proof.
  rewrite split_ids_quiet_app. f_equal.
  cbn [app]. rewrite <- app_assoc. cbn [split_ids].
  rewrite split_ids_quiet_app. cbn [app split_ids].
  rewrite split_ids_quiet. unfold region.
  cbn [length]. rewrite !length_app. cbn [length].
  rewrite !Nat.add_1_r. cbn [repeat app].
  f_equal. apply repeat_snoc_cons.
Qed.

Lemma or_region_calls :
  Forall (λ n, op n = call_function) (pre ++ region ++ post).
Proof.
  apply Forall_app. split; [|apply Forall_app; split].
  - eapply Forall_impl; [apply (or_pre _ _ _ _ _ _ _ _ _ OR)|].
    intros n. apply plain_op.
  - unfold region. constructor.
    + apply marker_op, enter_marker, (or_enter _ _ _ _ _ _ _ _ _ OR).
    + apply Forall_app. split.
      * eapply Forall_impl; [apply (or_body _ _ _ _ _ _ _ _ _ OR)|].
        intros n. apply plain_op.
      * constructor; [|constructor].
        apply marker_op, exit_marker, (or_exit _ _ _ _ _ _ _ _ _ OR).
  - eapply Forall_impl; [apply (or_post _ _ _ _ _ _ _ _ _ OR)|].
    intros n. apply plain_op.
Qed.

Lemma or_filter (f : Node → bool) :
  (∀ n, op n = placeholder → f n = false) →
  (∀ n, op n = call_function → f n = true) →
  (∀ n, op n = output → f n = false) →
  List.filter f (phs ++ pre) = pre
  ∧ List.filter f region = region
  ∧ List.filter f (post ++ [out]) = post.
Proof.
  intros Hph Hcall Hout.
  pose proof or_region_calls as Hc.
  apply Forall_app in Hc as [Hpre Hc]. apply Forall_app in Hc as [Hreg Hpost].
  split; [|split].
  - rewrite List.filter_app, filter_none, filter_all; [reflexivity| |].
    + eapply Forall_impl; [exact Hpre|]. auto.
    + eapply Forall_impl; [apply (or_phs _ _ _ _ _ _ _ _ _ OR)|]. auto.
  - apply filter_all. eapply Forall_impl; [exact Hreg|]. auto.
  - rewrite List.filter_app, filter_all, filter_none.
    + apply app_nil_r.
    + constructor; [|constructor]. apply Hout, (or_out _ _ _ _ _ _ _ _ _ OR).
    + eapply Forall_impl; [exact Hpost|]. auto.
Qed.

Lemma or_segments i :
  segment (zip (nodes gm)
             (repeat 0 (length (phs ++ pre)) ++ repeat 1 (length region)
                ++ repeat 2 (length (post ++ [out])))) i
  = match i with
    | 0 => pre
    | 1 => region
    | 2 => post
    | _ => []
    end.
Proof.
  destruct (or_filter is_body) as (H0 & H1 & H2);
    try (intros n Hn; unfold is_body; rewrite Hn; reflexivity).
  unfold segment. rewrite (or_nodes _ _ _ _ _ _ _ _ _ OR).
  rewrite (app_assoc phs pre). fold region.
  rewrite zip_app_same by (rewrite repeat_length; reflexivity).
  rewrite zip_app_same by (rewrite repeat_length; reflexivity).
  rewrite !List.filter_app, !fmap_app, !segment_repeat, H0, H1, H2.
  destruct i as [|[|[|i]]]; simpl; rewrite ?app_nil_r; reflexivity.
Qed.

Lemma or_length : 3 ≤ length (nodes gm).
Proof.
  rewrite (or_nodes _ _ _ _ _ _ _ _ _ OR). rewrite !length_app. simpl.
  rewrite !length_app. simpl. lia.
Qed.

Let or_split : split_state := three_segments (nodes gm) phs pre region post.

Lemma filter_const (f : Node → bool) (b : bool) l :
  Forall (λ n, f n = b) l → List.filter f l = if b then l else [].
Proof.
  destruct b; [apply filter_all|apply filter_none].
Qed.

Lemma or_filter_nodes (f : Node → bool) (bp bc bo : bool) :
  (∀ n, op n = placeholder → f n = bp) →
  (∀ n, op n = call_function → f n = bc) →
  (∀ n, op n = output → f n = bo) →
  List.filter f (nodes gm)
  = (if bp then phs else [])
    ++ (if bc then pre ++ region ++ post else [])
    ++ (if bo then [out] else []).
Proof.
  intros Hph Hcall Hout.
  rewrite (or_nodes _ _ _ _ _ _ _ _ _ OR). fold region.
  replace (phs ++ pre ++ region ++ post ++ [out])
    with (phs ++ (pre ++ region ++ post) ++ [out])
    by (rewrite <- !app_assoc; reflexivity).
  rewrite (List.filter_app f phs), (List.filter_app f (pre ++ region ++ post)).
  f_equal; [|f_equal].
  - apply filter_const. eapply Forall_impl;
      [apply (or_phs _ _ _ _ _ _ _ _ _ OR)|]. auto.
  - apply filter_const. eapply Forall_impl; [apply or_region_calls|]. auto.
  - apply filter_const. constructor; [|constructor].
    apply Hout, (or_out _ _ _ _ _ _ _ _ _ OR).
Qed.

Lemma split_one_region :
  _split_autocast gm
  = OK (mkGM (base or_split ++ [map_node_args (env_get (env or_split)) out])
          (submods or_split)).
Proof.
  unfold _split_autocast, sequential_split.
  rewrite traverse_one_region. cbn [mbind result_bind].
  rewrite split_ids_one_region.
  rewrite (or_filter_nodes (λ n, bool_decide (op n = placeholder))
             true false false)
    by (intros n Hn; rewrite Hn; reflexivity).
  rewrite (or_filter_nodes (λ n, bool_decide (op n = output))
             false false true)
    by (intros n Hn; rewrite Hn; reflexivity).
  cbn [app]. rewrite app_nil_r.
  rewrite (or_attrs _ _ _ _ _ _ _ _ _ OR).
  pose proof or_length as Hlen.
  destruct (length (nodes gm)) as [|[|[|m]]] eqn:Hl; try lia.
  change (seq 0 (S (S (S (S m))))) with (0 :: 1 :: 2 :: seq 3 (S m)).
  rewrite !fmap_cons. cbn [fold_left].
  rewrite (fold_add_segment_tail (nodes gm) []
             (segment (zip (nodes gm)
                (repeat 0 (length (phs ++ pre)) ++ repeat 1 (length region)
                 ++ repeat 2 (length (post ++ [out]))))))
    by (intros i Hi; rewrite or_segments;
        destruct i as [|[|[|i]]]; [lia|lia|lia|reflexivity]).
  rewrite !or_segments. reflexivity.
Qed.

End OneRegion.

(** ** Inlining a segment: what [node_inline_] returns *)

Lemma mapM_no_hook old new l h : mapM_ (no_hook old new) l h = (h, OK ()).
Proof.
  induction l as [|x l IH]; [reflexivity|].
  simpl. unfold mbind, M_bind. unfold no_hook at 1. simpl. exact IH.
Qed.

Lemma node_replace_no_hook g old new h :
  node_replace_ no_hook g old new true h
  = (h, OK (remove_node (replace_uses g (nid old) (nid new)) (nid old))).
Proof.
  unfold node_replace_, mbind, M_bind. rewrite mapM_no_hook. reflexivity.
Qed.

Lemma undo_from_miss c outs : ∀ j r,
  (∀ k, k < length outs → r ≠ c + 1 + j + k) → undo_from c j outs r = r.
Proof.
  induction outs as [|o outs IH]; intros j r H; [reflexivity|].
  simpl. unfold subst1 at 1.
  destruct (Nat.eqb_spec r (c + 1 + j)) as [->|Hne].
  - exfalso. apply (H 0); simpl; lia.
  - apply IH. intros k Hk. specialize (H (S k)). simpl in H. lia.
Qed.

Lemma undo_from_hit c outs : (∀ o, o ∈ outs → nid o < c) → ∀ j k o,
  outs !! k = Some o → undo_from c j outs (c + 1 + j + k) = nid o.
Proof.
  intros Hlt. induction outs as [|o0 outs IH]; intros j k o Hk;
    [inversion Hk|].
  simpl. unfold subst1 at 1. destruct k as [|k].
  - injection Hk as ->. rewrite Nat.add_0_r, Nat.eqb_refl.
    apply undo_from_miss. intros k _.
    assert (nid o < c) by (apply Hlt; left). lia.
  - destruct (Nat.eqb_spec (c + 1 + j + S k) (c + 1 + j)) as [E|_]; [lia|].
    replace (c + 1 + j + S k) with (c + 1 + S j + k) by lia.
    apply IH; [|exact Hk]. intros o' Ho'. apply Hlt. right. exact Ho'.
Qed.

(** A reference is to one of the extractions, or it is left alone. *)
Lemma undo_from_cases c outs r : (∀ o, o ∈ outs → nid o < c) →
  (∃ k o, outs !! k = Some o ∧ r = c + 1 + k
          ∧ undo_from c 0 outs r = nid o)
  ∨ ((∀ k, k < length outs → r ≠ c + 1 + k) ∧ undo_from c 0 outs r = r).
Proof.
  intros Hlt.
  destruct (decide (c + 1 ≤ r ∧ r < c + 1 + length outs)) as [[H1 H2]|H].
  - left. destruct (lookup_lt_is_Some_2 outs (r - (c + 1))) as [o Ho]; [lia|].
    exists (r - (c + 1)), o. split; [exact Ho|]. split; [lia|].
    pose proof (undo_from_hit c outs Hlt 0 _ _ Ho) as E.
    replace (c + 1 + 0 + (r - (c + 1))) with r in E by lia. exact E.
  - right. split; [intros k Hk; lia|].
    apply undo_from_miss. intros k Hk. lia.
Qed.

Lemma env_get_miss E i : i ∉ E.*1 → env_get E i = i.
Proof.
  intros H. unfold env_get.
  destruct (List.find _ E) as [[a b]|] eqn:Hf; [|reflexivity].
  apply find_some in Hf as [Hin Heq]. apply Nat.eqb_eq in Heq. simpl in Heq.
  exfalso. apply H. apply list_elem_of_fmap. exists (a, b).
  split; [auto|apply list_elem_of_In, Hin].
Qed.

Lemma lookup_node_in g i :
  i ∈ nid <$> g → ∃ n, lookup_node g i = Some n ∧ nid n = i.
Proof.
  intros H. destruct (lookup_node g i) as [n|] eqn:E.
  - exists n. split; [reflexivity|]. apply (lookup_node_Some _ _ _ E).
  - exfalso. apply list_elem_of_fmap in H as (n & -> & Hn).
    unfold lookup_node in E. apply list_elem_of_In in Hn.
    apply (find_none _ _ E) in Hn. rewrite Nat.eqb_refl in Hn. discriminate.
Qed.

Lemma fmap_map_node_args_id (g : list Node) :
  map_node_args (λ i, i) <$> g = g.
Proof.
  induction g as [|n g IH]; [reflexivity|].
  rewrite fmap_cons, IH, map_node_args_id. reflexivity.
Qed.

Lemma nid_fmap_map_node_args f (g : list Node) :
  nid <$> (map_node_args f <$> g) = nid <$> g.
Proof. rewrite <- list_fmap_compose. reflexivity. Qed.

Lemma nid_remove_nodes ids g i :
  i ∈ nid <$> remove_nodes ids g ↔ i ∈ nid <$> g ∧ i ∉ ids.
Proof.
  unfold remove_nodes. rewrite !list_elem_of_fmap. split.
  - intros (n & -> & Hn). apply list_elem_of_In, List.filter_In in Hn as [Hn Hf].
    split; [exists n; split; [reflexivity|apply list_elem_of_In, Hn]|].
    intros Hi. apply mem_true in Hi. rewrite Hi in Hf. discriminate.
  - intros [(n & -> & Hn) Hi]. exists n. split; [reflexivity|].
    apply list_elem_of_In, List.filter_In. split; [apply list_elem_of_In, Hn|].
    destruct (mem (nid n) ids) eqn:E; [|reflexivity].
    apply mem_true in E. contradiction.
Qed.

Lemma elem_of_remove_nodes ids g n :
  n ∈ remove_nodes ids g ↔ n ∈ g ∧ nid n ∉ ids.
Proof.
  unfold remove_nodes.
  rewrite list_elem_of_In, List.filter_In, <- list_elem_of_In. split.
  - intros [Hn Hf]. split; [exact Hn|]. intros Hi. apply mem_true in Hi.
    rewrite Hi in Hf. discriminate.
  - intros [Hn Hi]. split; [exact Hn|].
    destruct (mem (nid n) ids) eqn:E; [|reflexivity].
    apply mem_true in E. contradiction.
Qed.

Lemma remove_node_nodes_comm ids g i :
  remove_node (remove_nodes ids g) i = remove_nodes ids (remove_node g i).
Proof.
  unfold remove_nodes, remove_node.
  induction g as [|n g IH]; [reflexivity|]. simpl in *.
  destruct (negb (mem (nid n) ids)) eqn:E1,
    (negb (Nat.eqb (nid n) i)) eqn:E2; simpl; rewrite ?E1, ?E2, IH;
    reflexivity.
Qed.

Lemma uses_map σ n i :
  uses i (map_node_args σ n) = true ↔ ∃ r, r ∈ node_refs n ∧ σ r = i.
Proof.
  unfold uses. rewrite mem_true, node_refs_map.
  rewrite list_elem_of_In, in_map_iff. split.
  - intros (r & E & Hr). exists r. split; [apply list_elem_of_In, Hr|exact E].
  - intros (r & Hr & E). exists r. split; [exact E|apply list_elem_of_In, Hr].
Qed.

Lemma remove_node_fmap f (g : list Node) i :
  remove_node (map_node_args f <$> g) i
  = map_node_args f <$> remove_node g i.
Proof. exact (remove_node_map f g i). Qed.

Lemma replace_uses_fmap g old new :
  replace_uses g old new = map_node_args (subst1 old new) <$> g.
Proof. reflexivity. Qed.

(** The loop over the per-index extractions. *)
Lemma inline_loop c members : ∀ outs j g h,
  (∀ k o, outs !! k = Some o →
          members !! (j + k) = Some (ANode (nid o))
          ∧ nid o ∈ nid <$> g ∧ nid o < c) →
  foldM (inline_get_item no_hook members) g
    (imap (λ k _, get_item_node c (j + k)) outs) h
  = (h, OK (remove_nodes (nid <$> imap (λ k _, get_item_node c (j + k)) outs)
              (map_node_args (undo_from c j outs) <$> g))).
Proof.
  induction outs as [|o outs IH]; intros j g h H.
  - simpl. rewrite remove_nodes_nil, fmap_map_node_args_id. reflexivity.
  - destruct (H 0 o eq_refl) as (Hm & Hin & Hlt).
    rewrite Nat.add_0_r in Hm.
    destruct (lookup_node_in g (nid o) Hin) as (n' & Hlook & Hn').
    rewrite imap_cons.
    rewrite (imap_ext _ (λ k _, get_item_node c (S j + k)) outs)
      by (intros k x _; simpl; f_equal; lia).
    rewrite Nat.add_0_r. cbn [foldM]. unfold mbind at 1, M_bind at 1.
    unfold inline_get_item at 1. unfold mbind at 1, M_bind at 1, lift at 1.
    assert (Hmem : member_of g members (get_item_node c j) = OK n').
    { unfold member_of, get_item_node, mbind, result_bind. cbn [args].
      rewrite (py_index_nat _ _ _ Hm). unfold resolve. rewrite Hlook.
      reflexivity. }
    rewrite Hmem. rewrite node_replace_no_hook.
    rewrite IH.
    + f_equal. f_equal. rewrite fmap_cons, remove_nodes_cons.
      change (nid (get_item_node c j)) with (c + 1 + j). rewrite Hn'.
      rewrite replace_uses_fmap, !remove_node_fmap, <- list_fmap_compose.
      apply (f_equal (remove_nodes _)).
      apply list_fmap_ext. intros _ n _.
      unfold compose. rewrite map_node_args_compose. reflexivity.
    + intros k o' Hk. destruct (H (S k) o' Hk) as (Hm' & Hin' & Hlt').
      split; [replace (S j + k) with (j + S k) by lia; exact Hm'|].
      split; [|exact Hlt'].
      change (nid (get_item_node c j)) with (c + 1 + j).
      apply list_elem_of_fmap in Hin' as (m & E & Hmg).
      apply list_elem_of_fmap.
      exists (map_node_args (subst1 (c + 1 + j) (nid n')) m).
      split; [exact E|]. apply elem_of_remove_node. split.
      * apply elem_of_replace_uses. exists m. split; [exact Hmg|reflexivity].
      * simpl. rewrite <- E. lia.
Qed.

(** The three kinds of nodes of a child graph. *)
Lemma child_graph_parts orig p :
  Forall (λ n, is_body n = true) p →
  List.filter (λ n, bool_decide (op n = placeholder)) (child_graph orig p)
  = as_placeholder <$> segment_inputs orig p
  ∧ List.filter is_body (child_graph orig p) = p
  ∧ List.filter (λ n, bool_decide (op n = output)) (child_graph orig p)
    = output_of ((as_placeholder <$> segment_inputs orig p) ++ p)
        (segment_outputs orig p).
Proof.
  intros Hp. unfold child_graph.
  set (ins := segment_inputs orig p). set (outs := segment_outputs orig p).
  set (body := (as_placeholder <$> ins) ++ p).
  assert (Hph : Forall (λ n, op n = placeholder) (as_placeholder <$> ins)).
  { apply Forall_fmap, Forall_true. reflexivity. }
  assert (Hbody : Forall (λ n, op n = call_function ∨ op n = call_module
                               ∨ op n = get_attr) p).
  { eapply Forall_impl; [exact Hp|]. intros n. unfold is_body.
    destruct (op n); simpl; intros; try discriminate; auto. }
  assert (Hout : Forall (λ n, op n = output) (output_of body outs)).
  { unfold output_of. destruct outs as [|o [|o' outs']]; repeat constructor. }
  unfold body. rewrite !List.filter_app. split; [|split].
  - rewrite (filter_all _ (as_placeholder <$> ins)),
      (filter_none _ p), (filter_none _ (output_of _ _)).
    + rewrite !app_nil_r. reflexivity.
    + eapply Forall_impl; [exact Hout|]. intros n ->. reflexivity.
    + eapply Forall_impl; [exact Hbody|]. intros n [->|[->| ->]]; reflexivity.
    + eapply Forall_impl; [exact Hph|]. intros n ->. reflexivity.
  - rewrite (filter_none _ (as_placeholder <$> ins)),
      (filter_all _ p), (filter_none _ (output_of _ _)).
    + rewrite app_nil_r. reflexivity.
    + eapply Forall_impl; [exact Hout|]. intros n E. unfold is_body.
      rewrite E. reflexivity.
    + exact Hp.
    + eapply Forall_impl; [exact Hph|]. intros n E. unfold is_body.
      rewrite E. reflexivity.
  - rewrite (filter_none _ (as_placeholder <$> ins)),
      (filter_none _ p), (filter_all _ (output_of _ _)).
    + reflexivity.
    + eapply Forall_impl; [exact Hout|]. intros n ->. reflexivity.
    + eapply Forall_impl; [exact Hbody|]. intros n [->|[->| ->]]; reflexivity.
    + eapply Forall_impl; [exact Hph|]. intros n ->. reflexivity.
Qed.

Lemma bind_placeholders_run ins : ∀ js,
  bind_placeholders (as_placeholder <$> ins) (ANode <$> js)
  = OK (zip (nid <$> ins) js).
Proof.
  unfold bind_placeholders.
  induction ins as [|n ins IH]; intros js; [reflexivity|].
  destruct js as [|j js]; [reflexivity|].
  rewrite !fmap_cons. cbn [zip zip_with mapR snd fst].
  unfold mbind at 1, result_bind at 1. unfold mbind at 1, result_bind at 1.
  rewrite IH. reflexivity.
Qed.

(** A value a segment hands out is not one of its inputs. *)
Lemma output_not_input orig p o js :
  o ∈ segment_outputs orig p →
  env_get (zip (nid <$> segment_inputs orig p) js) (nid o) = nid o.
Proof.
  intros Ho. apply env_get_miss. intros Hin.
  assert (Hkey : nid o ∈ nid <$> segment_inputs orig p).
  { revert Hin. generalize (nid <$> segment_inputs orig p). intros l.
    revert js. induction l as [|x l IH]; intros js H; [inversion H|].
    destruct js as [|j js]; [inversion H|]. simpl in H.
    apply elem_of_cons in H as [->|H]; [left|right; eauto]. }
  apply list_elem_of_fmap in Hkey as (n & E & Hn).
  unfold segment_inputs in Hn.
  apply list_elem_of_In, List.filter_In in Hn as [_ Hn].
  apply andb_true_iff in Hn as [Hn _]. apply negb_true_iff in Hn.
  unfold segment_outputs in Ho.
  apply list_elem_of_In, List.filter_In in Ho as [Ho _].
  assert (in_nodes (nid n) p = true); [|congruence].
  unfold in_nodes. apply mem_true. rewrite <- E.
  apply list_elem_of_In, in_map, Ho.
Qed.

Lemma is_get_item_extractions c outs :
  nodes_filter (extractions c outs) is_get_item = extractions c outs.
Proof.
  unfold nodes_filter. apply filter_all. unfold extractions.
  destruct outs as [|o [|o' outs]]; [constructor|constructor|].
  apply Forall_forall. intros n Hn.
  apply elem_of_lookup_imap in Hn as (k & x & -> & _). reflexivity.
Qed.

Lemma outputs_in_segment orig p o : o ∈ segment_outputs orig p → o ∈ p.
Proof.
  unfold segment_outputs. intros H.
  apply list_elem_of_In, List.filter_In in H as [H _].
  apply list_elem_of_In, H.
Qed.

Lemma bind_lift {A B} (a : A) (k : A → M B) h :
  (lift (OK a) ≫= k) h = k a h.
Proof. reflexivity. Qed.

(** Inlining the segment [p] of [orig] at its invocation [call]: the nodes of
    [p], reading the invocation's arguments, go before the invocation; the
    references to the invocation's values go back to the nodes of [p]; the
    invocation and its extractions are removed. *)
Lemma node_inline_run gm call s orig p ca js h :
  op call = call_module → target call = attr s → args call = ANode <$> js →
  getattr (attrs gm) s = Some (AModule (mkGM (child_graph orig p) ca)) →
  Forall (λ n, is_body n = true) p →
  (∀ n, n ∈ p → nid n < nid call) →
  (length (segment_outputs orig p) ≠ 1 →
   users (insert_before (nodes gm) (nid call)
            (map_node_args
               (env_get (zip (nid <$> segment_inputs orig p) js)) <$> p))
     (nid call)
   = extractions (nid call) (segment_outputs orig p)) →
  node_inline_ no_hook gm call h
  = (h, OK (let G' :=
              remove_nodes
                (nid call
                 :: (nid <$> extractions (nid call) (segment_outputs orig p)))
                (map_node_args (undo (nid call) (segment_outputs orig p))
                 <$> insert_before (nodes gm) (nid call)
                       (map_node_args
                          (env_get (zip (nid <$> segment_inputs orig p) js))
                        <$> p)) in
            mkGM G' (delete_all_unused_submodules G' (attrs gm)))).
Proof.
  intros Hop Htarget Hargs Hget Hp Hlt Hu.
  destruct (child_graph_parts orig p Hp) as (Hf1 & Hf2 & Hf3).
  set (b := zip (nid <$> segment_inputs orig p) js) in *.
  set (c := nid call) in *.
  set (G := insert_before (nodes gm) c (map_node_args (env_get b) <$> p))
    in *.
  assert (HinG : ∀ o, o ∈ segment_outputs orig p → nid o ∈ nid <$> G).
  { intros o Ho. apply list_elem_of_fmap.
    exists (map_node_args (env_get b) o). split; [reflexivity|].
    apply elem_of_insert_before. left. apply list_elem_of_fmap.
    exists o. split; [reflexivity|]. apply (outputs_in_segment orig), Ho. }
  assert (Hb : ∀ o, o ∈ segment_outputs orig p → env_get b (nid o) = nid o).
  { intros o Ho. apply output_not_input, Ho. }
  assert (Hltc : ∀ o, o ∈ segment_outputs orig p → nid o < c).
  { intros o Ho. apply Hlt, (outputs_in_segment orig), Ho. }
  unfold node_inline_. rewrite Hop. unfold get_submodule.
  rewrite Htarget, Hget.
  change (assert (bool_decide (call_module = call_module))) with (OK ()).
  rewrite !bind_lift. cbn [nodes].
  rewrite Hf1, Hf2, Hf3, Hargs, bind_placeholders_run, bind_lift.
  fold b. fold c. fold G.
  unfold mbind at 1, M_bind at 1.
  destruct (segment_outputs orig p) as [|o [|o' outs]] eqn:Houts.
  - (* no value handed out *)
    cbn [output_of]. unfold lift, erase_node. fold c.
    rewrite (Hu ltac:(simpl; lia)). cbn [extractions is_empty].
    cbn [undo fmap list_fmap]. rewrite fmap_map_node_args_id.
    rewrite remove_nodes_cons, remove_nodes_nil. reflexivity.
  - (* one value *)
    cbn [output_of]. cbn [args length]. unfold args0. cbn [args].
    unfold mbind at 1, M_bind at 1, lift at 1. cbn [bool_decide assert].
    rewrite bool_decide_eq_true_2 by reflexivity. cbn [assert].
    unfold mbind at 1, M_bind at 1, lift at 1. cbn [arg_map].
    rewrite (Hb o) by left.
    destruct (lookup_node_in G (nid o) (HinG o ltac:(left)))
      as (n' & Hlook & Hn').
    unfold mbind at 1, M_bind at 1, lift at 1, resolve. rewrite Hlook.
    rewrite node_replace_no_hook. fold c. rewrite Hn'.
    cbn [extractions undo fmap list_fmap].
    rewrite remove_nodes_cons, remove_nodes_nil, replace_uses_fmap.
    reflexivity.
  - (* a tuple *)
    cbn [output_of]. cbn [args length]. unfold args0. cbn [args].
    unfold mbind at 1, M_bind at 1, lift at 1.
    rewrite bool_decide_eq_true_2 by reflexivity. cbn [assert].
    unfold mbind at 1, M_bind at 1, lift at 1. cbn [arg_map].
    set (outs3 := o :: o' :: outs) in *.
    assert (Hmembers :
      List.map (arg_map (env_get b)) (ANode ∘ nid <$> outs3)
      = ANode ∘ nid <$> outs3).
    { change (List.map (arg_map (env_get b)))
        with (fmap (M := list) (arg_map (env_get b))).
      rewrite <- list_fmap_compose. apply list_fmap_ext.
      intros k x Hx. unfold compose. cbn [arg_map]. rewrite Hb; [reflexivity|].
      eapply list_elem_of_lookup_2, Hx. }
    rewrite Hmembers.
    rewrite (Hu ltac:(simpl; lia)). rewrite is_get_item_extractions.
    assert (Hext : extractions c outs3
                   = imap (λ k _, get_item_node c (0 + k)) outs3)
      by reflexivity.
    rewrite Hext.
    unfold mbind at 1, M_bind at 1.
    rewrite inline_loop.
    + unfold lift, erase_node. fold c.
      assert (Hnone : users
                (remove_nodes
                   (nid <$> imap (λ k _, get_item_node c (0 + k)) outs3)
                   (map_node_args (undo_from c 0 outs3) <$> G)) c = []).
      { apply users_nil_iff. intros n Hn.
        apply elem_of_remove_nodes in Hn as [Hn Hid].
        apply list_elem_of_fmap in Hn as (m & -> & Hm).
        destruct (uses c (map_node_args (undo_from c 0 outs3) m)) eqn:E;
          [|reflexivity].
        exfalso. apply uses_map in E as (r & Hr & E).
        destruct (undo_from_cases c outs3 r Hltc)
          as [(k & x & Hk & -> & Hx)|[_ Hx]].
        - rewrite Hx in E. apply list_elem_of_lookup_2 in Hk.
          specialize (Hltc x Hk). lia.
        - rewrite Hx in E. subst r. apply Hid. cbn [nid map_node_args set_args].
          assert (Hmu : m ∈ users G c).
          { unfold users. apply list_elem_of_In, List.filter_In.
            split; [apply list_elem_of_In, Hm|]. apply mem_true, Hr. }
          rewrite (Hu ltac:(simpl; lia)), Hext in Hmu.
          apply list_elem_of_fmap. exists m. split; [reflexivity|exact Hmu]. }
      rewrite Hnone. cbn [is_empty].
      rewrite remove_node_nodes_comm, <- remove_nodes_cons.
      reflexivity.
    + intros k x Hk. split; [|split].
      * change (0 + k) with k. rewrite list_lookup_fmap, Hk. reflexivity.
      * apply HinG. eapply list_elem_of_lookup_2, Hk.
      * apply Hltc. eapply list_elem_of_lookup_2, Hk.
Qed.

(** ** The split of a graph with one region, segment by segment *)

Lemma foldM_app {A St} (f : St → A → M St) l1 : ∀ l2 s h,
  foldM f s (l1 ++ l2) h
  = match foldM f s l1 h with
    | (h', OK s') => foldM f s' l2 h'
    | (h', Raise e) => (h', Raise e)
    end.
Proof.
  induction l1 as [|x l1 IH]; intros l2 s h; [reflexivity|].
  simpl. unfold mbind, M_bind.
  destruct (f s x h) as [h1 [s1|e]]; [apply IH|reflexivity].
Qed.

Lemma foldM_visit_skip hook gm l h :
  Forall (λ n, op n ≠ call_module) l →
  foldM (visit hook) gm l h = (h, OK gm).
Proof.
  induction 1 as [|n l Hn _ IH]; [reflexivity|].
  simpl. unfold mbind, M_bind, visit.
  rewrite bool_decide_eq_false_2 by exact Hn. exact IH.
Qed.

Lemma add_segment_seg orig st i p :
  add_segment orig [] st (i, p)
  = mkSplit (seg_next orig (next_id st) p)
      (seg_env orig (next_id st) p ++ env st)
      (base st ++ seg_nodes orig (next_id st) (env st) i p)
      (if is_empty p then submods st
       else setattr (submods st) ("submod_" +:+ pretty i)
              (AModule (mkGM (child_graph orig p) []))).
Proof.
  unfold add_segment, seg_next, seg_env, seg_nodes.
  destruct p as [|n p]; cbn [is_empty]; [|reflexivity].
  rewrite app_nil_r. destruct st; reflexivity.
Qed.

Lemma three_segments_shape orig phs pre enter body exit post out :
  let st := three_segments orig phs pre (enter :: body ++ [exit]) post in
  base st ++ [map_node_args (env_get (env st)) out]
  = split_nodes orig phs pre enter body exit post out
  ∧ submods st = split_attrs orig pre enter body exit post.
Proof.
  unfold three_segments. cbn [fold_left]. rewrite !add_segment_seg.
  cbn [next_id env base submods is_empty]. split.
  - unfold split_nodes, env_post, env_region, env_pre, call_post,
      call_region, call_pre, region_outputs.
    rewrite !app_nil_r, <- !app_assoc.
    reflexivity.
  - unfold split_attrs, seg_attr.
    destruct pre as [|n0 pre], post as [|n1 post]; reflexivity.
Qed.

(** ** Where the values of a segment are found *)

Lemma env_get_app_l E1 E2 r :
  r ∈ E1.*1 → env_get (E1 ++ E2) r = env_get E1 r.
Proof.
  unfold env_get. induction E1 as [|[a b] E1 IH]; intros H; [inversion H|].
  simpl. destruct (Nat.eqb_spec a r) as [->|Hne]; [reflexivity|].
  apply IH. simpl in H. apply elem_of_cons in H as [H|H]; [congruence|exact H].
Qed.

Lemma env_get_app_r E1 E2 r :
  r ∉ E1.*1 → env_get (E1 ++ E2) r = env_get E2 r.
Proof.
  unfold env_get. induction E1 as [|[a b] E1 IH]; intros H; [reflexivity|].
  simpl in *. apply not_elem_of_cons in H as [Hne H].
  destruct (Nat.eqb_spec a r) as [->|_]; [congruence|]. apply IH, H.
Qed.

Lemma env_get_cases E r :
  env_get E r = r ∨ (r ∈ E.*1 ∧ env_get E r ∈ E.*2).
Proof.
  unfold env_get. induction E as [|[a b] E IH]; [left; reflexivity|].
  simpl. destruct (Nat.eqb_spec a r) as [->|Hne].
  - right. split; left.
  - destruct IH as [IH|[IH1 IH2]]; [left; exact IH|].
    right. split; right; assumption.
Qed.

Lemma env_get_cons a b E r :
  env_get ((a, b) :: E) r = if Nat.eqb a r then b else env_get E r.
Proof. unfold env_get. simpl. destruct (Nat.eqb a r); reflexivity. Qed.

Lemma env_get_zip (f : nat → nat) (l : list nat) r :
  env_get (zip l (f <$> l)) r = if decide (r ∈ l) then f r else r.
Proof.
  induction l as [|a l IH].
  - destruct (decide (r ∈ [])) as [H|_]; [inversion H|reflexivity].
  - rewrite fmap_cons. cbn [zip_with]. rewrite env_get_cons.
    destruct (Nat.eqb_spec a r) as [->|Hne].
    + rewrite decide_True by left. reflexivity.
    + rewrite IH. destruct (decide (r ∈ l)) as [H|H].
      * rewrite decide_True by (right; exact H). reflexivity.
      * rewrite decide_False; [reflexivity|].
        intros H'. apply elem_of_cons in H' as [H'|H']; [congruence|auto].
Qed.

Lemma outputs_env_keys c outs : (outputs_env c outs).*1 = nid <$> outs.
Proof.
  unfold outputs_env. destruct outs as [|o [|o' outs]]; try reflexivity.
  rewrite fmap_imap.
  change (λ n : nat, fst ∘ (λ o0 : Node, (nid o0, c + 1 + n)))
    with (λ _ : nat, nid).
  apply imap_const.
Qed.

Lemma length_extractions c outs :
  length (extractions c outs) = match outs with [_] => 0 | _ => length outs end.
Proof.
  unfold extractions. destruct outs as [|o [|o' outs]]; try reflexivity.
  apply length_imap.
Qed.

Lemma outputs_env_vals c outs v :
  v ∈ (outputs_env c outs).*2 →
  c ≤ v ∧ v < S c + length (extractions c outs)
  ∧ (length outs ≠ 1 → c < v).
Proof.
  rewrite length_extractions. unfold outputs_env.
  destruct outs as [|o [|o' outs]].
  - intros H. inversion H.
  - intros H. apply list_elem_of_singleton in H. simpl in *. lia.
  - intros H. apply list_elem_of_fmap in H as ([a b] & -> & H).
    apply elem_of_lookup_imap in H as (k & x & E & Hk).
    injection E as -> ->. apply lookup_lt_Some in Hk. simpl in *. lia.
Qed.

Lemma undo_miss c outs r :
  r < c ∨ S c + length (extractions c outs) ≤ r → undo c outs r = r.
Proof.
  rewrite length_extractions. unfold undo.
  destruct outs as [|o [|o' outs]]; intros H.
  - reflexivity.
  - unfold subst1. destruct (Nat.eqb_spec r c); [lia|reflexivity].
  - apply undo_from_miss. intros k Hk. simpl in *. lia.
Qed.

Lemma undo_from_env c outs : (∀ o, o ∈ outs → nid o < c) → ∀ j r, r < c →
  undo_from c j outs
    (env_get (imap (λ k o, (nid o, c + 1 + (j + k))) outs) r) = r.
Proof.
  intros Hlt. induction outs as [|o outs IH]; intros j r Hr; [reflexivity|].
  rewrite imap_cons.
  rewrite (imap_ext _ (λ k o, (nid o, c + 1 + (S j + k))) outs)
    by (intros k x _; simpl; f_equal; lia).
  rewrite Nat.add_0_r.
  assert (Ho : nid o < c) by (apply Hlt; left).
  assert (Hlt' : ∀ o', o' ∈ outs → nid o' < c)
    by (intros o' Ho'; apply Hlt; right; exact Ho').
  cbn [undo_from]. unfold env_get at 1. cbn [List.find fst].
  destruct (Nat.eqb_spec (nid o) r) as [E|Hne].
  - unfold subst1. rewrite Nat.eqb_refl. rewrite undo_from_miss; [exact E|].
    intros k _. lia.
  - fold (env_get (imap (λ k o, (nid o, c + 1 + (S j + k))) outs) r).
    specialize (IH Hlt' (S j) r Hr).
    set (v := env_get _ r) in *.
    assert (Hv : v ≠ c + 1 + j).
    { unfold v.
      destruct (env_get_cases
                  (imap (λ k o, (nid o, c + 1 + (S j + k))) outs) r)
        as [->|[_ H]]; [lia|].
      apply list_elem_of_fmap in H as ([a b] & -> & H).
      apply elem_of_lookup_imap in H as (k & x & E & _).
      injection E as -> ->. simpl. lia. }
    unfold subst1. destruct (Nat.eqb_spec v (c + 1 + j)); [contradiction|].
    exact IH.
Qed.

(** Going through the values of a segment and back. *)
Lemma undo_outputs_env c outs r : (∀ o, o ∈ outs → nid o < c) → r < c →
  undo c outs (env_get (outputs_env c outs) r) = r.
Proof.
  intros Hlt Hr. unfold undo, outputs_env.
  destruct outs as [|o [|o' outs]].
  - reflexivity.
  - unfold env_get. cbn [List.find fst]. unfold subst1.
    destruct (Nat.eqb_spec (nid o) r) as [E|Hne].
    + rewrite Nat.eqb_refl. exact E.
    + destruct (Nat.eqb_spec r c); [lia|reflexivity].
  - exact (undo_from_env c (o :: o' :: outs) Hlt 0 r Hr).
Qed.

Lemma fresh_nid_foldr g : fresh_nid g = S (foldr Nat.max 0 (nid <$> g)).
Proof. reflexivity. Qed.

Lemma max_insert_before g a n :
  foldr Nat.max 0 (nid <$> insert_before g a [n])
  = Nat.max (nid n) (foldr Nat.max 0 (nid <$> g)).
Proof.
  induction g as [|m g IH]; [reflexivity|].
  simpl. destruct (Nat.eqb (nid m) a); [reflexivity|].
  simpl. fold (fmap (M := list) nid) in *. rewrite IH. lia.
Qed.

Lemma fresh_nid_insert_before g a n :
  nid n = fresh_nid g → fresh_nid (insert_before g a [n]) = S (fresh_nid g).
Proof.
  intros H. rewrite fresh_nid_foldr, max_insert_before, H, fresh_nid_foldr.
  lia.
Qed.

Lemma lookup_node_app_skip A n B c :
  (∀ m, m ∈ A → nid m ≠ c) → nid n = c →
  lookup_node (A ++ n :: B) c = Some n.
Proof.
  intros HA Hn. unfold lookup_node. induction A as [|m A IH].
  - simpl. rewrite Hn, Nat.eqb_refl. reflexivity.
  - simpl. rewrite (proj2 (Nat.eqb_neq _ _) (HA m ltac:(left))).
    apply IH. intros m' H. apply HA. right. exact H.
Qed.

Lemma insert_before_app_skip A n B c P :
  (∀ m, m ∈ A → nid m ≠ c) → nid n = c →
  insert_before (A ++ n :: B) c P = A ++ P ++ n :: B.
Proof.
  intros HA Hn. induction A as [|m A IH].
  - simpl. rewrite Hn, Nat.eqb_refl. reflexivity.
  - simpl. rewrite (proj2 (Nat.eqb_neq _ _) (HA m ltac:(left))).
    f_equal. apply IH. intros m' H. apply HA. right. exact H.
Qed.

Lemma find_app_skip {A} (f : A → bool) l1 l2 :
  Forall (λ x, f x = false) l1 → List.find f (l1 ++ l2) = List.find f l2.
Proof.
  induction 1 as [|x l1 Hx _ IH]; [reflexivity|]. simpl. rewrite Hx. exact IH.
Qed.

(** ** Visiting the invocation of a segment of ordinary calls *)

Lemma seg_call_args orig c E i p :
  args (seg_call orig c E i p)
  = ANode <$> ((λ r, env_get E r) <$> (nid <$> segment_inputs orig p)).
Proof.
  unfold seg_call. cbn [args]. rewrite <- !list_fmap_compose. reflexivity.
Qed.

Lemma plain_target n : is_plain n = true → ∃ f, target n = fn f.
Proof.
  unfold is_plain. intros H. apply andb_true_iff in H as [_ H].
  destruct (target n); try discriminate. eauto.
Qed.

(** A segment of ordinary calls is not taken for a scope body. *)
Lemma plain_segment_not_autocast gm orig c E i p :
  p ≠ [] → Forall (λ n, is_plain n = true) p →
  getattr (attrs gm) ("submod_" +:+ pretty i)
  = Some (AModule (mkGM (child_graph orig p) [])) →
  _is_autocast_sub_mod gm (seg_call orig c E i p) = OK false.
Proof.
  intros Hne Hp Hget. unfold _is_autocast_sub_mod, seg_call. cbn [op target].
  rewrite bool_decide_eq_true_2 by reflexivity.
  unfold get_submodule. rewrite Hget. cbn [mbind result_bind nodes].
  unfold nodes_first, child_graph. rewrite <- app_assoc.
  rewrite find_app_skip by (apply Forall_fmap, Forall_true; reflexivity).
  destruct p as [|n p]; [contradiction|].
  apply Forall_cons in Hp as [Hn _].
  cbn [app List.find]. rewrite (plain_op n Hn). cbn [bool_decide negb].
  simpl. destruct (plain_target n Hn) as [f ->].
  rewrite (bool_decide_eq_false_2 (fn f = _enter_autocast)) by discriminate.
  rewrite andb_false_r. reflexivity.
Qed.

Lemma filter_uses_none c l :
  (∀ n, n ∈ l → uses c n = false) → List.filter (uses c) l = [].
Proof.
  intros H. apply filter_none, Forall_forall. exact H.
Qed.

Lemma uses_extractions c outs :
  List.filter (uses c) (extractions c outs) = extractions c outs.
Proof.
  apply filter_all. unfold extractions.
  destruct outs as [|o [|o' outs]]; [constructor|constructor|].
  apply Forall_forall. intros n Hn.
  apply elem_of_lookup_imap in Hn as (k & x & -> & _).
  unfold uses, get_item_node, node_refs. simpl. rewrite Nat.eqb_refl.
  reflexivity.
Qed.

Lemma inline_segment gm orig A B c E i p snap h :
  nodes gm = A ++ seg_nodes orig c E i p ++ B →
  p ≠ [] →
  Forall (λ n, is_plain n = true) p →
  getattr (attrs gm) ("submod_" +:+ pretty i)
  = Some (AModule (mkGM (child_graph orig p) [])) →
  op snap = call_module → nid snap = c →
  (∀ n, n ∈ A → nid n ≠ c) →
  (∀ n, n ∈ p → nid n < c) →
  (length (segment_outputs orig p) ≠ 1 →
   ∀ n, n ∈ A ++ (map_node_args (env_get E) <$> p)
              ++ seg_call orig c E i p :: B →
        uses c n = false) →
  (∀ n r, n ∈ p → r ∈ node_refs n →
          r ∉ nid <$> segment_inputs orig p → env_get E r = r) →
  visit no_hook gm snap h
  = (h, OK (let G' :=
              remove_nodes
                (c :: (nid <$> extractions c (segment_outputs orig p)))
                (map_node_args (undo c (segment_outputs orig p))
                 <$> (A ++ (map_node_args (env_get E) <$> p)
                        ++ seg_nodes orig c E i p ++ B)) in
            mkGM G' (delete_all_unused_submodules G' (attrs gm)))).
Proof.
  intros Hnodes Hne Hp Hget Hop Hnid HA Hlt Hu Hmiss.
  assert (Hseg : seg_nodes orig c E i p
                 = seg_call orig c E i p
                   :: extractions c (segment_outputs orig p)).
  { unfold seg_nodes. destruct p; [contradiction|reflexivity]. }
  rewrite Hseg in *.
  assert (Hb : map_node_args
                 (env_get (zip (nid <$> segment_inputs orig p)
                             ((λ r, env_get E r)
                              <$> (nid <$> segment_inputs orig p)))) <$> p
               = map_node_args (env_get E) <$> p).
  { apply list_fmap_ext. intros k n Hn. apply map_node_args_ext.
    intros r Hr. rewrite env_get_zip.
    destruct (decide (r ∈ nid <$> segment_inputs orig p)) as [_|H];
      [reflexivity|].
    symmetry. eapply Hmiss; [eapply list_elem_of_lookup_2, Hn|exact Hr|exact H]. }
  unfold visit. rewrite Hop, bool_decide_eq_true_2 by reflexivity.
  rewrite Hnid, Hnodes, <- app_comm_cons.
  rewrite (lookup_node_app_skip A (seg_call orig c E i p) _ c HA eq_refl).
  unfold _maybe_inline_or_replace_with_hop.
  rewrite (plain_segment_not_autocast gm orig c E i p Hne Hp Hget).
  rewrite bind_lift. cbn [op target seg_call].
  change (assert (bool_decide (call_module = call_module))) with (OK ()).
  rewrite !bind_lift.
  change (assert true) with (OK ()). rewrite bind_lift.
  rewrite (node_inline_run gm (seg_call orig c E i p)
             ("submod_" +:+ pretty i) orig p []
             ((λ r, env_get E r) <$> (nid <$> segment_inputs orig p)) h).
  - cbn [nid seg_call]. rewrite Hnodes, <- app_comm_cons.
    rewrite (insert_before_app_skip A (seg_call orig c E i p) _ c _ HA eq_refl), Hb.
    reflexivity.
  - reflexivity.
  - reflexivity.
  - apply seg_call_args.
  - exact Hget.
  - eapply Forall_impl; [exact Hp|]. intros n. apply plain_is_body.
  - exact Hlt.
  - intros Hlen. cbn [nid seg_call]. rewrite Hnodes, <- app_comm_cons.
    rewrite (insert_before_app_skip A (seg_call orig c E i p) _ c _ HA eq_refl), Hb.
    specialize (Hu Hlen).
    unfold users. rewrite !List.filter_app. cbn [List.filter].
    rewrite List.filter_app.
    rewrite (filter_uses_none c A), (filter_uses_none c (_ <$> p)),
      (filter_uses_none c B), uses_extractions.
    + rewrite (Hu (seg_call orig c E i p)), app_nil_r; [reflexivity|].
      apply elem_of_app. right. apply elem_of_app. right. left.
    + intros n Hn. apply Hu. apply elem_of_app. right. apply elem_of_app.
      right. right. exact Hn.
    + intros n Hn. apply Hu. apply elem_of_app. right. apply elem_of_app.
      left. exact Hn.
    + intros n Hn. apply Hu. apply elem_of_app. left. exact Hn.
Qed.

(** ** Removing the invocation of an inlined segment *)

Lemma remove_nodes_app ids l1 l2 :
  remove_nodes ids (l1 ++ l2) = remove_nodes ids l1 ++ remove_nodes ids l2.
Proof. unfold remove_nodes. apply List.filter_app. Qed.

Lemma remove_nodes_keep ids l :
  (∀ n, n ∈ l → nid n ∉ ids) → remove_nodes ids l = l.
Proof.
  intros H. unfold remove_nodes. apply filter_all, Forall_forall.
  intros n Hn. destruct (mem (nid n) ids) eqn:E; [|reflexivity].
  apply mem_true in E. exfalso. exact (H n Hn E).
Qed.

Lemma remove_nodes_drop ids l :
  (∀ n, n ∈ l → nid n ∈ ids) → remove_nodes ids l = [].
Proof.
  intros H. unfold remove_nodes. apply filter_none, Forall_forall.
  intros n Hn. rewrite (proj2 (mem_true _ _) (H n Hn)). reflexivity.
Qed.

Lemma fmap_map_node_args_same f (l : list Node) :
  (∀ n r, n ∈ l → r ∈ node_refs n → f r = r) → map_node_args f <$> l = l.
Proof.
  intros H. rewrite <- (list_fmap_id l) at 2. apply list_fmap_ext.
  intros k n Hn. apply map_node_args_same. intros r Hr.
  eapply H; [eapply list_elem_of_lookup_2, Hn|apply Hr].
Qed.

Lemma elem_of_fmap_nid f (l : list Node) n :
  n ∈ map_node_args f <$> l → ∃ m, m ∈ l ∧ nid n = nid m.
Proof.
  intros H. apply list_elem_of_fmap in H as (m & -> & Hm). eauto.
Qed.

(** The nodes before the invocation and the inlined nodes stay as they are,
    the invocation and its extractions go, the nodes after the invocation
    have their references rewritten. *)
Lemma remove_inlined ids u A S B :
  (∀ n, n ∈ A → nid n ∉ ids) →
  (∀ n r, n ∈ A → r ∈ node_refs n → u r = r) →
  (∀ n, n ∈ S → nid n ∈ ids) →
  (∀ n, n ∈ B → nid n ∉ ids) →
  remove_nodes ids (map_node_args u <$> (A ++ S ++ B))
  = A ++ (map_node_args u <$> B).
Proof.
  intros HA Hu HS HB. rewrite !fmap_app, !remove_nodes_app.
  rewrite (fmap_map_node_args_same u A Hu), (remove_nodes_keep ids A HA).
  rewrite (remove_nodes_drop ids (_ <$> S)), (remove_nodes_keep ids (_ <$> B)).
  - reflexivity.
  - intros n Hn. apply elem_of_fmap_nid in Hn as (m & Hm & ->). auto.
  - intros n Hn. apply elem_of_fmap_nid in Hn as (m & Hm & ->). auto.
Qed.

Lemma seg_nodes_nids orig c E i p n :
  n ∈ seg_nodes orig c E i p →
  nid n ∈ c :: (nid <$> extractions c (segment_outputs orig p)).
Proof.
  unfold seg_nodes. destruct p as [|x p]; [intros H; inversion H|].
  cbn [is_empty]. intros H. apply elem_of_cons in H as [->|H]; [left|].
  right. apply list_elem_of_fmap. eauto.
Qed.

Lemma extraction_nid c outs n :
  n ∈ extractions c outs → c < nid n ∧ nid n < S c + length (extractions c outs).
Proof.
  rewrite length_extractions. unfold extractions.
  destruct outs as [|o [|o' outs]]; try (intros H; inversion H; fail).
  intros H. apply elem_of_lookup_imap in H as (k & x & -> & Hk).
  apply lookup_lt_Some in Hk. simpl in *. lia.
Qed.

Lemma extraction_refs c outs n r :
  n ∈ extractions c outs → r ∈ node_refs n → r = c.
Proof.
  unfold extractions.
  destruct outs as [|o [|o' outs]]; try (intros H; inversion H; fail).
  intros H. apply elem_of_lookup_imap in H as (k & x & -> & Hk).
  unfold node_refs, get_item_node. simpl. intros Hr.
  apply list_elem_of_singleton in Hr. exact Hr.
Qed.

Lemma ext_ids_range c outs i :
  i ∈ c :: (nid <$> extractions c outs) →
  c ≤ i ∧ i < S c + length (extractions c outs).
Proof.
  intros H. apply elem_of_cons in H as [->|H]; [lia|].
  apply list_elem_of_fmap in H as (n & -> & Hn).
  apply extraction_nid in Hn. lia.
Qed.

Lemma seg_nodes_range orig c E i p n :
  n ∈ seg_nodes orig c E i p → c ≤ nid n ∧ nid n < seg_next orig c p.
Proof.
  intros H. pose proof (seg_nodes_nids _ _ _ _ _ _ H) as Hid.
  apply ext_ids_range in Hid. unfold seg_next, seg_nodes in *.
  destruct p; [inversion H|exact Hid].
Qed.

Lemma seg_call_refs orig c E i p r :
  r ∈ node_refs (seg_call orig c E i p) →
  ∃ n, n ∈ segment_inputs orig p ∧ r = env_get E (nid n).
Proof.
  unfold node_refs. rewrite seg_call_args. intros H.
  apply list_elem_of_In, in_concat in H as (l & Hl & Hr).
  apply in_map_iff in Hl as (a & <- & Ha).
  apply list_elem_of_In, list_elem_of_fmap in Ha as (j & -> & Hj).
  apply list_elem_of_fmap in Hj as (j0 & -> & Hj).
  apply list_elem_of_fmap in Hj as (n & -> & Hn).
  simpl in Hr. destruct Hr as [<-|[]]. eauto.
Qed.

Lemma seg_nodes_refs orig c E i p n r :
  n ∈ seg_nodes orig c E i p → r ∈ node_refs n →
  r = c ∨ ∃ m, m ∈ segment_inputs orig p ∧ r = env_get E (nid m).
Proof.
  unfold seg_nodes. destruct p as [|x p]; [intros H; inversion H|].
  cbn [is_empty]. intros H Hr. apply elem_of_cons in H as [->|H].
  - right. apply seg_call_refs in Hr. exact Hr.
  - left. eapply extraction_refs; eauto.
Qed.

Lemma map_refs f n r :
  r ∈ node_refs (map_node_args f n) → ∃ r0, r0 ∈ node_refs n ∧ r = f r0.
Proof.
  rewrite node_refs_map. intros H.
  apply list_elem_of_In, in_map_iff in H as (r0 & <- & H).
  exists r0. split; [apply list_elem_of_In, H|reflexivity].
Qed.

Lemma not_uses c n : (∀ r, r ∈ node_refs n → r ≠ c) → uses c n = false.
Proof.
  intros H. unfold uses. destruct (mem c (node_refs n)) eqn:E; [|reflexivity].
  apply mem_true in E. exfalso. exact (H c E eq_refl).
Qed.

Lemma segment_inputs_orig orig p n : n ∈ segment_inputs orig p → n ∈ orig.
Proof.
  unfold segment_inputs. intros H.
  apply list_elem_of_In, List.filter_In in H as [H _].
  apply list_elem_of_In, H.
Qed.

(** ** References through the environment of the splitter *)

Lemma undo_back c outs E r :
  (∀ o, o ∈ outs → nid o < c) → r < c →
  (∀ v, v ∈ E.*2 → v < c ∨ S c + length (extractions c outs) ≤ v) →
  undo c outs (env_get (E ++ outputs_env c outs) r) = env_get E r.
Proof.
  intros Hlt Hr HE. destruct (decide (r ∈ E.*1)) as [Hin|Hin].
  - rewrite env_get_app_l by exact Hin. apply undo_miss.
    destruct (env_get_cases E r) as [->|[_ H]]; [left; exact Hr|].
    apply HE, H.
  - rewrite env_get_app_r by exact Hin.
    rewrite undo_outputs_env by assumption.
    symmetry. apply env_get_miss, Hin.
Qed.

Lemma undo_front c outs E r :
  (∀ o, o ∈ outs → nid o < c) → r < c →
  (∀ v, v ∈ E.*2 → v < c ∨ S c + length (extractions c outs) ≤ v) →
  (r ∈ nid <$> outs → r ∉ E.*1) →
  undo c outs (env_get (outputs_env c outs ++ E) r) = env_get E r.
Proof.
  intros Hlt Hr HE Hkey.
  destruct (decide (r ∈ (outputs_env c outs).*1)) as [Hin|Hin].
  - rewrite env_get_app_l by exact Hin.
    rewrite undo_outputs_env by assumption.
    symmetry. apply env_get_miss, Hkey.
    rewrite <- (outputs_env_keys c outs). exact Hin.
  - rewrite env_get_app_r by exact Hin. apply undo_miss.
    destruct (env_get_cases E r) as [->|[_ H]]; [left; exact Hr|].
    apply HE, H.
Qed.

Lemma env_get_P (P : nat → Prop) E r :
  P r → (∀ v, v ∈ E.*2 → P v) → P (env_get E r).
Proof.
  intros Hr HE. destruct (env_get_cases E r) as [->|[_ H]]; auto.
Qed.

Lemma env_get_nil r : env_get [] r = r.
Proof. reflexivity. Qed.

Lemma seg_call_map u orig c E E' i p :
  (∀ n, n ∈ segment_inputs orig p →
        u (env_get E (nid n)) = env_get E' (nid n)) →
  map_node_args u (seg_call orig c E i p) = seg_call orig c E' i p.
Proof.
  intros H. unfold map_node_args, set_args, seg_call. cbn. f_equal.
  change (List.map (arg_map u)) with (fmap (M := list) (arg_map u)).
  rewrite <- list_fmap_compose. apply list_fmap_ext.
  intros j n Hn. unfold compose. cbn [arg_map]. f_equal.
  apply H. eapply list_elem_of_lookup_2, Hn.
Qed.

Lemma seg_nodes_map u orig c E E' i p :
  u c = c →
  (∀ n, n ∈ segment_inputs orig p →
        u (env_get E (nid n)) = env_get E' (nid n)) →
  map_node_args u <$> seg_nodes orig c E i p = seg_nodes orig c E' i p.
Proof.
  intros Hc H. unfold seg_nodes. destruct (is_empty p); [reflexivity|].
  rewrite fmap_cons, (seg_call_map u orig c E E' i p H). f_equal.
  apply fmap_map_node_args_same. intros n r Hn Hr.
  rewrite (extraction_refs _ _ _ _ Hn Hr). exact Hc.
Qed.

Lemma map_env_out u E E' n :
  (∀ r, r ∈ node_refs n → u (env_get E r) = env_get E' r) →
  map_node_args u (map_node_args (env_get E) n) = map_node_args (env_get E') n.
Proof.
  intros H. rewrite map_node_args_compose. apply map_node_args_ext. exact H.
Qed.

(** ** Attributes that are still used *)

Lemma delete_unused_cons g s sub a :
  delete_all_unused_submodules g ((s, AModule sub) :: a)
  = (if existsb (refers_to s) g then [(s, AModule sub)] else [])
    ++ delete_all_unused_submodules g a.
Proof.
  unfold delete_all_unused_submodules, refers_to. simpl.
  destruct (existsb _ g); reflexivity.
Qed.

Lemma refers_to_none s g :
  (∀ n, n ∈ g → refers_to s n = false) → existsb (refers_to s) g = false.
Proof.
  intros H. destruct (existsb (refers_to s) g) eqn:E; [|reflexivity].
  apply existsb_exists in E as (n & Hn & E).
  rewrite (H n) in E; [discriminate|apply list_elem_of_In, Hn].
Qed.

Lemma refers_to_some s g n :
  n ∈ g → refers_to s n = true → existsb (refers_to s) g = true.
Proof.
  intros Hn E. apply existsb_exists. exists n.
  split; [apply list_elem_of_In, Hn|exact E].
Qed.

Lemma refers_to_op s n :
  op n = placeholder ∨ op n = call_function ∨ op n = output →
  refers_to s n = false.
Proof. unfold refers_to. intros [->|[->| ->]]; reflexivity. Qed.

Lemma refers_to_seg s orig c E i p n :
  n ∈ seg_nodes orig c E i p → s ≠ "submod_" +:+ pretty i →
  refers_to s n = false.
Proof.
  unfold seg_nodes. destruct p as [|x p]; [intros H; inversion H|].
  cbn [is_empty]. intros H Hs. apply elem_of_cons in H as [->|H].
  - unfold refers_to, seg_call. cbn [op target].
    rewrite (bool_decide_eq_false_2 (attr _ = attr s)) by congruence.
    apply andb_false_r.
  - apply refers_to_op. right. left. unfold extractions in H.
    destruct (segment_outputs orig (x :: p)) as [|o [|o' outs]];
      try (inversion H; fail).
    apply elem_of_lookup_imap in H as (j & y & -> & _). reflexivity.
Qed.

Lemma refers_to_map s f n : refers_to s (map_node_args f n) = refers_to s n.
Proof. reflexivity. Qed.

(** ** Replacing the invocation of a scope body, node by node *)

Lemma replace_with_hop_unfold hook gm node tname sub_gm enter exit h :
  op node = call_module → target node = attr tname →
  getattr (attrs gm) tname = Some (AModule sub_gm) →
  nodes_filter (nodes sub_gm) _is_autocast_node = [enter; exit] →
  _is_enter_autocast_node enter = true →
  _is_exit_autocast_node exit = true →
  args exit = [ANode (nid enter)] →
  users (nodes sub_gm) (nid exit) = [] →
  users (remove_node (nodes sub_gm) (nid exit)) (nid enter) = [] →
  _replace_with_hop hook gm node h
  = (graph ← replace_call hook
               (insert_before (nodes gm) (nid node)
                  [new_get_attr (fresh_nid (nodes gm)) tname enter])
               (nodes sub_gm) node enter
               (new_get_attr (fresh_nid (nodes gm)) tname enter);
     mret (mkGM graph
             (setattr (attrs gm) tname
                (AModule (without_markers sub_gm enter exit))))) h.
Proof.
  intros Hop Htgt Hchild Hmark Hen Hex Hcl Hxu Heu.
  unfold _replace_with_hop, get_submodule, mbind, M_bind, lift.
  rewrite Hop, Htgt, Hchild. simpl.
  unfold nodes_filter in *. rewrite Hmark. simpl.
  unfold _check_valid_autocast_block, args0, mbind, result_bind.
  rewrite Hen, Hex, Hcl. simpl.
  rewrite (bool_decide_eq_true_2 _ eq_refl). simpl.
  destruct (replace_call hook _ (nodes sub_gm) node enter _ h)
    as [h1 [g|e]]; [|reflexivity].
  unfold erase_node. rewrite Hxu. simpl. rewrite Heu. reflexivity.
Qed.

Lemma rename_get_item_no_hook sub members g u o h :
  member_of sub members u = OK o →
  rename_get_item no_hook sub members g u h
  = (h, OK (update_node g (nid u) (retag o))).
Proof.
  intros Hm. unfold rename_get_item, _rename, mbind, M_bind, lift.
  rewrite Hm, mapM_no_hook. simpl.
  rewrite update_node_twice by reflexivity. reflexivity.
Qed.

Lemma update_node_other g i f :
  (∀ n, n ∈ g → nid n ≠ i) → update_node g i f = g.
Proof.
  intros H. unfold update_node. induction g as [|n g IH]; [reflexivity|].
  simpl. rewrite (proj2 (Nat.eqb_neq _ _) (H n ltac:(left))). f_equal.
  apply IH. intros m Hm. apply H. right. exact Hm.
Qed.

Lemma update_node_app g1 g2 i f :
  update_node (g1 ++ g2) i f = update_node g1 i f ++ update_node g2 i f.
Proof. unfold update_node. apply map_app. Qed.

Lemma rename_loop_exact sub members : ∀ U os A B h,
  Forall2 (λ u o, member_of sub members u = OK o) U os →
  (∀ u n, u ∈ U → n ∈ A ++ B → nid n ≠ nid u) →
  NoDup (nid <$> U) →
  foldM (rename_get_item no_hook sub members) (A ++ U ++ B) U h
  = (h, OK (A ++ zip_with (λ u o, retag o u) U os ++ B)).
Proof.
  induction U as [|u U IH]; intros os A B h HF Hne Hnd.
  - apply Forall2_nil_inv_l in HF as ->. reflexivity.
  - apply Forall2_cons_inv_l in HF as (o & os' & Ho & HF & ->).
    rewrite fmap_cons in Hnd. apply NoDup_cons in Hnd as [Hu Hnd].
    cbn [foldM zip_with]. unfold mbind at 1, M_bind at 1.
    rewrite (rename_get_item_no_hook _ _ _ _ o) by exact Ho.
    assert (Hupd : update_node (A ++ (u :: U) ++ B) (nid u) (retag o)
                   = (A ++ [retag o u]) ++ U ++ B).
    { rewrite update_node_app, <- app_comm_cons.
      rewrite (update_node_other A).
      - unfold update_node at 1. cbn [List.map]. rewrite Nat.eqb_refl.
        fold (update_node (U ++ B) (nid u) (retag o)).
        rewrite (update_node_other (U ++ B)).
        + rewrite <- app_assoc. reflexivity.
        + intros n Hn. apply elem_of_app in Hn as [Hn|Hn].
          * intros E. apply Hu. rewrite <- E. apply list_elem_of_fmap. eauto.
          * apply (Hne u n); [left|]. apply elem_of_app. auto.
      - intros n Hn. apply (Hne u n); [left|]. apply elem_of_app. auto. }
    rewrite Hupd, (IH os' (A ++ [retag o u]) B h HF).
    + rewrite <- app_assoc. reflexivity.
    + intros u' n Hu' Hn. rewrite <- app_assoc in Hn.
      apply elem_of_app in Hn as [Hn|Hn].
      * apply (Hne u' n); [right; exact Hu'|]. apply elem_of_app. auto.
      * apply elem_of_cons in Hn as [->|Hn].
        -- cbn. intros E. apply Hu. rewrite E. apply list_elem_of_fmap. eauto.
        -- apply (Hne u' n); [right; exact Hu'|]. apply elem_of_app. auto.
    + exact Hnd.
Qed.

Lemma lookup_node_first l l' o :
  NoDup (nid <$> l) → o ∈ l → lookup_node (l ++ l') (nid o) = Some o.
Proof.
  intros Hnd Ho. unfold lookup_node. induction l as [|n l IH]; [inversion Ho|].
  rewrite fmap_cons in Hnd. apply NoDup_cons in Hnd as [Hn Hnd].
  simpl. apply elem_of_cons in Ho as [->|Ho].
  - rewrite Nat.eqb_refl. reflexivity.
  - destruct (Nat.eqb_spec (nid n) (nid o)) as [E|_].
    + exfalso. apply Hn. rewrite E. apply list_elem_of_fmap. eauto.
    + apply IH; assumption.
Qed.

Lemma lookup_node_skip A l i :
  (∀ m, m ∈ A → nid m ≠ i) → lookup_node (A ++ l) i = lookup_node l i.
Proof.
  intros H. unfold lookup_node. apply find_app_skip, Forall_forall.
  intros m Hm. apply Nat.eqb_neq, H, Hm.
Qed.

Lemma zip_with_imap {A B C} (f : nat → B → A) (g : A → B → C) (l : list B) :
  zip_with g (imap f l) l = imap (λ j o, g (f j o) o) l.
Proof.
  revert f. induction l as [|x l IH]; intros f; [reflexivity|].
  cbn [imap zip_with]. f_equal. apply IH.
Qed.

Lemma fmap_imap_const {A B C} (g : B → C) (f : nat → B) (l : list A) :
  g <$> imap (λ j _, f j) l = imap (λ j _, g (f j)) l.
Proof. rewrite fmap_imap. reflexivity. Qed.

(** ** What a segment takes and hands out *)

Lemma in_nodes_true i p : in_nodes i p = true ↔ i ∈ nid <$> p.
Proof. unfold in_nodes. apply mem_true. Qed.

Lemma in_nodes_false i p : in_nodes i p = false ↔ i ∉ nid <$> p.
Proof.
  rewrite <- in_nodes_true. destruct (in_nodes i p); split; intros H;
    try reflexivity; try discriminate; try (intros E; discriminate).
  exfalso. apply H. reflexivity.
Qed.

Lemma segment_outputs_spec orig p o :
  o ∈ segment_outputs orig p
  ↔ o ∈ p ∧ ∃ u, u ∈ orig ∧ uses (nid o) u = true ∧ nid u ∉ nid <$> p.
Proof.
  unfold segment_outputs.
  rewrite list_elem_of_In, List.filter_In, <- list_elem_of_In, existsb_exists.
  split.
  - intros [Ho (u & Hu & E)]. apply andb_true_iff in E as [E1 E2].
    apply negb_true_iff, in_nodes_false in E2.
    split; [exact Ho|]. exists u. split; [apply list_elem_of_In, Hu|auto].
  - intros [Ho (u & Hu & E1 & E2)]. split; [exact Ho|]. exists u.
    split; [apply list_elem_of_In, Hu|]. apply andb_true_iff.
    split; [exact E1|]. apply negb_true_iff, in_nodes_false, E2.
Qed.

Lemma segment_inputs_spec orig p n :
  n ∈ segment_inputs orig p
  ↔ n ∈ orig ∧ (nid n ∉ nid <$> p) ∧ ∃ u, u ∈ p ∧ uses (nid n) u = true.
Proof.
  unfold segment_inputs.
  rewrite list_elem_of_In, List.filter_In, <- list_elem_of_In, andb_true_iff,
    negb_true_iff, in_nodes_false, existsb_exists.
  split.
  - intros (Hn & H1 & u & Hu & E). split; [exact Hn|]. split; [exact H1|].
    exists u. split; [apply list_elem_of_In, Hu|exact E].
  - intros (Hn & H1 & u & Hu & E). split; [exact Hn|]. split; [exact H1|].
    exists u. split; [apply list_elem_of_In, Hu|exact E].
Qed.

Lemma output_of_refs body outs n r :
  n ∈ output_of body outs → r ∈ node_refs n → ∃ o, o ∈ outs ∧ r = nid o.
Proof.
  unfold output_of. destruct outs as [|o [|o' outs]].
  - intros H. inversion H.
  - intros H Hr. apply list_elem_of_singleton in H as ->.
    unfold node_refs in Hr. simpl in Hr.
    apply list_elem_of_singleton in Hr as ->. exists o. split; [left|reflexivity].
  - intros H Hr. apply list_elem_of_singleton in H as ->.
    unfold node_refs in Hr. cbn [args List.map concat arg_nodes] in Hr.
    rewrite app_nil_r in Hr.
    apply list_elem_of_In, in_concat in Hr as (l & Hl & Hr).
    apply in_map_iff in Hl as (a & <- & Ha).
    apply list_elem_of_In, list_elem_of_fmap in Ha as (x & -> & Hx).
    simpl in Hr. destruct Hr as [<-|[]]. exists x. split; [exact Hx|reflexivity].
Qed.

Lemma output_of_op body outs :
  Forall (λ n, op n = output) (output_of body outs).
Proof.
  unfold output_of. destruct outs as [|o [|o' outs]]; repeat constructor.
Qed.

Lemma placeholder_refs n r : r ∈ node_refs (as_placeholder n) → False.
Proof. unfold node_refs. simpl. intros H. inversion H. Qed.

Lemma elem_of_child_graph orig p n :
  n ∈ child_graph orig p
  ↔ (∃ m, m ∈ segment_inputs orig p ∧ n = as_placeholder m)
    ∨ n ∈ p
    ∨ n ∈ output_of ((as_placeholder <$> segment_inputs orig p) ++ p)
          (segment_outputs orig p).
Proof.
  unfold child_graph. rewrite !elem_of_app, list_elem_of_fmap.
  split.
  - intros [[(m & -> & Hm)|H]|H]; eauto.
  - intros [(m & Hm & ->)|[H|H]]; eauto.
Qed.

Lemma is_empty_false {A} (l : list A) : l ≠ [] → is_empty l = false.
Proof. destruct l; [contradiction|reflexivity]. Qed.

Lemma seg_nodes_last orig c E i p :
  p ≠ [] → ∃ n, n ∈ seg_nodes orig c E i p ∧ S (nid n) = seg_next orig c p.
Proof.
  intros Hp. unfold seg_nodes, seg_next. rewrite (is_empty_false p Hp).
  rewrite length_extractions. unfold extractions.
  destruct (segment_outputs orig p) as [|o [|o' outs]].
  - exists (seg_call orig c E i p). split; [left|simpl; lia].
  - exists (seg_call orig c E i p). split; [left|simpl; lia].
  - set (l := o :: o' :: outs).
    destruct (lookup_lt_is_Some_2 l (length l - 1)) as [x Hx];
      [simpl; lia|].
    exists (get_item_node c (length l - 1)). split.
    + right. apply elem_of_lookup_imap. eauto.
    + unfold get_item_node. cbn [nid]. simpl. lia.
Qed.

Lemma output_of_tuple body outs :
  2 ≤ length outs →
  output_of body outs
  = [mkNode (fresh_nid body) "output" output (attr "output")
       [ATuple (ANode ∘ nid <$> outs)] ∅].
Proof.
  unfold output_of. destruct outs as [|o [|o' l]]; simpl; try lia. reflexivity.
Qed.

Lemma extractions_tuple c outs :
  2 ≤ length outs →
  extractions c outs = imap (λ j _, get_item_node c j) outs.
Proof.
  unfold extractions. destruct outs as [|o [|o' l]]; simpl; try lia.
  reflexivity.
Qed.

Lemma outputs_env_tuple c outs :
  2 ≤ length outs →
  outputs_env c outs = imap (λ j o, (nid o, c + 1 + j)) outs.
Proof.
  unfold outputs_env. destruct outs as [|o [|o' l]]; simpl; try lia.
  reflexivity.
Qed.

Lemma Forall2_diag {A} (P : A → A → Prop) (l : list A) :
  (∀ x, x ∈ l → P x x) → Forall2 P l l.
Proof.
  intros H. induction l as [|x l IH]; constructor.
  - apply H. left.
  - apply IH. intros y Hy. apply H. right. exact Hy.
Qed.

Lemma Forall2_imap_l {A B C} (P : B → C → Prop) (f : nat → A → B)
    (l : list A) (l' : list C) :
  length l = length l' →
  (∀ j x y, l !! j = Some x → l' !! j = Some y → P (f j x) y) →
  Forall2 P (imap f l) l'.
Proof.
  revert f l'. induction l as [|x l IH]; intros f l' Hlen H.
  - destruct l'; [constructor|discriminate].
  - destruct l' as [|y l']; [discriminate|]. cbn [imap]. constructor.
    + apply (H 0); reflexivity.
    + apply IH; [simpl in Hlen; lia|].
      intros j x' y' Hx Hy. apply (H (S j)); assumption.
Qed.

Lemma imap_const_seq {A B} (f : nat → B) (l : list A) :
  imap (λ j _, f j) l = f <$> seq 0 (length l).
Proof.
  revert f. induction l as [|x l IH]; intros f; [reflexivity|].
  cbn [imap length seq fmap list_fmap]. f_equal.
  rewrite <- fmap_S_seq, <- list_fmap_compose. apply (IH (f ∘ S)).
Qed.

Lemma NoDup_extractions c outs : NoDup (nid <$> extractions c outs).
Proof.
  unfold extractions.
  destruct outs as [|o [|o' l]]; [constructor|constructor|].
  set (outs := o :: o' :: l).
  rewrite (imap_const_seq (get_item_node c) outs), <- list_fmap_compose.
  apply NoDup_fmap_2; [|apply NoDup_seq].
  intros x y E. unfold compose, get_item_node in E. simpl in E. lia.
Qed.

(** ** The validation of a node list *)

Lemma mem_ext i l l' : (∀ x, x ∈ l → x ∈ l') → mem i l = true → mem i l' = true.
Proof. rewrite !mem_true. auto. Qed.

Lemma lint_from_app seen l1 : ∀ l2,
  lint_from seen (l1 ++ l2)
  = lint_from seen l1 && lint_from (rev (nid <$> l1) ++ seen) l2.
Proof.
  revert seen. induction l1 as [|n l1 IH]; intros seen l2; [reflexivity|].
  cbn [app lint_from]. rewrite IH, fmap_cons. cbn [rev].
  rewrite <- app_assoc, andb_assoc. reflexivity.
Qed.

(** The references that matter may be looked for in another set. *)
Lemma lint_from_map f l : ∀ seen seen',
  lint_from seen l = true →
  (∀ n r, n ∈ l → r ∈ node_refs n → r ∈ seen → f r ∈ seen') →
  (∀ n, n ∈ l → f (nid n) = nid n) →
  lint_from seen' (map_node_args f <$> l) = true.
Proof.
  induction l as [|n l IH]; intros seen seen' Hl Hf Hid; [reflexivity|].
  cbn [lint_from] in Hl. apply andb_true_iff in Hl as [Hn Hl].
  rewrite fmap_cons. cbn [lint_from]. apply andb_true_iff. split.
  - apply forallb_forall. intros r Hr. apply mem_true.
    apply list_elem_of_In, map_refs in Hr as (r0 & Hr0 & ->).
    apply (Hf n r0); [left|exact Hr0|].
    apply mem_true. apply (proj1 (forallb_forall _ _) Hn).
    apply list_elem_of_In, Hr0.
  - apply (IH (nid n :: seen)); [exact Hl| |].
    + intros m r Hm Hr Hin. cbn [nid map_node_args set_args].
      apply elem_of_cons in Hin as [->|Hin].
      * rewrite Hid by left. left.
      * right. apply (Hf m r); [right; exact Hm|exact Hr|exact Hin].
    + intros m Hm. apply Hid. right. exact Hm.
Qed.

Lemma lint_from_restrict l seen seen' :
  lint_from seen l = true →
  (∀ n r, n ∈ l → r ∈ node_refs n → r ∈ seen → r ∈ seen') →
  lint_from seen' l = true.
Proof.
  intros Hl H. rewrite <- (fmap_map_node_args_id l).
  apply (lint_from_map (λ i, i) l seen seen' Hl H). reflexivity.
Qed.

Lemma lint_from_no_refs seen l :
  (∀ n r, n ∈ l → r ∈ node_refs n → False) → lint_from seen l = true.
Proof.
  revert seen. induction l as [|n l IH]; intros seen H; [reflexivity|].
  cbn [lint_from]. apply andb_true_iff. split.
  - apply forallb_forall. intros r Hr. exfalso.
    apply (H n r); [left|apply list_elem_of_In, Hr].
  - apply IH. intros m r Hm. apply H. right. exact Hm.
Qed.

Lemma lint_from_singleton seen n :
  lint_from seen [n] = true ↔ ∀ r, r ∈ node_refs n → r ∈ seen.
Proof.
  cbn [lint_from]. rewrite andb_true_r, forallb_forall. split.
  - intros H r Hr. apply mem_true, H, list_elem_of_In, Hr.
  - intros H r Hr. apply mem_true, H, list_elem_of_In, Hr.
Qed.

Lemma elem_of_rev_app {A} (x : A) l l' : x ∈ rev l ++ l' ↔ x ∈ l ∨ x ∈ l'.
Proof. rewrite elem_of_app, !list_elem_of_In, <- in_rev. reflexivity. Qed.

Lemma remove_node_keep g i : (∀ n, n ∈ g → nid n ≠ i) → remove_node g i = g.
Proof.
  intros H. unfold remove_node. apply filter_all, Forall_forall.
  intros n Hn. apply negb_true_iff, Nat.eqb_neq, H, Hn.
Qed.

Lemma remove_node_app g1 g2 i :
  remove_node (g1 ++ g2) i = remove_node g1 i ++ remove_node g2 i.
Proof. unfold remove_node. apply List.filter_app. Qed.

Lemma remove_node_here n g i : nid n = i → (∀ m, m ∈ g → nid m ≠ i) →
  remove_node (n :: g) i = g.
Proof.
  intros Hn Hg. unfold remove_node. cbn [List.filter].
  rewrite (proj2 (Nat.eqb_eq _ _) Hn). cbn [negb].
  apply (remove_node_keep g i Hg).
Qed.

(** The pass on a graph with no marker and no child graph. *)
Lemma pass_plain_graph gm sig depth h :
  existsb _is_autocast_node (nodes gm) = false →
  (∀ n, n ∈ nodes gm → op n ≠ get_attr) →
  lint_from [] (nodes gm) = true →
  replace_autocast_with_hop_pass (S depth) gm sig h = (h, OK (gm, sig)).
Proof.
  intros Hno Hattr Hlint. simpl.
  erewrite bind_OK by (apply helper_no_markers, Hno). cbv beta iota.
  erewrite bind_OK.
  2:{ apply foldM_id. intros a Ha. unfold descend.
      rewrite bool_decide_eq_false_2 by (apply Hattr, Ha). reflexivity. }
  unfold lift, lint. rewrite Hlint. reflexivity.
Qed.

Lemma env_get_hit E r : r ∈ E.*1 → env_get E r ∈ E.*2.
Proof.
  unfold env_get. induction E as [|[a b] E IH]; intros H; [inversion H|].
  simpl. destruct (Nat.eqb_spec a r) as [->|Hne]; [left|].
  right. apply IH. simpl in H. apply elem_of_cons in H as [H|H];
    [congruence|exact H].
Qed.

Lemma lint_from_seen seen l :
  (∀ n r, n ∈ l → r ∈ node_refs n → r ∈ seen) → lint_from seen l = true.
Proof.
  revert seen. induction l as [|n l IH]; intros seen H; [reflexivity|].
  cbn [lint_from]. apply andb_true_iff. split.
  - apply forallb_forall. intros r Hr. apply mem_true.
    apply (H n r); [left|apply list_elem_of_In, Hr].
  - apply IH. intros m r Hm Hr. right. apply (H m r); [right|]; assumption.
Qed.

(** ** Evaluation: arguments *)










(** ** Evaluation: nodes *)



Lemma step_plain call a fr n g :
  is_plain n = true → target n = fn g →
  step call a fr n
  = vs ← eval_args (f_env fr) (args n);
    OK (bind_node fr n (VApp g (f_scopes fr) vs)).
Proof.
  intros Hp Ht. unfold step. rewrite (plain_op n Hp), Ht. reflexivity.
Qed.

Lemma step_placeholder call a fr n :
  op n = placeholder →
  step call a fr n
  = match f_inputs fr with
    | v :: rest => OK (mkFrame (<[nid n := v]> (f_env fr)) (f_scopes fr) rest)
    | [] => Raise TypeError
    end.
Proof. intros H. unfold step. rewrite H. reflexivity. Qed.


Lemma is_plain_map f n : is_plain (map_node_args f n) = is_plain n.
Proof. reflexivity. Qed.







Lemma run_scopes call a l : ∀ fr fr1,
  Forall (λ n, op n = placeholder ∨ is_plain n = true) l →
  run_nodes call a fr l = OK fr1 → f_scopes fr1 = f_scopes fr.
Proof.
  induction l as [|n l IH]; intros fr fr1 Hl Hrun.
  - injection Hrun as <-. reflexivity.
  - apply Forall_cons in Hl as [Hn Hl]. cbn [run_nodes] in Hrun.
    destruct (step call a fr n) as [fr2|e] eqn:Hstep; [|discriminate].
    cbn [mbind result_bind] in Hrun. rewrite (IH fr2 fr1 Hl Hrun).
    destruct Hn as [Hn|Hn].
    + rewrite step_placeholder in Hstep by exact Hn.
      destruct (f_inputs fr) as [|v rest]; [discriminate|].
      injection Hstep as <-. reflexivity.
    + destruct (plain_target n Hn) as [g Hg].
      rewrite (step_plain _ _ _ _ g Hn Hg) in Hstep.
      destruct (eval_args (f_env fr) (args n)) as [vs|e]; [|discriminate].
      injection Hstep as <-. reflexivity.
Qed.





(** ** A run on a graph with one region *)

(** ** Counting the region operations *)

Lemma count_none f g : (∀ n, n ∈ g → f n = false) → count f g = 0.
Proof.
  unfold count. induction g as [|n g IH]; intros H; [reflexivity|].
  simpl. rewrite (H n) by left. apply IH. intros m Hm. apply H. right.
  exact Hm.
Qed.


Section RegionRun.

Context (gm : GraphModule) (phs pre : list Node) (enter : Node)
  (body : list Node) (exit : Node) (post : list Node) (out : Node) (k : nat).
Hypothesis (OR : one_region gm phs pre enter body exit post out k).

Let orig : list Node := nodes gm.
Let region : list Node := enter :: body ++ [exit].
Let N0 : nat := call_pre orig.
Let c1 : nat := call_region orig pre.
Let c2 : nat := call_post orig pre enter body exit.
Let c3 : nat := seg_next orig c2 post.
Let outs1 : list Node := region_outputs orig enter body exit.
Let E0 : list (nat * nat) := env_pre orig pre.
Let E1 : list (nat * nat) := env_region orig pre enter body exit.
Let E2 : list (nat * nat) := env_post orig pre enter body exit post.

Lemma rr_orig : orig = phs ++ pre ++ region ++ post ++ [out].
Proof. exact (or_nodes _ _ _ _ _ _ _ _ _ OR). Qed.

Lemma rr_elem n :
  n ∈ orig ↔ n ∈ phs ∨ n ∈ pre ∨ n ∈ region ∨ n ∈ post ∨ n = out.
Proof.
  rewrite rr_orig, !elem_of_app, list_elem_of_singleton. tauto.
Qed.

Lemma rr_nid_lt n : n ∈ orig → nid n < N0.
Proof. apply fresh_nid_gt. Qed.

Lemma rr_refs_lt n r : n ∈ orig → r ∈ node_refs n → r < N0.
Proof. apply well_formed_refs, (or_wf _ _ _ _ _ _ _ _ _ OR). Qed.

Lemma rr_outs1_length : length outs1 = k ∧ 2 ≤ k.
Proof. exact (or_tuple _ _ _ _ _ _ _ _ _ OR). Qed.

Lemma rr_ext1_length : length (extractions c1 outs1) = k.
Proof.
  rewrite length_extractions. destruct rr_outs1_length as [H1 H2].
  destruct outs1 as [|o [|o' l]]; simpl in *; lia.
Qed.

Lemma rr_c1 : N0 ≤ c1.
Proof.
  unfold c1, call_region, seg_next. fold N0. destruct (is_empty pre); lia.
Qed.

Lemma rr_c2 : c2 = S c1 + k.
Proof.
  unfold c2, call_post, seg_next. cbn [is_empty]. fold c1.
  fold (region_outputs orig enter body exit). fold outs1.
  rewrite rr_ext1_length. reflexivity.
Qed.

Lemma rr_c3 : c2 ≤ c3.
Proof. unfold c3, seg_next. destruct (is_empty post); lia. Qed.

Lemma rr_E0 v :
  v ∈ E0.*2 →
  N0 ≤ v ∧ v < c1 ∧ (length (segment_outputs orig pre) ≠ 1 → N0 < v).
Proof.
  unfold E0, env_pre, seg_env, c1, call_region, seg_next. fold N0.
  destruct pre as [|x l]; cbn [is_empty]; [intros H; inversion H|].
  intros H. apply outputs_env_vals in H. lia.
Qed.

Lemma rr_E1 v : v ∈ E1.*2 → c1 < v ∧ v < c2.
Proof.
  unfold E1, env_region. fold c1 outs1. intros H.
  apply outputs_env_vals in H. rewrite rr_ext1_length in H.
  destruct rr_outs1_length. rewrite rr_c2. lia.
Qed.

Lemma rr_E2 v :
  v ∈ E2.*2 →
  c2 ≤ v ∧ v < c3 ∧ (length (segment_outputs orig post) ≠ 1 → c2 < v).
Proof.
  unfold E2, env_post, seg_env, c3, seg_next. fold c2.
  destruct post as [|x l]; cbn [is_empty]; [intros H; inversion H|].
  intros H. apply outputs_env_vals in H. lia.
Qed.

Lemma rr_E1_keys : E1.*1 = nid <$> outs1.
Proof. apply outputs_env_keys. Qed.

Lemma rr_outs1_region o : o ∈ outs1 → o ∈ region.
Proof. apply outputs_in_segment. Qed.

Lemma rr_region_orig n : n ∈ region → n ∈ orig.
Proof. intros H. apply rr_elem. auto. Qed.

Lemma rr_plain_pre : Forall (λ n, is_plain n = true) pre.
Proof. exact (or_pre _ _ _ _ _ _ _ _ _ OR). Qed.

Lemma rr_plain_post : Forall (λ n, is_plain n = true) post.
Proof. exact (or_post _ _ _ _ _ _ _ _ _ OR). Qed.

(** References through the environments stay below the next invocation. *)
Lemma rr_env_get_E1 r : r < N0 → env_get E1 r < N0 ∨ (c1 < env_get E1 r ∧ env_get E1 r < c2).
Proof.
  intros Hr. destruct (env_get_cases E1 r) as [->|[_ H]]; [left; exact Hr|].
  right. apply rr_E1, H.
Qed.

Lemma rr_ins_lt p n : n ∈ segment_inputs orig p → nid n < N0.
Proof. intros H. apply rr_nid_lt, (segment_inputs_orig _ _ _ H). Qed.

Lemma rr_phs_op : Forall (λ n, op n ≠ call_module) phs.
Proof.
  eapply Forall_impl; [apply (or_phs _ _ _ _ _ _ _ _ _ OR)|].
  intros n ->. discriminate.
Qed.

Lemma rr_extractions_op c outs :
  Forall (λ n, op n ≠ call_module) (extractions c outs).
Proof.
  apply Forall_forall. intros n Hn. unfold extractions in Hn.
  destruct outs as [|o [|o' l]]; try (inversion Hn; fail).
  apply elem_of_lookup_imap in Hn as (j & y & -> & _). discriminate.
Qed.

Lemma rr_seg_nodes_cons c E i p :
  p ≠ [] →
  seg_nodes orig c E i p
  = seg_call orig c E i p :: extractions c (segment_outputs orig p).
Proof. unfold seg_nodes. destruct p; [contradiction|reflexivity]. Qed.

Lemma rr_c1_pre :
  pre ≠ [] → c1 = S N0 + length (extractions N0 (segment_outputs orig pre)).
Proof.
  intros H. unfold c1, call_region, seg_next. fold N0.
  destruct pre; [contradiction|reflexivity].
Qed.

Lemma rr_E0_pre : pre ≠ [] → E0 = outputs_env N0 (segment_outputs orig pre).
Proof.
  intros H. unfold E0, env_pre, seg_env. fold N0.
  destruct pre; [contradiction|reflexivity].
Qed.

Lemma rr_vals_app (P : nat → Prop) (Ea Eb : list (nat * nat)) :
  (∀ v, v ∈ Ea.*2 → P v) → (∀ v, v ∈ Eb.*2 → P v) →
  ∀ v, v ∈ (Ea ++ Eb).*2 → P v.
Proof.
  intros Ha Hb v H. rewrite fmap_app in H.
  apply elem_of_app in H as [H|H]; auto.
Qed.

(** Nothing but its extractions uses the invocation of the first segment
    when that hands out no value or several. *)
Lemma rr_pre_no_users :
  pre ≠ [] → length (segment_outputs orig pre) ≠ 1 →
  ∀ n, n ∈ phs ++ (map_node_args (env_get []) <$> pre)
             ++ seg_call orig N0 [] 0 pre
             :: (seg_nodes orig c1 E0 1 region
                   ++ seg_nodes orig c2 (E1 ++ E0) 2 post
                   ++ [map_node_args (env_get (E2 ++ E1 ++ E0)) out]) →
       uses N0 n = false.
Proof.
  intros Hpre Hlen n Hn. apply not_uses. intros r Hr.
  pose proof (rr_c1_pre Hpre) as Hc1. pose proof rr_c2 as Hc2.
  assert (HE0 : ∀ v, v ∈ E0.*2 → v ≠ N0).
  { intros v Hv. apply rr_E0 in Hv as (_ & _ & Hv). specialize (Hv Hlen). lia. }
  assert (HE1 : ∀ v, v ∈ E1.*2 → v ≠ N0).
  { intros v Hv. apply rr_E1 in Hv. lia. }
  assert (HE2 : ∀ v, v ∈ E2.*2 → v ≠ N0).
  { intros v Hv. apply rr_E2 in Hv. lia. }
  apply elem_of_app in Hn as [Hn|Hn].
  { assert (r < N0); [|lia]. eapply rr_refs_lt; [|exact Hr].
    apply rr_elem. auto. }
  apply elem_of_app in Hn as [Hn|Hn].
  { apply list_elem_of_fmap in Hn as (m & -> & Hm).
    apply map_refs in Hr as (r0 & Hr0 & ->). rewrite env_get_nil.
    assert (r0 < N0); [|lia]. eapply rr_refs_lt; [|exact Hr0].
    apply rr_elem. auto. }
  apply elem_of_cons in Hn as [->|Hn].
  { apply seg_call_refs in Hr as (m & Hm & ->). rewrite env_get_nil.
    pose proof (rr_ins_lt _ _ Hm). lia. }
  apply elem_of_app in Hn as [Hn|Hn].
  { destruct (seg_nodes_refs _ _ _ _ _ _ _ Hn Hr) as [->|(m & Hm & ->)];
      [lia|].
    apply (env_get_P (λ v, v ≠ N0)); [|exact HE0].
    pose proof (rr_ins_lt _ _ Hm). lia. }
  apply elem_of_app in Hn as [Hn|Hn].
  { destruct (seg_nodes_refs _ _ _ _ _ _ _ Hn Hr) as [->|(m & Hm & ->)];
      [lia|].
    apply (env_get_P (λ v, v ≠ N0)).
    - pose proof (rr_ins_lt _ _ Hm). lia.
    - apply rr_vals_app; assumption. }
  apply list_elem_of_singleton in Hn as ->.
  apply map_refs in Hr as (r0 & Hr0 & ->).
  apply (env_get_P (λ v, v ≠ N0)).
  - assert (r0 < N0); [|lia]. eapply rr_refs_lt; [|exact Hr0].
    apply rr_elem. auto 10.
  - apply rr_vals_app; [exact HE2|]. apply rr_vals_app; assumption.
Qed.

Lemma rr_names :
  "submod_" +:+ pretty 0 ≠ "submod_" +:+ pretty 1
  ∧ "submod_" +:+ pretty 0 ≠ "submod_" +:+ pretty 2
  ∧ "submod_" +:+ pretty 2 ≠ "submod_" +:+ pretty 1.
Proof. repeat split; discriminate. Qed.

Lemma rr_out_op : op out = output.
Proof. exact (or_out _ _ _ _ _ _ _ _ _ OR). Qed.

Lemma rr_after_pre_refers0 :
  existsb (refers_to ("submod_" +:+ pretty 0))
    (after_pre orig phs pre enter body exit post out) = false.
Proof.
  destruct rr_names as (H01 & H02 & _).
  apply refers_to_none. intros n Hn. unfold after_pre in Hn.
  apply elem_of_app in Hn as [Hn|Hn].
  { apply refers_to_op. left.
    exact (proj1 (Forall_forall _ _) (or_phs _ _ _ _ _ _ _ _ _ OR) n Hn). }
  apply elem_of_app in Hn as [Hn|Hn].
  { apply refers_to_op. right. left. apply plain_op.
    exact (proj1 (Forall_forall _ _) rr_plain_pre n Hn). }
  apply elem_of_app in Hn as [Hn|Hn].
  { eapply refers_to_seg; [exact Hn|exact H01]. }
  apply elem_of_app in Hn as [Hn|Hn].
  { eapply refers_to_seg; [exact Hn|exact H02]. }
  apply list_elem_of_singleton in Hn as ->.
  rewrite refers_to_map. apply refers_to_op. right. right. exact rr_out_op.
Qed.

Lemma rr_after_pre_refers1 :
  existsb (refers_to ("submod_" +:+ pretty 1))
    (after_pre orig phs pre enter body exit post out) = true.
Proof.
  apply (refers_to_some _ _ (seg_call orig c1 [] 1 region)); [|reflexivity].
  unfold after_pre. apply elem_of_app. right. apply elem_of_app. right.
  apply elem_of_app. left. left.
Qed.

Lemma rr_after_pre_refers2 :
  post ≠ [] →
  existsb (refers_to ("submod_" +:+ pretty 2))
    (after_pre orig phs pre enter body exit post out) = true.
Proof.
  intros Hpost.
  apply (refers_to_some _ _ (seg_call orig c2 E1 2 post)); [|reflexivity].
  unfold after_pre. apply elem_of_app. right. apply elem_of_app. right.
  apply elem_of_app. right. apply elem_of_app. left.
  fold c2 E1. rewrite (rr_seg_nodes_cons _ _ _ _ Hpost). left.
Qed.

Lemma rr_after_pre_attrs :
  pre ≠ [] →
  delete_all_unused_submodules
    (after_pre orig phs pre enter body exit post out)
    (split_attrs orig pre enter body exit post)
  = seg_attr orig 1 region ++ seg_attr orig 2 post.
Proof.
  intros Hpre. unfold split_attrs, seg_attr.
  rewrite (is_empty_false pre Hpre). cbn [is_empty app].
  rewrite !delete_unused_cons, rr_after_pre_refers0, rr_after_pre_refers1.
  cbn [app]. f_equal.
  destruct (is_empty post) eqn:Hpost; [reflexivity|].
  rewrite delete_unused_cons, rr_after_pre_refers2; [reflexivity|].
  intros ->. discriminate.
Qed.

Lemma rr_outs_lt p o : o ∈ segment_outputs orig p → (∀ n, n ∈ p → n ∈ orig) →
  nid o < N0.
Proof.
  intros Ho Hp. apply rr_nid_lt, Hp, (outputs_in_segment orig), Ho.
Qed.

Lemma rr_pre_orig n : n ∈ pre → n ∈ orig.
Proof. intros H. apply rr_elem. auto. Qed.

Lemma rr_post_orig n : n ∈ post → n ∈ orig.
Proof. intros H. apply rr_elem. auto. Qed.

Lemma rr_phs_orig n : n ∈ phs → n ∈ orig.
Proof. intros H. apply rr_elem. auto. Qed.

Lemma rr_out_orig : out ∈ orig.
Proof. apply rr_elem. auto 10. Qed.

(** The first segment, inlined. *)
Lemma rr_visit_pre h :
  foldM (visit no_hook)
    (mkGM (split_nodes orig phs pre enter body exit post out)
       (split_attrs orig pre enter body exit post))
    (phs ++ seg_nodes orig N0 [] 0 pre) h
  = (h, OK (mkGM (after_pre orig phs pre enter body exit post out)
              (seg_attr orig 1 region ++ seg_attr orig 2 post))).
Proof.
  rewrite foldM_app, foldM_visit_skip by exact rr_phs_op.
  destruct (is_empty pre) eqn:Hempty.
  - (* no call before the region *)
    assert (Hpre : pre = []) by (destruct pre; [reflexivity|discriminate]).
    unfold split_nodes, split_attrs, after_pre, env_post, env_region,
      env_pre, call_post, call_region, call_pre, seg_env, seg_next,
      seg_attr, seg_nodes.
    rewrite Hpre. cbn [is_empty app foldM]. rewrite !app_nil_r.
    reflexivity.
  - assert (Hpre : pre ≠ []) by (intros E; rewrite E in Hempty; discriminate).
    pose proof (rr_c1_pre Hpre) as Hc1. pose proof rr_c2 as Hc2.
    pose proof rr_c3 as Hc3. pose proof (rr_E0_pre Hpre) as HE0.
    set (outs0 := segment_outputs orig pre) in *.
    set (B := seg_nodes orig c1 E0 1 region
                ++ seg_nodes orig c2 (E1 ++ E0) 2 post
                ++ [map_node_args (env_get (E2 ++ E1 ++ E0)) out]).
    assert (Houts0 : ∀ o, o ∈ outs0 → nid o < N0).
    { intros o Ho. apply (rr_outs_lt pre); [exact Ho|apply rr_pre_orig]. }
    rewrite (rr_seg_nodes_cons _ _ _ _ Hpre). cbn [foldM].
    unfold mbind at 1, M_bind at 1.
    rewrite (inline_segment _ orig phs B N0 [] 0 pre
               (seg_call orig N0 [] 0 pre) h).
    + rewrite foldM_visit_skip by apply rr_extractions_op.
      cbv zeta. fold outs0.
      assert (Hshape :
        remove_nodes (N0 :: (nid <$> extractions N0 outs0))
          (map_node_args (undo N0 outs0)
           <$> phs ++ (map_node_args (env_get []) <$> pre)
                 ++ seg_nodes orig N0 [] 0 pre ++ B)
        = after_pre orig phs pre enter body exit post out).
      { rewrite (fmap_map_node_args_same (env_get []) pre)
          by (intros; apply env_get_nil).
        rewrite (app_assoc phs pre).
        rewrite remove_inlined.
        - rewrite <- app_assoc. unfold after_pre. f_equal. f_equal.
          unfold B. rewrite !fmap_app.
          rewrite (seg_nodes_map _ orig c1 E0 [] 1 region).
          + rewrite (seg_nodes_map _ orig c2 (E1 ++ E0) E1 2 post).
            * rewrite list_fmap_singleton.
              rewrite (map_env_out _ (E2 ++ E1 ++ E0) (E2 ++ E1) out).
              { reflexivity. }
              intros r Hr. rewrite app_assoc, HE0. apply undo_back.
              -- exact Houts0.
              -- apply (rr_refs_lt out); [apply rr_out_orig|exact Hr].
              -- fold outs0 in Hc1. apply rr_vals_app.
                 ++ intros v Hv. apply rr_E2 in Hv. lia.
                 ++ intros v Hv. apply rr_E1 in Hv. lia.
            * apply undo_miss. fold outs0 in Hc1. lia.
            * intros n Hn. rewrite HE0. apply undo_back.
              -- exact Houts0.
              -- apply (rr_ins_lt _ _ Hn).
              -- fold outs0 in Hc1. intros v Hv. apply rr_E1 in Hv. lia.
          + apply undo_miss. fold outs0 in Hc1. lia.
          + intros n Hn. rewrite HE0, env_get_nil.
            apply undo_outputs_env; [exact Houts0|apply (rr_ins_lt _ _ Hn)].
        - intros n Hn Hid. apply ext_ids_range in Hid.
          assert (nid n < N0); [|lia]. apply rr_nid_lt, rr_elem.
          apply elem_of_app in Hn as [Hn|Hn]; auto.
        - intros n r Hn Hr. apply undo_miss. left.
          apply (rr_refs_lt n); [|exact Hr]. apply rr_elem.
          apply elem_of_app in Hn as [Hn|Hn]; auto.
        - intros n Hn. apply (seg_nodes_nids _ _ _ _ _ _ Hn).
        - intros n Hn Hid. apply ext_ids_range in Hid. fold outs0 in Hc1.
          unfold B in Hn. apply elem_of_app in Hn as [Hn|Hn].
          { apply seg_nodes_range in Hn. lia. }
          apply elem_of_app in Hn as [Hn|Hn].
          { apply seg_nodes_range in Hn. lia. }
          apply list_elem_of_singleton in Hn as ->. cbn [nid map_node_args set_args] in Hid.
          pose proof (rr_nid_lt out rr_out_orig). lia. }
      rewrite Hshape. cbn [attrs]. rewrite (rr_after_pre_attrs Hpre).
      reflexivity.
    + reflexivity.
    + exact Hpre.
    + exact rr_plain_pre.
    + cbn [attrs]. unfold split_attrs, seg_attr. rewrite Hempty.
      cbn [app getattr]. rewrite String.eqb_refl. reflexivity.
    + reflexivity.
    + reflexivity.
    + intros n Hn. pose proof (rr_nid_lt n (rr_phs_orig n Hn)). lia.
    + intros n Hn. apply rr_nid_lt, rr_pre_orig, Hn.
    + intros Hlen n Hn. apply (rr_pre_no_users Hpre Hlen). exact Hn.
    + intros n r _ _ _. apply env_get_nil.
Qed.

(** *** The scope body *)

Lemma rr_nodup : NoDup (nid <$> orig).
Proof. exact (or_nodup _ _ _ _ _ _ _ _ _ OR). Qed.

Lemma rr_nodup_region : NoDup (nid <$> region).
Proof.
  pose proof rr_nodup as H. rewrite rr_orig, !fmap_app in H.
  apply NoDup_app in H as (_ & _ & H). apply NoDup_app in H as (_ & _ & H).
  apply NoDup_app in H as (H & _ & _). exact H.
Qed.

Lemma rr_enter_region : enter ∈ region.
Proof. left. Qed.

Lemma rr_exit_region : exit ∈ region.
Proof. right. apply elem_of_app. right. left. Qed.

Lemma rr_exit_unused n : n ∈ orig → uses (nid exit) n = false.
Proof. exact (or_exit_unused _ _ _ _ _ _ _ _ _ OR n). Qed.

Lemma rr_enter_private n : n ∈ orig → uses (nid enter) n = true → n = exit.
Proof. exact (or_enter_private _ _ _ _ _ _ _ _ _ OR n). Qed.

Lemma rr_exit_not_out o : o ∈ outs1 → nid o ≠ nid exit.
Proof.
  intros Ho E. apply segment_outputs_spec in Ho as (_ & u & Hu & Huse & _).
  rewrite E, (rr_exit_unused u Hu) in Huse. discriminate.
Qed.

Lemma rr_enter_not_out o : o ∈ outs1 → nid o ≠ nid enter.
Proof.
  intros Ho E. apply segment_outputs_spec in Ho as (_ & u & Hu & Huse & Hout).
  rewrite E in Huse. apply (rr_enter_private u Hu) in Huse. subst u.
  apply Hout. apply list_elem_of_fmap. exists exit.
  split; [reflexivity|apply rr_exit_region].
Qed.

Lemma rr_outs1_body o : o ∈ outs1 → o ∈ body.
Proof.
  intros Ho. pose proof (rr_outs1_region o Ho) as Hr.
  apply elem_of_cons in Hr as [->|Hr].
  { exfalso. exact (rr_enter_not_out _ Ho eq_refl). }
  apply elem_of_app in Hr as [Hr|Hr]; [exact Hr|].
  apply list_elem_of_singleton in Hr as ->.
  exfalso. exact (rr_exit_not_out _ Ho eq_refl).
Qed.

Lemma rr_child_markers :
  nodes_filter (child_graph orig region) _is_autocast_node = [enter; exit].
Proof.
  unfold nodes_filter, child_graph. rewrite !List.filter_app.
  rewrite (filter_none _ (as_placeholder <$> _)),
    (filter_none _ (output_of _ _)).
  - rewrite app_nil_r. unfold region. cbn [app List.filter].
    rewrite (enter_marker enter (or_enter _ _ _ _ _ _ _ _ _ OR)).
    rewrite List.filter_app, (filter_none _ body) by
      (apply (or_quiet_body gm phs pre enter body exit post out k OR)).
    cbn [app List.filter].
    rewrite (exit_marker exit (or_exit _ _ _ _ _ _ _ _ _ OR)). reflexivity.
  - eapply Forall_impl; [apply output_of_op|]. intros n.
    apply output_not_marker.
  - apply Forall_fmap, Forall_true. intros n.
    apply placeholder_not_marker. reflexivity.
Qed.

Lemma rr_child_exit_unused :
  users (child_graph orig region) (nid exit) = [].
Proof.
  apply users_nil_iff. intros n Hn.
  apply elem_of_child_graph in Hn as [(m & Hm & ->)|[Hn|Hn]].
  - apply not_uses. intros r Hr. destruct (placeholder_refs _ _ Hr).
  - apply rr_exit_unused, rr_region_orig, Hn.
  - apply not_uses. intros r Hr.
    destruct (output_of_refs _ _ _ _ Hn Hr) as (o & Ho & ->).
    apply rr_exit_not_out, Ho.
Qed.

Lemma rr_child_enter_unused :
  users (remove_node (child_graph orig region) (nid exit)) (nid enter) = [].
Proof.
  apply users_nil_iff. intros n Hn.
  apply elem_of_remove_node in Hn as [Hn Hne].
  apply elem_of_child_graph in Hn as [(m & Hm & ->)|[Hn|Hn]].
  - apply not_uses. intros r Hr. destruct (placeholder_refs _ _ Hr).
  - destruct (uses (nid enter) n) eqn:E; [|reflexivity].
    apply (rr_enter_private n (rr_region_orig n Hn)) in E. congruence.
  - apply not_uses. intros r Hr.
    destruct (output_of_refs _ _ _ _ Hn Hr) as (o & Ho & ->).
    apply rr_enter_not_out, Ho.
Qed.

Lemma rr_attrs1_get :
  getattr (seg_attr orig 1 region ++ seg_attr orig 2 post)
    ("submod_" +:+ pretty 1)
  = Some (AModule (region_child orig enter body exit)).
Proof. reflexivity. Qed.

Lemma rr_is_autocast c E a :
  getattr a ("submod_" +:+ pretty 1)
  = Some (AModule (region_child orig enter body exit)) →
  _is_autocast_sub_mod (mkGM (after_pre orig phs pre enter body exit post out) a)
    (seg_call orig c E 1 region) = OK true.
Proof.
  intros Hget. unfold _is_autocast_sub_mod, seg_call. cbn [op target].
  rewrite bool_decide_eq_true_2 by reflexivity.
  unfold get_submodule. cbn [attrs]. rewrite Hget.
  cbn [mbind result_bind nodes region_child].
  unfold nodes_first, child_graph. rewrite <- app_assoc.
  rewrite find_app_skip by (apply Forall_fmap, Forall_true; reflexivity).
  unfold region. cbn [app List.find].
  pose proof (or_enter _ _ _ _ _ _ _ _ _ OR) as He.
  unfold _is_enter_autocast_node in He.
  apply andb_true_iff in He as [He1 He2].
  apply bool_decide_eq_true in He1. rewrite He1. cbn [bool_decide negb].
  simpl. rewrite ?He1, He2. reflexivity.
Qed.

Lemma rr_gid n :
  n ∈ after_pre orig phs pre enter body exit post out →
  nid n < fresh_nid (after_pre orig phs pre enter body exit post out).
Proof. apply fresh_nid_gt. Qed.

Lemma rr_c3_gid : c3 ≤ fresh_nid (after_pre orig phs pre enter body exit post out).
Proof.
  destruct (is_empty post) eqn:Hempty.
  - assert (Hc : c3 = c2) by (unfold c3, seg_next; rewrite Hempty; reflexivity).
    destruct (seg_nodes_last orig c1 [] 1 region ltac:(discriminate))
      as (n & Hn & Hlast).
    fold c2 in Hlast. change (seg_next orig c1 region) with c2 in Hlast.
    assert (nid n < fresh_nid (after_pre orig phs pre enter body exit post out)).
    { apply rr_gid. unfold after_pre. apply elem_of_app. right.
      apply elem_of_app. right. apply elem_of_app. left. exact Hn. }
    lia.
  - assert (Hpost : post ≠ []) by (intros E; rewrite E in Hempty; discriminate).
    destruct (seg_nodes_last orig c2 E1 2 post Hpost) as (n & Hn & Hlast).
    fold c3 in Hlast.
    assert (nid n < fresh_nid (after_pre orig phs pre enter body exit post out)).
    { apply rr_gid. unfold after_pre. apply elem_of_app. right.
      apply elem_of_app. right. apply elem_of_app. right.
      apply elem_of_app. left. exact Hn. }
    lia.
Qed.

Lemma rr_after_pre_split :
  after_pre orig phs pre enter body exit post out
  = (phs ++ pre)
      ++ seg_call orig c1 [] 1 region
      :: (extractions c1 outs1
            ++ seg_nodes orig c2 E1 2 post
            ++ [map_node_args (env_get (E2 ++ E1)) out]).
Proof.
  unfold after_pre, seg_nodes at 1. unfold region. cbn [is_empty].
  rewrite <- !app_assoc. reflexivity.
Qed.

Lemma rr_ins1_not_region m : m ∈ segment_inputs orig region → nid m ∉ nid <$> region.
Proof. intros H. apply segment_inputs_spec in H as (_ & H & _). exact H. Qed.

Lemma rr_child_lookup o :
  o ∈ outs1 → lookup_node (child_graph orig region) (nid o) = Some o.
Proof.
  intros Ho. unfold child_graph. rewrite <- app_assoc.
  rewrite lookup_node_skip.
  - apply lookup_node_first; [exact rr_nodup_region|].
    apply rr_outs1_region, Ho.
  - intros m Hm E. apply list_elem_of_fmap in Hm as (m0 & -> & Hm0).
    apply (rr_ins1_not_region m0 Hm0). cbn in E. rewrite E.
    apply list_elem_of_fmap. exists o.
    split; [reflexivity|apply rr_outs1_region, Ho].
Qed.

Lemma rr_vals :
  mapR (meta_val (child_graph orig region)) (ANode ∘ nid <$> outs1)
  = OK (region_vals orig enter body exit).
Proof.
  apply (mapR_meta_val _ _ outs1).
  - apply Forall2_fmap_l, Forall2_diag. intros o Ho.
    exists (nid o). split; [reflexivity|apply rr_child_lookup, Ho].
  - unfold region_vals. fold outs1. apply Forall2_fmap_r, Forall2_diag.
    intros o Ho.
    pose proof (proj1 (Forall_forall _ _) (or_vals _ _ _ _ _ _ _ _ _ OR) o Ho)
      as [v Hv].
    unfold compose. rewrite !Hv. reflexivity.
Qed.

Lemma rr_members j o :
  outs1 !! j = Some o →
  member_of (child_graph orig region) (ANode ∘ nid <$> outs1)
    (map_node_args (subst1 c1 (nid (region_hop orig phs pre enter body exit post out)))
       (get_item_node c1 j))
  = OK o.
Proof.
  intros Hj.
  eapply (member_of_replaced _ _ outs1 _ _ (ANode c1) j []).
  - apply Forall2_fmap_l, Forall2_diag. intros o' Ho'.
    exists (nid o'). split; [reflexivity|apply rr_child_lookup, Ho'].
  - reflexivity.
  - exact Hj.
Qed.

Lemma rr_hop_refs r :
  r ∈ node_refs (region_hop orig phs pre enter body exit post out) →
  r = fresh_nid (after_pre orig phs pre enter body exit post out)
  ∨ r < N0.
Proof.
  unfold region_hop, tuple_hop, hop_args, node_refs.
  cbn [args List.map concat arg_nodes].
  fold (node_refs enter). rewrite (or_params _ _ _ _ _ _ _ _ _ OR).
  cbn [app]. intros H. apply elem_of_cons in H as [->|H]; [left; reflexivity|].
  right. fold (node_refs (seg_call orig c1 [] 1 region)) in H.
  apply seg_call_refs in H as (m & Hm & ->). rewrite env_get_nil.
  apply (rr_ins_lt _ _ Hm).
Qed.

(** The nodes after the region's invocation do not refer to it. *)
Lemma rr_tail_refs n r :
  n ∈ seg_nodes orig c2 E1 2 post ++ [map_node_args (env_get (E2 ++ E1)) out] →
  r ∈ node_refs n → r < N0 ∨ (c1 < r ∧ r < c3).
Proof.
  pose proof rr_c2 as Hc2. pose proof rr_c3 as Hc3. pose proof rr_c1 as Hc1.
  assert (HE1 : ∀ v, v ∈ E1.*2 → v < N0 ∨ (c1 < v ∧ v < c3)).
  { intros v Hv. apply rr_E1 in Hv. lia. }
  assert (HE2 : ∀ v, v ∈ E2.*2 → v < N0 ∨ (c1 < v ∧ v < c3)).
  { intros v Hv. apply rr_E2 in Hv. lia. }
  intros Hn Hr. apply elem_of_app in Hn as [Hn|Hn].
  - pose proof (seg_nodes_range _ _ _ _ _ _ Hn) as Hrange. fold c3 in Hrange.
    destruct (seg_nodes_refs _ _ _ _ _ _ _ Hn Hr) as [->|(m & Hm & ->)];
      [lia|].
    apply (env_get_P (λ v, v < N0 ∨ (c1 < v ∧ v < c3))); [|exact HE1].
    left. apply (rr_ins_lt _ _ Hm).
  - apply list_elem_of_singleton in Hn as ->.
    apply map_refs in Hr as (r0 & Hr0 & ->).
    apply (env_get_P (λ v, v < N0 ∨ (c1 < v ∧ v < c3))).
    + left. apply (rr_refs_lt out _ rr_out_orig Hr0).
    + apply rr_vals_app; assumption.
Qed.

Lemma rr_tail_nid n :
  n ∈ seg_nodes orig c2 E1 2 post ++ [map_node_args (env_get (E2 ++ E1)) out] →
  nid n < N0 ∨ (c2 ≤ nid n ∧ nid n < c3).
Proof.
  intros Hn. apply elem_of_app in Hn as [Hn|Hn].
  - right. apply (seg_nodes_range _ _ _ _ _ _ Hn).
  - apply list_elem_of_singleton in Hn as ->. left.
    apply (rr_nid_lt out rr_out_orig).
Qed.

Lemma rr_head_nid n : n ∈ phs ++ pre → nid n < N0.
Proof.
  intros Hn. apply rr_nid_lt, rr_elem.
  apply elem_of_app in Hn as [Hn|Hn]; auto.
Qed.

Lemma rr_head_refs n r : n ∈ phs ++ pre → r ∈ node_refs n → r < N0.
Proof.
  intros Hn. apply rr_refs_lt, rr_elem.
  apply elem_of_app in Hn as [Hn|Hn]; auto.
Qed.

Lemma rr_ext1_nid n : n ∈ extractions c1 outs1 → c1 < nid n ∧ nid n < c2.
Proof.
  intros Hn. apply extraction_nid in Hn. rewrite rr_ext1_length in Hn.
  rewrite rr_c2. lia.
Qed.

Lemma rr_child_last :
  find_output_node (child_graph orig region)
  = Some (mkNode
            (fresh_nid ((as_placeholder <$> segment_inputs orig region)
                          ++ region))
            "output" output (attr "output")
            [ATuple (ANode ∘ nid <$> outs1)] ∅).
Proof.
  destruct rr_outs1_length as [Hk1 Hk2].
  apply find_output_node_Some; [|reflexivity].
  unfold child_graph. fold (region_outputs orig enter body exit). fold outs1.
  rewrite (output_of_tuple _ outs1) by lia. apply last_snoc.
Qed.

(** The region's invocation, replaced. *)
Lemma rr_replace_call h :
  replace_call no_hook
    (insert_before (after_pre orig phs pre enter body exit post out) c1
       [region_get_attr orig phs pre enter body exit post out])
    (child_graph orig region) (seg_call orig c1 [] 1 region) enter
    (region_get_attr orig phs pre enter body exit post out) h
  = (h, OK (after_region orig phs pre enter body exit post out)).
Proof.
  pose proof rr_c1 as Hc1. pose proof rr_c2 as Hc2. pose proof rr_c3 as Hc3.
  pose proof rr_c3_gid as Hgid. destruct rr_outs1_length as [Hk1 Hk2].
  set (AP := after_pre orig phs pre enter body exit post out) in *.
  set (ga := region_get_attr orig phs pre enter body exit post out).
  set (hop := region_hop orig phs pre enter body exit post out).
  set (call := seg_call orig c1 [] 1 region).
  set (ext1 := extractions c1 outs1).
  set (B1 := seg_nodes orig c2 E1 2 post
               ++ [map_node_args (env_get (E2 ++ E1)) out]).
  set (σ := subst1 c1 (nid hop)).
  assert (Hga : nid ga = fresh_nid AP) by reflexivity.
  assert (Hhop : nid hop = S (fresh_nid AP)) by reflexivity.
  assert (HAP : AP = (phs ++ pre) ++ call :: (ext1 ++ B1))
    by apply rr_after_pre_split.
  assert (HA1 : ∀ m, m ∈ phs ++ pre → nid m ≠ c1).
  { intros m Hm. pose proof (rr_head_nid m Hm). lia. }
  assert (Hg1 : insert_before AP c1 [ga]
                = (phs ++ pre ++ [ga]) ++ call :: (ext1 ++ B1)).
  { rewrite HAP, (insert_before_app_skip _ call _ c1 _ HA1 eq_refl).
    rewrite <- !app_assoc. reflexivity. }
  assert (Hfresh : fresh_nid (insert_before AP c1 [ga]) = nid hop).
  { rewrite (fresh_nid_insert_before AP c1 ga Hga). exact (eq_sym Hhop). }
  assert (Hg2 : insert_before (insert_before AP c1 [ga]) c1 [hop]
                = (phs ++ pre ++ [ga; hop]) ++ [call] ++ (ext1 ++ B1)).
  { rewrite Hg1, (insert_before_app_skip _ call _ c1 _).
    - rewrite <- !app_assoc. reflexivity.
    - intros m Hm. rewrite app_assoc in Hm.
      apply elem_of_app in Hm as [Hm|Hm]; [apply HA1, Hm|].
      apply list_elem_of_singleton in Hm as ->. lia.
    - reflexivity. }
  assert (HB1 : map_node_args σ <$> B1 = B1).
  { apply fmap_map_node_args_same. intros n r Hn Hr. unfold σ, subst1.
    pose proof (rr_tail_refs n r Hn Hr).
    destruct (Nat.eqb_spec r c1); [lia|reflexivity]. }
  assert (Hg3 : remove_node
                  (replace_uses
                     (insert_before (insert_before AP c1 [ga]) c1 [hop])
                     c1 (nid hop)) c1
                = (phs ++ pre ++ [ga; hop])
                    ++ (map_node_args σ <$> ext1) ++ B1).
  { rewrite Hg2, replace_uses_fmap.
    rewrite <- (remove_nodes_nil (remove_node _ c1)), <- remove_nodes_cons.
    rewrite remove_inlined.
    - fold σ. rewrite fmap_app, HB1. reflexivity.
    - intros n Hn Hid. apply list_elem_of_singleton in Hid.
      rewrite app_assoc in Hn. apply elem_of_app in Hn as [Hn|Hn];
        [exact (HA1 n Hn Hid)|].
      apply elem_of_cons in Hn as [->|Hn]; [lia|].
      apply list_elem_of_singleton in Hn as ->. lia.
    - intros n r Hn Hr. unfold σ, subst1.
      destruct (Nat.eqb_spec r c1) as [->|]; [exfalso|reflexivity].
      rewrite app_assoc in Hn. apply elem_of_app in Hn as [Hn|Hn].
      { pose proof (rr_head_refs n c1 Hn Hr). lia. }
      apply elem_of_cons in Hn as [->|Hn]; [inversion Hr|].
      apply list_elem_of_singleton in Hn as ->.
      apply rr_hop_refs in Hr as [Hr|Hr]; fold AP in Hr; lia.
    - intros n Hn. apply list_elem_of_singleton in Hn as ->. left.
    - intros n Hn Hid. apply list_elem_of_singleton in Hid.
      apply elem_of_app in Hn as [Hn|Hn].
      + apply rr_ext1_nid in Hn. lia.
      + apply rr_tail_nid in Hn. lia. }
  assert (HU : users ((phs ++ pre ++ [ga; hop])
                        ++ (map_node_args σ <$> ext1) ++ B1) (nid hop)
               = map_node_args σ <$> ext1).
  { unfold users.
    rewrite (List.filter_app _ (phs ++ pre ++ [ga; hop])),
      (List.filter_app _ (_ <$> ext1)).
    rewrite (filter_uses_none _ (phs ++ pre ++ [ga; hop])),
      (filter_uses_none _ B1), (filter_all _ (_ <$> ext1)).
    - rewrite app_nil_r. reflexivity.
    - apply Forall_forall. intros n Hn.
      apply list_elem_of_fmap in Hn as (e & -> & He).
      apply uses_map. exists c1. split.
      + unfold ext1 in He. rewrite (extractions_tuple c1 outs1) in He by lia.
        apply elem_of_lookup_imap in He as (j & x & -> & _).
        unfold node_refs. simpl. left.
      + unfold σ, subst1. rewrite Nat.eqb_refl. reflexivity.
    - intros n Hn. apply not_uses. intros r Hr.
      pose proof (rr_tail_refs n r Hn Hr). lia.
    - intros n Hn. apply not_uses. intros r Hr.
      rewrite app_assoc in Hn. apply elem_of_app in Hn as [Hn|Hn].
      { pose proof (rr_head_refs n r Hn Hr). lia. }
      apply elem_of_cons in Hn as [->|Hn]; [inversion Hr|].
      apply list_elem_of_singleton in Hn as ->.
      apply rr_hop_refs in Hr as [Hr|Hr]; fold AP in Hr; lia. }
  unfold replace_call. rewrite rr_child_last.
  cbn [args length]. rewrite bool_decide_eq_true_2 by reflexivity.
  change (assert true) with (OK ()). rewrite bind_lift.
  unfold args0. cbn [args]. rewrite bind_lift.
  rewrite rr_vals, bind_lift. fold ga. rewrite Hfresh.
  change (tuple_hop (nid hop) enter ga call
            (region_vals orig enter body exit)) with hop.
  unfold mbind at 1, M_bind at 1. rewrite node_replace_no_hook.
  change (nid call) with c1. rewrite Hg3, HU.
  rewrite (rename_loop_exact _ _ _ outs1).
  - f_equal. f_equal. unfold after_region.
    rewrite <- !app_assoc. f_equal. f_equal. f_equal. f_equal. f_equal.
    unfold ext1. rewrite (extractions_tuple c1 outs1) by lia.
    rewrite fmap_imap_const.
    rewrite (zip_with_imap (λ j _, map_node_args σ (get_item_node c1 j))
               (λ u o, retag o u) outs1).
    reflexivity.
  - unfold ext1. rewrite (extractions_tuple c1 outs1) by lia.
    rewrite fmap_imap_const. apply Forall2_imap_l; [reflexivity|].
    intros j x y Hx Hy. assert (x = y) as -> by congruence.
    apply rr_members, Hy.
  - intros u n Hu Hn. apply list_elem_of_fmap in Hu as (e & -> & He).
    apply rr_ext1_nid in He. cbn [nid map_node_args set_args].
    apply elem_of_app in Hn as [Hn|Hn].
    + rewrite app_assoc in Hn. apply elem_of_app in Hn as [Hn|Hn].
      { pose proof (rr_head_nid n Hn). lia. }
      apply elem_of_cons in Hn as [->|Hn]; [lia|].
      apply list_elem_of_singleton in Hn as ->. lia.
    + apply rr_tail_nid in Hn. lia.
  - rewrite nid_fmap_map_node_args. apply NoDup_extractions.
Qed.

Lemma rr_visit_region h :
  foldM (visit no_hook)
    (mkGM (after_pre orig phs pre enter body exit post out)
       (seg_attr orig 1 region ++ seg_attr orig 2 post))
    (seg_nodes orig c1 E0 1 region) h
  = (h, OK (mkGM (after_region orig phs pre enter body exit post out)
              (("submod_" +:+ pretty 1,
                AModule (without_markers (region_child orig enter body exit)
                           enter exit))
               :: seg_attr orig 2 post))).
Proof.
  pose proof rr_c1 as Hc1.
  set (gm1 := mkGM (after_pre orig phs pre enter body exit post out)
                (seg_attr orig 1 region ++ seg_attr orig 2 post)).
  assert (Hlook : lookup_node (nodes gm1) c1
                  = Some (seg_call orig c1 [] 1 region)).
  { cbn [nodes gm1]. rewrite rr_after_pre_split.
    apply lookup_node_app_skip; [|reflexivity].
    intros m Hm. pose proof (rr_head_nid m Hm). lia. }
  unfold seg_nodes at 1. unfold region at 1. cbn [is_empty foldM].
  unfold mbind at 1, M_bind at 1. unfold visit at 1. cbn [op nid seg_call].
  rewrite bool_decide_eq_true_2 by reflexivity.
  fold region. rewrite Hlook.
  unfold _maybe_inline_or_replace_with_hop.
  assert (Hauto : _is_autocast_sub_mod gm1 (seg_call orig c1 [] 1 region)
                  = OK true) by apply rr_is_autocast, rr_attrs1_get.
  rewrite Hauto, bind_lift.
  rewrite (replace_with_hop_unfold no_hook gm1 _ ("submod_" +:+ pretty 1)
             (region_child orig enter body exit) enter exit h).
  - cbn [nodes gm1 region_child nid seg_call].
    unfold mbind at 1, M_bind at 1.
    change (new_get_attr _ ("submod_" +:+ pretty 1) enter)
      with (region_get_attr orig phs pre enter body exit post out).
    rewrite rr_replace_call. unfold mret, M_ret. cbv beta iota.
    rewrite foldM_visit_skip by apply rr_extractions_op.
    reflexivity.
  - reflexivity.
  - reflexivity.
  - apply rr_attrs1_get.
  - apply rr_child_markers.
  - exact (or_enter _ _ _ _ _ _ _ _ _ OR).
  - exact (or_exit _ _ _ _ _ _ _ _ _ OR).
  - exact (or_closes _ _ _ _ _ _ _ _ _ OR).
  - apply rr_child_exit_unused.
  - apply rr_child_enter_unused.
Qed.

(** *** The segment after the region *)

Lemma rr_item n :
  n ∈ region_items orig phs pre enter body exit post out →
  c1 < nid n ∧ nid n < c2 ∧ op n = call_function
  ∧ ∀ r, r ∈ node_refs n →
         r = S (fresh_nid (after_pre orig phs pre enter body exit post out)).
Proof.
  unfold region_items. intros Hn.
  apply elem_of_lookup_imap in Hn as (j & o & -> & Hj).
  apply lookup_lt_Some in Hj. fold outs1 in Hj.
  destruct rr_outs1_length as [Hk1 Hk2]. rewrite rr_c2.
  split; [simpl; fold c1; lia|]. split; [simpl; fold c1; lia|].
  split; [reflexivity|].
  intros r Hr. unfold node_refs in Hr. simpl in Hr.
  apply list_elem_of_singleton in Hr. rewrite Hr.
  unfold subst1. fold c1. rewrite Nat.eqb_refl. reflexivity.
Qed.

Lemma rr_region_post_disjoint o : o ∈ region → nid o ∉ nid <$> post.
Proof.
  intros Ho Hin. pose proof rr_nodup as H. rewrite rr_orig, !fmap_app in H.
  apply NoDup_app in H as (_ & _ & H). apply NoDup_app in H as (_ & _ & H).
  apply NoDup_app in H as (_ & H & _).
  apply (H (nid o)).
  - apply list_elem_of_fmap. eauto.
  - apply elem_of_app. left. exact Hin.
Qed.

Lemma rr_post_miss n r :
  n ∈ post → r ∈ node_refs n →
  r ∉ nid <$> segment_inputs orig post → env_get E1 r = r.
Proof.
  intros Hn Hr Hnot. apply env_get_miss. rewrite rr_E1_keys. intros Hin.
  apply list_elem_of_fmap in Hin as (o & -> & Ho).
  apply Hnot. apply list_elem_of_fmap. exists o. split; [reflexivity|].
  apply segment_inputs_spec. split; [|split].
  - apply rr_region_orig, rr_outs1_region, Ho.
  - apply rr_region_post_disjoint, rr_outs1_region, Ho.
  - exists n. split; [exact Hn|]. unfold uses. apply mem_true, Hr.
Qed.

Lemma rr_mid_nid n :
  n ∈ phs ++ pre
        ++ [region_get_attr orig phs pre enter body exit post out;
            region_hop orig phs pre enter body exit post out]
        ++ region_items orig phs pre enter body exit post out →
  nid n < c2 ∨ c3 ≤ nid n.
Proof.
  pose proof rr_c1 as Hc1. pose proof rr_c2 as Hc2. pose proof rr_c3_gid as Hg.
  intros Hn. rewrite app_assoc in Hn. apply elem_of_app in Hn as [Hn|Hn].
  { pose proof (rr_head_nid n Hn). lia. }
  apply elem_of_app in Hn as [Hn|Hn].
  - apply elem_of_cons in Hn as [->|Hn]; [right; exact Hg|].
    apply list_elem_of_singleton in Hn as ->. right. simpl. lia.
  - apply rr_item in Hn. lia.
Qed.

Lemma rr_mid_refs n r :
  n ∈ phs ++ pre
        ++ [region_get_attr orig phs pre enter body exit post out;
            region_hop orig phs pre enter body exit post out]
        ++ region_items orig phs pre enter body exit post out →
  r ∈ node_refs n → r < N0 ∨ c3 ≤ r.
Proof.
  pose proof rr_c3_gid as Hg.
  intros Hn Hr. rewrite app_assoc in Hn. apply elem_of_app in Hn as [Hn|Hn].
  { left. apply (rr_head_refs n r Hn Hr). }
  apply elem_of_app in Hn as [Hn|Hn].
  - apply elem_of_cons in Hn as [->|Hn]; [inversion Hr|].
    apply list_elem_of_singleton in Hn as ->.
    apply rr_hop_refs in Hr as [->|Hr]; [right; exact Hg|left; exact Hr].
  - apply rr_item in Hn as (_ & _ & _ & Hn). rewrite (Hn r Hr). right. lia.
Qed.

Lemma rr_post_env_refs n r :
  n ∈ map_node_args (env_get E1) <$> post → r ∈ node_refs n →
  r < N0 ∨ (c1 < r ∧ r < c2).
Proof.
  intros Hn Hr. apply list_elem_of_fmap in Hn as (m & -> & Hm).
  apply map_refs in Hr as (r0 & Hr0 & ->).
  apply rr_env_get_E1. apply (rr_refs_lt m _ (rr_post_orig m Hm) Hr0).
Qed.

Lemma rr_after_post_elem n :
  n ∈ after_post orig phs pre enter body exit post out →
  n ∈ phs ∨ n ∈ pre
  ∨ n = region_get_attr orig phs pre enter body exit post out
  ∨ n = region_hop orig phs pre enter body exit post out
  ∨ n ∈ region_items orig phs pre enter body exit post out
  ∨ (∃ m, m ∈ post ∧ n = map_node_args (env_get E1) m)
  ∨ n = map_node_args (env_get E1) out.
Proof.
  unfold after_post. rewrite !elem_of_app, !elem_of_cons, list_elem_of_fmap.
  intros [H|[H|[[H|[H|H]]|[H|[(m & -> & H)|[H|H]]]]]]; eauto 10;
    inversion H.
Qed.

Lemma rr_after_post_refers2 :
  existsb (refers_to ("submod_" +:+ pretty 2))
    (after_post orig phs pre enter body exit post out) = false.
Proof.
  apply refers_to_none. intros n Hn.
  apply rr_after_post_elem in Hn
    as [Hn|[Hn|[-> |[-> |[Hn|[(m & Hm & ->)| ->]]]]]].
  - apply refers_to_op. left.
    exact (proj1 (Forall_forall _ _) (or_phs _ _ _ _ _ _ _ _ _ OR) n Hn).
  - apply refers_to_op. right. left. apply plain_op.
    exact (proj1 (Forall_forall _ _) rr_plain_pre n Hn).
  - reflexivity.
  - reflexivity.
  - apply refers_to_op. right. left. apply (rr_item n Hn).
  - rewrite refers_to_map. apply refers_to_op. right. left. apply plain_op.
    exact (proj1 (Forall_forall _ _) rr_plain_post m Hm).
  - rewrite refers_to_map. apply refers_to_op. right. right. exact rr_out_op.
Qed.

Lemma rr_after_post_refers1 :
  existsb (refers_to ("submod_" +:+ pretty 1))
    (after_post orig phs pre enter body exit post out) = true.
Proof.
  apply (refers_to_some _ _
           (region_get_attr orig phs pre enter body exit post out));
    [|reflexivity].
  unfold after_post. apply elem_of_app. right. apply elem_of_app. right.
  left.
Qed.

(** The last segment, inlined. *)
Lemma rr_visit_post h :
  foldM (visit no_hook)
    (mkGM (after_region orig phs pre enter body exit post out)
       (("submod_" +:+ pretty 1,
         AModule (without_markers (region_child orig enter body exit)
                    enter exit))
        :: seg_attr orig 2 post))
    (seg_nodes orig c2 (E1 ++ E0) 2 post
       ++ [map_node_args (env_get (E2 ++ E1 ++ E0)) out]) h
  = (h, OK (region_result orig phs pre enter body exit post out)).
Proof.
  assert (Hout : Forall (λ n, op n ≠ call_module)
                   [map_node_args (env_get (E2 ++ E1 ++ E0)) out]).
  { constructor; [|constructor]. cbn [op map_node_args set_args].
    rewrite rr_out_op. discriminate. }
  destruct (is_empty post) eqn:Hempty.
  - (* no call after the region *)
    assert (Hpost : post = []) by (destruct post; [reflexivity|discriminate]).
    rewrite foldM_visit_skip.
    + unfold region_result, after_region, after_post, seg_attr, seg_nodes.
      rewrite Hempty. unfold env_post, seg_env. rewrite Hempty.
      rewrite Hpost. reflexivity.
    + unfold seg_nodes. rewrite Hempty. exact Hout.
  - assert (Hpost : post ≠ []) by (intros E; rewrite E in Hempty; discriminate).
    pose proof rr_c1 as Hc1. pose proof rr_c2 as Hc2.
    pose proof rr_c3_gid as Hgid.
    assert (Hc3 : c3 = S c2 + length (extractions c2 (segment_outputs orig post))).
    { unfold c3, seg_next. rewrite Hempty. reflexivity. }
    assert (HE2 : E2 = outputs_env c2 (segment_outputs orig post)).
    { unfold E2, env_post, seg_env. fold c2. rewrite Hempty. reflexivity. }
    set (outs2 := segment_outputs orig post) in *.
    set (A := phs ++ pre
                ++ [region_get_attr orig phs pre enter body exit post out;
                    region_hop orig phs pre enter body exit post out]
                ++ region_items orig phs pre enter body exit post out).
    set (B := [map_node_args (env_get (E2 ++ E1)) out]).
    assert (Houts2 : ∀ o, o ∈ outs2 → nid o < c2).
    { intros o Ho.
      pose proof (rr_outs_lt post o Ho rr_post_orig). lia. }
    rewrite foldM_app, (rr_seg_nodes_cons _ _ _ _ Hpost). cbn [foldM].
    unfold mbind at 1, M_bind at 1.
    rewrite (inline_segment _ orig A B c2 E1 2 post
               (seg_call orig c2 (E1 ++ E0) 2 post) h).
    + cbv beta iota zeta.
      rewrite foldM_visit_skip by apply rr_extractions_op.
      unfold visit at 1. cbn [op map_node_args set_args].
      rewrite rr_out_op.
      change ((if bool_decide (output = call_module) then _ else mret ?g)
              ≫= _) with (mret (M := M) g).
      unfold mret, M_ret. fold outs2.
      assert (Hshape :
        remove_nodes (c2 :: (nid <$> extractions c2 outs2))
          (map_node_args (undo c2 outs2)
           <$> A ++ (map_node_args (env_get E1) <$> post)
                 ++ seg_nodes orig c2 E1 2 post ++ B)
        = after_post orig phs pre enter body exit post out).
      { rewrite (app_assoc A).
        rewrite remove_inlined.
        - unfold after_post, A, B. rewrite <- !app_assoc.
          rewrite list_fmap_singleton.
          rewrite (map_env_out _ (E2 ++ E1) E1 out); [reflexivity|].
          intros r Hr. rewrite HE2. apply undo_front.
          + exact Houts2.
          + pose proof (rr_refs_lt out r rr_out_orig Hr). lia.
          + intros v Hv. apply rr_E1 in Hv. lia.
          + intros Hin Hkey. rewrite rr_E1_keys in Hkey.
            apply list_elem_of_fmap in Hkey as (o & Eo & Ho).
            apply (rr_region_post_disjoint o (rr_outs1_region o Ho)).
            rewrite <- Eo. apply list_elem_of_fmap in Hin as (o2 & -> & Ho2).
            apply list_elem_of_fmap. exists o2.
            split; [reflexivity|apply (outputs_in_segment orig), Ho2].
        - intros n Hn Hid. apply ext_ids_range in Hid. fold outs2 in Hc3.
          apply elem_of_app in Hn as [Hn|Hn].
          + apply rr_mid_nid in Hn. lia.
          + apply list_elem_of_fmap in Hn as (m & -> & Hm).
            pose proof (rr_nid_lt m (rr_post_orig m Hm)).
            cbn [nid map_node_args set_args] in Hid. lia.
        - intros n r Hn Hr. apply undo_miss. fold outs2 in Hc3.
          apply elem_of_app in Hn as [Hn|Hn].
          + pose proof (rr_mid_refs n r Hn Hr). lia.
          + pose proof (rr_post_env_refs n r Hn Hr). lia.
        - intros n Hn. apply (seg_nodes_nids _ _ _ _ _ _ Hn).
        - intros n Hn Hid. apply ext_ids_range in Hid.
          apply list_elem_of_singleton in Hn as ->.
          cbn [nid map_node_args set_args] in Hid.
          pose proof (rr_nid_lt out rr_out_orig). lia. }
      rewrite Hshape. cbn [attrs]. unfold seg_attr. rewrite Hempty.
      rewrite !delete_unused_cons, rr_after_post_refers1,
        rr_after_post_refers2.
      reflexivity.
    + unfold after_region, A, B. cbn [nodes]. rewrite <- !app_assoc.
      reflexivity.
    + exact Hpost.
    + exact rr_plain_post.
    + cbn [attrs]. unfold seg_attr. rewrite Hempty. reflexivity.
    + reflexivity.
    + reflexivity.
    + intros n Hn. apply rr_mid_nid in Hn. lia.
    + intros n Hn. pose proof (rr_nid_lt n (rr_post_orig n Hn)). lia.
    + intros Hlen n Hn. apply not_uses. intros r Hr.
      apply elem_of_app in Hn as [Hn|Hn].
      { pose proof (rr_mid_refs n r Hn Hr). lia. }
      apply elem_of_app in Hn as [Hn|Hn].
      { pose proof (rr_post_env_refs n r Hn Hr). lia. }
      apply elem_of_cons in Hn as [->|Hn].
      { apply seg_call_refs in Hr as (m & Hm & ->).
        pose proof (rr_env_get_E1 (nid m) (rr_ins_lt _ _ Hm)). lia. }
      apply list_elem_of_singleton in Hn as ->.
      apply map_refs in Hr as (r0 & Hr0 & ->).
      apply (env_get_P (λ v, v ≠ c2)).
      * pose proof (rr_refs_lt out r0 rr_out_orig Hr0). lia.
      * apply rr_vals_app.
        -- intros v Hv. apply rr_E2 in Hv as (_ & _ & Hv).
           specialize (Hv Hlen). lia.
        -- intros v Hv. apply rr_E1 in Hv. lia.
    + intros n r Hn Hr Hnot. apply (rr_post_miss n r Hn Hr Hnot).
Qed.

(** *** The validation of the child graph and of the result *)

Lemma rr_orig3 : orig = (phs ++ pre) ++ region ++ (post ++ [out]).
Proof. rewrite rr_orig, <- !app_assoc. reflexivity. Qed.

Lemma rr_lint_parts :
  lint_from [] (phs ++ pre) = true
  ∧ lint_from (rev (nid <$> phs ++ pre) ++ []) region = true
  ∧ lint_from (rev (nid <$> region) ++ rev (nid <$> phs ++ pre) ++ [])
      (post ++ [out]) = true.
Proof.
  pose proof (or_wf _ _ _ _ _ _ _ _ _ OR) as H. unfold well_formed in H.
  fold orig in H. rewrite rr_orig3 in H.
  rewrite (lint_from_app [] (phs ++ pre)),
    (lint_from_app _ region (post ++ [out])) in H.
  apply andb_true_iff in H as [H1 H]. apply andb_true_iff in H as [H2 H3].
  split; [exact H1|]. split; [exact H2|exact H3].
Qed.

Lemma rr_head_region_disjoint m : m ∈ phs ++ pre → nid m ∉ nid <$> region.
Proof.
  intros Hm Hin. pose proof rr_nodup as H.
  rewrite rr_orig3, (fmap_app _ (phs ++ pre)), (fmap_app _ region) in H.
  apply NoDup_app in H as (_ & H & _). apply (H (nid m)).
  - apply list_elem_of_fmap. eauto.
  - apply elem_of_app. left. exact Hin.
Qed.

Lemma rr_region_tail_disjoint o : o ∈ region → nid o ∉ nid <$> (post ++ [out]).
Proof.
  intros Ho Hin. pose proof rr_nodup as H.
  rewrite rr_orig3, (fmap_app _ (phs ++ pre)), (fmap_app _ region) in H.
  apply NoDup_app in H as (_ & _ & H). apply NoDup_app in H as (_ & H & _).
  apply (H (nid o)); [apply list_elem_of_fmap; eauto|exact Hin].
Qed.

Lemma rr_body_not_marker n : n ∈ body → nid n ≠ nid enter ∧ nid n ≠ nid exit.
Proof.
  intros Hn. pose proof rr_nodup_region as H. unfold region in H.
  rewrite fmap_cons, fmap_app in H. apply NoDup_cons in H as [H1 H2].
  apply NoDup_app in H2 as (_ & H2 & _). split.
  - intros E. apply H1. rewrite <- E. apply elem_of_app. left.
    apply list_elem_of_fmap. eauto.
  - intros E. apply (H2 (nid n)); [apply list_elem_of_fmap; eauto|].
    rewrite E. left.
Qed.

Lemma rr_enter_not_exit : nid enter ≠ nid exit.
Proof.
  pose proof rr_nodup_region as H. unfold region in H.
  rewrite fmap_cons, fmap_app in H. apply NoDup_cons in H as [H1 _].
  intros E. apply H1. rewrite E. apply elem_of_app. right. left.
Qed.

(** A value the region takes is a graph input or comes from a call before
    the region. *)
Lemma rr_ins1_head m :
  m ∈ segment_inputs orig region → nid m ∈ nid <$> phs ++ pre.
Proof.
  intros Hm. apply segment_inputs_spec in Hm as (_ & Hnot & u & Hu & Huse).
  destruct rr_lint_parts as (_ & H & _).
  unfold uses in Huse. apply mem_true in Huse.
  destruct (lint_from_refs _ _ H u (nid m) Hu Huse) as [Hin|Hin];
    [|contradiction].
  apply elem_of_rev_app in Hin as [Hin|Hin]; [exact Hin|inversion Hin].
Qed.

Lemma rr_head_ins1 m r u :
  m ∈ phs ++ pre → u ∈ region → r = nid m → r ∈ node_refs u →
  r ∈ nid <$> segment_inputs orig region.
Proof.
  intros Hm Hu -> Hr. apply list_elem_of_fmap. exists m.
  split; [reflexivity|]. apply segment_inputs_spec. split; [|split].
  - apply rr_elem. apply elem_of_app in Hm as [Hm|Hm]; auto.
  - apply rr_head_region_disjoint, Hm.
  - exists u. split; [exact Hu|]. unfold uses. apply mem_true, Hr.
Qed.

Lemma rr_child_nodes :
  nodes (without_markers (region_child orig enter body exit) enter exit)
  = (as_placeholder <$> segment_inputs orig region) ++ body
      ++ [mkNode
            (fresh_nid ((as_placeholder <$> segment_inputs orig region)
                          ++ region))
            "output" output (attr "output")
            [ATuple (ANode ∘ nid <$> outs1)] ∅].
Proof.
  destruct rr_outs1_length as [Hk1 Hk2].
  unfold without_markers, region_child. cbn [nodes]. fold region.
  rewrite <- (remove_nodes_nil (remove_node _ (nid enter))),
    <- !remove_nodes_cons.
  unfold child_graph. fold (region_outputs orig enter body exit). fold outs1.
  rewrite (output_of_tuple _ outs1) by lia.
  set (phs' := as_placeholder <$> segment_inputs orig region).
  set (outnode := mkNode _ _ _ _ _ _).
  assert (Hlt : ∀ n, n ∈ region → nid n < nid outnode).
  { intros n Hn. apply (fresh_nid_gt (phs' ++ region)).
    apply elem_of_app. right. exact Hn. }
  rewrite <- app_assoc.
  change (phs' ++ region ++ [outnode])
    with (phs' ++ [enter] ++ (body ++ [exit]) ++ [outnode]).
  rewrite <- (app_assoc body). rewrite !remove_nodes_app.
  rewrite (remove_nodes_keep _ phs'), (remove_nodes_drop _ [enter]),
    (remove_nodes_keep _ body), (remove_nodes_drop _ [exit]),
    (remove_nodes_keep _ [outnode]).
  - reflexivity.
  - intros n Hn Hid. apply list_elem_of_singleton in Hn as ->.
    pose proof (Hlt enter rr_enter_region). pose proof (Hlt exit rr_exit_region).
    apply elem_of_cons in Hid as [Hid|Hid]; [lia|].
    apply list_elem_of_singleton in Hid. lia.
  - intros n Hn. apply list_elem_of_singleton in Hn as ->. left.
  - intros n Hn Hid. destruct (rr_body_not_marker n Hn).
    apply elem_of_cons in Hid as [Hid|Hid]; [contradiction|].
    apply list_elem_of_singleton in Hid. contradiction.
  - intros n Hn. apply list_elem_of_singleton in Hn as ->. right. left.
  - intros n Hn Hid. apply list_elem_of_fmap in Hn as (m & -> & Hm).
    apply (rr_ins1_not_region m Hm). cbn [nid as_placeholder] in Hid.
    apply list_elem_of_fmap.
    apply elem_of_cons in Hid as [Hid|Hid].
    + exists exit. split; [exact Hid|apply rr_exit_region].
    + apply list_elem_of_singleton in Hid.
      exists enter. split; [exact Hid|apply rr_enter_region].
Qed.

Lemma rr_lint_body :
  lint_from (rev (nid <$> phs ++ pre ++ [enter]) ++ []) body = true.
Proof.
  destruct rr_lint_parts as (_ & H & _).
  change region with ([enter] ++ body ++ [exit]) in H.
  rewrite (lint_from_app _ [enter]), (lint_from_app _ body) in H.
  apply andb_true_iff in H as [_ H]. apply andb_true_iff in H as [H _].
  eapply lint_from_restrict; [exact H|].
  intros n r _ _ Hin. rewrite app_assoc, fmap_app.
  apply elem_of_rev_app. apply elem_of_rev_app in Hin as [Hin|Hin].
  - left. apply elem_of_app. right. exact Hin.
  - apply elem_of_rev_app in Hin as [Hin|Hin]; [|inversion Hin].
    left. apply elem_of_app. left. exact Hin.
Qed.

Lemma rr_child_lint :
  lint_from []
    (nodes (without_markers (region_child orig enter body exit) enter exit))
  = true.
Proof.
  rewrite rr_child_nodes.
  set (phs' := as_placeholder <$> segment_inputs orig region).
  rewrite (lint_from_app [] phs'), (lint_from_app _ body).
  apply andb_true_iff. split; [|apply andb_true_iff; split].
  - apply lint_from_no_refs. intros n r Hn Hr.
    apply list_elem_of_fmap in Hn as (m & -> & _).
    exact (placeholder_refs _ _ Hr).
  - eapply lint_from_restrict; [exact rr_lint_body|].
    intros n r Hn Hr Hin. apply elem_of_rev_app. left.
    apply elem_of_rev_app in Hin as [Hin|Hin]; [|inversion Hin].
    rewrite app_assoc, fmap_app in Hin. apply elem_of_app in Hin as [Hin|Hin].
    + unfold phs'. rewrite <- list_fmap_compose.
      apply list_elem_of_fmap in Hin as (m & -> & Hm).
      apply (rr_head_ins1 m (nid m) n Hm); [|reflexivity|exact Hr].
      right. apply elem_of_app. left. exact Hn.
    + exfalso. apply list_elem_of_singleton in Hin as ->.
      assert (n = exit).
      { apply rr_enter_private.
        - apply rr_region_orig. right. apply elem_of_app. left. exact Hn.
        - unfold uses. apply mem_true, Hr. }
      subst n. destruct (rr_body_not_marker exit Hn). congruence.
  - apply lint_from_singleton. intros r Hr.
    unfold node_refs in Hr. cbn [args List.map concat arg_nodes] in Hr.
    rewrite app_nil_r in Hr.
    apply list_elem_of_In, in_concat in Hr as (l & Hl & Hr).
    apply in_map_iff in Hl as (a & <- & Ha).
    apply list_elem_of_In, list_elem_of_fmap in Ha as (o & -> & Ho).
    simpl in Hr. destruct Hr as [<-|[]].
    apply elem_of_rev_app. left. apply list_elem_of_fmap.
    exists o. split; [reflexivity|apply rr_outs1_body, Ho].
Qed.

Lemma rr_child_quiet :
  existsb _is_autocast_node
    (nodes (without_markers (region_child orig enter body exit) enter exit))
  = false.
Proof.
  rewrite rr_child_nodes, !existsb_app.
  rewrite !orb_false_iff. split; [|split].
  - destruct (existsb _ _) eqn:E; [|reflexivity].
    apply existsb_exists in E as (n & Hn & E).
    apply list_elem_of_In, list_elem_of_fmap in Hn as (m & -> & _).
    discriminate.
  - destruct (existsb _ body) eqn:E; [|reflexivity].
    apply existsb_exists in E as (n & Hn & E).
    pose proof (proj1 (Forall_forall _ _)
                  (or_quiet_body gm phs pre enter body exit post out k OR)
                  n (proj2 (list_elem_of_In _ _) Hn)).
    congruence.
  - reflexivity.
Qed.

Lemma rr_child_no_attr n :
  n ∈ nodes (without_markers (region_child orig enter body exit) enter exit) →
  op n ≠ get_attr.
Proof.
  rewrite rr_child_nodes. intros Hn.
  apply elem_of_app in Hn as [Hn|Hn].
  { apply list_elem_of_fmap in Hn as (m & -> & _). discriminate. }
  apply elem_of_app in Hn as [Hn|Hn].
  - rewrite (plain_op n); [discriminate|].
    exact (proj1 (Forall_forall _ _) (or_body _ _ _ _ _ _ _ _ _ OR) n Hn).
  - apply list_elem_of_singleton in Hn as ->. discriminate.
Qed.

(** The pass leaves the child graph of the region as it is. *)
Lemma rr_child_pass depth h :
  replace_autocast_with_hop_pass (S depth)
    (without_markers (region_child orig enter body exit) enter exit) None h
  = (h, OK (without_markers (region_child orig enter body exit) enter exit,
            None)).
Proof.
  apply pass_plain_graph.
  - apply rr_child_quiet.
  - apply rr_child_no_attr.
  - apply rr_child_lint.
Qed.

Lemma rr_hop_refs2 r :
  r ∈ node_refs (region_hop orig phs pre enter body exit post out) →
  r = nid (region_get_attr orig phs pre enter body exit post out)
  ∨ ∃ m, m ∈ segment_inputs orig region ∧ r = nid m.
Proof.
  unfold region_hop, tuple_hop, hop_args, node_refs.
  cbn [args List.map concat arg_nodes].
  fold (node_refs enter). rewrite (or_params _ _ _ _ _ _ _ _ _ OR).
  cbn [app]. intros H. apply elem_of_cons in H as [->|H]; [left; reflexivity|].
  right. fold (node_refs (seg_call orig c1 [] 1 region)) in H.
  apply seg_call_refs in H as (m & Hm & ->). rewrite env_get_nil. eauto.
Qed.

Lemma rr_items_nids :
  nid <$> region_items orig phs pre enter body exit post out = E1.*2.
Proof.
  destruct rr_outs1_length as [Hk1 Hk2].
  unfold region_items, E1, env_region. fold c1 outs1.
  rewrite (outputs_env_tuple c1 outs1) by lia.
  rewrite !fmap_imap. apply imap_ext. intros j o _. reflexivity.
Qed.

Lemma rr_tail_not_key n : n ∈ post ++ [out] → nid n ∉ E1.*1.
Proof.
  intros Hn Hin. rewrite rr_E1_keys in Hin.
  apply list_elem_of_fmap in Hin as (o & E & Ho).
  apply (rr_region_tail_disjoint o (rr_outs1_region o Ho)).
  rewrite <- E. apply list_elem_of_fmap. eauto.
Qed.

Lemma rr_tail_orig n : n ∈ post ++ [out] → n ∈ orig.
Proof.
  intros Hn. apply rr_elem. apply elem_of_app in Hn as [Hn|Hn]; [auto|].
  apply list_elem_of_singleton in Hn. auto 10.
Qed.

(** A node after the region that uses a node of the region uses one of
    the values the region hands out. *)
Lemma rr_tail_uses_out n r :
  n ∈ post ++ [out] → r ∈ node_refs n → r ∈ nid <$> region →
  r ∈ nid <$> outs1.
Proof.
  intros Hn Hr Hin. apply list_elem_of_fmap in Hin as (o & -> & Ho).
  apply list_elem_of_fmap. exists o. split; [reflexivity|].
  apply segment_outputs_spec. split; [exact Ho|].
  exists n. split; [apply rr_tail_orig, Hn|]. split.
  - unfold uses. apply mem_true, Hr.
  - intros Hnid. apply list_elem_of_fmap in Hnid as (o' & E & Ho').
    apply (rr_region_tail_disjoint o' Ho'). rewrite <- E.
    apply list_elem_of_fmap. eauto.
Qed.

Lemma rr_final_lint :
  lint_from [] (after_post orig phs pre enter body exit post out) = true.
Proof.
  destruct rr_lint_parts as (H1 & _ & H3).
  set (ga := region_get_attr orig phs pre enter body exit post out).
  set (hop := region_hop orig phs pre enter body exit post out).
  set (items := region_items orig phs pre enter body exit post out).
  assert (Hshape : after_post orig phs pre enter body exit post out
                   = (phs ++ pre) ++ [ga] ++ [hop] ++ items
                       ++ (map_node_args (env_get E1) <$> post ++ [out])).
  { unfold after_post. rewrite fmap_app, <- !app_assoc. reflexivity. }
  rewrite Hshape.
  rewrite (lint_from_app [] (phs ++ pre)), (lint_from_app _ [ga]),
    (lint_from_app _ [hop]), (lint_from_app _ items).
  apply andb_true_iff; split; [|apply andb_true_iff; split;
    [|apply andb_true_iff; split; [|apply andb_true_iff; split]]].
  - exact H1.
  - reflexivity.
  - apply lint_from_singleton. intros r Hr.
    apply rr_hop_refs2 in Hr as [->|(m & Hm & ->)].
    + left.
    + right. apply elem_of_rev_app. left. apply rr_ins1_head, Hm.
  - apply lint_from_seen. intros n r Hn Hr.
    apply rr_item in Hn as (_ & _ & _ & Hn). rewrite (Hn r Hr). left.
  - eapply lint_from_map; [exact H3| |].
    + intros n r Hn Hr Hin.
      apply elem_of_rev_app in Hin as [Hin|Hin].
      * apply elem_of_rev_app. left. unfold items. rewrite rr_items_nids.
        apply env_get_hit. rewrite rr_E1_keys.
        apply (rr_tail_uses_out n r Hn Hr Hin).
      * apply elem_of_rev_app in Hin as [Hin|Hin]; [|inversion Hin].
        rewrite env_get_miss.
        -- apply elem_of_rev_app. right. right. right.
           apply elem_of_rev_app. left. exact Hin.
        -- rewrite rr_E1_keys. intros Hkey.
           apply list_elem_of_fmap in Hin as (m & -> & Hm).
           apply (rr_head_region_disjoint m Hm).
           apply list_elem_of_fmap in Hkey as (o & E & Ho).
           rewrite E. apply list_elem_of_fmap. exists o.
           split; [reflexivity|apply rr_outs1_region, Ho].
    + intros n Hn. apply env_get_miss, rr_tail_not_key, Hn.
Qed.

Lemma rr_need_replacing : existsb _is_autocast_node (nodes gm) = true.
Proof.
  apply existsb_exists. exists enter. split.
  - apply list_elem_of_In. apply (rr_region_orig enter rr_enter_region).
  - apply enter_marker. exact (or_enter _ _ _ _ _ _ _ _ _ OR).
Qed.

Lemma rr_split :
  _split_autocast gm
  = OK (mkGM (split_nodes orig phs pre enter body exit post out)
          (split_attrs orig pre enter body exit post)).
Proof.
  rewrite (split_one_region gm phs pre enter body exit post out k OR).
  destruct (three_segments_shape orig phs pre enter body exit post out)
    as [H1 H2].
  cbv zeta in H1, H2. fold orig. rewrite H1, H2. reflexivity.
Qed.

(** The split-and-replace step on a graph with one region. *)
Lemma rr_helper h :
  _sequential_split_and_maybe_inline_subgraphs gm None h
  = (h, OK (region_result orig phs pre enter body exit post out, None)).
Proof.
  unfold _sequential_split_and_maybe_inline_subgraphs.
  rewrite rr_need_replacing. cbn [negb]. rewrite rr_split, bind_lift.
  unfold mbind at 1, M_bind at 1. unfold mret at 1, M_ret at 1.
  cbn [nodes].
  assert (Hsnap : split_nodes orig phs pre enter body exit post out
                  = (phs ++ seg_nodes orig N0 [] 0 pre)
                      ++ seg_nodes orig c1 E0 1 region
                      ++ (seg_nodes orig c2 (E1 ++ E0) 2 post
                            ++ [map_node_args (env_get (E2 ++ E1 ++ E0)) out])).
  { unfold split_nodes. rewrite <- !app_assoc. reflexivity. }
  rewrite Hsnap at 2.
  unfold mbind at 1, M_bind at 1.
  rewrite foldM_app, rr_visit_pre, foldM_app, rr_visit_region, rr_visit_post.
  reflexivity.
Qed.

Lemma rr_descend depth n h :
  n ∈ after_post orig phs pre enter body exit post out →
  descend (λ subgm, replace_autocast_with_hop_pass (S depth) subgm None)
    (region_result orig phs pre enter body exit post out) n h
  = (h, OK (region_result orig phs pre enter body exit post out)).
Proof.
  intros Hn. unfold descend.
  apply rr_after_post_elem in Hn
    as [Hn|[Hn|[-> |[-> |[Hn|[(m & Hm & ->)| ->]]]]]].
  - rewrite (proj1 (Forall_forall _ _) (or_phs _ _ _ _ _ _ _ _ _ OR) n Hn).
    reflexivity.
  - rewrite (plain_op n (proj1 (Forall_forall _ _) rr_plain_pre n Hn)).
    reflexivity.
  - cbn [op target region_get_attr new_get_attr].
    rewrite bool_decide_eq_true_2 by reflexivity.
    cbn [attrs region_result getattr]. rewrite String.eqb_refl.
    unfold mbind, M_bind. rewrite rr_child_pass. reflexivity.
  - reflexivity.
  - destruct (rr_item n Hn) as (_ & _ & -> & _). reflexivity.
  - cbn [op map_node_args set_args].
    rewrite (plain_op m (proj1 (Forall_forall _ _) rr_plain_post m Hm)).
    reflexivity.
  - cbn [op map_node_args set_args]. rewrite rr_out_op. reflexivity.
Qed.

(** The pass on a graph with one region returns [region_result]. *)
Lemma rr_pass depth h :
  replace_autocast_with_hop_pass (S (S depth)) gm None h
  = (h, OK (region_result orig phs pre enter body exit post out, None)).
Proof.
  remember (S depth) as d eqn:Hd.
  cbn [replace_autocast_with_hop_pass].
  erewrite bind_OK by apply rr_helper. cbv beta iota.
  erewrite bind_OK.
  2:{ apply foldM_id. intros a Ha. rewrite Hd. apply rr_descend. exact Ha. }
  unfold lift, lint. cbn [nodes region_result]. rewrite rr_final_lint.
  reflexivity.
Qed.

(** *** Evaluating the graph and the result *)













Lemma rr_hop_nid :
  nid (region_hop orig phs pre enter body exit post out)
  = S (fresh_nid (after_pre orig phs pre enter body exit post out)).
Proof. reflexivity. Qed.













(** ** The region operation of the result *)

Lemma rr_hop_is_hop :
  is_hop (region_hop orig phs pre enter body exit post out) = true.
Proof. reflexivity. Qed.





End RegionRun.

(** * Further properties of the code *)

(** ** The boundary tracker on arbitrary node sequences (lines 163-184) *)

Lemma call_back_inv st n b st' :
  length (enter_autocast_node_stack st) ≤ 1 →
  (first_node_after_outer_most_exit st = true →
   enter_autocast_node_stack st = []) →
  node_call_back st n = OK (b, st') →
  length (enter_autocast_node_stack st') ≤ 1
  ∧ (first_node_after_outer_most_exit st' = true →
     enter_autocast_node_stack st' = []).
Proof.
  destruct st as [stack flag]. cbn [enter_autocast_node_stack
    first_node_after_outer_most_exit]. intros Hlen Hflag.
  unfold node_call_back. cbn [enter_autocast_node_stack
    first_node_after_outer_most_exit].
  destruct flag.
  - rewrite (Hflag eq_refl). simpl.
    intros H. injection H as <- <-. simpl.
    destruct (_is_enter_autocast_node n); simpl; split; (lia || discriminate).
  - simpl. destruct stack as [|e [|e' stack]]; [| |simpl in Hlen; lia].
    + simpl. destruct (_is_enter_autocast_node n).
      * simpl. intros H. injection H as <- <-. simpl. split; [lia|discriminate].
      * destruct (_is_exit_autocast_node n); simpl; [discriminate|].
        intros H. injection H as <- <-. simpl. split; [lia|discriminate].
    + simpl. destruct (_is_exit_autocast_node n).
      * simpl. destruct (args0 n) as [a|e0]; simpl; [|discriminate].
        destruct (arg_is_node a e); simpl; [|discriminate].
        intros H. injection H as <- <-. simpl. split; [lia|reflexivity].
      * intros H. injection H as <- <-. simpl. split; [lia|discriminate].
Qed.

Lemma traverse_inv l : ∀ st flags st',
  length (enter_autocast_node_stack st) ≤ 1 →
  (first_node_after_outer_most_exit st = true →
   enter_autocast_node_stack st = []) →
  traverse node_call_back st l = OK (flags, st') →
  length (enter_autocast_node_stack st') ≤ 1
  ∧ (first_node_after_outer_most_exit st' = true →
     enter_autocast_node_stack st' = []).
Proof.
  induction l as [|n l IH]; intros st flags st' Hlen Hflag Hrun.
  - injection Hrun as <- <-. auto.
  - simpl in Hrun.
    destruct (node_call_back st n) as [[b st1]|e] eqn:Hcb; [|discriminate].
    simpl in Hrun.
    destruct (traverse node_call_back st1 l) as [[bs st2]|e] eqn:Htr;
      [|discriminate].
    simpl in Hrun. injection Hrun as <- <-.
    destruct (call_back_inv _ _ _ _ Hlen Hflag Hcb) as [Hlen1 Hflag1].
    exact (IH _ _ _ Hlen1 Hflag1 Htr).
Qed.

(** X1: whatever nodes the splitter has shown to the callback, the stack
    of open Enters holds at most one node, and it is empty whenever the
    next node is to start a segment after an Exit.  So the assertion of line
    171 cannot fail: when the callback takes its first branch it answers
    true. *)
Theorem X1_call_back_stack_invariant (l : list Node) (flags : list bool)
    (st : cb_state) :
  run_call_back l = OK (flags, st) →
  length (enter_autocast_node_stack st) ≤ 1
  ∧ (first_node_after_outer_most_exit st = true →
     enter_autocast_node_stack st = [])
  ∧ ∀ n,
      first_node_after_outer_most_exit st
      || (is_empty (enter_autocast_node_stack st)
          && _is_enter_autocast_node n) = true →
      ∃ st', node_call_back st n = OK (true, st').
Proof.
  intros Hrun.
  destruct (traverse_inv l cb_init flags st) as [Hlen Hflag];
    [simpl; lia|discriminate|exact Hrun|].
  split; [exact Hlen|]. split; [exact Hflag|].
  intros n Hbranch. unfold node_call_back. rewrite Hbranch.
  assert (He : is_empty (enter_autocast_node_stack st) = true).
  { destruct (first_node_after_outer_most_exit st) eqn:Hf.
    - rewrite (Hflag eq_refl). reflexivity.
    - simpl in Hbranch. apply andb_true_iff in Hbranch as [H _]. exact H. }
  rewrite He. simpl. eauto.
Qed.

Lemma X1_witness :
  run_call_back (nodes tuple_region_graph)
  = OK ([false; false; true; false; false; false; true; false], cb_init)
  ∧ ∀ n, _is_enter_autocast_node n = true →
         ∃ st', node_call_back cb_init n = OK (true, st').
Proof.
  assert (Hrun : run_call_back (nodes tuple_region_graph)
            = OK ([false; false; true; false; false; false; true; false],
                  cb_init)) by (vm_compute; reflexivity).
  split; [exact Hrun|].
  intros n Hn.
  destruct (X1_call_back_stack_invariant _ _ _ Hrun) as (_ & _ & H).
  apply H. simpl. exact Hn.
Defined.

(** Inside an open region a node that is no Exit is answered with false and
    leaves the state alone: a nested Enter is not pushed. *)
Lemma call_back_open st n :
  first_node_after_outer_most_exit st = false →
  is_empty (enter_autocast_node_stack st) = false →
  _is_exit_autocast_node n = false →
  node_call_back st n = OK (false, st).
Proof.
  intros Hf He Hx. unfold node_call_back. rewrite Hf, He, Hx. reflexivity.
Qed.

Lemma traverse_open st l :
  first_node_after_outer_most_exit st = false →
  is_empty (enter_autocast_node_stack st) = false →
  Forall (λ n, _is_exit_autocast_node n = false) l →
  traverse node_call_back st l = OK (repeat false (length l), st).
Proof.
  intros Hf He H. induction H as [|n l Hn _ IH]; [reflexivity|].
  simpl. rewrite (call_back_open _ _ Hf He Hn). simpl. rewrite IH.
  reflexivity.
Qed.

Lemma split_raises gm e sig depth h :
  existsb _is_autocast_node (nodes gm) = true →
  run_call_back (nodes gm) = Raise e →
  replace_autocast_with_hop_pass (S depth) gm sig h = (h, Raise e).
Proof.
  intros Hm Hrun. cbn [replace_autocast_with_hop_pass].
  unfold _sequential_split_and_maybe_inline_subgraphs.
  rewrite Hm. cbn [negb]. unfold _split_autocast, sequential_split.
  unfold run_call_back in Hrun. rewrite Hrun. reflexivity.
Qed.

Lemma existsb_marker_app l1 n l2 :
  _is_autocast_node n = true →
  existsb _is_autocast_node (l1 ++ n :: l2) = true.
Proof.
  intros H. rewrite existsb_app. simpl. rewrite H.
  rewrite orb_true_r. reflexivity.
Qed.

Lemma call_back_wrong_exit e1 x a t :
  _is_exit_autocast_node x = true → args x = a :: t →
  arg_is_node a e1 = false →
  node_call_back (mkCb [e1] false) x = Raise AssertionError.
Proof.
  intros Hx Hargs Ha. unfold node_call_back, args0. simpl.
  rewrite Hx, Hargs. simpl. rewrite Ha. reflexivity.
Qed.

Lemma call_back_stray_exit x :
  _is_exit_autocast_node x = true →
  node_call_back cb_init x = Raise AssertionError.
Proof.
  intros Hx. unfold node_call_back. simpl.
  rewrite (exit_not_enter x Hx), Hx. reflexivity.
Qed.

Lemma call_back_closing_exit enter exit t :
  _is_exit_autocast_node exit = true →
  args exit = ANode (nid enter) :: t →
  node_call_back (mkCb [enter] false) exit = OK (false, mkCb [] true).
Proof.
  intros Hex Hargs. unfold node_call_back, args0. simpl.
  rewrite Hex, Hargs. simpl.
  rewrite (bool_decide_eq_true_2 _ eq_refl). reflexivity.
Qed.

(** X2: in a sequence whose first marker is an Enter, an Exit that comes
    before any other Exit and whose argument is not that Enter makes the
    callback fail the assertion of line 179, and the pass ends in that
    failure with the heap as it was, with or without a signature.  The Exit
    of a region nested in the first region is such an Exit: the nested Enter
    was never pushed. *)
Theorem X2_inner_exit_raises (pre : list Node) (e1 : Node) (mid : list Node)
    (x : Node) (rest : list Node) (a : Arg) (t : list Arg) :
  Forall (λ n, _is_autocast_node n = false) pre →
  _is_enter_autocast_node e1 = true →
  Forall (λ n, _is_exit_autocast_node n = false) mid →
  _is_exit_autocast_node x = true →
  args x = a :: t →
  arg_is_node a e1 = false →
  run_call_back (pre ++ e1 :: mid ++ x :: rest) = Raise AssertionError
  ∧ ∀ gm sig depth h,
      nodes gm = pre ++ e1 :: mid ++ x :: rest →
      replace_autocast_with_hop_pass (S depth) gm sig h
      = (h, Raise AssertionError).
Proof.
  intros Hpre He1 Hmid Hx Hargs Ha.
  assert (Hrun : run_call_back (pre ++ e1 :: mid ++ x :: rest)
                 = Raise AssertionError).
  { unfold run_call_back. rewrite traverse_app.
    rewrite (traverse_quiet cb_init pre eq_refl Hpre).
    cbn [mbind result_bind traverse].
    rewrite (call_back_enter e1 He1). cbn [mbind result_bind].
    rewrite traverse_app.
    rewrite (traverse_open (mkCb [e1] false) mid eq_refl eq_refl Hmid).
    cbn [mbind result_bind traverse].
    rewrite (call_back_wrong_exit e1 x a t Hx Hargs Ha). reflexivity. }
  split; [exact Hrun|].
  intros gm sig depth h Hgm. apply split_raises.
  - rewrite Hgm. apply existsb_marker_app, enter_marker, He1.
  - rewrite Hgm. exact Hrun.
Qed.

Lemma X2_witness :
  run_call_back (nodes nested_region_graph) = Raise AssertionError
  ∧ ∀ gm sig depth h,
      nodes gm = nodes nested_region_graph →
      replace_autocast_with_hop_pass (S depth) gm sig h
      = (h, Raise AssertionError).
Proof.
  apply (X2_inner_exit_raises [input 0 "x"]
           (call 1 "e1" _enter_autocast [AStr "cuda"])
           [call 2 "e2" _enter_autocast [AStr "cpu"];
            call 3 "c" (fn "g") [ANode 0]]
           (call 4 "x2" _exit_autocast [ANode 2])
           [call 5 "x1" _exit_autocast [ANode 1];
            ret 6 (ATuple [ANode 3])]
           (ANode 2) []).
  - repeat constructor.
  - reflexivity.
  - repeat constructor.
  - reflexivity.
  - reflexivity.
  - reflexivity.
Defined.

(** X3: an Exit met while no region is open and no region has just been
    closed fails the assertion of line 177.  This is the case of an Exit
    that is the first marker of the graph, and of an Exit after any prefix
    that leaves the callback in its starting state.  The pass ends in that
    failure with the heap as it was. *)
Theorem X3_exit_without_enter_raises (l : list Node) (flags : list bool)
    (x : Node) (rest : list Node) :
  run_call_back l = OK (flags, cb_init) →
  _is_exit_autocast_node x = true →
  run_call_back (l ++ x :: rest) = Raise AssertionError
  ∧ ∀ gm sig depth h,
      nodes gm = l ++ x :: rest →
      replace_autocast_with_hop_pass (S depth) gm sig h
      = (h, Raise AssertionError).
Proof.
  intros Hl Hx.
  assert (Hrun : run_call_back (l ++ x :: rest) = Raise AssertionError).
  { unfold run_call_back in *. rewrite traverse_app, Hl.
    cbn [mbind result_bind traverse].
    rewrite (call_back_stray_exit x Hx). reflexivity. }
  split; [exact Hrun|].
  intros gm sig depth h Hgm. apply split_raises.
  - rewrite Hgm. apply existsb_marker_app, exit_marker, Hx.
  - rewrite Hgm. exact Hrun.
Qed.

Lemma X3_witness :
  run_call_back [input 0 "x"; call 1 "a" (fn "f") [ANode 0]]
  = OK ([false; false], cb_init)
  ∧ ∀ sig depth h,
      replace_autocast_with_hop_pass (S depth)
        (mkGM [input 0 "x"; call 1 "a" (fn "f") [ANode 0];
               call 2 "d" _exit_autocast [ANode 1];
               ret 3 (ATuple [ANode 1])] []) sig h
      = (h, Raise AssertionError).
Proof.
  split; [reflexivity|].
  intros sig depth h.
  apply (X3_exit_without_enter_raises
           [input 0 "x"; call 1 "a" (fn "f") [ANode 0]] [false; false]
           (call 2 "d" _exit_autocast [ANode 1])
           [ret 3 (ATuple [ANode 1])]);
    reflexivity.
Defined.

(** X4: one region, from the callback's side.  After nodes that are no
    markers the callback answers true at the Enter and false at every node
    up to and including the Exit that names the Enter; an Enter met inside
    the region is answered with false like any other node.  The node after
    the Exit is answered with true whatever it is: when it is an Exit, its
    argument is not looked at. *)
Theorem X4_region_is_one_segment (pre : list Node) (enter : Node)
    (body : list Node) (exit : Node) (t : list Arg) :
  Forall (λ n, _is_autocast_node n = false) pre →
  _is_enter_autocast_node enter = true →
  Forall (λ n, _is_exit_autocast_node n = false) body →
  _is_exit_autocast_node exit = true →
  args exit = ANode (nid enter) :: t →
  run_call_back (pre ++ enter :: body ++ [exit])
  = OK (repeat false (length pre) ++ true :: repeat false (S (length body)),
        mkCb [] true)
  ∧ ∀ n, node_call_back (mkCb [] true) n
         = OK (true,
               mkCb (if _is_enter_autocast_node n then [n] else []) false).
Proof.
  intros Hpre He Hbody Hx Hargs. split.
  - unfold run_call_back. rewrite traverse_app.
    rewrite (traverse_quiet cb_init pre eq_refl Hpre).
    cbn [mbind result_bind traverse].
    rewrite (call_back_enter enter He). cbn [mbind result_bind].
    rewrite traverse_app.
    rewrite (traverse_open (mkCb [enter] false) body eq_refl eq_refl Hbody).
    cbn [mbind result_bind traverse].
    rewrite (call_back_closing_exit enter exit t Hx Hargs).
    cbn [mbind result_bind]. do 2 f_equal. f_equal.
    replace (S (length body)) with (length body + 1) by lia.
    rewrite repeat_app. reflexivity.
  - intros n. unfold node_call_back. simpl.
    destruct (_is_enter_autocast_node n); reflexivity.
Qed.

Lemma X4_witness :
  run_call_back (take 6 (nodes tuple_region_graph))
  = OK ([false; false; true; false; false; false], mkCb [] true)
  ∧ node_call_back (mkCb [] true) (call 9 "s" _exit_autocast [ANode 77])
    = OK (true, cb_init).
Proof.
  destruct (X4_region_is_one_segment
              [input 0 "x"; call 1 "a" (fn "f") [ANode 0]]
              (call 2 "b" _enter_autocast [AStr "cuda"])
              [call 3 "c" (fn "g") [ANode 1];
               call 4 "c2" (fn "g2") [ANode 1; ANode 3]]
              (call 5 "d" _exit_autocast [ANode 2]) [])
    as [H1 H2].
  - repeat constructor.
  - reflexivity.
  - repeat constructor.
  - reflexivity.
  - reflexivity.
  - split; [exact H1|]. apply H2.
Defined.

Lemma traverse_unclosed pre enter body :
  Forall (λ n, _is_autocast_node n = false) pre →
  _is_enter_autocast_node enter = true →
  Forall (λ n, _is_exit_autocast_node n = false) body →
  traverse node_call_back cb_init (pre ++ enter :: body)
  = OK (repeat false (length pre) ++ true :: repeat false (length body),
        mkCb [enter] false).
Proof.
  intros Hpre He Hbody. rewrite traverse_app.
  rewrite (traverse_quiet cb_init pre eq_refl Hpre).
  cbn [mbind result_bind traverse].
  rewrite (call_back_enter enter He). cbn [mbind result_bind].
  rewrite (traverse_open (mkCb [enter] false) body eq_refl eq_refl Hbody).
  reflexivity.
Qed.

(** X5: the callback does not report an Enter that is never closed: when
    no Exit follows the first Enter, the traversal ends without an error,
    with that Enter still on the stack. *)
Theorem X5_unclosed_enter_not_reported (pre : list Node) (enter : Node)
    (body : list Node) :
  Forall (λ n, _is_autocast_node n = false) pre →
  _is_enter_autocast_node enter = true →
  Forall (λ n, _is_exit_autocast_node n = false) body →
  run_call_back (pre ++ enter :: body)
  = OK (repeat false (length pre) ++ true :: repeat false (length body),
        mkCb [enter] false).
Proof. exact (traverse_unclosed pre enter body). Qed.

Lemma X5_witness :
  run_call_back [input 0 "x"; call 1 "b" _enter_autocast [AStr "cuda"];
                 call 2 "c" (fn "g") [ANode 0]; ret 3 (ATuple [ANode 2])]
  = OK ([false; true; false; false],
        mkCb [call 1 "b" _enter_autocast [AStr "cuda"]] false).
Proof.
  apply (X5_unclosed_enter_not_reported [input 0 "x"]
           (call 1 "b" _enter_autocast [AStr "cuda"])
           [call 2 "c" (fn "g") [ANode 0]; ret 3 (ATuple [ANode 2])]).
  - repeat constructor.
  - reflexivity.
  - repeat constructor.
Defined.

(** ** The test for an outlined scope body and the dispatch (lines 48-66,
    229-235) *)

Lemma nodes_first_skip phs n rest :
  Forall (λ m, op m = placeholder) phs → op n ≠ placeholder →
  nodes_first (phs ++ n :: rest)
    (λ node, negb (bool_decide (op node = placeholder)))
  = Some n.
Proof.
  intros Hphs Hn. unfold nodes_first.
  induction Hphs as [|m phs Hm _ IH]; simpl.
  - rewrite (bool_decide_eq_false_2 _ Hn). reflexivity.
  - rewrite (bool_decide_eq_true_2 _ Hm). exact IH.
Qed.

Lemma nodes_first_none phs :
  Forall (λ m, op m = placeholder) phs →
  nodes_first phs (λ node, negb (bool_decide (op node = placeholder)))
  = None.
Proof.
  intros Hphs. unfold nodes_first.
  induction Hphs as [|m phs Hm _ IH]; simpl; [reflexivity|].
  rewrite (bool_decide_eq_true_2 _ Hm). exact IH.
Qed.

(** X6: whether an invocation is taken for an outlined scope body depends on
    the first node of the child that is no placeholder, and on nothing
    else: the test answers whether that node is an Enter, and false for a
    child of placeholders only.  Accordingly the invocation is handed to the
    replacer or to the inliner; a child whose markers come later is
    inlined. *)
Theorem X6_sub_mod_test_first_node (gm : GraphModule) (node : Node)
    (tname : string) (sub : GraphModule) (phs : list Node) :
  op node = call_module →
  target node = attr tname →
  getattr (attrs gm) tname = Some (AModule sub) →
  Forall (λ n, op n = placeholder) phs →
  (nodes sub = phs → _is_autocast_sub_mod gm node = OK false)
  ∧ ∀ n rest,
      nodes sub = phs ++ n :: rest → op n ≠ placeholder →
      _is_autocast_sub_mod gm node = OK (_is_enter_autocast_node n)
      ∧ ∀ hook h,
          _maybe_inline_or_replace_with_hop hook gm node h
          = if _is_enter_autocast_node n
            then _replace_with_hop hook gm node h
            else node_inline_ hook gm node h.
Proof.
  intros Hop Htgt Hchild Hphs.
  assert (Hsub : get_submodule gm (target node) = OK (tname, sub)).
  { unfold get_submodule. rewrite Htgt, Hchild. reflexivity. }
  split.
  - intros Hn. unfold _is_autocast_sub_mod.
    rewrite (bool_decide_eq_true_2 _ Hop), Hsub. cbn [mbind result_bind].
    rewrite Hn, (nodes_first_none phs Hphs). reflexivity.
  - intros n rest Hn Hnp.
    assert (Htest : _is_autocast_sub_mod gm node
                    = OK (_is_enter_autocast_node n)).
    { unfold _is_autocast_sub_mod.
      rewrite (bool_decide_eq_true_2 _ Hop), Hsub. cbn [mbind result_bind].
      rewrite Hn, (nodes_first_skip phs n rest Hphs Hnp). reflexivity. }
    split; [exact Htest|].
    intros hook h. unfold _maybe_inline_or_replace_with_hop.
    rewrite Htest. unfold mbind at 1, M_bind at 1, lift at 1.
    destruct (_is_enter_autocast_node n); [reflexivity|].
    rewrite (bool_decide_eq_true_2 _ Hop), Htgt. reflexivity.
Qed.

Lemma X6_witness :
  _is_autocast_sub_mod single_output_parent
    (mkNode 8 "submod_2" call_module (attr "submod_2") [ANode 7] ∅)
  = OK false
  ∧ ∀ hook h,
      _maybe_inline_or_replace_with_hop hook single_output_parent
        (mkNode 8 "submod_2" call_module (attr "submod_2") [ANode 7] ∅) h
      = node_inline_ hook single_output_parent
          (mkNode 8 "submod_2" call_module (attr "submod_2") [ANode 7] ∅) h.
Proof.
  destruct (X6_sub_mod_test_first_node single_output_parent
              (mkNode 8 "submod_2" call_module (attr "submod_2") [ANode 7] ∅)
              "submod_2"
              (mkGM [as_placeholder (call 2 "c" (fn "g") [ANode 0]);
                     call 4 "e" (fn "h") [ANode 2];
                     ret 5 (ANode 4)] [])
              [as_placeholder (call 2 "c" (fn "g") [ANode 0])])
    as [_ H].
  - reflexivity.
  - reflexivity.
  - reflexivity.
  - repeat constructor.
  - destruct (H (call 4 "e" (fn "h") [ANode 2]) [ret 5 (ANode 4)])
      as [H1 H2].
    + reflexivity.
    + discriminate.
    + split; [exact H1|exact H2].
Defined.

(** ** The block check (lines 69-72) *)

(** X7: the block check passes exactly when its first node is an Enter, its
    second node is an Exit, and the first argument of the Exit is that
    Enter; otherwise it fails an assertion, or the indexing of line 72
    fails because the Exit has no argument. *)
Theorem X7_check_valid_autocast_block (e x : Node) :
  (_check_valid_autocast_block e x = OK () ↔
   _is_enter_autocast_node e = true ∧ _is_exit_autocast_node x = true
   ∧ ∃ t, args x = ANode (nid e) :: t)
  ∧ ∀ err, _check_valid_autocast_block e x = Raise err →
           err = AssertionError
           ∨ (err = IndexError ∧ _is_enter_autocast_node e = true
              ∧ _is_exit_autocast_node x = true ∧ args x = []).
Proof.
  unfold _check_valid_autocast_block, args0, assert.
  destruct (_is_enter_autocast_node e), (_is_exit_autocast_node x);
    cbn [mbind result_bind].
  - destruct (args x) as [|a t] eqn:Hargs; cbn [mbind result_bind].
    + split.
      * split; [discriminate|]. intros (_ & _ & t & Ht). discriminate Ht.
      * intros err H. injection H as <-. right. auto.
    + unfold arg_is_node. destruct a as [i| | | | |];
        try (split; [split; [discriminate|
                             intros (_ & _ & t' & Ht); discriminate Ht]|
                     intros err H; injection H as <-; left; reflexivity]).
      destruct (decide (i = nid e)) as [->|Hne].
      * rewrite (bool_decide_eq_true_2 _ eq_refl). split.
        -- split; [intros _; eauto|reflexivity].
        -- intros err H. discriminate H.
      * rewrite (bool_decide_eq_false_2 _ Hne). split.
        -- split; [discriminate|].
           intros (_ & _ & t' & Ht). injection Ht as Hi _. contradiction.
        -- intros err H. injection H as <-. left. reflexivity.
  - split; [split; [discriminate|intros (_ & H & _); discriminate H]|].
    intros err H. injection H as <-. left. reflexivity.
  - split; [split; [discriminate|intros (H & _); discriminate H]|].
    intros err H. injection H as <-. left. reflexivity.
  - split; [split; [discriminate|intros (H & _); discriminate H]|].
    intros err H. injection H as <-. left. reflexivity.
Qed.

(** ** The replacer on children that are no scope body (lines 76-87) *)

Lemma replace_with_hop_markers hook gm node tname sub :
  op node = call_module → target node = attr tname →
  getattr (attrs gm) tname = Some (AModule sub) →
  ∀ h, _replace_with_hop hook gm node h
  = (let autocast_nodes := nodes_filter (nodes sub) _is_autocast_node in
     match autocast_nodes, last autocast_nodes with
     | enter_autocast_node :: _, Some exit_autocast_node =>
         lift (assert (bool_decide (1 < length autocast_nodes)));;
         lift (_check_valid_autocast_block
                 enter_autocast_node exit_autocast_node);;
         let get_attr_node :=
           new_get_attr (fresh_nid (nodes gm)) tname enter_autocast_node in
         let graph := insert_before (nodes gm) (nid node) [get_attr_node] in
         graph ← replace_call hook graph (nodes sub)
                   node enter_autocast_node get_attr_node;
         sub_graph ← lift (erase_node (nodes sub) exit_autocast_node);
         sub_graph ← lift (erase_node sub_graph enter_autocast_node);
         mret (mkGM graph
                 (setattr (attrs gm) tname
                    (AModule (mkGM sub_graph (attrs sub)))))
     | _, _ => mret gm
     end) h.
Proof.
  intros Hop Htgt Hchild h. unfold _replace_with_hop.
  rewrite (bool_decide_eq_true_2 _ Hop). unfold get_submodule.
  rewrite Htgt, Hchild. reflexivity.
Qed.

(** X8: handed a child without any marker, the replacer changes nothing: it
    returns the graph module it was given, the heap is as it was, and the
    replace hook is not called.  Handed a node that is no invocation it fails
    the assertion of line 76. *)
Theorem X8_replacer_leaves_plain_child (hook : hook_t) (gm : GraphModule)
    (node : Node) :
  (op node ≠ call_module →
   ∀ h, _replace_with_hop hook gm node h = (h, Raise AssertionError))
  ∧ ∀ tname sub,
      op node = call_module → target node = attr tname →
      getattr (attrs gm) tname = Some (AModule sub) →
      Forall (λ n, _is_autocast_node n = false) (nodes sub) →
      ∀ h, _replace_with_hop hook gm node h = (h, OK gm).
Proof.
  split.
  - intros Hop h. unfold _replace_with_hop.
    rewrite (bool_decide_eq_false_2 _ Hop). reflexivity.
  - intros tname sub Hop Htgt Hchild Hno h.
    rewrite (replace_with_hop_markers hook gm node tname sub Hop Htgt Hchild).
    cbv zeta.
    assert (Hf : nodes_filter (nodes sub) _is_autocast_node = []).
    { unfold nodes_filter. induction Hno as [|n l Hn _ IH]; [reflexivity|].
      simpl. rewrite Hn. exact IH. }
    rewrite Hf. reflexivity.
Qed.

Lemma X8_witness :
  _replace_with_hop no_hook single_output_parent
    (mkNode 8 "submod_2" call_module (attr "submod_2") [ANode 7] ∅) []
  = ([], OK single_output_parent).
Proof.
  apply (proj2 (X8_replacer_leaves_plain_child no_hook single_output_parent
                  (mkNode 8 "submod_2" call_module (attr "submod_2")
                     [ANode 7] ∅))
           "submod_2"
           (mkGM [as_placeholder (call 2 "c" (fn "g") [ANode 0]);
                  call 4 "e" (fn "h") [ANode 2];
                  ret 5 (ANode 4)] [])).
  - reflexivity.
  - reflexivity.
  - reflexivity.
  - repeat constructor.
Defined.

(** X9: when the child has markers that do not make a block, the replacer
    raises and the heap is as it was: a single marker fails the assertion
    of line 84; otherwise the first and the last marker go through the block
    check, and its failure is the replacer's. *)
Theorem X9_replacer_rejects_bad_block (hook : hook_t) (gm : GraphModule)
    (node : Node) (tname : string) (sub : GraphModule) (m : Node)
    (ms : list Node) :
  op node = call_module →
  target node = attr tname →
  getattr (attrs gm) tname = Some (AModule sub) →
  nodes_filter (nodes sub) _is_autocast_node = m :: ms →
  (ms = [] →
   ∀ h, _replace_with_hop hook gm node h = (h, Raise AssertionError))
  ∧ ∀ x err,
      last ms = Some x →
      _check_valid_autocast_block m x = Raise err →
      ∀ h, _replace_with_hop hook gm node h = (h, Raise err).
Proof.
  intros Hop Htgt Hchild Hf. split.
  - intros -> h.
    rewrite (replace_with_hop_markers hook gm node tname sub Hop Htgt Hchild).
    cbv zeta. rewrite Hf. reflexivity.
  - intros x err Hlast Hcheck h.
    rewrite (replace_with_hop_markers hook gm node tname sub Hop Htgt Hchild).
    cbv zeta. rewrite Hf.
    assert (Hl : last (m :: ms) = Some x).
    { destruct ms as [|m' ms]; [discriminate Hlast|exact Hlast]. }
    rewrite Hl.
    assert (Hlen : bool_decide (1 < length (m :: ms)) = true).
    { apply bool_decide_eq_true. destruct ms; [discriminate Hlast|].
      simpl. lia. }
    rewrite Hlen, Hcheck. reflexivity.
Qed.

Lemma X9_witness :
  _replace_with_hop no_hook
    (mkGM [input 0 "x";
           mkNode 4 "submod_1" call_module (attr "submod_1") [ANode 0] ∅;
           ret 3 (ATuple [ANode 4])]
       [("submod_1",
         AModule (mkGM [as_placeholder (input 0 "x");
                        call 1 "b" _enter_autocast [AStr "cuda"];
                        call 2 "c" (fn "g") [ANode 0];
                        ret 3 (ANode 2)] []))])
    (mkNode 4 "submod_1" call_module (attr "submod_1") [ANode 0] ∅) []
  = ([], Raise AssertionError).
Proof.
  apply (proj1 (X9_replacer_rejects_bad_block no_hook
                  (mkGM [input 0 "x";
                         mkNode 4 "submod_1" call_module (attr "submod_1")
                           [ANode 0] ∅;
                         ret 3 (ATuple [ANode 4])]
                     [("submod_1",
                       AModule (mkGM [as_placeholder (input 0 "x");
                                      call 1 "b" _enter_autocast
                                        [AStr "cuda"];
                                      call 2 "c" (fn "g") [ANode 0];
                                      ret 3 (ANode 2)] []))])
                  (mkNode 4 "submod_1" call_module (attr "submod_1")
                     [ANode 0] ∅)
                  "submod_1"
                  (mkGM [as_placeholder (input 0 "x");
                         call 1 "b" _enter_autocast [AStr "cuda"];
                         call 2 "c" (fn "g") [ANode 0];
                         ret 3 (ANode 2)] [])
                  (call 1 "b" _enter_autocast [AStr "cuda"]) []
                  eq_refl eq_refl eq_refl eq_refl)).
  reflexivity.
Defined.

(** ** The replacer: metadata of a tuple output, and an output-less child *)

Lemma mapR_first_failure {A B} (f : A → result B) ok x more e :
  Forall (λ m, ∃ v, f m = OK v) ok → f x = Raise e →
  mapR f (ok ++ x :: more) = Raise e.
Proof.
  intros Hok Hx. induction Hok as [|m ok [v Hm] _ IH]; simpl.
  - rewrite Hx. reflexivity.
  - rewrite Hm. simpl. rewrite IH. reflexivity.
Qed.

(** X10: for a tuple or list output the region operation's "val" is read
    from every member of the output (line 113).  When the first member
    without "val" metadata is reached the replacer ends in a KeyError; the
    heap is as it was and the replace hook has not been called. *)
Theorem X10_tuple_member_without_val (hook : hook_t) (gm : GraphModule)
    (node : Node) (tname : string) (sub_gm : GraphModule)
    (enter exit out : Node) (a : Arg) (ok : list Arg) (i : nat) (o : Node)
    (more : list Arg) :
  scope_body gm node tname sub_gm enter exit →
  last (nodes sub_gm) = Some out → op out = output → args out = [a] →
  a = ATuple (ok ++ ANode i :: more) ∨ a = AList (ok ++ ANode i :: more) →
  Forall (λ m, ∃ v, meta_val (nodes sub_gm) m = OK v) ok →
  lookup_node (nodes sub_gm) i = Some o →
  meta o !! "val" = None →
  ∀ h, _replace_with_hop hook gm node h = (h, Raise KeyError).
Proof.
  intros SB Hlast Hop Hargs Hshape Hok Hi Hval h.
  pose proof (find_output_node_Some _ _ Hlast Hop) as Hfind.
  rewrite (replace_with_hop_run hook _ _ _ _ _ _ SB).
  unfold replace_call. rewrite Hfind.
  assert (Hm : mapR (meta_val (nodes sub_gm)) (ok ++ ANode i :: more)
               = Raise KeyError).
  { apply mapR_first_failure; [exact Hok|].
    unfold meta_val, resolve. rewrite Hi. cbn [mbind result_bind].
    rewrite Hval. reflexivity. }
  unfold args0. rewrite Hargs. cbn [length].
  rewrite (bool_decide_eq_true_2 (1 = 1) eq_refl).
  destruct Hshape as [-> | ->]; unfold mbind, M_bind, lift; cbn [assert];
    rewrite Hm; reflexivity.
Qed.

Lemma X10_witness :
  _replace_with_hop no_hook
    (mkGM [input 0 "x";
           mkNode 6 "submod_1" call_module (attr "submod_1") [ANode 0] ∅;
           ret 5 (ATuple [ANode 6])]
       [("submod_1",
         AModule (mkGM [as_placeholder (input 0 "x");
                        call 1 "b" _enter_autocast [AStr "cuda"];
                        mkNode 2 "c" call_function (fn "g") [ANode 0] ∅;
                        call 3 "d" _exit_autocast [ANode 1];
                        ret 4 (ATuple [ANode 0; ANode 2])] []))])
    (mkNode 6 "submod_1" call_module (attr "submod_1") [ANode 0] ∅) []
  = ([], Raise KeyError).
Proof.
  apply (X10_tuple_member_without_val no_hook
           (mkGM [input 0 "x";
                  mkNode 6 "submod_1" call_module (attr "submod_1")
                    [ANode 0] ∅;
                  ret 5 (ATuple [ANode 6])]
              [("submod_1",
                AModule (mkGM [as_placeholder (input 0 "x");
                               call 1 "b" _enter_autocast [AStr "cuda"];
                               mkNode 2 "c" call_function (fn "g")
                                 [ANode 0] ∅;
                               call 3 "d" _exit_autocast [ANode 1];
                               ret 4 (ATuple [ANode 0; ANode 2])] []))])
           (mkNode 6 "submod_1" call_module (attr "submod_1") [ANode 0] ∅)
           "submod_1"
           (mkGM [as_placeholder (input 0 "x");
                  call 1 "b" _enter_autocast [AStr "cuda"];
                  mkNode 2 "c" call_function (fn "g") [ANode 0] ∅;
                  call 3 "d" _exit_autocast [ANode 1];
                  ret 4 (ATuple [ANode 0; ANode 2])] [])
           (call 1 "b" _enter_autocast [AStr "cuda"])
           (call 3 "d" _exit_autocast [ANode 1])
           (ret 4 (ATuple [ANode 0; ANode 2]))
           (ATuple [ANode 0; ANode 2]) [ANode 0] 2
           (mkNode 2 "c" call_function (fn "g") [ANode 0] ∅) []).
  - constructor; try reflexivity.
    + apply list_elem_of_In. simpl. tauto.
    + apply (bool_decide_unpack _). reflexivity.
    + exists []. reflexivity.
    + exists []. reflexivity.
  - reflexivity.
  - reflexivity.
  - reflexivity.
  - left. reflexivity.
  - repeat constructor. exists (MOpaque "x"). reflexivity.
  - reflexivity.
  - reflexivity.
Defined.

Lemma fresh_nid_unused g n :
  well_formed g → n ∈ g → uses (fresh_nid g) n = false.
Proof.
  intros Hwf Hn. apply not_true_iff_false. intros Hu. apply mem_true in Hu.
  pose proof (well_formed_refs g n _ Hwf Hn Hu). lia.
Qed.

(** X11: for a scope-body segment whose child has no output instruction the
    [get_attr] node of line 90 is created all the same: the invocation is
    erased, and the graph the replacer returns is the old one with the
    invocation exchanged for a [get_attr] node that names the child, carries
    the Enter's "nn_module_stack" (an empty one when the Enter has none)
    and has no user. *)
Theorem X11_output_less_child_leaves_get_attr (hook : hook_t)
    (gm : GraphModule) (node : Node) (tname : string) (sub_gm : GraphModule)
    (enter exit : Node) :
  scope_body gm node tname sub_gm enter exit →
  Forall (λ n, op n ≠ output) (nodes sub_gm) →
  users (nodes gm) (nid node) = [] →
  well_formed (nodes gm) →
  ∃ gm' ga,
    (∀ h, _replace_with_hop hook gm node h = (h, OK gm'))
    ∧ nodes gm'
      = remove_node (insert_before (nodes gm) (nid node) [ga]) (nid node)
    ∧ ga ∈ nodes gm'
    ∧ op ga = get_attr ∧ target ga = attr tname ∧ args ga = []
    ∧ meta ga
      = {[ "nn_module_stack" :=
             default (MDict []) (meta enter !! "nn_module_stack") ]}
    ∧ users (nodes gm') (nid ga) = [].
Proof.
  intros SB Hout Hunused Hwf.
  set (ga := new_get_attr (fresh_nid (nodes gm)) tname enter).
  exists (mkGM (remove_node (insert_before (nodes gm) (nid node) [ga])
                  (nid node))
            (setattr (attrs gm) tname
               (AModule (without_markers sub_gm enter exit)))), ga.
  assert (Hne : nid ga ≠ nid node).
  { pose proof (fresh_nid_gt _ _ (sb_node _ _ _ _ _ _ SB)). simpl. lia. }
  split; [|split; [|split; [|split; [|split; [|split; [|split]]]]]];
    try reflexivity.
  - intros h. rewrite (replace_with_hop_run hook _ _ _ _ _ _ SB).
    unfold replace_call. rewrite (find_output_node_None _ Hout).
    unfold mbind, M_bind, lift, erase_node. fold ga.
    assert (Hu : users (insert_before (nodes gm) (nid node) [ga]) (nid node)
                 = []).
    { apply users_nil_iff. intros n Hn.
      apply elem_of_insert_before in Hn as [Hn|Hn].
      - apply list_elem_of_singleton in Hn as ->. reflexivity.
      - revert n Hn. apply users_nil_iff. exact Hunused. }
    rewrite Hu. reflexivity.
  - cbn [nodes]. apply elem_of_remove_node. split; [|exact Hne].
    apply elem_of_insert_before. left. left.
  - cbn [nodes]. apply users_nil_iff. intros n Hn.
    apply elem_of_remove_node in Hn as [Hn _].
    apply elem_of_insert_before in Hn as [Hn|Hn].
    + apply list_elem_of_singleton in Hn as ->. reflexivity.
    + exact (fresh_nid_unused _ _ Hwf Hn).
Qed.

Lemma X11_witness :
  ∃ gm' ga,
    (∀ h, _replace_with_hop no_hook no_output_parent
            (mkNode 5 "submod_1" call_module (attr "submod_1") [ANode 0] ∅) h
          = (h, OK gm'))
    ∧ nodes gm' = [input 0 "p"; ga; ret 4 (ATuple [ANode 0])]
    ∧ op ga = get_attr ∧ target ga = attr "submod_1"
    ∧ meta ga = {[ "nn_module_stack" := MDict [] ]}.
Proof.
  destruct (X11_output_less_child_leaves_get_attr no_hook no_output_parent
              (mkNode 5 "submod_1" call_module (attr "submod_1") [ANode 0] ∅)
              "submod_1"
              (mkGM [as_placeholder (input 0 "p");
                     call 1 "e1" _enter_autocast [AStr "cuda"];
                     call 2 "c" (fn "g") [ANode 0];
                     call 3 "x1" _exit_autocast [ANode 1]] [])
              (call 1 "e1" _enter_autocast [AStr "cuda"])
              (call 3 "x1" _exit_autocast [ANode 1]))
    as (gm' & ga & Hrun & Hnodes & Hin & Hop & Htgt & _ & Hmeta & _).
  - constructor; try reflexivity.
    + apply list_elem_of_In. simpl. tauto.
    + apply (bool_decide_unpack _). reflexivity.
    + exists []. reflexivity.
    + exists []. reflexivity.
  - repeat constructor; discriminate.
  - reflexivity.
  - reflexivity.
  - exists gm', ga. split; [exact Hrun|].
    split; [|split; [exact Hop|split; [exact Htgt|exact Hmeta]]].
    rewrite Hnodes in Hin. apply elem_of_remove_node in Hin as [_ Hne].
    rewrite Hnodes. unfold remove_node. simpl.
    destruct (Nat.eqb_spec (nid ga) 5) as [E|_]; [contradiction|].
    reflexivity.
Defined.

(** ** The pass without a signature (lines 209-211, 250-265) *)

Lemma helper_None_signature gm h h' gm' s :
  _sequential_split_and_maybe_inline_subgraphs gm None h
  = (h', OK (gm', s)) → s = None.
Proof.
  unfold _sequential_split_and_maybe_inline_subgraphs.
  destruct (negb _).
  - intros H. injection H as _ _ <-. reflexivity.
  - intros H. apply bind_OK_inv in H as (h1 & g1 & _ & H).
    apply bind_OK_inv in H as (h2 & [s2 hk] & H2 & H).
    injection H2 as _ <- _.
    apply bind_OK_inv in H as (h3 & g3 & _ & H).
    injection H as _ _ <-. reflexivity.
Qed.

(** X12: called without a signature the pass gives none back, and it neither
    reads nor writes the heap: the heap it leaves is the heap it was given,
    whether the pass returns or raises, for every graph. *)
Theorem X12_pass_without_signature (depth : nat) (gm : GraphModule)
    (h : heap) :
  (replace_autocast_with_hop_pass depth gm None h).1 = h
  ∧ ∀ gm' s,
      (replace_autocast_with_hop_pass depth gm None h).2 = OK (gm', s) →
      s = None.
Proof.
  split.
  - symmetry. exact (keeps_pass_None (eq h) depth gm h eq_refl).
  - intros gm' s Hrun. destruct depth as [|depth]; [discriminate Hrun|].
    destruct (replace_autocast_with_hop_pass (S depth) gm None h)
      as [h' r] eqn:Hpass.
    cbn [snd] in Hrun. subst r.
    cbn [replace_autocast_with_hop_pass] in Hpass.
    apply bind_OK_inv in Hpass as (h1 & [g1 s1] & Hhelp & Hrest).
    apply helper_None_signature in Hhelp as ->.
    apply bind_OK_inv in Hrest as (h2 & g2 & _ & Hrest).
    apply bind_OK_inv in Hrest as (h3 & [] & _ & Hrest).
    injection Hrest as _ _ <-. reflexivity.
Qed.

(** ** What the pass returns for a graph with one region *)

Ltac one_region_concrete :=
  constructor;
  [ reflexivity | reflexivity
  | repeat constructor | repeat constructor | repeat constructor
  | repeat constructor
  | reflexivity | reflexivity | reflexivity | reflexivity | reflexivity
  | reflexivity
  | apply (bool_decide_unpack _); reflexivity
  | reflexivity
  | let n := fresh "n" in let Hn := fresh "Hn" in let Hu := fresh "Hu" in
    intros n Hn Hu; apply list_elem_of_In in Hn; simpl in Hn;
    repeat (destruct Hn as [<-|Hn]; [first [reflexivity|discriminate Hu]|]);
    destruct Hn
  | let n := fresh "n" in let Hn := fresh "Hn" in
    intros n Hn; apply list_elem_of_In in Hn; simpl in Hn;
    repeat (destruct Hn as [<-|Hn]; [reflexivity|]);
    destruct Hn
  | split; [reflexivity|lia]
  | repeat constructor; eexists; reflexivity ].

Lemma existsb_none {A} (f : A → bool) l :
  (∀ x, x ∈ l → f x = false) → existsb f l = false.
Proof.
  intros H. induction l as [|x l IH]; [reflexivity|].
  simpl. rewrite (H x) by left. apply IH. intros y Hy. apply H. right.
  exact Hy.
Qed.

Section RegionFacts.

Context (gm : GraphModule) (phs pre : list Node) (enter : Node)
  (body : list Node) (exit : Node) (post : list Node) (out : Node) (k : nat).
Hypothesis (OR : one_region gm phs pre enter body exit post out k).

Let orig := nodes gm.
Let outs := segment_outputs orig (enter :: body ++ [exit]).
Let c := call_region orig pre.
Let hop := region_hop orig phs pre enter body exit post out.
Let items := region_items orig phs pre enter body exit post out.
Let E := env_region orig pre enter body exit.

(** Every node of the result is an input, an ordinary call, the child
    reference, the region operation, an extraction or the output. *)
Lemma rf_kinds n :
  n ∈ after_post orig phs pre enter body exit post out →
  _is_autocast_node n = false ∧ op n ≠ call_module.
Proof.
  intros Hn.
  apply (rr_after_post_elem gm phs pre enter body exit post out) in Hn
    as [Hn|[Hn|[-> |[-> |[Hn|[(m & Hm & ->)| ->]]]]]].
  - pose proof (proj1 (Forall_forall _ _)
                  (or_phs _ _ _ _ _ _ _ _ _ OR) n Hn) as Hp.
    split; [apply placeholder_not_marker, Hp|rewrite Hp; discriminate].
  - pose proof (proj1 (Forall_forall _ _)
                  (or_pre _ _ _ _ _ _ _ _ _ OR) n Hn) as Hp.
    split; [apply plain_not_marker, Hp|].
    rewrite (plain_op n Hp). discriminate.
  - split; [reflexivity|discriminate].
  - split; [reflexivity|discriminate].
  - unfold region_items in Hn.
    apply elem_of_lookup_imap in Hn as (j & o & -> & _).
    split; [reflexivity|discriminate].
  - pose proof (proj1 (Forall_forall _ _)
                  (or_post _ _ _ _ _ _ _ _ _ OR) m Hm) as Hp.
    split.
    + exact (plain_not_marker m Hp).
    + intros Hc. cbn [op map_node_args set_args] in Hc.
      rewrite (plain_op m Hp) in Hc. discriminate Hc.
  - pose proof (or_out _ _ _ _ _ _ _ _ _ OR) as Ho. split.
    + exact (output_not_marker out Ho).
    + intros Hc. cbn [op map_node_args set_args] in Hc.
      rewrite Ho in Hc. discriminate Hc.
Qed.

Lemma rf_quiet :
  existsb _is_autocast_node
    (after_post orig phs pre enter body exit post out) = false.
Proof. apply existsb_none. intros n Hn. apply (rf_kinds n Hn). Qed.






(** Running the pass on its own result. *)
Lemma rf_again depth h :
  replace_autocast_with_hop_pass (S (S depth))
    (region_result orig phs pre enter body exit post out) None h
  = (h, OK (region_result orig phs pre enter body exit post out, None)).
Proof.
  remember (S depth) as d eqn:Hd.
  cbn [replace_autocast_with_hop_pass].
  erewrite bind_OK by (apply helper_no_markers, rf_quiet).
  cbv beta iota.
  erewrite bind_OK.
  2:{ apply foldM_id. intros a Ha. subst d.
      apply (rr_descend gm phs pre enter body exit post out k OR).
      exact Ha. }
  pose proof (rr_final_lint gm phs pre enter body exit post out k OR) as Hl.
  unfold lift, lint.
  change (nodes (region_result orig phs pre enter body exit post out))
    with (after_post (nodes gm) phs pre enter body exit post out).
  rewrite Hl. reflexivity.
Qed.

End RegionFacts.









(** X17: the pass is idempotent on graphs with one region: run on the graph
    it returned, the pass returns that graph again, and again leaves the
    heap alone. *)
Theorem X17_one_region_idempotent (gm : GraphModule) (phs pre : list Node)
    (enter : Node) (body : list Node) (exit : Node) (post : list Node)
    (out : Node) (k : nat) :
  one_region gm phs pre enter body exit post out k →
  ∀ depth h, ∃ gm',
    replace_autocast_with_hop_pass (S (S depth)) gm None h
    = (h, OK (gm', None))
    ∧ ∀ depth' h',
        replace_autocast_with_hop_pass (S (S depth')) gm' None h'
        = (h', OK (gm', None)).
Proof.
  intros OR depth h.
  exists (region_result (nodes gm) phs pre enter body exit post out).
  split; [apply (rr_pass gm phs pre enter body exit post out k OR)|].
  apply (rf_again gm phs pre enter body exit post out k OR).
Qed.

Lemma X17_witness :
  ∃ gm',
    replace_autocast_with_hop_pass 2 tuple_region_graph None []
    = ([], OK (gm', None))
    ∧ ∀ depth' h',
        replace_autocast_with_hop_pass (S (S depth')) gm' None h'
        = (h', OK (gm', None)).
Proof.
  apply (X17_one_region_idempotent tuple_region_graph
           [input 0 "x"] [call 1 "a" (fn "f") [ANode 0]]
           (call 2 "b" _enter_autocast [AStr "cuda"])
           [call 3 "c" (fn "g") [ANode 1];
            call 4 "c2" (fn "g2") [ANode 1; ANode 3]]
           (call 5 "d" _exit_autocast [ANode 2])
           [call 6 "e" (fn "h") [ANode 3; ANode 4]]
           (ret 7 (ATuple [ANode 6; ANode 4])) 2).
  one_region_concrete.
Defined.

(** ** A region that is never closed, through the whole pass *)

Section Unclosed.

Context (gm : GraphModule) (phs : list Node) (enter : Node)
  (body : list Node) (out : Node).
Hypothesis (Hnodes : nodes gm = phs ++ enter :: body ++ [out]).
Hypothesis (Hphs : Forall (λ n, op n = placeholder) phs).
Hypothesis (Henter : _is_enter_autocast_node enter = true).
Hypothesis (Hcalls : Forall (λ n, op n = call_function) body).
Hypothesis (Hopen : Forall (λ n, _is_exit_autocast_node n = false) body).
Hypothesis (Hout : op out = output).

Let orig := nodes gm.
Let p := enter :: body.
Let c := fresh_nid orig.
Let child := mkGM (child_graph orig p) (attrs_used (attrs gm) p).
Let call :=
  mkNode c "submod_1" call_module (attr "submod_1")
    ((λ n, ANode (env_get [] (nid n))) <$> segment_inputs orig p) ∅.

Lemma uc_not_exit_out : _is_exit_autocast_node out = false.
Proof. unfold _is_exit_autocast_node. rewrite Hout. reflexivity. Qed.

Lemma uc_flags :
  traverse node_call_back cb_init orig
  = OK (repeat false (length phs) ++ repeat true 1
          ++ repeat false (length (body ++ [out])),
        mkCb [enter] false).
Proof.
  unfold orig. rewrite Hnodes.
  apply (traverse_unclosed phs enter (body ++ [out])).
  - eapply Forall_impl; [exact Hphs|]. intros n. apply placeholder_not_marker.
  - exact Henter.
  - apply Forall_app. split; [exact Hopen|].
    constructor; [exact uc_not_exit_out|constructor].
Qed.

Lemma uc_ids :
  split_ids 0 (repeat false (length phs) ++ repeat true 1
                 ++ repeat false (length (body ++ [out])))
  = repeat 0 (length phs) ++ repeat 1 (length (p ++ [out])).
Proof.
  rewrite split_ids_quiet_app. f_equal. cbn [repeat app split_ids].
  rewrite split_ids_quiet. reflexivity.
Qed.

Lemma uc_body_p : List.filter is_body (p ++ [out]) = p.
Proof.
  rewrite List.filter_app, filter_all, filter_none.
  - apply app_nil_r.
  - constructor; [|constructor]. unfold is_body. rewrite Hout. reflexivity.
  - constructor.
    + unfold is_body. rewrite (marker_op enter (enter_marker enter Henter)).
      reflexivity.
    + eapply Forall_impl; [exact Hcalls|]. intros n Hn. unfold is_body.
      rewrite Hn. reflexivity.
Qed.

Lemma uc_segments i :
  segment (zip orig (repeat 0 (length phs) ++ repeat 1 (length (p ++ [out]))))
    i
  = match i with 1 => p | _ => [] end.
Proof.
  unfold segment, orig. rewrite Hnodes.
  change (phs ++ enter :: body ++ [out]) with (phs ++ (p ++ [out])).
  rewrite zip_app_same by (rewrite repeat_length; reflexivity).
  rewrite List.filter_app, fmap_app, !segment_repeat, uc_body_p.
  rewrite (filter_none is_body phs).
  - destruct i as [|[|i]]; reflexivity.
  - eapply Forall_impl; [exact Hphs|]. intros n Hn. unfold is_body.
    rewrite Hn. reflexivity.
Qed.

Lemma uc_split :
  _split_autocast gm
  = OK (mkGM (phs ++ call :: extractions c (segment_outputs orig p)
                ++ [map_node_args
                      (env_get (outputs_env c (segment_outputs orig p) ++ []))
                      out])
          (setattr (attrs gm) "submod_1" (AModule child))).
Proof.
  unfold _split_autocast, sequential_split. fold orig.
  rewrite uc_flags. cbn [mbind result_bind]. rewrite uc_ids.
  assert (Hlen : length orig = S (S (length phs + length body))).
  { unfold orig. rewrite Hnodes, length_app. cbn [length].
    rewrite length_app. cbn [length]. lia. }
  rewrite Hlen.
  change (seq 0 (S (S (S (length phs + length body)))))
    with (0 :: 1 :: seq 2 (S (length phs + length body))).
  rewrite !fmap_cons. cbn [fold_left].
  rewrite (fold_add_segment_tail orig (attrs gm)
             (segment (zip orig
                (repeat 0 (length phs) ++ repeat 1 (length (p ++ [out]))))))
    by (intros i Hi; rewrite uc_segments;
        destruct i as [|[|i]]; [lia|lia|reflexivity]).
  rewrite !uc_segments. rewrite add_segment_empty.
  assert (Hf1 : List.filter (λ n, bool_decide (op n = placeholder)) orig
                = phs).
  { unfold orig. rewrite Hnodes.
    change (phs ++ enter :: body ++ [out]) with (phs ++ (p ++ [out])).
    rewrite List.filter_app, filter_all, filter_none.
    - apply app_nil_r.
    - apply Forall_app. split; [constructor|].
      + rewrite (marker_op enter (enter_marker enter Henter)). reflexivity.
      + eapply Forall_impl; [exact Hcalls|]. intros n Hn. rewrite Hn.
        reflexivity.
      + constructor; [|constructor]. rewrite Hout. reflexivity.
    - eapply Forall_impl; [exact Hphs|]. intros n Hn. rewrite Hn.
      reflexivity. }
  assert (Hf2 : List.filter (λ n, bool_decide (op n = output)) orig = [out]).
  { unfold orig. rewrite Hnodes.
    rewrite List.filter_app, filter_none.
    - cbn [List.filter app].
      rewrite (marker_op enter (enter_marker enter Henter)).
      rewrite (bool_decide_eq_false_2 (call_function = output))
        by discriminate.
      rewrite List.filter_app, filter_none.
      + cbn [List.filter app]. rewrite Hout.
        rewrite (bool_decide_eq_true_2 (output = output) eq_refl).
        reflexivity.
      + eapply Forall_impl; [exact Hcalls|]. intros n Hn. rewrite Hn.
        reflexivity.
    - eapply Forall_impl; [exact Hphs|]. intros n Hn. rewrite Hn.
      reflexivity. }
  rewrite Hf1, Hf2. unfold add_segment. fold p. cbn [is_empty p].
  cbn [next_id env base submods]. fold c.
  rewrite <- app_assoc. reflexivity.
Qed.

Lemma uc_c_fresh n : n ∈ phs → nid n ≠ c.
Proof.
  intros Hn. assert (Ho : n ∈ orig).
  { unfold orig. rewrite Hnodes. apply elem_of_app. left. exact Hn. }
  pose proof (fresh_nid_gt _ _ Ho). unfold c. lia.
Qed.

Lemma uc_markers :
  ∃ ms, nodes_filter (nodes child) _is_autocast_node = enter :: ms
        ∧ Forall (λ n, _is_exit_autocast_node n = false) ms.
Proof.
  unfold child, child_graph, nodes_filter. cbn [nodes].
  rewrite !List.filter_app.
  rewrite (filter_none _is_autocast_node
             (as_placeholder <$> segment_inputs orig p)).
  2:{ apply Forall_forall. intros n Hn.
      apply list_elem_of_fmap in Hn as (m & -> & _). reflexivity. }
  rewrite (filter_none _is_autocast_node (output_of _ _)).
  2:{ unfold output_of.
      destruct (segment_outputs orig p) as [|o [|o' l]];
        repeat constructor. }
  rewrite app_nil_r. cbn [app p List.filter].
  rewrite (enter_marker enter Henter).
  exists (List.filter _is_autocast_node body). split; [reflexivity|].
  apply Forall_forall. intros n Hn.
  apply list_elem_of_In, List.filter_In in Hn as [Hn _].
  apply list_elem_of_In in Hn.
  exact (proj1 (Forall_forall _ _) Hopen n Hn).
Qed.

Lemma uc_first :
  nodes_first (nodes child)
    (λ node, negb (bool_decide (op node = placeholder)))
  = Some enter.
Proof.
  unfold child, child_graph. cbn [nodes]. rewrite <- app_assoc.
  apply nodes_first_skip.
  - apply Forall_forall. intros n Hn.
    apply list_elem_of_fmap in Hn as (m & -> & _). reflexivity.
  - rewrite (marker_op enter (enter_marker enter Henter)). discriminate.
Qed.

Let split_gm : GraphModule :=
  mkGM (phs ++ call :: extractions c (segment_outputs orig p)
          ++ [map_node_args
                (env_get (outputs_env c (segment_outputs orig p) ++ []))
                out])
    (setattr (attrs gm) "submod_1" (AModule child)).

Lemma uc_replace h :
  _replace_with_hop no_hook split_gm call h = (h, Raise AssertionError).
Proof.
  rewrite (replace_with_hop_markers no_hook split_gm call "submod_1" child
             eq_refl eq_refl (getattr_setattr _ _ _)).
  cbv zeta. destruct uc_markers as (ms & -> & Hms).
  destruct (last (enter :: ms)) as [x|] eqn:Hlast.
  - destruct ms as [|m ms]; [reflexivity|].
    assert (Hlen : bool_decide (1 < length (enter :: m :: ms)) = true)
      by (apply bool_decide_eq_true; simpl; lia).
    rewrite Hlen.
    assert (Hx : _is_exit_autocast_node x = false).
    { apply (proj1 (Forall_forall _ _) Hms).
      apply last_Some_elem_of. exact Hlast. }
    unfold _check_valid_autocast_block. rewrite Henter, Hx. reflexivity.
  - apply last_None in Hlast. discriminate Hlast.
Qed.

Lemma uc_visit h :
  visit no_hook split_gm call h = (h, Raise AssertionError).
Proof.
  unfold visit. rewrite (bool_decide_eq_true_2 (op call = call_module) eq_refl).
  assert (Hl : lookup_node (nodes split_gm) (nid call) = Some call).
  { apply lookup_node_app_skip; [|reflexivity].
    intros m Hm. apply uc_c_fresh, Hm. }
  rewrite Hl. unfold _maybe_inline_or_replace_with_hop.
  assert (Ht : _is_autocast_sub_mod split_gm call = OK true).
  { unfold _is_autocast_sub_mod, get_submodule.
    rewrite (bool_decide_eq_true_2 (op call = call_module) eq_refl).
    cbn [target call attrs split_gm]. rewrite getattr_setattr.
    cbn [mbind result_bind]. rewrite uc_first.
    exact (f_equal OK Henter). }
  rewrite Ht. rewrite bind_lift. apply uc_replace.
Qed.

Lemma uc_pass depth sig h :
  sig = None →
  replace_autocast_with_hop_pass (S depth) gm sig h
  = (h, Raise AssertionError).
Proof.
  intros ->. cbn [replace_autocast_with_hop_pass].
  apply bind_Raise.
  unfold _sequential_split_and_maybe_inline_subgraphs.
  assert (Hm : existsb _is_autocast_node (nodes gm) = true).
  { rewrite Hnodes. apply existsb_marker_app, enter_marker, Henter. }
  rewrite Hm. cbn [negb]. rewrite uc_split. fold split_gm.
  rewrite bind_lift. unfold mbind at 1, M_bind at 1, mret at 1, M_ret at 1.
  apply bind_Raise. cbn [nodes split_gm].
  rewrite foldM_app, foldM_visit_skip.
  - cbn [foldM]. apply bind_Raise. apply uc_visit.
  - eapply Forall_impl; [exact Hphs|]. intros n Hn. rewrite Hn. discriminate.
Qed.

End Unclosed.

(** X18: an Enter that is never closed, through the whole pass.  For a
    graph of inputs, an Enter, calls none of which is an Exit, and the output
    node, the splitter's callback reports nothing (X5); the segment that
    starts at the Enter is taken for a scope body, and the replacer ends in
    an assertion failure: that of line 84 when the Enter is the only
    marker, that of the block check when another Enter follows.  Called
    without a signature the pass ends in that failure with the heap as it
    was. *)
Theorem X18_unclosed_enter_aborts (gm : GraphModule) (phs : list Node)
    (enter : Node) (body : list Node) (out : Node) :
  nodes gm = phs ++ enter :: body ++ [out] →
  Forall (λ n, op n = placeholder) phs →
  _is_enter_autocast_node enter = true →
  Forall (λ n, op n = call_function) body →
  Forall (λ n, _is_exit_autocast_node n = false) body →
  op out = output →
  ∀ depth h,
    replace_autocast_with_hop_pass (S depth) gm None h
    = (h, Raise AssertionError).
Proof.
  intros Hnodes Hphs Henter Hcalls Hopen Hout depth h.
  exact (uc_pass gm phs enter body out Hnodes Hphs Henter Hcalls Hopen Hout
           depth None h eq_refl).
Qed.

Lemma X18_witness :
  replace_autocast_with_hop_pass 1
    (mkGM [input 0 "x"; call 1 "b" _enter_autocast [AStr "cuda"];
           call 2 "c" (fn "g") [ANode 0]; ret 3 (ATuple [ANode 2])] [])
    None []
  = ([], Raise AssertionError).
Proof.
  apply (X18_unclosed_enter_aborts
           (mkGM [input 0 "x"; call 1 "b" _enter_autocast [AStr "cuda"];
                  call 2 "c" (fn "g") [ANode 0]; ret 3 (ATuple [ANode 2])]
              [])
           [input 0 "x"] (call 1 "b" _enter_autocast [AStr "cuda"])
           [call 2 "c" (fn "g") [ANode 0]] (ret 3 (ATuple [ANode 2]))).
  - reflexivity.
  - repeat constructor.
  - reflexivity.
  - repeat constructor.
  - repeat constructor.
  - reflexivity.
Defined.

(** ** The replacer on a single-value output: where the nodes go *)

Lemma nodup_split_ids (l1 : list Node) n l2 :
  NoDup (nid <$> l1 ++ n :: l2) →
  (∀ m, m ∈ l1 → nid m ≠ nid n) ∧ (∀ m, m ∈ l2 → nid m ≠ nid n).
Proof.
  rewrite fmap_app, fmap_cons. intros H.
  apply NoDup_app in H as (_ & Hdisj & H2).
  apply NoDup_cons in H2 as [Hn _]. split.
  - intros m Hm E. apply (Hdisj (nid m)).
    + apply list_elem_of_fmap. eauto.
    + rewrite E. left.
  - intros m Hm E. apply Hn. rewrite <- E. apply list_elem_of_fmap. eauto.
Qed.

(** The graph after the invocation [node] is exchanged for [ga] and
    [hop]. *)
Lemma exchange_graph (node ga hop : Node) (l1 l2 : list Node) :
  NoDup (nid <$> l1 ++ node :: l2) →
  nid ga ≠ nid node → nid hop ≠ nid node → args ga = [] →
  remove_node
    (replace_uses
       (insert_before (insert_before (l1 ++ node :: l2) (nid node) [ga])
          (nid node) [hop])
       (nid node) (nid hop))
    (nid node)
  = (map_node_args (subst1 (nid node) (nid hop)) <$> l1)
      ++ ga :: map_node_args (subst1 (nid node) (nid hop)) hop
      :: (map_node_args (subst1 (nid node) (nid hop)) <$> l2).
Proof.
  intros Hnd Hga Hhop Hargs.
  destruct (nodup_split_ids l1 node l2 Hnd) as [H1 H2].
  assert (H1' : ∀ m, m ∈ l1 ++ [ga] → nid m ≠ nid node).
  { intros m Hm. apply elem_of_app in Hm as [Hm|Hm]; [exact (H1 m Hm)|].
    apply list_elem_of_singleton in Hm as ->. exact Hga. }
  rewrite (insert_before_app_skip l1 node l2 (nid node) [ga] H1 eq_refl).
  rewrite (app_assoc l1 [ga]).
  rewrite (insert_before_app_skip (l1 ++ [ga]) node l2 (nid node) [hop] H1'
             eq_refl).
  rewrite replace_uses_fmap, remove_node_fmap.
  rewrite (remove_node_app (l1 ++ [ga])), (remove_node_app [hop]).
  rewrite (remove_node_keep (l1 ++ [ga]) _ H1').
  rewrite (remove_node_keep [hop]).
  2:{ intros m Hm. apply list_elem_of_singleton in Hm as ->. exact Hhop. }
  rewrite (remove_node_here node l2 (nid node) eq_refl H2).
  rewrite <- app_assoc, fmap_app. cbn [app]. rewrite !fmap_cons.
  do 2 f_equal. destruct ga as [i s o t a m]. simpl in Hargs. subst a.
  reflexivity.
Qed.

(** X19: the graph the replacer returns for a scope-body segment that
    returns a single value.  It is the old graph with the invocation
    exchanged, at its place, for a [get_attr] node naming the child and the
    region operation, and with every reference to the invocation turned
    into a reference to the region operation; nothing else is changed.  The
    operands of the region operation are the Enter's arguments as one
    tuple, the [get_attr] node, and the operands of the invocation; the two
    new nodes are new objects. *)
Theorem X19_single_value_rewiring (hook : hook_t) (gm : GraphModule)
    (node : Node) (tname : string) (sub_gm : GraphModule)
    (enter exit out : Node) (o : nat) (onode : Node) (l1 l2 : list Node) :
  scope_body gm node tname sub_gm enter exit →
  last (nodes sub_gm) = Some out → op out = output → args out = [ANode o] →
  lookup_node (nodes sub_gm) o = Some onode →
  total hook →
  nodes gm = l1 ++ node :: l2 →
  node_refs enter = [] →
  uses (nid node) node = false →
  ∀ h, ∃ h' ga hop,
    let σ := map_node_args (subst1 (nid node) (nid hop)) in
    _replace_with_hop hook gm node h
    = (h', OK (mkGM ((σ <$> l1) ++ ga :: hop :: (σ <$> l2))
                 (setattr (attrs gm) tname
                    (AModule (without_markers sub_gm enter exit)))))
    ∧ op ga = get_attr ∧ target ga = attr tname ∧ args ga = []
    ∧ is_hop hop = true
    ∧ args hop = ATuple (args enter) :: ANode (nid ga) :: args node
    ∧ (nid ga ∉ nid <$> nodes gm) ∧ (nid hop ∉ nid <$> nodes gm)
    ∧ nid ga ≠ nid hop.
Proof.
  intros SB Hlast Hop Hargs Honode Ht Hl Henter Hself h.
  pose proof (find_output_node_Some _ _ Hlast Hop) as Hfind.
  set (ga := new_get_attr (fresh_nid (nodes gm)) tname enter).
  set (graph1 := insert_before (nodes gm) (nid node) [ga]).
  set (hop := single_hop (fresh_nid graph1) enter ga node onode).
  set (graph2 := insert_before graph1 (nid node) [hop]).
  destruct (node_replace_total hook graph2 node hop true h Ht) as [h' Hrep].
  exists h', ga, hop. cbv zeta.
  pose proof (sb_nodup _ _ _ _ _ _ SB) as Hnd. rewrite Hl in Hnd.
  assert (Hga : nid ga ≠ nid node).
  { pose proof (fresh_nid_gt _ _ (sb_node _ _ _ _ _ _ SB)). simpl. lia. }
  assert (Hnode1 : node ∈ graph1).
  { apply elem_of_insert_before. right. apply SB. }
  assert (Hhop : nid hop ≠ nid node).
  { pose proof (fresh_nid_gt _ _ Hnode1). simpl. lia. }
  assert (Hsame : map_node_args (subst1 (nid node) (nid hop)) hop = hop).
  { apply map_node_args_same. intros i Hi.
    unfold subst1. destruct (Nat.eqb_spec i (nid node)) as [->|_];
      [|reflexivity].
    exfalso. unfold node_refs, hop, single_hop, hop_args in Hi.
    cbn [args List.map concat arg_nodes] in Hi.
    fold (node_refs enter) in Hi. rewrite Henter in Hi.
    cbn [app] in Hi. apply elem_of_cons in Hi as [Hi|Hi].
    - apply Hga. symmetry. exact Hi.
    - fold (node_refs node) in Hi. apply mem_true in Hi.
      unfold uses in Hself. congruence. }
  split; [|split; [|split; [|split; [|split; [|split; [|split; [|split]]]]]]];
    try reflexivity.
  - rewrite (replace_with_hop_run hook _ _ _ _ _ _ SB).
    fold ga graph1. unfold replace_call. rewrite Hfind.
    unfold mbind, M_bind, lift, args0. rewrite Hargs. simpl.
    rewrite Honode. simpl.
    fold hop graph2. rewrite Hrep. unfold mret, M_ret. do 3 f_equal.
    pose proof (exchange_graph node ga hop l1 l2 Hnd Hga Hhop eq_refl)
      as Hex.
    rewrite <- Hl in Hex. fold graph1 graph2 in Hex.
    rewrite Hex, Hsame. reflexivity.
  - apply fresh_nid_not_in.
  - intros Hin. apply list_elem_of_fmap in Hin as (m & E & Hm).
    assert (Hm1 : m ∈ graph1).
    { apply elem_of_insert_before. right. exact Hm. }
    pose proof (fresh_nid_gt _ _ Hm1). simpl in E. lia.
  - assert (Hga1 : ga ∈ graph1).
    { apply elem_of_insert_before. left. left. }
    pose proof (fresh_nid_gt _ _ Hga1). simpl. simpl in H. lia.
Qed.

Lemma X19_witness :
  ∃ h' ga hop,
    _replace_with_hop no_hook single_output_parent
      (mkNode 7 "submod_1" call_module (attr "submod_1") [ANode 0] ∅) []
    = (h', OK (mkGM
                 [input 0 "x"; ga; hop;
                  mkNode 8 "submod_2" call_module (attr "submod_2")
                    [ANode (nid hop)] ∅;
                  ret 5 (ATuple [ANode 8])]
                 (setattr (attrs single_output_parent) "submod_1"
                    (AModule
                       (without_markers
                          (mkGM [as_placeholder (input 0 "x");
                                 call 1 "b" _enter_autocast [AStr "cuda"];
                                 call 2 "c" (fn "g") [ANode 0];
                                 call 3 "d" _exit_autocast [ANode 1];
                                 ret 4 (ANode 2)] [])
                          (call 1 "b" _enter_autocast [AStr "cuda"])
                          (call 3 "d" _exit_autocast [ANode 1]))))))
    ∧ args hop = [ATuple [AStr "cuda"]; ANode (nid ga); ANode 0].
Proof.
  destruct (X19_single_value_rewiring no_hook single_output_parent
              (mkNode 7 "submod_1" call_module (attr "submod_1") [ANode 0] ∅)
              "submod_1"
              (mkGM [as_placeholder (input 0 "x");
                     call 1 "b" _enter_autocast [AStr "cuda"];
                     call 2 "c" (fn "g") [ANode 0];
                     call 3 "d" _exit_autocast [ANode 1];
                     ret 4 (ANode 2)] [])
              (call 1 "b" _enter_autocast [AStr "cuda"])
              (call 3 "d" _exit_autocast [ANode 1])
              (ret 4 (ANode 2)) 2 (call 2 "c" (fn "g") [ANode 0])
              [input 0 "x"]
              [mkNode 8 "submod_2" call_module (attr "submod_2") [ANode 7] ∅;
               ret 5 (ATuple [ANode 8])])
    with (h := ([] : heap))
    as (h' & ga & hop & Hrun & _ & _ & _ & _ & Hargs & _).
  - scope_body_concrete.
  - reflexivity.
  - reflexivity.
  - reflexivity.
  - reflexivity.
  - intros old new user h. reflexivity.
  - reflexivity.
  - reflexivity.
  - reflexivity.
  - exists h', ga, hop. split; [exact Hrun|exact Hargs].
Defined.

(** ** Reconciliation when the names already agree (line 222) *)

Lemma reconcile_one_same g a e h :
  holds h e →
  match a with
  | ANode i => ∃ n, lookup_node g i = Some n ∧ arg_name (e_val e) = name n
  | ANone => ∃ s, e_val e = ConstantArgument s CNone
  | _ => False
  end →
  reconcile_one g (a, e_spec e) h = (h, OK ()).
Proof.
  intros [Hs Ha] Hrec. unfold reconcile_one, mbind, M_bind.
  destruct a; try contradiction.
  - destruct Hrec as (nd & Hnd & Hname).
    rewrite (read_spec_arg_holds _ _ _ _ _ Hs Ha).
    unfold lift, resolve. rewrite Hnd. rewrite Hname, String.eqb_refl.
    reflexivity.
  - destruct Hrec as [s Hx].
    rewrite (read_spec_arg_holds _ _ _ _ _ Hs Ha).
    unfold lift. rewrite Hx. reflexivity.
Qed.

(** X20: the reconciliation writes only where a name differs.  When every
    entry paired with a node already has that node's name and every entry
    paired with [None] is a constant [None], it returns and the heap is
    the heap it started in. *)
Theorem X20_reconcile_writes_nothing (g : list Node) (sig : nat) (h : heap)
    (out_args : list Arg) (es : list entry) :
  output_arguments g = OK out_args →
  h !! sig = Some (OSignature (e_spec <$> es)) →
  Forall (holds h) es →
  Forall2 (λ a e,
             match a with
             | ANode i =>
                 ∃ n, lookup_node g i = Some n ∧ arg_name (e_val e) = name n
             | ANone => ∃ s, e_val e = ConstantArgument s CNone
             | _ => False
             end) out_args es →
  reconcile g sig h = (h, OK ()).
Proof.
  intros Hout Hsig Hh H2.
  rewrite (reconcile_prelude _ _ _ _ _ Hout Hsig).
  rewrite bool_decide_eq_true_2
    by (rewrite length_fmap; eapply Forall2_length, H2).
  clear Hout Hsig. induction H2 as [|a e out_args es Hae _ IH].
  - reflexivity.
  - apply Forall_cons in Hh as [He Hh].
    rewrite fmap_cons. cbn [zip_with mapM_]. unfold mbind, M_bind.
    rewrite (reconcile_one_same g a e h He Hae). exact (IH Hh).
Qed.

Lemma X20_witness :
  reconcile two_outputs_graph 0
    [OSignature [1; 3];
     OOutputSpec "USER_OUTPUT" 2; OArgument (TensorArgument "y");
     OOutputSpec "USER_OUTPUT" 4; OArgument (ConstantArgument "" CNone)]
  = ([OSignature [1; 3];
      OOutputSpec "USER_OUTPUT" 2; OArgument (TensorArgument "y");
      OOutputSpec "USER_OUTPUT" 4; OArgument (ConstantArgument "" CNone)],
     OK ()).
Proof.
  apply (X20_reconcile_writes_nothing two_outputs_graph 0 _
           [ANode 1; ANone]
           [mkEntry 1 "USER_OUTPUT" 2 (TensorArgument "y");
            mkEntry 3 "USER_OUTPUT" 4 (ConstantArgument "" CNone)]).
  - reflexivity.
  - reflexivity.
  - repeat constructor.
  - constructor; [|constructor; [|constructor]].
    + eexists. split; reflexivity.
    + eexists. reflexivity.
Defined.

(** ** The recursive descent (lines 255-261) *)

Lemma descend_skip recurse g n h :
  op n ≠ get_attr → descend recurse g n h = (h, OK g).
Proof.
  intros H. unfold descend. rewrite (bool_decide_eq_false_2 _ H).
  reflexivity.
Qed.

Lemma foldM_descend_skip recurse g l h :
  Forall (λ n, op n ≠ get_attr) l →
  foldM (descend recurse) g l h = (h, OK g).
Proof.
  intros H. apply foldM_id. intros a Ha.
  apply descend_skip. exact (proj1 (Forall_forall _ _) H a Ha).
Qed.

(** X21: the descent into a child.  For a graph without markers whose
    only [get_attr] node names a child graph module, the pass returns the
    graph module with that child exchanged for what the pass, called
    without a signature, returns for the child; the nodes and the signature
    of the parent are handed back as they were, and what the call on the
    child returns as its signature is dropped.  When the call on the child
    raises, so does the pass; when the attribute does not exist the pass
    ends in an AttributeError. *)
Theorem X21_descent_into_child (gm : GraphModule) (sig : option nat)
    (l1 : list Node) (n : Node) (l2 : list Node) (t : string) :
  existsb _is_autocast_node (nodes gm) = false →
  nodes gm = l1 ++ n :: l2 →
  Forall (λ m, op m ≠ get_attr) (l1 ++ l2) →
  op n = get_attr → target n = attr t →
  ∀ depth h,
    (∀ sub h' sub' s',
       getattr (attrs gm) t = Some (AModule sub) →
       replace_autocast_with_hop_pass depth sub None h
       = (h', OK (sub', s')) →
       lint (nodes gm) = OK () →
       replace_autocast_with_hop_pass (S depth) gm sig h
       = (h', OK (mkGM (nodes gm) (setattr (attrs gm) t (AModule sub')),
                  sig)))
    ∧ (∀ sub h' e,
         getattr (attrs gm) t = Some (AModule sub) →
         replace_autocast_with_hop_pass depth sub None h = (h', Raise e) →
         replace_autocast_with_hop_pass (S depth) gm sig h = (h', Raise e))
    ∧ (getattr (attrs gm) t = None →
       replace_autocast_with_hop_pass (S depth) gm sig h
       = (h, Raise AttributeError)).
Proof.
  intros Hno Hnodes Hothers Hop Htgt depth h.
  apply Forall_app in Hothers as [H1 H2].
  assert (Hstart :
    replace_autocast_with_hop_pass (S depth) gm sig h
    = match descend (λ subgm,
                       replace_autocast_with_hop_pass depth subgm None)
              gm n h with
      | (h', OK g') =>
          (new_gm ←
             foldM (descend (λ subgm,
                      replace_autocast_with_hop_pass depth subgm None))
               g' l2;
           lift (lint (nodes new_gm));;
           mret (new_gm, sig)) h'
      | (h', Raise e) => (h', Raise e)
      end).
  { cbn [replace_autocast_with_hop_pass].
    erewrite bind_OK by (apply helper_no_markers, Hno). cbv beta iota.
    rewrite Hnodes. unfold mbind at 1, M_bind at 1.
    rewrite foldM_app, (foldM_descend_skip _ gm l1 h H1).
    cbn [foldM]. unfold mbind at 1, M_bind at 1.
    destruct (descend _ gm n h) as [h' [g'|e]]; reflexivity. }
  split; [|split].
  - intros sub h' sub' s' Hsub Hrun Hlint. rewrite Hstart.
    unfold descend at 1. rewrite (bool_decide_eq_true_2 _ Hop), Htgt, Hsub.
    unfold mbind at 1, M_bind at 1. rewrite Hrun.
    unfold mret at 1, M_ret at 1.
    unfold mbind at 1, M_bind at 1.
    rewrite (foldM_descend_skip _ _ l2 h' H2).
    unfold lift, mbind, M_bind. cbn [nodes]. rewrite Hlint. reflexivity.
  - intros sub h' e Hsub Hrun. rewrite Hstart.
    unfold descend at 1. rewrite (bool_decide_eq_true_2 _ Hop), Htgt, Hsub.
    unfold mbind at 1, M_bind at 1. rewrite Hrun. reflexivity.
  - intros Hnone. rewrite Hstart.
    unfold descend at 1. rewrite (bool_decide_eq_true_2 _ Hop), Htgt, Hnone.
    reflexivity.
Qed.

Lemma X21_witness :
  ∃ sub',
    replace_autocast_with_hop_pass 2 child_with_region None []
    = ([], OK (sub', None))
    ∧ replace_autocast_with_hop_pass 3 parent_without_markers None []
      = ([], OK (mkGM (nodes parent_without_markers)
                   (setattr (attrs parent_without_markers) "branch"
                      (AModule sub')), None)).
Proof.
  destruct (replace_autocast_with_hop_pass 2 child_with_region None [])
    as [h' [[sub' s']|e]] eqn:Hrun;
    [|vm_compute in Hrun; discriminate Hrun].
  assert (Hh : h' = [] ∧ s' = None).
  { vm_compute in Hrun. injection Hrun as <- _ <-. auto. }
  destruct Hh as [-> ->]. exists sub'. split; [reflexivity|].
  eapply (proj1 (X21_descent_into_child parent_without_markers None
                   (firstn 1 (nodes parent_without_markers))
                   (mkNode 1 "branch" get_attr (attr "branch") [] ∅)
                   (skipn 2 (nodes parent_without_markers)) "branch"
                   eq_refl eq_refl
                   ltac:(repeat constructor; discriminate)
                   eq_refl eq_refl 2 [])).
  - reflexivity.
  - exact Hrun.
  - reflexivity.
Defined.

(** ** A graph that is one region, through the whole pass *)

Lemma wf_prefix A B : well_formed (A ++ B) → well_formed A.
Proof.
  unfold well_formed. rewrite lint_from_app. intros H.
  apply andb_true_iff in H as [H _]. exact H.
Qed.

(** In a well-formed graph of distinct nodes no node refers to a later
    one. *)
Lemma wf_no_forward A B u n :
  well_formed (A ++ B) → NoDup (nid <$> A ++ B) →
  u ∈ A → n ∈ B → uses (nid n) u = false.
Proof.
  intros Hwf Hnd Hu Hn. apply not_uses. intros r Hr ->.
  destruct (lint_from_refs A [] (wf_prefix A B Hwf) u (nid n) Hu Hr)
    as [H|H]; [inversion H|].
  rewrite fmap_app in Hnd. apply NoDup_app in Hnd as (_ & Hdisj & _).
  apply (Hdisj (nid n) H). apply list_elem_of_fmap. eauto.
Qed.

Lemma filter_unique (l : list Node) (o : Node) :
  NoDup (nid <$> l) → o ∈ l →
  List.filter (λ n, Nat.eqb (nid n) (nid o)) l = [o].
Proof.
  induction l as [|m l IH]; intros Hnd Ho; [inversion Ho|].
  rewrite fmap_cons in Hnd. apply NoDup_cons in Hnd as [Hm Hnd].
  cbn [List.filter]. apply elem_of_cons in Ho as [->|Ho].
  - rewrite Nat.eqb_refl. f_equal. apply filter_none, Forall_forall.
    intros n Hn. apply Nat.eqb_neq. intros E. apply Hm. rewrite <- E.
    apply list_elem_of_fmap. eauto.
  - destruct (Nat.eqb_spec (nid m) (nid o)) as [E|_]; [exfalso|auto].
    apply Hm. rewrite E. apply list_elem_of_fmap. eauto.
Qed.

Section RegionOnly.

Context (gm : GraphModule) (phs : list Node) (enter : Node)
  (body : list Node) (exit : Node) (out : Node).
Hypothesis (RO : region_only gm phs enter body exit out).

Let Hnodes := ro_nodes _ _ _ _ _ _ RO.
Let Hattrs := ro_attrs _ _ _ _ _ _ RO.
Let Hphs := ro_phs _ _ _ _ _ _ RO.
Let Henter := ro_enter _ _ _ _ _ _ RO.
Let Hbody := ro_body _ _ _ _ _ _ RO.
Let Hexit := ro_exit _ _ _ _ _ _ RO.
Let Hcloses := ro_closes _ _ _ _ _ _ RO.
Let Hout := ro_out _ _ _ _ _ _ RO.
Let Hnd := ro_nodup _ _ _ _ _ _ RO.
Let Hwf := ro_wf _ _ _ _ _ _ RO.
Let Hprivate := ro_private _ _ _ _ _ _ RO.

Let orig := nodes gm.
Let region := enter :: body ++ [exit].
Let c := fresh_nid orig.
Let ins := segment_inputs orig region.
Let outs := segment_outputs orig region.
Let phs' := as_placeholder <$> ins.
Let call := seg_call orig c [] 1 region.

Lemma ro_orig : orig = phs ++ region ++ [out].
Proof. exact Hnodes. Qed.

Lemma ro_quiet_body : Forall (λ n, _is_autocast_node n = false) body.
Proof.
  eapply Forall_impl; [exact Hbody|]. intros n. apply plain_not_marker.
Qed.

Lemma ro_flags :
  traverse node_call_back cb_init orig
  = OK (repeat false (length phs)
          ++ (true :: repeat false (length body + 1)) ++ [true],
        cb_init).
Proof.
  rewrite ro_orig. rewrite traverse_app.
  rewrite (traverse_quiet cb_init phs eq_refl)
    by (eapply Forall_impl; [exact Hphs|];
        intros n; apply placeholder_not_marker).
  cbn [mbind result_bind]. rewrite traverse_app.
  unfold region at 1. cbn [traverse].
  rewrite (call_back_enter enter Henter). cbn [mbind result_bind].
  rewrite traverse_app.
  rewrite (traverse_quiet (mkCb [enter] false) body eq_refl ro_quiet_body).
  cbn [mbind result_bind traverse].
  rewrite (call_back_closing_exit enter exit [] Hexit Hcloses).
  cbn [mbind result_bind].
  rewrite (call_back_after_exit out (output_not_marker out Hout)).
  cbn [mbind result_bind]. rewrite repeat_app. reflexivity.
Qed.

Lemma ro_region_length : length region = S (length body + 1).
Proof. unfold region. cbn [length]. rewrite length_app. reflexivity. Qed.

Lemma ro_ids :
  split_ids 0 (repeat false (length phs)
                 ++ (true :: repeat false (length body + 1)) ++ [true])
  = repeat 0 (length phs) ++ repeat 1 (length region) ++ repeat 2 1.
Proof.
  rewrite split_ids_quiet_app. f_equal. cbn [app split_ids].
  rewrite split_ids_quiet_app, ro_region_length. reflexivity.
Qed.

Lemma ro_region_body : Forall (λ n, is_body n = true) region.
Proof.
  unfold region. constructor; [|apply Forall_app; split].
  - unfold is_body. rewrite (marker_op enter (enter_marker enter Henter)).
    reflexivity.
  - eapply Forall_impl; [exact Hbody|]. intros n. apply plain_is_body.
  - constructor; [|constructor]. unfold is_body.
    rewrite (marker_op exit (exit_marker exit Hexit)). reflexivity.
Qed.

Lemma ro_segments i :
  segment (zip orig (repeat 0 (length phs) ++ repeat 1 (length region)
                       ++ repeat 2 1)) i
  = match i with 1 => region | _ => [] end.
Proof.
  unfold segment. rewrite ro_orig.
  rewrite zip_app_same by (rewrite repeat_length; reflexivity).
  rewrite zip_app_same by (rewrite repeat_length; reflexivity).
  rewrite !List.filter_app, !fmap_app.
  rewrite (segment_repeat phs), (segment_repeat region).
  change (repeat 2 1) with (repeat 2 (length [out])).
  rewrite (segment_repeat [out]).
  rewrite (filter_all is_body region ro_region_body).
  rewrite (filter_none is_body phs)
    by (eapply Forall_impl; [exact Hphs|]; intros n Hn; unfold is_body;
        rewrite Hn; reflexivity).
  rewrite (filter_none is_body [out])
    by (constructor; [unfold is_body; rewrite Hout; reflexivity|constructor]).
  destruct i as [|[|[|i]]]; simpl; rewrite ?app_nil_r; reflexivity.
Qed.

Lemma ro_nodup_orig : NoDup (nid <$> phs ++ region ++ [out]).
Proof. rewrite <- ro_orig. exact Hnd. Qed.

Lemma ro_wf_orig : well_formed (phs ++ region ++ [out]).
Proof. rewrite <- ro_orig. exact Hwf. Qed.

Lemma ro_in_orig n :
  n ∈ orig ↔ n ∈ phs ∨ n ∈ region ∨ n = out.
Proof.
  rewrite ro_orig, !elem_of_app, list_elem_of_singleton. tauto.
Qed.

Lemma ro_c_fresh n : n ∈ orig → nid n < c.
Proof. apply fresh_nid_gt. Qed.

Lemma ro_phs_not_c m : m ∈ phs → nid m ≠ c.
Proof.
  intros Hm. assert (Ho : m ∈ orig) by (apply ro_in_orig; auto).
  pose proof (ro_c_fresh m Ho). lia.
Qed.

Lemma ro_out_not_c : nid out ≠ c.
Proof.
  assert (Ho : out ∈ orig) by (apply ro_in_orig; auto).
  pose proof (ro_c_fresh out Ho). lia.
Qed.

Lemma ro_phs_region m n : m ∈ phs → n ∈ region → nid m ≠ nid n.
Proof.
  intros Hm Hn E. pose proof ro_nodup_orig as Hd. rewrite fmap_app in Hd.
  apply NoDup_app in Hd as (_ & Hdisj & _).
  apply (Hdisj (nid m)); [apply list_elem_of_fmap; eauto|].
  rewrite fmap_app. apply elem_of_app. left. rewrite E.
  apply list_elem_of_fmap. eauto.
Qed.

Lemma ro_region_out n : n ∈ region → nid n ≠ nid out.
Proof.
  intros Hn E. pose proof ro_nodup_orig as Hd. rewrite fmap_app in Hd.
  apply NoDup_app in Hd as (_ & _ & Hd). rewrite fmap_app in Hd.
  apply NoDup_app in Hd as (_ & Hdisj & _).
  apply (Hdisj (nid n)); [apply list_elem_of_fmap; eauto|].
  rewrite E. left.
Qed.

Lemma ro_nodup_region : NoDup (nid <$> region).
Proof.
  pose proof ro_nodup_orig as Hd. rewrite fmap_app in Hd.
  apply NoDup_app in Hd as (_ & _ & Hd). rewrite fmap_app in Hd.
  apply NoDup_app in Hd as (Hd & _ & _). exact Hd.
Qed.

(** The values the region reads from outside are inputs of the graph. *)
Lemma ro_ins_phs m : m ∈ ins → m ∈ phs.
Proof.
  intros Hm. apply segment_inputs_spec in Hm as (Ho & Hnot & u & Hu & Huse).
  apply ro_in_orig in Ho as [Ho|[Ho|Ho]]; [exact Ho| |].
  - exfalso. apply Hnot. apply list_elem_of_fmap. eauto.
  - exfalso. subst m.
    rewrite (wf_no_forward (phs ++ region) [out] u out) in Huse.
    + discriminate.
    + rewrite <- app_assoc. exact ro_wf_orig.
    + rewrite <- app_assoc. exact ro_nodup_orig.
    + apply elem_of_app. right. exact Hu.
    + left.
Qed.

Lemma ro_call_refs r :
  r ∈ node_refs call → ∃ m, m ∈ phs ∧ r = nid m.
Proof.
  intros Hr. apply seg_call_refs in Hr as (m & Hm & ->).
  rewrite env_get_nil. exists m. split; [apply ro_ins_phs, Hm|reflexivity].
Qed.

Lemma ro_region_split_orig :
  orig = (phs ++ enter :: body) ++ [exit; out].
Proof.
  rewrite ro_orig. unfold region.
  rewrite <- !app_assoc. cbn [app]. rewrite <- app_assoc. reflexivity.
Qed.

Lemma ro_lint_parts :
  lint_from [] phs = true
  ∧ (∀ r, r ∈ node_refs enter → r ∈ nid <$> phs)
  ∧ lint_from (rev (nid <$> phs ++ [enter]) ++ []) body = true
  ∧ ∀ r, r ∈ node_refs out → r ∈ nid <$> phs ++ region.
Proof.
  pose proof Hwf as H. unfold well_formed in H. fold orig in H.
  split; [|split; [|split]].
  - rewrite ro_orig, lint_from_app in H.
    apply andb_true_iff in H as [H _]. exact H.
  - intros r Hr. rewrite ro_orig, lint_from_app in H.
    apply andb_true_iff in H as [_ H]. unfold region in H.
    cbn [app lint_from] in H. apply andb_true_iff in H as [H _].
    rewrite forallb_forall in H.
    apply list_elem_of_In, H, mem_true in Hr.
    apply elem_of_rev_app in Hr as [Hr|Hr]; [exact Hr|inversion Hr].
  - replace orig with ((phs ++ [enter]) ++ body ++ [exit; out]) in H.
    2:{ rewrite ro_orig. unfold region.
        rewrite <- !app_assoc. cbn [app]. rewrite <- app_assoc.
        reflexivity. }
    rewrite (lint_from_app [] (phs ++ [enter])) in H.
    apply andb_true_iff in H as [_ H].
    rewrite (lint_from_app _ body) in H.
    apply andb_true_iff in H as [H _]. exact H.
  - intros r Hr.
    replace orig with ((phs ++ region) ++ [out]) in H
      by (rewrite ro_orig, <- app_assoc; reflexivity).
    rewrite (lint_from_app [] (phs ++ region)) in H.
    apply andb_true_iff in H as [_ H].
    pose proof (proj1 (lint_from_singleton _ _) H r Hr) as H'.
    apply elem_of_rev_app in H' as [H'|H']; [exact H'|inversion H'].
Qed.

(** What the splitter makes of the graph. *)
Lemma ro_split :
  _split_autocast gm
  = OK (mkGM (phs ++ (call :: extractions c outs)
                ++ [map_node_args (env_get (outputs_env c outs ++ [])) out])
          [("submod_1", AModule (mkGM (child_graph orig region) []))]).
Proof.
  unfold _split_autocast, sequential_split. fold orig.
  rewrite ro_flags. cbn [mbind result_bind]. rewrite ro_ids.
  assert (Hlen : length orig = S (S (S (length phs + length body)))).
  { rewrite ro_orig, length_app, length_app, ro_region_length.
    cbn [length]. lia. }
  rewrite Hlen.
  change (seq 0 (S (S (S (S (length phs + length body))))))
    with (0 :: 1 :: seq 2 (S (S (length phs + length body)))).
  rewrite !fmap_cons. cbn [fold_left].
  rewrite (fold_add_segment_tail orig (attrs gm)
             (segment (zip orig
                (repeat 0 (length phs) ++ repeat 1 (length region)
                   ++ repeat 2 1))))
    by (intros i Hi; rewrite ro_segments;
        destruct i as [|[|i]]; [lia|lia|reflexivity]).
  rewrite !ro_segments. rewrite add_segment_empty.
  assert (Hf1 : List.filter (λ n, bool_decide (op n = placeholder)) orig
                = phs).
  { rewrite ro_orig, List.filter_app, filter_all, filter_none.
    - apply app_nil_r.
    - apply Forall_app. split.
      + eapply Forall_impl; [exact ro_region_body|]. intros n Hn.
        unfold is_body in Hn. apply negb_true_iff, orb_false_iff in Hn.
        apply Hn.
      + constructor; [|constructor]. rewrite Hout. reflexivity.
    - eapply Forall_impl; [exact Hphs|]. intros n Hn. rewrite Hn.
      reflexivity. }
  assert (Hf2 : List.filter (λ n, bool_decide (op n = output)) orig = [out]).
  { rewrite ro_orig, List.filter_app, List.filter_app.
    rewrite filter_none, filter_none.
    - cbn [List.filter app]. rewrite Hout.
      rewrite (bool_decide_eq_true_2 (output = output) eq_refl).
      reflexivity.
    - eapply Forall_impl; [exact ro_region_body|]. intros n Hn.
      unfold is_body in Hn. apply negb_true_iff, orb_false_iff in Hn.
      apply Hn.
    - eapply Forall_impl; [exact Hphs|]. intros n Hn. rewrite Hn.
      reflexivity. }
  rewrite Hf1, Hf2, Hattrs. unfold add_segment. fold region.
  assert (Hne : is_empty region = false) by reflexivity.
  rewrite Hne. cbn [next_id env base submods]. fold c outs.
  cbn [setattr fmap list_fmap]. rewrite <- app_assoc. reflexivity.
Qed.

Lemma ro_child_nodes :
  child_graph orig region = phs' ++ region ++ output_of (phs' ++ region) outs.
Proof. unfold child_graph. rewrite <- app_assoc. reflexivity. Qed.

Lemma ro_phs'_region m n : m ∈ phs' → n ∈ region → nid m ≠ nid n.
Proof.
  intros Hm Hn. apply list_elem_of_fmap in Hm as (m0 & -> & Hm0).
  apply (ro_phs_region m0 n (ro_ins_phs m0 Hm0) Hn).
Qed.

Lemma ro_markers tail :
  Forall (λ n, _is_autocast_node n = false) tail →
  nodes_filter (phs' ++ region ++ tail) _is_autocast_node
  = enter :: [] ++ [exit].
Proof.
  intros Ht. unfold nodes_filter. rewrite !List.filter_app.
  rewrite (filter_none _is_autocast_node phs')
    by (apply Forall_forall; intros n Hn;
        apply list_elem_of_fmap in Hn as (m & -> & _); reflexivity).
  rewrite (filter_none _is_autocast_node tail Ht), app_nil_r.
  unfold region. cbn [app List.filter].
  rewrite (enter_marker enter Henter), List.filter_app.
  rewrite (filter_none _is_autocast_node body ro_quiet_body).
  cbn [List.filter app]. rewrite (exit_marker exit Hexit). reflexivity.
Qed.

Lemma ro_first tail :
  nodes_first (phs' ++ region ++ tail)
    (λ node, negb (bool_decide (op node = placeholder)))
  = Some enter.
Proof.
  unfold region. cbn [app]. apply nodes_first_skip.
  - apply Forall_forall. intros n Hn.
    apply list_elem_of_fmap in Hn as (m & -> & _). reflexivity.
  - rewrite (marker_op enter (enter_marker enter Henter)). discriminate.
Qed.

Lemma ro_exit_unused n : n ∈ phs' ++ region → uses (nid exit) n = false.
Proof.
  intros Hn. apply elem_of_app in Hn as [Hn|Hn].
  - apply list_elem_of_fmap in Hn as (m & -> & _). reflexivity.
  - unfold region in Hn. rewrite app_comm_cons in Hn.
    apply elem_of_app in Hn as [Hn|Hn].
    + apply (wf_no_forward (phs ++ enter :: body) [exit; out]).
      * rewrite <- ro_region_split_orig. exact Hwf.
      * rewrite <- ro_region_split_orig. exact Hnd.
      * apply elem_of_app. right. exact Hn.
      * left.
    + apply list_elem_of_singleton in Hn as ->.
      apply (well_formed_no_self orig); [exact Hwf|exact Hnd|].
      apply ro_in_orig. right. left. unfold region.
      rewrite app_comm_cons. apply elem_of_app. right. left.
Qed.

Lemma ro_enter_unused n :
  n ∈ phs' ++ region → nid n ≠ nid exit → uses (nid enter) n = false.
Proof.
  intros Hn Hne. apply elem_of_app in Hn as [Hn|Hn].
  - apply list_elem_of_fmap in Hn as (m & -> & _). reflexivity.
  - unfold region in Hn. apply elem_of_cons in Hn as [->|Hn].
    + apply (well_formed_no_self orig); [exact Hwf|exact Hnd|].
      apply ro_in_orig. right. left. left.
    + apply elem_of_app in Hn as [Hn|Hn]; [exact (Hprivate n Hn)|].
      apply list_elem_of_singleton in Hn as ->. contradiction.
Qed.

Lemma ro_nodup_split out1 :
  nid out1 = nid out → NoDup (nid <$> phs ++ [call; out1]).
Proof.
  intros E. pose proof ro_nodup_orig as H. rewrite fmap_app in *.
  apply NoDup_app in H as (Hp & Hdisj & Hr).
  apply NoDup_app. split; [exact Hp|]. split.
  - intros i Hi Hc. apply list_elem_of_fmap in Hi as (m & -> & Hm).
    apply elem_of_cons in Hc as [Hc|Hc].
    + apply (ro_phs_not_c m Hm). exact Hc.
    + apply list_elem_of_singleton in Hc. rewrite E in Hc.
      apply (Hdisj (nid m)); [apply list_elem_of_fmap; eauto|].
      rewrite fmap_app. apply elem_of_app. right. rewrite Hc. left.
  - cbn [fmap list_fmap]. apply NoDup_cons. split; [|apply NoDup_singleton].
    intros Hc. apply list_elem_of_singleton in Hc. rewrite E in Hc.
    apply ro_out_not_c. symmetry. exact Hc.
Qed.

(** The child graph without its markers. *)
Lemma ro_remove_markers tail :
  (∀ m, m ∈ tail → nid m ≠ nid enter ∧ nid m ≠ nid exit) →
  remove_node (remove_node (phs' ++ region ++ tail) (nid exit)) (nid enter)
  = phs' ++ body ++ tail.
Proof.
  intros Ht.
  pose proof ro_nodup_region as Hr.
  unfold region in Hr. rewrite fmap_cons, fmap_app in Hr.
  apply NoDup_cons in Hr as [He Hr].
  apply NoDup_app in Hr as (_ & Hbx & _).
  assert (Hpx : ∀ m, m ∈ phs' → nid m ≠ nid exit).
  { intros m Hm. apply (ro_phs'_region m exit Hm). unfold region.
    rewrite app_comm_cons. apply elem_of_app. right. left. }
  assert (Hpe : ∀ m, m ∈ phs' → nid m ≠ nid enter).
  { intros m Hm. apply (ro_phs'_region m enter Hm). left. }
  rewrite (remove_node_app phs'), (remove_node_keep phs' _ Hpx).
  unfold region. rewrite app_comm_cons, <- app_assoc.
  rewrite (remove_node_app (enter :: body)).
  rewrite (remove_node_keep (enter :: body)).
  2:{ intros m Hm E. apply elem_of_cons in Hm as [->|Hm].
      - apply He. rewrite E. apply elem_of_app. right. left.
      - apply (Hbx (nid m)); [apply list_elem_of_fmap; eauto|].
        rewrite E. left. }
  cbn [app].
  rewrite (remove_node_here exit tail (nid exit) eq_refl)
    by (intros m Hm; apply (Ht m Hm)).
  rewrite (remove_node_app phs'), (remove_node_keep phs' _ Hpe).
  rewrite (remove_node_here enter (body ++ tail) (nid enter) eq_refl);
    [reflexivity|].
  intros m Hm E. apply elem_of_app in Hm as [Hm|Hm].
  - apply He. rewrite <- E. apply elem_of_app. left.
    apply list_elem_of_fmap. eauto.
  - apply (proj1 (Ht m Hm)). exact E.
Qed.

Lemma ro_body_lint : lint_from (rev (nid <$> phs') ++ []) body = true.
Proof.
  destruct ro_lint_parts as (_ & _ & Hb & _).
  eapply lint_from_restrict; [exact Hb|].
  intros n r Hn Hr Hin. apply elem_of_rev_app. left.
  apply elem_of_rev_app in Hin as [Hin|Hin]; [|inversion Hin].
  rewrite fmap_app in Hin. apply elem_of_app in Hin as [Hin|Hin].
  - unfold phs'. rewrite <- list_fmap_compose.
    apply list_elem_of_fmap in Hin as (m & -> & Hm).
    apply list_elem_of_fmap. exists m. split; [reflexivity|].
    apply segment_inputs_spec. split; [apply ro_in_orig; auto|]. split.
    + intros Hc. apply list_elem_of_fmap in Hc as (n' & E & Hn').
      exact (ro_phs_region m n' Hm Hn' E).
    + exists n. split.
      * unfold region. right. apply elem_of_app. left. exact Hn.
      * unfold uses. apply mem_true. exact Hr.
  - exfalso. apply list_elem_of_singleton in Hin. simpl in Hin. subst r.
    pose proof (Hprivate n Hn) as Hu. unfold uses in Hu.
    apply mem_true in Hr. congruence.
Qed.

Lemma ro_test out1 tail :
  _is_autocast_sub_mod
    (mkGM (phs ++ [call; out1])
       [("submod_1", AModule (mkGM (phs' ++ region ++ tail) []))])
    call
  = OK true.
Proof.
  unfold _is_autocast_sub_mod, get_submodule.
  rewrite (bool_decide_eq_true_2 (op call = call_module) eq_refl).
  cbn [target call seg_call attrs getattr].
  rewrite String.eqb_refl. cbn [mbind result_bind nodes]. rewrite ro_first.
  exact (f_equal OK Henter).
Qed.

Lemma ro_need_replacing : existsb _is_autocast_node (nodes gm) = true.
Proof. rewrite Hnodes. apply existsb_marker_app, enter_marker, Henter. Qed.

(** The values the region reads from outside: the inputs of the graph that
    a node of the region uses. *)
Lemma ro_ins_spec n :
  n ∈ ins ↔ n ∈ phs ∧ ∃ u, u ∈ region ∧ uses (nid n) u = true.
Proof.
  split.
  - intros Hn. split; [exact (ro_ins_phs n Hn)|].
    apply segment_inputs_spec in Hn as (_ & _ & Hu). exact Hu.
  - intros (Hn & u & Hu & Huse). apply segment_inputs_spec.
    split; [apply ro_in_orig; auto|]. split.
    + intros Hc. apply list_elem_of_fmap in Hc as (n' & E & Hn').
      exact (ro_phs_region n n' Hn Hn' E).
    + eauto.
Qed.

(** A value of the region is handed out exactly when the output node uses
    it. *)
Lemma ro_outs_out n :
  n ∈ region →
  existsb (λ u, uses (nid n) u && negb (in_nodes (nid u) region)) orig
  = uses (nid n) out.
Proof.
  intros Hn. rewrite ro_orig, !existsb_app.
  rewrite (existsb_none _ phs).
  2:{ intros u Hu.
      rewrite (wf_no_forward phs (region ++ [out]) u n ro_wf_orig
                 ro_nodup_orig Hu); [reflexivity|].
      apply elem_of_app. left. exact Hn. }
  rewrite (existsb_none _ region).
  2:{ intros u Hu. rewrite (proj2 (in_nodes_true (nid u) region)).
      - apply andb_false_r.
      - apply list_elem_of_fmap. eauto. }
  cbn [orb existsb]. rewrite orb_false_r.
  rewrite (proj2 (in_nodes_false (nid out) region)); [apply andb_true_r|].
  intros Hc. apply list_elem_of_fmap in Hc as (m & E & Hm).
  exact (ro_region_out m Hm (eq_sym E)).
Qed.

Lemma ro_single_outs o :
  o ∈ body → uses (nid o) out = true →
  (∀ n, n ∈ region → nid n ≠ nid o → uses (nid n) out = false) →
  outs = [o].
Proof.
  intros Ho Hused Hrest.
  assert (Hor : o ∈ region)
    by (unfold region; right; apply elem_of_app; left; exact Ho).
  rewrite <- (filter_unique region o ro_nodup_region Hor).
  unfold outs, segment_outputs. apply List.filter_ext_in.
  intros n Hn. apply list_elem_of_In in Hn. rewrite (ro_outs_out n Hn).
  destruct (Nat.eqb_spec (nid n) (nid o)) as [E|Hne].
  - rewrite E. exact Hused.
  - exact (Hrest n Hn Hne).
Qed.

(** *** No value of the region is used after it *)

Section Unused.

Hypothesis (Hdead :
  ∀ n, n ∈ enter :: body ++ [exit] → uses (nid n) out = false).

Let child := mkGM (phs' ++ region ++ []) [].
Let split_gm := mkGM (phs ++ [call; out]) [("submod_1", AModule child)].
Let ga := new_get_attr (fresh_nid (phs ++ [call; out])) "submod_1" enter.
Let child' := mkGM (phs' ++ body ++ []) [].

Lemma un_outs : outs = [].
Proof.
  unfold outs, segment_outputs. apply filter_none, Forall_forall.
  intros o Ho. apply existsb_none. intros u Hu.
  apply ro_in_orig in Hu as [Hu|[Hu|Hu]].
  - rewrite (wf_no_forward phs (region ++ [out]) u o ro_wf_orig
               ro_nodup_orig Hu).
    + reflexivity.
    + apply elem_of_app. left. exact Ho.
  - rewrite (proj2 (in_nodes_true (nid u) region)), andb_false_r;
      [reflexivity|].
    apply list_elem_of_fmap. eauto.
  - subst u. rewrite (Hdead o Ho). reflexivity.
Qed.

Lemma un_split : _split_autocast gm = OK split_gm.
Proof.
  rewrite ro_split. fold outs. rewrite un_outs.
  cbn [extractions outputs_env imap app].
  rewrite (map_node_args_same (env_get []) out)
    by (intros i _; reflexivity).
  rewrite ro_child_nodes. fold outs. rewrite un_outs. reflexivity.
Qed.

Lemma un_scope_body :
  scope_body split_gm call "submod_1" child enter exit.
Proof.
  constructor.
  - cbn [nodes split_gm]. apply elem_of_app. right. left.
  - exact (ro_nodup_split out eq_refl).
  - reflexivity.
  - reflexivity.
  - cbn [attrs split_gm getattr]. rewrite String.eqb_refl. reflexivity.
  - exists []. apply ro_markers. constructor.
  - exact Henter.
  - exact Hexit.
  - exists []. exact Hcloses.
  - apply users_nil_iff. intros n Hn. cbn [nodes child] in Hn.
    rewrite app_nil_r in Hn. exact (ro_exit_unused n Hn).
  - apply users_nil_iff. intros n Hn.
    apply elem_of_remove_node in Hn as [Hn Hne].
    cbn [nodes child] in Hn. rewrite app_nil_r in Hn.
    exact (ro_enter_unused n Hn Hne).
Qed.

Lemma un_no_output : Forall (λ n, op n ≠ output) (nodes child).
Proof.
  cbn [nodes child]. rewrite app_nil_r. apply Forall_app. split.
  - apply Forall_forall. intros n Hn.
    apply list_elem_of_fmap in Hn as (m & -> & _). discriminate.
  - eapply Forall_impl; [exact ro_region_body|]. intros n Hn Ho.
    unfold is_body in Hn. rewrite Ho in Hn. discriminate Hn.
Qed.

Lemma un_call_unused n :
  n ∈ phs ++ [ga; call; out] → uses c n = false.
Proof.
  intros Hn. apply elem_of_app in Hn as [Hn|Hn].
  - apply (fresh_nid_unused orig n Hwf). apply ro_in_orig. auto.
  - apply elem_of_cons in Hn as [->|Hn]; [reflexivity|].
    apply elem_of_cons in Hn as [->|Hn].
    + apply not_uses. intros r Hr E.
      apply ro_call_refs in Hr as (m & Hm & ->).
      exact (ro_phs_not_c m Hm E).
    + apply list_elem_of_singleton in Hn as ->.
      apply (fresh_nid_unused orig out Hwf). apply ro_in_orig. auto.
Qed.

Lemma un_child' : without_markers child enter exit = child'.
Proof.
  unfold without_markers, child'. cbn [nodes attrs child]. f_equal.
  apply ro_remove_markers. intros m Hm. inversion Hm.
Qed.

Lemma un_replace h :
  _replace_with_hop no_hook split_gm call h
  = (h, OK (mkGM (phs ++ [ga; out]) [("submod_1", AModule child')])).
Proof.
  rewrite (replace_with_hop_run no_hook _ _ _ _ _ _ un_scope_body).
  unfold replace_call. rewrite (find_output_node_None _ un_no_output).
  cbn [nodes split_gm]. fold ga.
  rewrite (insert_before_app_skip phs call [out] (nid call) [ga]
             ro_phs_not_c eq_refl).
  unfold mbind, M_bind, lift, erase_node. cbn [app].
  rewrite (proj2 (users_nil_iff (phs ++ [ga; call; out]) (nid call))
             un_call_unused).
  cbn [is_empty]. unfold mret, M_ret. rewrite un_child'. do 2 f_equal.
  f_equal.
  rewrite (remove_node_app phs).
  rewrite (remove_node_keep phs (nid call) ro_phs_not_c). f_equal.
  assert (Hga : nid ga ≠ nid call).
  { assert (Hin : call ∈ phs ++ [call; out])
      by (apply elem_of_app; right; left).
    pose proof (fresh_nid_gt _ _ Hin). simpl. simpl in H. lia. }
  rewrite (remove_node_app [ga] [call; out]).
  rewrite (remove_node_keep [ga])
    by (intros m Hm; apply list_elem_of_singleton in Hm as ->; exact Hga).
  rewrite (remove_node_here call [out] (nid call) eq_refl); [reflexivity|].
  intros m Hm. apply list_elem_of_singleton in Hm as ->. exact ro_out_not_c.
Qed.

Lemma un_visit h :
  visit no_hook split_gm call h
  = (h, OK (mkGM (phs ++ [ga; out]) [("submod_1", AModule child')])).
Proof.
  unfold visit. rewrite (bool_decide_eq_true_2 (op call = call_module) eq_refl).
  assert (Hl : lookup_node (nodes split_gm) (nid call) = Some call).
  { apply lookup_node_app_skip; [exact ro_phs_not_c|reflexivity]. }
  rewrite Hl. unfold _maybe_inline_or_replace_with_hop.
  assert (Ht : _is_autocast_sub_mod split_gm call = OK true)
    by exact (ro_test out []).
  rewrite Ht, bind_lift. apply un_replace.
Qed.

Lemma un_helper h :
  _sequential_split_and_maybe_inline_subgraphs gm None h
  = (h, OK (mkGM (phs ++ [ga; out]) [("submod_1", AModule child')], None)).
Proof.
  unfold _sequential_split_and_maybe_inline_subgraphs.
  rewrite (ro_need_replacing). cbn [negb]. rewrite un_split.
  rewrite bind_lift. unfold mbind at 1, M_bind at 1, mret at 1, M_ret at 1.
  cbn [nodes split_gm].
  erewrite bind_OK; [reflexivity|].
  rewrite foldM_app, foldM_visit_skip.
  - cbn [foldM]. erewrite bind_OK by apply un_visit.
    unfold visit. rewrite Hout.
    rewrite (bool_decide_eq_false_2 (output = call_module)) by discriminate.
    reflexivity.
  - eapply Forall_impl; [exact Hphs|]. intros n Hn. rewrite Hn. discriminate.
Qed.

Lemma un_child'_pass depth h :
  replace_autocast_with_hop_pass (S depth) child' None h
  = (h, OK (child', None)).
Proof.
  apply pass_plain_graph; cbn [nodes child']; rewrite app_nil_r.
  - apply existsb_none. intros n Hn.
    apply elem_of_app in Hn as [Hn|Hn].
    + apply list_elem_of_fmap in Hn as (m & -> & _). reflexivity.
    + exact (proj1 (Forall_forall _ _) ro_quiet_body n Hn).
  - intros n Hn. apply elem_of_app in Hn as [Hn|Hn].
    + apply list_elem_of_fmap in Hn as (m & -> & _). discriminate.
    + rewrite (plain_op n (proj1 (Forall_forall _ _) Hbody n Hn)).
      discriminate.
  - rewrite (lint_from_app [] phs'). apply andb_true_iff. split.
    + apply lint_from_no_refs. intros n r Hn Hr.
      apply list_elem_of_fmap in Hn as (m & -> & _).
      exact (placeholder_refs _ _ Hr).
    + exact ro_body_lint.
Qed.

Lemma un_final_lint : lint_from [] (phs ++ [ga; out]) = true.
Proof.
  destruct ro_lint_parts as (Hp & _ & _ & Ho).
  rewrite lint_from_app, Hp. cbn [andb lint_from].
  apply andb_true_iff. split; [reflexivity|].
  rewrite andb_true_r. apply forallb_forall. intros r Hr.
  apply list_elem_of_In in Hr. apply mem_true. right.
  specialize (Ho r Hr). rewrite fmap_app in Ho.
  apply elem_of_app in Ho as [Ho|Ho].
  - apply elem_of_app. left. apply list_elem_of_In, in_rev.
    rewrite rev_involutive. apply list_elem_of_In, Ho.
  - exfalso. apply list_elem_of_fmap in Ho as (n & -> & Hn).
    pose proof (Hdead n Hn) as Hu. unfold uses in Hu.
    apply mem_true in Hr. congruence.
Qed.

Lemma un_pass depth h :
  replace_autocast_with_hop_pass (S (S depth)) gm None h
  = (h, OK (mkGM (phs ++ [ga; out]) [("submod_1", AModule child')], None)).
Proof.
  remember (S depth) as d eqn:Hd.
  cbn [replace_autocast_with_hop_pass].
  erewrite bind_OK by apply un_helper. cbv beta iota. cbn [nodes].
  erewrite bind_OK.
  2:{ rewrite foldM_app, foldM_descend_skip.
      - cbn [foldM]. erewrite bind_OK.
        + unfold descend. rewrite Hout.
          rewrite (bool_decide_eq_false_2 (output = get_attr))
            by discriminate.
          reflexivity.
        + unfold descend. cbn [op target ga new_get_attr attrs getattr].
          rewrite (bool_decide_eq_true_2 (get_attr = get_attr) eq_refl).
          rewrite String.eqb_refl. subst d.
          erewrite bind_OK by apply un_child'_pass.
          cbn [nodes attrs setattr]. rewrite String.eqb_refl. reflexivity.
      - eapply Forall_impl; [exact Hphs|]. intros n Hn. rewrite Hn.
        discriminate. }
  unfold lift, lint. cbn [nodes]. rewrite un_final_lint. reflexivity.
Qed.

Lemma un_quiet :
  existsb _is_autocast_node (phs ++ [ga; out]) = false.
Proof.
  apply existsb_none. intros n Hn. apply elem_of_app in Hn as [Hn|Hn].
  - apply placeholder_not_marker.
    exact (proj1 (Forall_forall _ _) Hphs n Hn).
  - apply elem_of_cons in Hn as [->|Hn]; [reflexivity|].
    apply list_elem_of_singleton in Hn as ->.
    exact (output_not_marker out Hout).
Qed.

Lemma un_again depth h :
  replace_autocast_with_hop_pass (S (S depth))
    (mkGM (phs ++ [ga; out]) [("submod_1", AModule child')]) None h
  = (h, OK (mkGM (phs ++ [ga; out]) [("submod_1", AModule child')], None)).
Proof.
  remember (S depth) as d eqn:Hd.
  cbn [replace_autocast_with_hop_pass].
  erewrite bind_OK by (apply helper_no_markers, un_quiet). cbv beta iota. cbn [nodes].
  erewrite bind_OK.
  2:{ rewrite foldM_app, foldM_descend_skip.
      - cbn [foldM]. erewrite bind_OK.
        + unfold descend. rewrite Hout.
          rewrite (bool_decide_eq_false_2 (output = get_attr))
            by discriminate.
          reflexivity.
        + unfold descend. cbn [op target ga new_get_attr attrs getattr].
          rewrite (bool_decide_eq_true_2 (get_attr = get_attr) eq_refl).
          rewrite String.eqb_refl. subst d.
          erewrite bind_OK by apply un_child'_pass.
          cbn [nodes attrs setattr]. rewrite String.eqb_refl. reflexivity.
      - eapply Forall_impl; [exact Hphs|]. intros n Hn. rewrite Hn.
        discriminate. }
  unfold lift, lint. cbn [nodes]. rewrite un_final_lint. reflexivity.
Qed.

End Unused.

(** *** One value of the region is used after it *)

Section Single.

Context (o : Node).
Hypothesis (Houts :
  segment_outputs (nodes gm) (enter :: body ++ [exit]) = [o]).
Hypothesis (Ho : o ∈ body).

Let outnode :=
  mkNode (fresh_nid (phs' ++ region)) "output" output (attr "output")
    [ANode (nid o)] ∅.
Let child := mkGM (phs' ++ region ++ [outnode]) [].
Let out1 := map_node_args (env_get [(nid o, c)]) out.
Let split_gm := mkGM (phs ++ [call; out1]) [("submod_1", AModule child)].
Let ga := new_get_attr (fresh_nid (phs ++ [call; out1])) "submod_1" enter.
Let graph1 := insert_before (phs ++ [call; out1]) (nid call) [ga].
Let hop := single_hop (fresh_nid graph1) enter ga call o.
Let out2 := map_node_args (subst1 (nid o) (nid hop)) out.
Let child' := mkGM (phs' ++ body ++ [outnode]) [].

Lemma si_outs : outs = [o].
Proof. exact Houts. Qed.

Lemma si_o_region : o ∈ region.
Proof. unfold region. right. apply elem_of_app. left. exact Ho. Qed.

Lemma si_o_ids : nid o ≠ nid enter ∧ nid o ≠ nid exit.
Proof.
  pose proof ro_nodup_region as Hr.
  unfold region in Hr. rewrite fmap_cons, fmap_app in Hr.
  apply NoDup_cons in Hr as [He Hr].
  apply NoDup_app in Hr as (_ & Hbx & _). split.
  - intros E. apply He. rewrite <- E. apply elem_of_app. left.
    apply list_elem_of_fmap. eauto.
  - intros E. apply (Hbx (nid o)); [apply list_elem_of_fmap; eauto|].
    rewrite E. left.
Qed.

(** The output node reads inputs of the graph and the one value the region
    hands out. *)
Lemma si_out_refs r :
  r ∈ node_refs out → r ∈ nid <$> phs ∨ r = nid o.
Proof.
  intros Hr. destruct ro_lint_parts as (_ & _ & _ & Hrefs).
  specialize (Hrefs r Hr). rewrite fmap_app in Hrefs.
  apply elem_of_app in Hrefs as [Hin|Hin]; [left; exact Hin|right].
  apply list_elem_of_fmap in Hin as (n & -> & Hn).
  assert (Hn' : n ∈ outs).
  { apply segment_outputs_spec. split; [exact Hn|]. exists out.
    split; [apply ro_in_orig; auto|]. split.
    - unfold uses. apply mem_true. exact Hr.
    - intros Hc. apply list_elem_of_fmap in Hc as (m & E & Hm).
      exact (ro_region_out m Hm (eq_sym E)). }
  rewrite si_outs in Hn'. apply list_elem_of_singleton in Hn' as ->.
  reflexivity.
Qed.

Lemma si_split : _split_autocast gm = OK split_gm.
Proof.
  rewrite ro_split, ro_child_nodes. fold outs. rewrite si_outs. reflexivity.
Qed.

Lemma si_outnode_refs r : r ∈ node_refs outnode → r = nid o.
Proof.
  unfold node_refs. cbn [args outnode List.map arg_nodes concat app].
  intros Hr. apply list_elem_of_singleton in Hr. exact Hr.
Qed.

Lemma si_scope_body :
  scope_body split_gm call "submod_1" child enter exit.
Proof.
  constructor.
  - cbn [nodes split_gm]. apply elem_of_app. right. left.
  - exact (ro_nodup_split out1 eq_refl).
  - reflexivity.
  - reflexivity.
  - cbn [attrs split_gm getattr]. rewrite String.eqb_refl. reflexivity.
  - exists []. apply ro_markers. constructor; [reflexivity|constructor].
  - exact Henter.
  - exact Hexit.
  - exists []. exact Hcloses.
  - apply users_nil_iff. intros n Hn. cbn [nodes child] in Hn.
    rewrite app_assoc in Hn. apply elem_of_app in Hn as [Hn|Hn].
    + exact (ro_exit_unused n Hn).
    + apply list_elem_of_singleton in Hn as ->. apply not_uses.
      intros r Hr. rewrite (si_outnode_refs r Hr). apply si_o_ids.
  - apply users_nil_iff. intros n Hn.
    apply elem_of_remove_node in Hn as [Hn Hne].
    cbn [nodes child] in Hn. rewrite app_assoc in Hn.
    apply elem_of_app in Hn as [Hn|Hn].
    + exact (ro_enter_unused n Hn Hne).
    + apply list_elem_of_singleton in Hn as ->. apply not_uses.
      intros r Hr. rewrite (si_outnode_refs r Hr). apply si_o_ids.
Qed.

Lemma si_resolve : resolve (nodes child) (ANode (nid o)) = OK o.
Proof.
  unfold resolve. cbn [nodes child].
  rewrite lookup_node_skip
    by (intros m Hm; exact (ro_phs'_region m o Hm si_o_region)).
  rewrite (lookup_node_first region [outnode] o ro_nodup_region si_o_region).
  reflexivity.
Qed.

Lemma si_ga_id : nid ga ≠ nid call.
Proof.
  assert (Hin : call ∈ phs ++ [call; out1])
    by (apply elem_of_app; right; left).
  pose proof (fresh_nid_gt _ _ Hin) as Hlt. simpl. simpl in Hlt. lia.
Qed.

Lemma si_hop_id : nid hop ≠ nid call.
Proof.
  assert (Hin : call ∈ graph1).
  { apply elem_of_insert_before. right. apply elem_of_app. right. left. }
  pose proof (fresh_nid_gt _ _ Hin) as Hlt. simpl. simpl in Hlt. lia.
Qed.

Lemma si_hop_new : nid hop ∉ nid <$> nodes gm.
Proof.
  intros Hin. apply list_elem_of_fmap in Hin as (m & E & Hm).
  pose proof (ro_c_fresh m Hm) as H1.
  assert (Hin : call ∈ graph1).
  { apply elem_of_insert_before. right. apply elem_of_app. right. left. }
  pose proof (fresh_nid_gt _ _ Hin) as H2. simpl in E, H2. unfold c in H1.
  fold orig in H2. lia.
Qed.

Lemma si_ga_hop : nid ga ≠ nid hop.
Proof.
  assert (Hin : ga ∈ graph1) by (apply elem_of_insert_before; left; left).
  pose proof (fresh_nid_gt _ _ Hin) as H2. simpl. simpl in H2. lia.
Qed.

Lemma si_hop_args :
  args hop = ATuple (args enter) :: ANode (nid ga) :: (ANode ∘ nid <$> ins).
Proof.
  cbn [args hop single_hop]. unfold hop_args, call.
  rewrite seg_call_args. do 2 f_equal.
  rewrite <- !list_fmap_compose. apply list_fmap_ext.
  intros i n _. cbn [compose]. rewrite env_get_nil. reflexivity.
Qed.

Lemma si_hop_refs r :
  r ∈ node_refs hop → r ∈ nid <$> phs ∨ r = nid ga.
Proof.
  unfold node_refs, hop, single_hop, hop_args.
  cbn [args List.map concat arg_nodes].
  fold (node_refs enter). intros Hr.
  apply elem_of_app in Hr as [Hr|Hr].
  - left. destruct ro_lint_parts as (_ & He & _). exact (He r Hr).
  - apply elem_of_cons in Hr as [Hr|Hr]; [right; exact Hr|left].
    fold (node_refs call) in Hr.
    apply ro_call_refs in Hr as (m & Hm & ->).
    apply list_elem_of_fmap. eauto.
Qed.

Lemma si_hop_same : map_node_args (subst1 c (nid hop)) hop = hop.
Proof.
  apply map_node_args_same. intros i Hi. unfold subst1.
  destruct (Nat.eqb_spec i c) as [->|_]; [exfalso|reflexivity].
  apply si_hop_refs in Hi as [Hi|Hi].
  - apply list_elem_of_fmap in Hi as (m & E & Hm).
    exact (ro_phs_not_c m Hm (eq_sym E)).
  - apply si_ga_id. symmetry. exact Hi.
Qed.

Lemma si_phs_same x : map_node_args (subst1 c x) <$> phs = phs.
Proof.
  rewrite <- (list_fmap_id phs) at 2. apply Forall_fmap_ext, Forall_forall.
  intros n Hn. unfold id. apply map_node_args_same. intros i Hi.
  unfold subst1.
  destruct (Nat.eqb_spec i c) as [->|_]; [exfalso|reflexivity].
  assert (Hin : n ∈ orig) by (apply ro_in_orig; auto).
  assert (Hu : uses c n = false) by exact (fresh_nid_unused orig n Hwf Hin).
  unfold uses in Hu. apply mem_true in Hi. congruence.
Qed.

Lemma si_out_same :
  map_node_args (subst1 c (nid hop)) out1 = out2.
Proof.
  unfold out1, out2. rewrite map_node_args_compose.
  apply map_node_args_ext. intros i Hi. unfold compose.
  rewrite env_get_cons, env_get_nil. unfold subst1 at 2.
  rewrite (Nat.eqb_sym i (nid o)).
  destruct (Nat.eqb_spec (nid o) i) as [_|Hne].
  - unfold subst1. rewrite Nat.eqb_refl. reflexivity.
  - unfold subst1. destruct (Nat.eqb_spec i c) as [->|_]; [exfalso|reflexivity].
    assert (Hin : out ∈ orig) by (apply ro_in_orig; auto).
    assert (Hu : uses c out = false)
      by exact (fresh_nid_unused orig out Hwf Hin).
    unfold uses in Hu. apply mem_true in Hi. congruence.
Qed.

Lemma si_child' : without_markers child enter exit = child'.
Proof.
  unfold without_markers, child'. cbn [nodes attrs child]. f_equal.
  apply ro_remove_markers. intros m Hm.
  apply list_elem_of_singleton in Hm as ->.
  assert (Hlt : ∀ n, n ∈ region → nid n ≠ nid outnode).
  { intros n Hn E.
    assert (Hin : n ∈ phs' ++ region) by (apply elem_of_app; right; exact Hn).
    pose proof (fresh_nid_gt _ _ Hin) as Hlt. simpl in E. lia. }
  split; apply not_eq_sym, Hlt.
  - left.
  - unfold region. rewrite app_comm_cons. apply elem_of_app. right. left.
Qed.

Lemma si_replace h :
  _replace_with_hop no_hook split_gm call h
  = (h, OK (mkGM (phs ++ [ga; hop; out2]) [("submod_1", AModule child')])).
Proof.
  rewrite (replace_with_hop_run no_hook _ _ _ _ _ _ si_scope_body).
  cbn [nodes split_gm]. fold ga graph1.
  unfold replace_call.
  rewrite (find_output_node_Some (nodes child) outnode).
  2:{ cbn [nodes child]. rewrite app_assoc. apply last_snoc. }
  2:{ reflexivity. }
  unfold mbind, M_bind, lift, args0. cbn [args outnode length].
  rewrite (bool_decide_eq_true_2 (1 = 1) eq_refl). cbn [assert].
  rewrite si_resolve. fold hop.
  rewrite node_replace_no_hook. unfold mret, M_ret.
  rewrite si_child'. do 2 f_equal. f_equal.
  unfold graph1.
  rewrite (exchange_graph call ga hop phs [out1]
             (ro_nodup_split out1 eq_refl) si_ga_id si_hop_id eq_refl).
  change (nid call) with c.
  rewrite (si_phs_same (nid hop)), si_hop_same.
  cbn [fmap list_fmap]. rewrite si_out_same. reflexivity.
Qed.

Lemma si_visit h :
  visit no_hook split_gm call h
  = (h, OK (mkGM (phs ++ [ga; hop; out2]) [("submod_1", AModule child')])).
Proof.
  unfold visit. rewrite (bool_decide_eq_true_2 (op call = call_module) eq_refl).
  assert (Hl : lookup_node (nodes split_gm) (nid call) = Some call).
  { apply lookup_node_app_skip; [exact ro_phs_not_c|reflexivity]. }
  rewrite Hl. unfold _maybe_inline_or_replace_with_hop.
  assert (Ht : _is_autocast_sub_mod split_gm call = OK true)
    by exact (ro_test out1 [outnode]).
  rewrite Ht, bind_lift. apply si_replace.
Qed.

Lemma si_helper h :
  _sequential_split_and_maybe_inline_subgraphs gm None h
  = (h, OK (mkGM (phs ++ [ga; hop; out2])
              [("submod_1", AModule child')], None)).
Proof.
  unfold _sequential_split_and_maybe_inline_subgraphs.
  rewrite (ro_need_replacing). cbn [negb]. rewrite si_split.
  rewrite bind_lift. unfold mbind at 1, M_bind at 1, mret at 1, M_ret at 1.
  cbn [nodes split_gm].
  erewrite bind_OK; [reflexivity|].
  rewrite foldM_app, foldM_visit_skip.
  - cbn [foldM]. erewrite bind_OK by apply si_visit.
    unfold visit.
    assert (Hop1 : op out1 = output) by exact Hout. rewrite Hop1.
    rewrite (bool_decide_eq_false_2 (output = call_module)) by discriminate.
    reflexivity.
  - eapply Forall_impl; [exact Hphs|]. intros n Hn. rewrite Hn. discriminate.
Qed.

Lemma si_child'_pass depth h :
  replace_autocast_with_hop_pass (S depth) child' None h
  = (h, OK (child', None)).
Proof.
  apply pass_plain_graph; cbn [nodes child'].
  - apply existsb_none. intros n Hn.
    apply elem_of_app in Hn as [Hn|Hn].
    + apply list_elem_of_fmap in Hn as (m & -> & _). reflexivity.
    + apply elem_of_app in Hn as [Hn|Hn].
      * exact (proj1 (Forall_forall _ _) ro_quiet_body n Hn).
      * apply list_elem_of_singleton in Hn as ->. reflexivity.
  - intros n Hn. apply elem_of_app in Hn as [Hn|Hn].
    + apply list_elem_of_fmap in Hn as (m & -> & _). discriminate.
    + apply elem_of_app in Hn as [Hn|Hn].
      * rewrite (plain_op n (proj1 (Forall_forall _ _) Hbody n Hn)).
        discriminate.
      * apply list_elem_of_singleton in Hn as ->. discriminate.
  - rewrite (lint_from_app [] phs'). apply andb_true_iff. split.
    + apply lint_from_no_refs. intros n r Hn Hr.
      apply list_elem_of_fmap in Hn as (m & -> & _).
      exact (placeholder_refs _ _ Hr).
    + rewrite lint_from_app, ro_body_lint. cbn [andb].
      apply lint_from_singleton. intros r Hr.
      rewrite (si_outnode_refs r Hr). apply elem_of_rev_app. left.
      apply list_elem_of_fmap. eauto.
Qed.

Lemma si_final_lint : lint_from [] (phs ++ [ga; hop; out2]) = true.
Proof.
  destruct ro_lint_parts as (Hp & _).
  rewrite lint_from_app, Hp. cbn [andb lint_from].
  apply andb_true_iff. split; [reflexivity|].
  apply andb_true_iff. split.
  - apply forallb_forall. intros r Hr. apply list_elem_of_In in Hr.
    apply mem_true. apply si_hop_refs in Hr as [Hr|Hr].
    + right. apply elem_of_rev_app. left. exact Hr.
    + rewrite Hr. left.
  - rewrite andb_true_r. apply forallb_forall. intros r Hr.
    apply list_elem_of_In in Hr. apply mem_true.
    unfold out2 in Hr. rewrite node_refs_map in Hr.
    apply list_elem_of_In, in_map_iff in Hr as (r0 & <- & Hr0).
    apply list_elem_of_In, si_out_refs in Hr0 as [Hr0| ->].
    + unfold subst1. destruct (Nat.eqb_spec r0 (nid o)) as [_|_]; [left|].
      right. right. apply elem_of_rev_app. left. exact Hr0.
    + unfold subst1. rewrite Nat.eqb_refl. left.
Qed.

Lemma si_pass depth h :
  replace_autocast_with_hop_pass (S (S depth)) gm None h
  = (h, OK (mkGM (phs ++ [ga; hop; out2])
              [("submod_1", AModule child')], None)).
Proof.
  remember (S depth) as d eqn:Hd.
  cbn [replace_autocast_with_hop_pass].
  erewrite bind_OK by apply si_helper. cbv beta iota. cbn [nodes].
  erewrite bind_OK.
  2:{ rewrite foldM_app, foldM_descend_skip.
      - cbn [foldM]. erewrite bind_OK.
        + erewrite bind_OK.
          * unfold descend.
            assert (Hop2 : op out2 = output) by exact Hout. rewrite Hop2.
            rewrite (bool_decide_eq_false_2 (output = get_attr))
              by discriminate.
            reflexivity.
          * unfold descend.
            assert (Hoph : op hop = call_function) by reflexivity.
            rewrite Hoph.
            rewrite (bool_decide_eq_false_2 (call_function = get_attr))
              by discriminate.
            reflexivity.
        + unfold descend. cbn [op target ga new_get_attr attrs getattr].
          rewrite (bool_decide_eq_true_2 (get_attr = get_attr) eq_refl).
          rewrite String.eqb_refl. subst d.
          erewrite bind_OK by apply si_child'_pass.
          cbn [nodes attrs setattr]. rewrite String.eqb_refl. reflexivity.
      - eapply Forall_impl; [exact Hphs|]. intros n Hn. rewrite Hn.
        discriminate. }
  unfold lift, lint. cbn [nodes]. rewrite si_final_lint. reflexivity.
Qed.

Lemma si_quiet :
  existsb _is_autocast_node (phs ++ [ga; hop; out2]) = false.
Proof.
  apply existsb_none. intros n Hn. apply elem_of_app in Hn as [Hn|Hn].
  - apply placeholder_not_marker.
    exact (proj1 (Forall_forall _ _) Hphs n Hn).
  - apply elem_of_cons in Hn as [->|Hn]; [reflexivity|].
    apply elem_of_cons in Hn as [->|Hn]; [reflexivity|].
    apply list_elem_of_singleton in Hn as ->.
    exact (output_not_marker out2 Hout).
Qed.

Lemma si_again depth h :
  replace_autocast_with_hop_pass (S (S depth))
    (mkGM (phs ++ [ga; hop; out2]) [("submod_1", AModule child')]) None h
  = (h, OK (mkGM (phs ++ [ga; hop; out2])
              [("submod_1", AModule child')], None)).
Proof.
  remember (S depth) as d eqn:Hd.
  cbn [replace_autocast_with_hop_pass].
  erewrite bind_OK by (apply helper_no_markers, si_quiet). cbv beta iota. cbn [nodes].
  erewrite bind_OK.
  2:{ rewrite foldM_app, foldM_descend_skip.
      - cbn [foldM]. erewrite bind_OK.
        + erewrite bind_OK.
          * unfold descend.
            assert (Hop2 : op out2 = output) by exact Hout. rewrite Hop2.
            rewrite (bool_decide_eq_false_2 (output = get_attr))
              by discriminate.
            reflexivity.
          * unfold descend.
            assert (Hoph : op hop = call_function) by reflexivity.
            rewrite Hoph.
            rewrite (bool_decide_eq_false_2 (call_function = get_attr))
              by discriminate.
            reflexivity.
        + unfold descend. cbn [op target ga new_get_attr attrs getattr].
          rewrite (bool_decide_eq_true_2 (get_attr = get_attr) eq_refl).
          rewrite String.eqb_refl. subst d.
          erewrite bind_OK by apply si_child'_pass.
          cbn [nodes attrs setattr]. rewrite String.eqb_refl. reflexivity.
      - eapply Forall_impl; [exact Hphs|]. intros n Hn. rewrite Hn.
        discriminate. }
  unfold lift, lint. cbn [nodes]. rewrite si_final_lint. reflexivity.
Qed.

End Single.


End RegionOnly.

Ltac region_only_concrete :=
  constructor;
  [ reflexivity | reflexivity | repeat constructor | reflexivity
  | repeat constructor | reflexivity | reflexivity | reflexivity
  | apply (bool_decide_unpack _); reflexivity
  | reflexivity
  | let n := fresh "n" in let Hn := fresh "Hn" in
    intros n Hn; apply list_elem_of_In in Hn; simpl in Hn;
    repeat (destruct Hn as [<-|Hn]; [reflexivity|]);
    destruct Hn ].

(** X22: a region none of whose values is used, through the whole pass.
    For a well-formed graph of inputs, an Enter, ordinary calls, the Exit
    closing the Enter, and an output node that uses no node of the region,
    the pass called without a signature returns and leaves the heap alone.
    No region operation is emitted: the graph it returns is the inputs, one
    [get_attr] node, and the output node as it was; the calls of the scope
    body are gone from it and are kept only in the child graph module that
    [get_attr] node names, after placeholders for the inputs the region
    reads. *)
Theorem X22_unused_region_dropped (gm : GraphModule) (phs : list Node)
    (enter : Node) (body : list Node) (exit : Node) (out : Node) :
  region_only gm phs enter body exit out →
  (∀ n, n ∈ enter :: body ++ [exit] → uses (nid n) out = false) →
  ∀ depth h, ∃ gm' ga t child ins,
    replace_autocast_with_hop_pass (S (S depth)) gm None h
    = (h, OK (gm', None))
    ∧ nodes gm' = phs ++ [ga; out]
    ∧ op ga = get_attr ∧ target ga = attr t ∧ args ga = []
    ∧ count is_hop (nodes gm') = 0
    ∧ attrs gm' = [(t, AModule child)]
    ∧ nodes child = (as_placeholder <$> ins) ++ body
    ∧ ∀ n, n ∈ ins
           ↔ n ∈ phs ∧ ∃ u, u ∈ enter :: body ++ [exit]
                            ∧ uses (nid n) u = true.
Proof.
  intros RO Hdead depth h.
  eexists. eexists. exists "submod_1". eexists.
  exists (segment_inputs (nodes gm) (enter :: body ++ [exit])).
  split; [exact (un_pass gm phs enter body exit out RO Hdead depth h)|].
  split; [reflexivity|]. split; [reflexivity|]. split; [reflexivity|].
  split; [reflexivity|]. split.
  { cbn [nodes]. rewrite count_app, (count_none is_hop phs).
    - unfold count. cbn [List.filter]. unfold is_hop at 1.
      cbn [op new_get_attr]. unfold is_hop.
      rewrite (ro_out _ _ _ _ _ _ RO). reflexivity.
    - intros n Hn. unfold is_hop.
      rewrite (proj1 (Forall_forall _ _) (ro_phs _ _ _ _ _ _ RO) n Hn).
      reflexivity. }
  split; [reflexivity|]. split.
  - cbn [nodes]. rewrite app_nil_r. reflexivity.
  - exact (ro_ins_spec gm phs enter body exit out RO).
Qed.

Lemma X22_witness :
  ∃ gm' ga,
    replace_autocast_with_hop_pass 2
      (mkGM [input 0 "p"; call 1 "e1" _enter_autocast [AStr "cuda"];
             call 2 "c" (fn "g") [ANode 0];
             call 3 "x1" _exit_autocast [ANode 1];
             ret 4 (ATuple [ANode 0])] []) None []
    = ([], OK (gm', None))
    ∧ nodes gm' = [input 0 "p"; ga; ret 4 (ATuple [ANode 0])]
    ∧ op ga = get_attr.
Proof.
  destruct (X22_unused_region_dropped
              (mkGM [input 0 "p"; call 1 "e1" _enter_autocast [AStr "cuda"];
                     call 2 "c" (fn "g") [ANode 0];
                     call 3 "x1" _exit_autocast [ANode 1];
                     ret 4 (ATuple [ANode 0])] [])
              [input 0 "p"] (call 1 "e1" _enter_autocast [AStr "cuda"])
              [call 2 "c" (fn "g") [ANode 0]]
              (call 3 "x1" _exit_autocast [ANode 1])
              (ret 4 (ATuple [ANode 0])))
    with (depth := 0) (h := ([] : heap))
    as (gm' & ga & t & child & ins & Hrun & Hn & Hop & _).
  - region_only_concrete.
  - intros n Hn. apply list_elem_of_In in Hn. simpl in Hn.
    repeat (destruct Hn as [<-|Hn]; [reflexivity|]). destruct Hn.
  - exists gm', ga. split; [exact Hrun|]. split; [exact Hn|exact Hop].
Defined.

(** X23: a region one of whose values is used, through the whole pass.
    For a well-formed graph of inputs, an Enter, ordinary calls, the Exit
    closing the Enter, and an output node that uses exactly one node [o] of
    the region, a call of the scope body, the pass called without a
    signature returns and leaves the heap alone.  In the graph it returns
    the region is two nodes, a [get_attr] node and one region operation
    that carries the metadata of [o]; every reference of the output node to
    [o] is a reference to the region operation, and nothing else of the
    output node is changed.  The operands of the region operation are the
    Enter's arguments as one tuple, the [get_attr] node, and the inputs the
    region reads, in the order of the child's placeholders.  The child
    holds these placeholders, the calls of the scope body without the two
    markers, and an output node returning [o]. *)
Theorem X23_single_value_region (gm : GraphModule) (phs : list Node)
    (enter : Node) (body : list Node) (exit : Node) (out : Node)
    (o : Node) :
  region_only gm phs enter body exit out →
  o ∈ body → uses (nid o) out = true →
  (∀ n, n ∈ enter :: body ++ [exit] →
        nid n ≠ nid o → uses (nid n) out = false) →
  ∀ depth h, ∃ gm' ga hop t child ins ret,
    replace_autocast_with_hop_pass (S (S depth)) gm None h
    = (h, OK (gm', None))
    ∧ nodes gm'
      = phs ++ [ga; hop; map_node_args (subst1 (nid o) (nid hop)) out]
    ∧ op ga = get_attr ∧ target ga = attr t ∧ args ga = []
    ∧ is_hop hop = true ∧ meta hop = meta o
    ∧ args hop
      = ATuple (args enter) :: ANode (nid ga) :: (ANode ∘ nid <$> ins)
    ∧ (nid hop ∉ nid <$> nodes gm) ∧ nid ga ≠ nid hop
    ∧ attrs gm' = [(t, AModule child)]
    ∧ nodes child = (as_placeholder <$> ins) ++ body ++ [ret]
    ∧ op ret = output ∧ args ret = [ANode (nid o)]
    ∧ ∀ n, n ∈ ins
           ↔ n ∈ phs ∧ ∃ u, u ∈ enter :: body ++ [exit]
                            ∧ uses (nid n) u = true.
Proof.
  intros RO Ho Hused Hrest depth h.
  pose proof (ro_single_outs gm phs enter body exit out RO o Ho Hused Hrest)
    as Houts.
  eexists. eexists. eexists. exists "submod_1". eexists.
  exists (segment_inputs (nodes gm) (enter :: body ++ [exit])). eexists.
  split; [exact (si_pass gm phs enter body exit out RO o Houts Ho depth h)|].
  cbn [nodes attrs].
  split; [reflexivity|]. split; [reflexivity|]. split; [reflexivity|].
  split; [reflexivity|]. split; [reflexivity|]. split; [reflexivity|].
  split; [exact (si_hop_args gm phs enter body exit out o)|].
  split; [exact (si_hop_new gm phs enter body exit out o)|].
  split; [exact (si_ga_hop gm phs enter body exit out o)|].
  split; [reflexivity|]. split; [reflexivity|]. split; [reflexivity|].
  split; [reflexivity|].
  exact (ro_ins_spec gm phs enter body exit out RO).
Qed.

Lemma X23_witness :
  ∃ gm' ga hop,
    replace_autocast_with_hop_pass 2
      (mkGM [input 0 "p"; call 1 "e1" _enter_autocast [AStr "cuda"];
             call 2 "c" (fn "g") [ANode 0];
             call 3 "x1" _exit_autocast [ANode 1];
             ret 4 (ATuple [ANode 2; ANode 0])] []) None []
    = ([], OK (gm', None))
    ∧ nodes gm'
      = [input 0 "p"; ga; hop; ret 4 (ATuple [ANode (nid hop); ANode 0])]
    ∧ is_hop hop = true ∧ meta hop = {[ "val" := MOpaque "c" ]}.
Proof.
  destruct (X23_single_value_region
              (mkGM [input 0 "p"; call 1 "e1" _enter_autocast [AStr "cuda"];
                     call 2 "c" (fn "g") [ANode 0];
                     call 3 "x1" _exit_autocast [ANode 1];
                     ret 4 (ATuple [ANode 2; ANode 0])] [])
              [input 0 "p"] (call 1 "e1" _enter_autocast [AStr "cuda"])
              [call 2 "c" (fn "g") [ANode 0]]
              (call 3 "x1" _exit_autocast [ANode 1])
              (ret 4 (ATuple [ANode 2; ANode 0]))
              (call 2 "c" (fn "g") [ANode 0]))
    with (depth := 0) (h := ([] : heap))
    as (gm' & ga & hop & t & child & ins & r & Hrun & Hn & _ & _ & _ & Hhop
        & Hmeta & _).
  - region_only_concrete.
  - left.
  - reflexivity.
  - intros n Hn Hne. apply list_elem_of_In in Hn. simpl in Hn.
    repeat (destruct Hn as [<-|Hn];
            [first [reflexivity | exfalso; apply Hne; reflexivity]|]).
    destruct Hn.
  - exists gm', ga, hop. split; [exact Hrun|]. split.
    + rewrite Hn. reflexivity.
    + split; [exact Hhop|exact Hmeta].
Defined.

(** X24: the pass is idempotent on a graph that is one region of which the
    output node uses at most one value.  For a well-formed graph of inputs,
    an Enter, ordinary calls, the Exit closing the Enter, and an output
    node that uses neither marker and at most one call of the scope body,
    the pass returns a graph on which a second run, at any depth that lets
    it enter the child and from any heap, returns that graph again and
    leaves the heap alone. *)
Theorem X24_region_only_idempotent (gm : GraphModule) (phs : list Node)
    (enter : Node) (body : list Node) (exit : Node) (out : Node) :
  region_only gm phs enter body exit out →
  uses (nid enter) out = false → uses (nid exit) out = false →
  (∀ n m, n ∈ body → m ∈ body →
          uses (nid n) out = true → uses (nid m) out = true →
          nid n = nid m) →
  ∀ depth h, ∃ gm',
    replace_autocast_with_hop_pass (S (S depth)) gm None h
    = (h, OK (gm', None))
    ∧ ∀ depth' h',
        replace_autocast_with_hop_pass (S (S depth')) gm' None h'
        = (h', OK (gm', None)).
Proof.
  intros RO He Hx Hone depth h.
  destruct (existsb (λ n, uses (nid n) out) body) eqn:E.
  - apply existsb_exists in E as (o & Ho & Hused).
    apply list_elem_of_In in Ho.
    assert (Hrest : ∀ n, n ∈ enter :: body ++ [exit] →
                         nid n ≠ nid o → uses (nid n) out = false).
    { intros n Hn Hne. apply elem_of_cons in Hn as [->|Hn]; [exact He|].
      apply elem_of_app in Hn as [Hn|Hn].
      - destruct (uses (nid n) out) eqn:Hu; [exfalso|reflexivity].
        exact (Hne (Hone n o Hn Ho Hu Hused)).
      - apply list_elem_of_singleton in Hn as ->. exact Hx. }
    pose proof (ro_single_outs gm phs enter body exit out RO o Ho Hused
                  Hrest) as Houts.
    eexists. split.
    + exact (si_pass gm phs enter body exit out RO o Houts Ho depth h).
    + exact (si_again gm phs enter body exit out RO o Houts Ho).
  - assert (Hdead : ∀ n, n ∈ enter :: body ++ [exit] →
                         uses (nid n) out = false).
    { intros n Hn. apply elem_of_cons in Hn as [->|Hn]; [exact He|].
      apply elem_of_app in Hn as [Hn|Hn].
      - destruct (uses (nid n) out) eqn:Hu; [exfalso|reflexivity].
        assert (Hex : existsb (λ n, uses (nid n) out) body = true).
        { apply existsb_exists. exists n.
          split; [apply list_elem_of_In, Hn|exact Hu]. }
        congruence.
      - apply list_elem_of_singleton in Hn as ->. exact Hx. }
    eexists. split.
    + exact (un_pass gm phs enter body exit out RO Hdead depth h).
    + exact (un_again gm phs enter body exit out RO Hdead).
Qed.

Lemma X24_witness :
  ∃ gm',
    replace_autocast_with_hop_pass 2
      (mkGM [input 0 "p"; call 1 "e1" _enter_autocast [AStr "cuda"];
             call 2 "c" (fn "g") [ANode 0];
             call 3 "x1" _exit_autocast [ANode 1];
             ret 4 (ATuple [ANode 2; ANode 0])] []) None []
    = ([], OK (gm', None))
    ∧ ∀ depth' h',
        replace_autocast_with_hop_pass (S (S depth')) gm' None h'
        = (h', OK (gm', None)).
Proof.
  apply (X24_region_only_idempotent
           (mkGM [input 0 "p"; call 1 "e1" _enter_autocast [AStr "cuda"];
                  call 2 "c" (fn "g") [ANode 0];
                  call 3 "x1" _exit_autocast [ANode 1];
                  ret 4 (ATuple [ANode 2; ANode 0])] [])
           [input 0 "p"] (call 1 "e1" _enter_autocast [AStr "cuda"])
           [call 2 "c" (fn "g") [ANode 0]]
           (call 3 "x1" _exit_autocast [ANode 1])
           (ret 4 (ATuple [ANode 2; ANode 0]))).
  - region_only_concrete.
  - reflexivity.
  - reflexivity.
  - intros n m Hn Hm _ _.
    apply list_elem_of_singleton in Hn as ->.
    apply list_elem_of_singleton in Hm as ->. reflexivity.
Defined.
